(** * Stock-market game: registry, company records and the trade network

    A shallow embedding of [registry.py], [city.py], [company.py],
    [map.py] and [world_map.py].

    Conventions of the embedding.
    - Python [int] is [Z].  Python [float] is an IEEE 754 binary64 number,
      a [spec_float] of the standard library with precision 53 and maximal
      exponent 1024: sums, products and quotients are rounded to nearest
      even, and a conversion or a division of integers whose result is too
      large for a float raises [OverflowError].  A value that may be either
      is a [Py.num].
    - A Python [dict] that is iterated is an association list in insertion
      order; the dictionaries private to the path search, which are only
      looked up, are [gmap]s.
    - A Python exception is a constructor of [Py.exn] and a function that
      may raise returns a sum.
    - [networkx] and [heapq] are libraries: the parts of [nx.Graph],
      [nx.subgraph_view], [nx.shortest_path] and [heapq] that [map.py]
      reaches are embedded from the libraries' code (networkx 3.x,
      CPython 3). *)

From Stdlib Require Import ZArith QArith Lqa Lia List Bool Permutation Arith.
From Stdlib Require Import Floats.SpecFloat.
From stdpp Require Import gmap strings list.

#[local] Unset Default Proof Using.
#[local] Open Scope Z_scope.

(** ** Insertion-ordered dictionaries *)

Module Dict.
Section Dict.
Context {K V : Type} (eqb : K -> K -> bool).

(** [d.get(k)] *)
Fixpoint get (k : K) (d : list (K * V)) : option V :=
  match d with
  | [] => None
  | (k', v) :: d' => if eqb k k' then Some v else get k d'
  end.

(** [k in d] *)
Definition mem (k : K) (d : list (K * V)) : bool :=
  match get k d with Some _ => true | None => false end.

(** [d[k] = v]: an existing key keeps its position, a new key goes last. *)
Fixpoint set (k : K) (v : V) (d : list (K * V)) : list (K * V) :=
  match d with
  | [] => [(k, v)]
  | (k', v') :: d' =>
      if eqb k k' then (k', v) :: d' else (k', v') :: set k v d'
  end.

Definition keys (d : list (K * V)) : list K := map fst d.
Definition values (d : list (K * V)) : list V := map snd d.
End Dict.
End Dict.

(** ** registry.py *)

Module Registry.

(** The Python values that meet in the registry: company ids, names and
    tickers, and the [(name, ticker)] tuples stored as dictionary values. *)
Inductive pyval : Type :=
| PInt (z : Z)
| PStr (s : string)
| PTuple (a b : pyval).

(** Python's [==] on these values: values of different types are unequal. *)
Fixpoint py_eqb (x y : pyval) : bool :=
  match x, y with
  | PInt a, PInt b => Z.eqb a b
  | PStr a, PStr b => String.eqb a b
  | PTuple a1 a2, PTuple b1 b2 => py_eqb a1 b1 && py_eqb a2 b2
  | _, _ => false
  end.

(** [self.registry] is [{company_id: (name, ticker)}]. *)
Record t : Type := mk {
  registry : list (pyval * pyval);
  next_company_id : Z
}.

(** [Registry.__init__] *)
Definition init : t := {| registry := []; next_company_id := 1 |}.

(** [x in d.values()] *)
Definition in_values (x : pyval) (d : list (pyval * pyval)) : bool :=
  existsb (py_eqb x) (Dict.values d).

(** [Registry.register_company]: the new state and the returned value
    ([None] is Python's [None]). *)
Definition register_company (r : t) (name ticker : string) : t * option Z :=
  if Dict.mem py_eqb (PStr name) (registry r)
     || in_values (PStr ticker) (registry r)
  then (r, None)
  else
    let company_id := next_company_id r in
    ({| registry :=
          Dict.set py_eqb (PInt company_id)
                   (PTuple (PStr name) (PStr ticker)) (registry r);
        next_company_id := next_company_id r + 1 |},
     Some company_id).

(** [Registry.get_name] and [Registry.get_ticker] ([None]: [KeyError]) *)
Definition get_name (r : t) (company_id : Z) : option pyval :=
  match Dict.get py_eqb (PInt company_id) (registry r) with
  | Some (PTuple n _) => Some n
  | _ => None
  end.

Definition get_ticker (r : t) (company_id : Z) : option pyval :=
  match Dict.get py_eqb (PInt company_id) (registry r) with
  | Some (PTuple _ k) => Some k
  | _ => None
  end.

(** The registries the program can build. *)
Inductive reachable : t -> Prop :=
| reach_init : reachable init
| reach_register r name ticker :
    reachable r -> reachable (fst (register_company r name ticker)).

(** Some registered company carries this name (resp. ticker). *)
Definition name_taken (r : t) (name : string) : Prop :=
  exists k t, In (k, PTuple (PStr name) t) (registry r).
Definition ticker_taken (r : t) (ticker : string) : Prop :=
  exists k n, In (k, PTuple n (PStr ticker)) (registry r).

(** Shape of a reachable registry: integer keys, tuple values. *)
Definition well_shaped (d : list (pyval * pyval)) : Prop :=
  Forall (fun kv => (exists z, fst kv = PInt z)
                    /\ exists a b, snd kv = PTuple a b) d.

End Registry.

(** ** Python numbers and exceptions *)

Module Py.

(** The exceptions the program can raise. *)
Inductive exn : Type :=
| ZeroDivisionError
| OverflowError
| NodeNotFound      (* nx.NodeNotFound *)
| NetworkXNoPath    (* nx.NetworkXNoPath *)
| ValueError.       (* "Contradictory paths found: negative weights?" *)

(** Sequencing of computations that may raise. *)
Definition bind {A B : Type} (x : exn + A) (f : A -> exn + B) : exn + B :=
  match x with
  | inl e => inl e
  | inr a => f a
  end.

(** binary64 *)
Definition prec : Z := 53.
Definition emax : Z := 1024.

(** A number: an [int] or a [float]. *)
Inductive num : Type :=
| Int (z : Z)
| Float (f : spec_float).

(** The float with sign [s] and magnitude the integer [m], not yet
    rounded. *)
Definition raw (z : Z) : spec_float :=
  match z with
  | Z0 => S754_zero false
  | Zpos m => S754_finite false m 0
  | Zneg m => S754_finite true m 0
  end.

(** [float(z)]: the nearest float, ties to even; [OverflowError] when it
    is out of range. *)
Definition float_of_int (z : Z) : exn + spec_float :=
  match binary_normalize prec emax z 0 false with
  | S754_infinity _ => inl OverflowError
  | f => inr f
  end.

(** The conversion Python applies to the [int] operand of a mixed
    operation. *)
Definition to_float (x : num) : exn + spec_float :=
  match x with
  | Int z => float_of_int z
  | Float f => inr f
  end.

Definition float_op (op : spec_float -> spec_float -> spec_float)
    (x y : num) : exn + num :=
  bind (to_float x) (fun a =>
  bind (to_float y) (fun b => inr (Float (op a b)))).

(** [x + y], [x - y] and [x * y] *)
Definition add (x y : num) : exn + num :=
  match x, y with
  | Int a, Int b => inr (Int (a + b))
  | _, _ => float_op (SFadd prec emax) x y
  end.

Definition sub (x y : num) : exn + num :=
  match x, y with
  | Int a, Int b => inr (Int (a - b))
  | _, _ => float_op (SFsub prec emax) x y
  end.

Definition mul (x y : num) : exn + num :=
  match x, y with
  | Int a, Int b => inr (Int (a * b))
  | _, _ => float_op (SFmul prec emax) x y
  end.

(** The quotient of two integers, [b] not 0, rounded once. *)
Definition int_quotient (a b : Z) : spec_float :=
  match a with
  | Z0 => S754_zero (b <? 0)
  | _ => SFdiv prec emax (raw a) (raw b)
  end.

Definition is_zero (f : spec_float) : bool :=
  match f with
  | S754_zero _ => true
  | _ => false
  end.

(** [x / y] *)
Definition truediv (x y : num) : exn + num :=
  match x, y with
  | Int a, Int b =>
      if b =? 0 then inl ZeroDivisionError
      else match int_quotient a b with
           | S754_infinity _ => inl OverflowError
           | f => inr (Float f)
           end
  | _, _ =>
      bind (to_float x) (fun a =>
      bind (to_float y) (fun b =>
        if is_zero b then inl ZeroDivisionError
        else inr (Float (SFdiv prec emax a b))))
  end.

(** The float a decimal literal [n / d] denotes: the nearest one. *)
Definition literal (n : Z) (d : positive) : num :=
  Float (int_quotient n (Zpos d)).

(** *** Comparisons

    Python compares two numbers by their exact values, also an [int] with a
    [float]; every comparison with a NaN is false. *)
Inductive ext : Type :=
| NaN
| NegInf
| Fin (q : Q)
| PosInf.

(** The value of a finite float. *)
Definition value (f : spec_float) : Q :=
  match f with
  | S754_finite s m e =>
      ((if s then - inject_Z (Zpos m) else inject_Z (Zpos m)) * Qpower 2 e)%Q
  | _ => 0%Q
  end.

Definition ext_of (x : num) : ext :=
  match x with
  | Int z => Fin (inject_Z z)
  | Float S754_nan => NaN
  | Float (S754_infinity s) => if s then NegInf else PosInf
  | Float f => Fin (value f)
  end.

Definition ext_compare (a b : ext) : option comparison :=
  match a, b with
  | NaN, _ | _, NaN => None
  | NegInf, NegInf => Some Eq
  | NegInf, _ => Some Lt
  | _, NegInf => Some Gt
  | PosInf, PosInf => Some Eq
  | PosInf, _ => Some Gt
  | _, PosInf => Some Lt
  | Fin p, Fin q => Some (p ?= q)%Q
  end.

Definition compare (x y : num) : option comparison :=
  match x, y with
  | Int a, Int b => Some (a ?= b)
  | _, _ => ext_compare (ext_of x) (ext_of y)
  end.

(** [x < y], [x > y], [x >= y] and [x == y] *)
Definition ltb (x y : num) : bool :=
  match compare x y with Some Lt => true | _ => false end.
Definition gtb (x y : num) : bool :=
  match compare x y with Some Gt => true | _ => false end.
Definition geb (x y : num) : bool :=
  match compare x y with Some (Gt | Eq) => true | _ => false end.
Definition eqb (x y : num) : bool :=
  match compare x y with Some Eq => true | _ => false end.

End Py.

Coercion Py.Int : Z >-> Py.num.

(** ** city.py *)

Module City.

(** The attributes [City.__init__] stores. *)
Record t : Type := mk {
  city_id : Z;
  name : string;
  country : string;
  continent : string;
  latitude : Py.num;
  longitude : Py.num;
  population : Z;
  wealth : Z;
  industrialisation : Z;
  stability : Z;
  connectivity : Z;
  resources : list (string * Z);
  companies : list Z;
  corporation_tax : Py.num;
  transit_fee : Py.num
}.

End City.

(** ** company.py *)

Module Company.
Import Py.

(** [d.get(k, 0)] on a [dict[str, int]] *)
Definition get_default (d : list (string * Z)) (k : string) (dflt : Z) : Z :=
  match Dict.get String.eqb k d with Some v => v | None => dflt end.

(** The loop of [calculate_efficiency], over [capacity.items()], on the
    pair [(total_output, total_capacity)]. *)
Definition totals_step (outputs : list (string * Z))
    (acc : Z * Z) (item : string * Z) : Z * Z :=
  let '(product, cap) := item in
  let prod := get_default outputs product 0 in
  (fst acc + prod, snd acc + cap).

Definition totals (outputs capacity : list (string * Z)) : Z * Z :=
  fold_left (totals_step outputs) capacity (0, 0).

(** [Company.calculate_efficiency] *)
Definition calculate_efficiency (outputs capacity : list (string * Z))
  : exn + num :=
  let '(total_output, total_capacity) := totals outputs capacity in
  if total_capacity =? 0 then inr (Int 0)
  else
    bind (truediv (Int total_output) (Int total_capacity)) (fun q =>
    mul q (Int 100)).

(** [Company.set_status] *)
Definition set_status (efficiency : num) : string :=
  if geb efficiency (literal 9 10) then "Operational"
  else if gtb efficiency (Int 0) then "Limited"
  else "Idle".

(** The attributes [Company.__init__] sets. *)
Record t : Type := mk {
  (* identity *)
  company_id : Z;
  name : string;
  ticker : string;
  city : City.t;
  industry : string;
  ceo_name : string;
  year_founded : Z;
  reputation : num;
  (* operations *)
  inputs : list (string * Z);
  outputs : list (string * Z);
  capacity : list (string * Z);
  efficiency : num;
  inventory : list (string * Z);
  status : string;
  (* finances *)
  cash : num;
  revenue : num;
  var_costs : num;
  fixed_costs : num;
  profit_before_tax : num;
  net_profit : num;
  (* the market *)
  shares_outstanding : Z;
  share_price : num;
  market_cap : num;
  volatility : num;
  pays_dividend : bool;
  dividend_freq : Z;
  dividend_yield : num;
  (* behaviour *)
  trade_bias : num;
  sensitivity : num;
  prefers_fast_shipping : bool;
  (* history *)
  profit_history : list num;
  price_history : list num;
  event_log : list (Z * string)
}.

(** [Company.__init__]: the attributes are computed in the order of the
    source, so the first exception raised is the one of the source. *)
Definition init (company_id : Z) (name ticker : string) (city : City.t)
    (industry ceo_name : string) (year_founded : Z) (reputation : num)
    (inputs outputs capacity inventory : list (string * Z))
    (cash revenue var_costs fixed_costs : num)
    (shares_outstanding : Z) (share_price volatility : num)
    (pays_dividend : bool) (dividend_freq : Z) (dividend_yield : num)
    (trade_bias sensitivity : num) (prefers_fast_shipping : bool)
  : exn + t :=
  bind (calculate_efficiency outputs capacity) (fun efficiency =>
  let status := set_status efficiency in
  bind (sub revenue var_costs) (fun r =>
  bind (sub r fixed_costs) (fun profit_before_tax =>
  bind (sub (Int 1) (City.corporation_tax city)) (fun keep =>
  bind (mul profit_before_tax keep) (fun net_profit =>
  bind (mul (Int shares_outstanding) share_price) (fun market_cap =>
  inr {| company_id := company_id; name := name; ticker := ticker;
         city := city; industry := industry; ceo_name := ceo_name;
         year_founded := year_founded; reputation := reputation;
         inputs := inputs; outputs := outputs; capacity := capacity;
         efficiency := efficiency; inventory := inventory;
         status := status;
         cash := cash; revenue := revenue; var_costs := var_costs;
         fixed_costs := fixed_costs;
         profit_before_tax := profit_before_tax;
         net_profit := net_profit;
         shares_outstanding := shares_outstanding;
         share_price := share_price;
         market_cap := market_cap;
         volatility := volatility; pays_dividend := pays_dividend;
         dividend_freq := dividend_freq;
         dividend_yield := dividend_yield;
         trade_bias := trade_bias; sensitivity := sensitivity;
         prefers_fast_shipping := prefers_fast_shipping;
         profit_history := []; price_history := []; event_log := [] |})))))).

(** The sums the loop computes, written with [map]. *)
Definition sumZ (l : list Z) : Z := fold_right Z.add 0 l.
Definition total_output (outputs capacity : list (string * Z)) : Z :=
  sumZ (map (fun item => get_default outputs (fst item) 0) capacity).
Definition total_capacity (capacity : list (string * Z)) : Z :=
  sumZ (map snd capacity).

End Company.

(** ** main.py *)

Module Main.
Import Py.



End Main.

(** ** networkx and heapq: the graph class, filtered views, the heap and the
    path search *)

Module Nx.

Abbreviation node := Z (only parsing).

Export Py.

(** *** nx.Graph

    [_node] maps a node to its attribute dictionary.  [_adj] maps a node to
    the dictionary of its neighbours.  The two entries [_adj[u][v]] and
    [_adj[v][u]] of an undirected edge hold the same attribute dictionary
    object: it lives in [cells] and the adjacency holds its index. *)
Section Graph.
Context {E : Type}.

Record Graph : Type := mkGraph {
  _node : list (node * list (string * string));
  _adj : list (node * list (node * nat));
  cells : list E
}.

(** [nx.Graph()] *)
Definition empty : Graph := {| _node := []; _adj := []; cells := [] |}.

(** [n in G] *)
Definition has_node (g : Graph) (n : node) : bool :=
  Dict.mem Z.eqb n (_node g).

(** [G._adj[u]] (a missing key reads as no neighbour) *)
Definition adj (g : Graph) (u : node) : list (node * nat) :=
  match Dict.get Z.eqb u (_adj g) with Some d => d | None => [] end.

(** [dict.update] *)
Definition dict_update (d new : list (string * string))
  : list (string * string) :=
  fold_left (fun acc kv => Dict.set String.eqb (fst kv) (snd kv) acc) new d.

(** [G.add_node(n, **attr)] *)
Definition add_node (g : Graph) (n : node) (attr : list (string * string))
  : Graph :=
  match Dict.get Z.eqb n (_node g) with
  | None =>
      {| _node := Dict.set Z.eqb n (dict_update [] attr) (_node g);
         _adj := Dict.set Z.eqb n [] (_adj g);
         cells := cells g |}
  | Some old =>
      {| _node := Dict.set Z.eqb n (dict_update old attr) (_node g);
         _adj := _adj g;
         cells := cells g |}
  end.

(** The first step of [add_edge]: an endpoint that is not a node yet
    becomes one, with empty attributes. *)
Definition touch_node (g : Graph) (n : node) : Graph :=
  if has_node g n then g
  else {| _node := Dict.set Z.eqb n [] (_node g);
          _adj := Dict.set Z.eqb n [] (_adj g);
          cells := cells g |}.

(** [G._adj[u][v] = r] *)
Definition link (u v : node) (r : nat) (a : list (node * list (node * nat)))
  : list (node * list (node * nat)) :=
  let inner := match Dict.get Z.eqb u a with Some d => d | None => [] end in
  Dict.set Z.eqb u (Dict.set Z.eqb v r inner) a.

(** [G.add_edge(u, v, **attr)], for a call that passes every attribute of
    the edge: [datadict.update(attr)] then leaves exactly [data] in the
    dictionary, whether it is new or the one of an existing edge. *)
Definition add_edge (g : Graph) (u v : node) (data : E) : Graph :=
  let g1 := touch_node (touch_node g u) v in
  match Dict.get Z.eqb v (adj g1 u) with
  | Some r =>
      {| _node := _node g1;
         _adj := link v u r (link u v r (_adj g1));
         cells := <[r := data]> (cells g1) |}
  | None =>
      let r := length (cells g1) in
      {| _node := _node g1;
         _adj := link v u r (link u v r (_adj g1));
         cells := cells g1 ++ [data] |}
  end.

(** [G.has_edge(u, v)] *)
Definition has_edge (g : Graph) (u v : node) : bool :=
  match Dict.get Z.eqb u (_adj g) with
  | Some d => Dict.mem Z.eqb v d
  | None => false
  end.

(** [G[u][v]]: the attribute dictionary of the edge ([None]: [KeyError]) *)
Definition edge_data (g : Graph) (u v : node) : option E :=
  match Dict.get Z.eqb v (adj g u) with
  | Some r => cells g !! r
  | None => None
  end.

(** *** nx.subgraph_view

    A view keeps every node; the neighbours of [u] are the entries of
    [G._adj[u]], in their order, that pass [filter_edge(u, v)].  The view
    is computed from the graph each time it is read. *)
Record View : Type := mkView {
  view_nodes : list node;
  view_adj : node -> list (node * E)
}.

Definition resolve (g : Graph) (vr : node * nat) : list (node * E) :=
  match cells g !! snd vr with
  | Some d => [(fst vr, d)]
  | None => []
  end.

Definition subgraph_view (g : Graph) (filter_edge : node -> node -> bool)
  : View :=
  {| view_nodes := Dict.keys (_node g);
     view_adj := fun u =>
       flat_map (resolve g)
                (List.filter (fun vr => filter_edge u (fst vr)) (adj g u)) |}.

Definition view_has_node (G : View) (n : node) : bool :=
  existsb (Z.eqb n) (view_nodes G).
End Graph.
Arguments Graph : clear implicits.
Arguments View : clear implicits.

(** *** heapq on [(distance, counter, node)] tuples *)
Definition entry : Type := num * nat * node.

(** Python's [<] on two such tuples: the first components that are not
    [==] decide. *)
Definition entry_lt (x y : entry) : bool :=
  let '(d1, c1, v1) := x in
  let '(d2, c2, v2) := y in
  if Py.eqb d1 d2 then
    if (c1 =? c2)%nat then v1 <? v2 else (c1 <? c2)%nat
  else Py.ltb d1 d2.

(** The loop of [heapq._siftdown]: [newitem] moves up from [pos] while it
    is less than its parent.  [pos] decreases at each turn, so [fuel = pos]
    turns are enough. *)
Fixpoint siftdown_loop (fuel : nat) (heap : list entry) (startpos pos : nat)
    (newitem : entry) : list entry :=
  match fuel with
  | O => <[pos := newitem]> heap
  | S fuel' =>
      if (startpos <? pos)%nat then
        let parentpos := ((pos - 1) / 2)%nat in
        match heap !! parentpos with
        | Some parent =>
            if entry_lt newitem parent
            then siftdown_loop fuel' (<[pos := parent]> heap) startpos
                               parentpos newitem
            else <[pos := newitem]> heap
        | None => <[pos := newitem]> heap
        end
      else <[pos := newitem]> heap
  end.

(** [heapq._siftdown(heap, startpos, pos)] *)
Definition siftdown (heap : list entry) (startpos pos : nat) : list entry :=
  match heap !! pos with
  | Some newitem => siftdown_loop pos heap startpos pos newitem
  | None => heap
  end.

(** The loop of [heapq._siftup]: the smaller child moves up into [pos]
    until a leaf is reached; the result is the heap and the leaf. *)
Fixpoint siftup_loop (fuel : nat) (heap : list entry) (endpos pos : nat)
  : list entry * nat :=
  match fuel with
  | O => (heap, pos)
  | S fuel' =>
      let childpos := (2 * pos + 1)%nat in
      if (childpos <? endpos)%nat then
        let rightpos := (childpos + 1)%nat in
        let childpos :=
          match heap !! childpos, heap !! rightpos with
          | Some c, Some r => if entry_lt c r then childpos else rightpos
          | _, _ => childpos
          end in
        match heap !! childpos with
        | Some c => siftup_loop fuel' (<[pos := c]> heap) endpos childpos
        | None => (heap, pos)
        end
      else (heap, pos)
  end.

(** [heapq._siftup(heap, pos)] *)
Definition siftup (heap : list entry) (pos : nat) : list entry :=
  match heap !! pos with
  | Some newitem =>
      let '(heap', leaf) := siftup_loop (length heap) heap (length heap) pos in
      siftdown (<[leaf := newitem]> heap') pos leaf
  | None => heap
  end.

(** [heapq.heappush(heap, item)] *)
Definition heappush (heap : list entry) (item : entry) : list entry :=
  siftdown (heap ++ [item]) 0 (length heap).

(** [heapq.heappop(heap)] ([None]: [IndexError], the heap is empty) *)
Definition heappop (heap : list entry) : option (entry * list entry) :=
  match last heap with
  | None => None
  | Some lastelt =>
      match removelast heap with
      | [] => Some (lastelt, [])
      | returnitem :: rest =>
          Some (returnitem, siftup (lastelt :: rest) 0)
      end
  end.

(** *** nx.bidirectional_dijkstra *)

(** The dictionaries and the heap of one search direction. *)
Record side : Type := mkSide {
  dists : gmap Z num;          (* final distances *)
  paths : gmap Z (list node);  (* a path to each seen node *)
  fringe : list entry;         (* heap of nodes to expand *)
  seen : gmap Z num            (* distance to each seen node *)
}.

(** [dir] is [false] for the forward direction (0), [true] for the
    backward one (1).  [finaldist] is only read once [finalpath] is not
    empty. *)
Record state : Type := mkState {
  fwd : side;
  bwd : side;
  counter : nat;
  finaldist : num;
  finalpath : list node;
  dir : bool
}.

Definition side_of (st : state) (d : bool) : side :=
  if d then bwd st else fwd st.

Definition with_side (st : state) (d : bool) (s : side) : state :=
  if d
  then {| fwd := fwd st; bwd := s; counter := counter st;
          finaldist := finaldist st; finalpath := finalpath st;
          dir := dir st |}
  else {| fwd := s; bwd := bwd st; counter := counter st;
          finaldist := finaldist st; finalpath := finalpath st;
          dir := dir st |}.

Section Search.
Context {E : Type}.
Variable G : View E.
Variable weight : node -> node -> E -> exn + num.

(** The test made after a relaxation of [w]: a node seen from both ends
    gives a candidate path. *)
Definition meet (st : state) (w : node) : exn + state :=
  match seen (fwd st) !! w, seen (bwd st) !! w with
  | Some s0, Some s1 =>
      bind (Py.add s0 s1) (fun totaldist =>
      if match finalpath st with [] => true | _ => false end
         || Py.gtb (finaldist st) totaldist
      then
        let revpath := rev (default [] (paths (bwd st) !! w)) in
        inr {| fwd := fwd st; bwd := bwd st; counter := counter st;
               finaldist := totaldist;
               finalpath := default [] (paths (fwd st) !! w) ++ tl revpath;
               dir := dir st |}
      else inr st)
  | _, _ => inr st
  end.

(** One turn of the loop over the neighbours of [v]. *)
Definition relax (d : bool) (v : node) (st : state) (wd : node * E)
  : exn + state :=
  let '(w, data) := wd in
  let sd := side_of st d in
  bind (if d then weight w v data else weight v w data) (fun cost =>
  bind (Py.add (default (Int 0) (dists sd !! v)) cost) (fun vwLength =>
  match dists sd !! w with
  | Some dw => if Py.ltb vwLength dw then inl ValueError else inr st
  | None =>
      if match seen sd !! w with
         | None => true
         | Some sw => Py.ltb vwLength sw
         end
      then
        let sd' :=
          {| dists := dists sd;
             paths := <[w := default [] (paths sd !! v) ++ [w]]> (paths sd);
             fringe := heappush (fringe sd) (vwLength, counter st, w);
             seen := <[w := vwLength]> (seen sd) |} in
        let st' := with_side st d sd' in
        meet {| fwd := fwd st'; bwd := bwd st';
                counter := S (counter st');
                finaldist := finaldist st';
                finalpath := finalpath st'; dir := dir st' |} w
      else inr st
  end)).

Fixpoint relax_all (d : bool) (v : node) (st : state)
    (l : list (node * E)) : exn + state :=
  match l with
  | [] => inr st
  | wd :: l' =>
      match relax d v st wd with
      | inl e => inl e
      | inr st' => relax_all d v st' l'
      end
  end.

(** What one turn of the [while] loop does: go on with a new state, or
    leave the function with a path or an exception. *)
Inductive outcome : Type :=
| Continue (st : state)
| Return (r : exn + list node).

Definition is_nil {A : Type} (l : list A) : bool :=
  match l with [] => true | _ => false end.

(** [(dist, _, v) = pop(fringe[dir])] *)
Definition popped (st : state) (d : bool) (rest : list entry) : state :=
  let sd := side_of st d in
  with_side {| fwd := fwd st; bwd := bwd st; counter := counter st;
               finaldist := finaldist st; finalpath := finalpath st;
               dir := d |}
            d {| dists := dists sd; paths := paths sd; fringe := rest;
                 seen := seen sd |}.

(** [dists[dir][v] = dist] *)
Definition settled (st : state) (d : bool) (v : node) (dist : num) : state :=
  let sd := side_of st d in
  with_side st d {| dists := <[v := dist]> (dists sd); paths := paths sd;
                    fringe := fringe sd; seen := seen sd |}.

(** The loop test and the loop body. *)
Definition turn (st : state) : outcome :=
  if is_nil (fringe (fwd st)) || is_nil (fringe (bwd st))
  then Return (inl NetworkXNoPath)
  else
    let d := negb (dir st) in
    match heappop (fringe (side_of st d)) with
    | None => Return (inl NetworkXNoPath)
    | Some ((dist, _, v), rest) =>
        let st1 := popped st d rest in
        match dists (side_of st1 d) !! v with
        | Some _ => Continue st1
        | None =>
            let st2 := settled st1 d v dist in
            match dists (side_of st2 (negb d)) !! v with
            | Some _ => Return (inr (finalpath st2))
            | None =>
                match relax_all d v st2 (view_adj G v) with
                | inl e => Return (inl e)
                | inr st3 => Continue st3
                end
            end
        end
    end.

(** The [while] loop; [None] when [fuel] turns are not enough. *)
Fixpoint loop (fuel : nat) (st : state) : option (exn + list node) :=
  match fuel with
  | O => None
  | S fuel' =>
      match turn st with
      | Return r => Some r
      | Continue st' => loop fuel' st'
      end
  end.

Definition init_state (source target : node) : state :=
  {| fwd := {| dists := ∅; paths := {[source := [source]]};
               fringe := heappush [] (Int 0, 0%nat, source);
               seen := {[source := Int 0]} |};
     bwd := {| dists := ∅; paths := {[target := [target]]};
               fringe := heappush [] (Int 0, 1%nat, target);
               seen := {[target := Int 0]} |};
     counter := 2;
     finaldist := Int 0;
     finalpath := [];
     dir := true |}.

(** Every turn pops one heap entry and only the first expansion of a node
    in a direction pushes entries, one per neighbour at most. *)
Definition degree_sum : nat :=
  fold_right (fun u n => (length (view_adj G u) + n)%nat) 0%nat
             (view_nodes G).
Definition turns : nat := 3 + 2 * degree_sum.

Definition bidirectional_dijkstra (source target : node)
  : option (exn + list node) :=
  if negb (view_has_node G source) then Some (inl NodeNotFound)
  else if negb (view_has_node G target) then Some (inl NodeNotFound)
  else if source =? target then Some (inr [source])
  else loop turns (init_state source target).

(** [nx.shortest_path(G, source, target, weight)] with a weight and the
    default method. *)
Definition shortest_path (source target : node)
  : option (exn + list node) :=
  bidirectional_dijkstra source target.
End Search.

End Nx.

(** ** map.py *)

Module Map.
Import Nx.

(** The attribute dictionary [add_connection] gives an edge.  [distance]
    is an [int], as the signature of [add_connection] declares it. *)
Record route : Type := mkRoute {
  distance : Z;
  route_type : string;
  accessible : bool
}.

(** [Map]: its only attribute is [self.graph]. *)
Definition t : Type := Graph route.

(** [Map.__init__] *)
Definition init : t := Nx.empty.

(** [Map.add_city] *)
Definition add_city (m : t) (city_id : node)
    (attributes : list (string * string)) : t :=
  add_node m city_id attributes.

(** [Map.add_connection] *)
Definition add_connection (m : t) (city_a city_b : node) (distance : Z)
    (route_type : string) (accessible : bool) : t :=
  add_edge m city_a city_b
           {| distance := distance; route_type := route_type;
              accessible := accessible |}.

(** [d["accessible"] = accessible] *)
Definition set_flag (accessible : bool) (d : route) : route :=
  {| distance := distance d; route_type := route_type d;
     accessible := accessible |}.

(** [Map.set_accessibility] *)
Definition set_accessibility (m : t) (city_a city_b : node)
    (accessible : bool) : t :=
  if has_edge m city_a city_b then
    match Dict.get Z.eqb city_b (adj m city_a) with
    | Some r =>
        {| _node := _node m; _adj := _adj m;
           cells := alter (set_flag accessible) r (cells m) |}
    | None => m
    end
  else m.

(** [lambda u, v: self.graph[u][v]["accessible"]] *)
Definition filter_edge (m : t) (u v : node) : bool :=
  match edge_data m u v with
  | Some d => accessible d
  | None => false
  end.

(** [weight="distance"]: [lambda u, v, data: data.get("distance", 1)] *)
Definition distance_weight (u v : node) (data : route) : exn + num :=
  inr (Int (distance data)).

(** The local function [cost] of [get_cheapest_path]. *)
Definition cost (land_cost_per_km sea_cost_per_km : num)
    (u v : node) (a : route) : exn + num :=
  let base := Int (distance a) in
  if String.eqb (route_type a) "land"
  then Py.mul base land_cost_per_km
  else Py.mul base sea_cost_per_km.

(** [Map.get_shortest_path] *)
Definition get_shortest_path (m : t) (start end_ : node)
  : option (exn + list node) :=
  let subgraph := subgraph_view m (filter_edge m) in
  shortest_path subgraph distance_weight start end_.

(** [Map.get_cheapest_path] *)
Definition get_cheapest_path (m : t) (start end_ : node)
    (land_cost_per_km sea_cost_per_km : num) : option (exn + list node) :=
  let subgraph := subgraph_view m (filter_edge m) in
  shortest_path subgraph (cost land_cost_per_km sea_cost_per_km) start end_.

(** The operations that change a map. *)
Inductive op : Type :=
| AddCity (city_id : node) (attributes : list (string * string))
| AddConnection (city_a city_b : node) (distance : Z) (route_type : string)
                (accessible : bool)
| SetAccessibility (city_a city_b : node) (accessible : bool).

Definition apply (m : t) (o : op) : t :=
  match o with
  | AddCity c a => add_city m c a
  | AddConnection a b d rt acc => add_connection m a b d rt acc
  | SetAccessibility a b acc => set_accessibility m a b acc
  end.

Definition run (ops : list op) : t := fold_left apply ops init.

(** The maps the program can build. *)
Definition reachable (m : t) : Prop := exists ops, m = run ops.

End Map.
(** ** world_map.py

    [world_map.py] defines [Map] again, with the methods of [map.py]
    unchanged and a constructor that loads the default world. *)

Module WorldMap.
Import Nx Map.

(** [city_names] *)
Definition city_names : list string :=
  [
    "Abu Dhabi"; "Addis Ababa"; "Astana"; "Athens"; "Auckland"; "Baotou";
    "Barcelona"; "Beijing"; "Buenos Aires"; "Cairo"; "Cape Town"; "Caracas";
    "Casablanca"; "Chicago"; "Colombo"; "Conakry"; "Dar es Salaam"; "Dhaka";
    "Hamburg"; "Havana"; "Ho Chi Minh City"; "Houston"; "Istanbul";
    "Jakarta"; "Jeddah"; "Johannesburg"; "Kinshasa"; "Kolkata";
    "Kuwait City"; "Kyiv"; "Lagos"; "Lahore"; "Lima"; "London";
    "Los Angeles"; "Luanda"; "Manila"; "Mexico City"; "Montreal"; "Moscow";
    "Mumbai"; "New York City"; "Paris"; "Perth"; "Port Moresby";
    "Rio de Janeiro"; "Rome"; "Rotterdam"; "Saint Petersburg"; "Santiago";
    "Santo Domingo"; "São Paulo"; "Seoul"; "Shanghai"; "Shenzhen";
    "Singapore"; "Tokyo"; "Vancouver"; "Vienna"; "Vladivostok"
  ].

(** [enumerate(l, start)] *)
Fixpoint enumerate {A : Type} (l : list A) (start : Z) : list (Z * A) :=
  match l with
  | [] => []
  | x :: l' => (start, x) :: enumerate l' (start + 1)
  end.

(** [for city_id, name in enumerate(city_names, start=1):
       self.add_city(city_id, name=name)] *)
Definition add_cities (m : Map.t) (city_names : list string) : Map.t :=
  fold_left (fun m '(city_id, name) => add_city m city_id [("name", name)])
            (enumerate city_names 1) m.

(** The arguments [(city_a, city_b, distance)] of the calls of
    [add_connection] in the list [connections], in the order of the source.
    Every call has [route_type='land'] and leaves [accessible] to its default
    [True]. *)
Definition connections : list (node * node * Z) :=
  [
    (14, 39, 1381); (14, 42, 1272); (22, 14, 1745); (22, 38, 1493);
    (35, 14, 3413); (35, 22, 2492); (35, 38, 2953); (39, 42, 595);
    (42, 22, 2621); (58, 14, 3505); (58, 35, 2057); (9, 52, 2234);
    (12, 33, 4335); (33, 52, 4378); (50, 9, 1389); (52, 46, 433);
    (2, 17, 2375); (16, 32, 2715); (26, 11, 1398); (26, 17, 3516);
    (27, 2, 5080); (27, 17, 4099); (27, 36, 808); (32, 2, 5363);
    (32, 27, 2937); (36, 26, 3179); (3, 29, 4935); (3, 33, 3541);
    (6, 3, 3700); (8, 6, 663); (8, 55, 1213); (10, 29, 2060); (18, 21, 3225);
    (18, 56, 4540); (23, 10, 2481); (25, 1, 1844); (28, 18, 330);
    (28, 33, 2150); (29, 25, 1530); (33, 42, 1950); (40, 3, 2704);
    (42, 28, 1901); (55, 6, 1868); (56, 6, 2614); (56, 8, 2180);
    (56, 55, 1508); (60, 54, 1200); (4, 30, 2145); (7, 43, 1035);
    (19, 7, 1800); (23, 30, 1480); (30, 19, 1636); (30, 40, 1685);
    (30, 49, 1938); (30, 59, 1331); (34, 43, 467); (40, 49, 702);
    (43, 47, 1457); (43, 48, 517); (43, 59, 1235); (47, 19, 1687);
    (47, 59, 1100); (48, 19, 529); (59, 4, 1708); (59, 7, 1987);
    (59, 19, 973); (59, 23, 1560)
  ].

Definition add_connections (m : Map.t) (l : list (node * node * Z)) : Map.t :=
  fold_left (fun m '(city_a, city_b, distance) =>
               add_connection m city_a city_b distance "land" true)
            l m.

(** [Map.initialise_map] *)
Definition initialise_map (m : Map.t) : Map.t :=
  add_connections (add_cities m city_names) connections.

(** [Map.__init__] *)
Definition init : Map.t := initialise_map Nx.empty.

End WorldMap.

(** * Notions used in the statements *)

(** * Notions used in the statements *)

Module Path.

(** Consecutive elements of [p] are related by [R]. *)
Fixpoint chain {A : Type} (R : A -> A -> Prop) (p : list A) : Prop :=
  match p with
  | x :: (y :: _) as tl => R x y /\ chain R tl
  | _ => True
  end.

(** The sum of [w x y] over the consecutive elements [x], [y] of [p]. *)
Fixpoint total {A : Type} (w : A -> A -> Q) (p : list A) : Q :=
  match p with
  | x :: (y :: _) as tl => (w x y + total w tl)%Q
  | _ => 0%Q
  end.

(** [a] is immediately followed by [b] in [p]. *)
Definition consecutive {A : Type} (a b : A) (p : list A) : Prop :=
  exists p1 p2, p = p1 ++ a :: b :: p2.

End Path.

Module GraphInv.
Import Nx.
Section GraphInv.
Context {E : Type}.

(** What holds of every graph built with [add_node] and [add_edge]. *)
Record wf (g : Graph E) : Prop := mk_wf {
  wf_node_keys : List.NoDup (Dict.keys (_node g));
  wf_adj_keys : List.NoDup (Dict.keys (_adj g));
  wf_same_keys : forall u, In u (Dict.keys (_adj g)) <-> In u (Dict.keys (_node g));
  wf_inner : forall u, List.NoDup (Dict.keys (adj g u));
  wf_sym : forall u v r,
    Dict.get Z.eqb v (adj g u) = Some r -> Dict.get Z.eqb u (adj g v) = Some r;
  wf_ref : forall u v r,
    Dict.get Z.eqb v (adj g u) = Some r -> (r < length (cells g))%nat
}.

(** What the search needs of a view. *)
Record view_ok (G : View E) : Prop := mk_view_ok {
  vo_nodes : List.NoDup (view_nodes G);
  vo_keys : forall u, List.NoDup (Dict.keys (view_adj G u));
  vo_closed : forall u w data,
    In (w, data) (view_adj G u) -> In u (view_nodes G) /\ In w (view_nodes G);
  vo_sym : forall u w data,
    In (w, data) (view_adj G u) -> In (u, data) (view_adj G w)
}.

(** [w] is a neighbour of [u] in the view. *)
Definition vedge (G : View E) (u w : node) : Prop :=
  exists data, In (w, data) (view_adj G u).

(** The weight of the edge from [u] to [w] in the view. *)
Definition ecost (G : View E) (weight : node -> node -> E -> Q) (u w : node) : Q :=
  match Dict.get Z.eqb w (view_adj G u) with
  | Some data => weight u w data
  | None => 0%Q
  end.

(** A walk of the view from [a] to [b]. *)
Definition walk (G : View E) (a b : node) (p : list node) : Prop :=
  head p = Some a /\ last p = Some b /\ Path.chain (vedge G) p.

Definition nonneg_weight (G : View E) (weight : node -> node -> E -> Q) : Prop :=
  forall u w data, In (w, data) (view_adj G u) ->
    (0 <= weight u w data)%Q /\ (0 <= weight w u data)%Q.

(** The neighbours of [x] in a raw adjacency dictionary. *)
Definition adjl (a : list (node * list (node * nat))) (x : node) :=
  match Dict.get Z.eqb x a with Some d => d | None => [] end.

(** The index [add_edge] stores for the edge. *)
Definition edge_ref (g : Graph E) (u v : node) : nat :=
  match Dict.get Z.eqb v (adj g u) with
  | Some r => r
  | None => length (cells g)
  end.

End GraphInv.
End GraphInv.

Module CompanySpec.
Import Py.


(** The float 100.0. *)
Definition hundred : spec_float := S754_finite false 7036874417766400 (-46).


End CompanySpec.

Module MapSpec.
Import Nx Map.

(** An accessible edge joins [u] and [v]. *)
Definition accessible_edge (m : Map.t) (u v : node) : Prop :=
  exists d, edge_data m u v = Some d /\ accessible d = true.

(** [p] lists cities of the map from [s] to [e], each joined to the next by
    an accessible edge. *)
Definition accessible_path (m : Map.t) (s e : node) (p : list node) : Prop :=
  head p = Some s /\ last p = Some e
  /\ Forall (fun u => has_node m u = true) p
  /\ Path.chain (accessible_edge m) p.

(** The distance, in km, of the edge between [u] and [v]. *)
Definition km (m : Map.t) (u v : node) : Z :=
  match edge_data m u v with
  | Some d => distance d
  | None => 0
  end.

(** The summed distance of a path. *)
Definition total_distance (m : Map.t) (p : list node) : Q :=
  Path.total (fun u v => inject_Z (km m u v)) p.

(** The cost of the edge between [u] and [v]: its distance times the land
    cost per km when its route type is land, its distance times the sea
    cost per km otherwise. *)
Definition edge_cost (m : Map.t) (land_cost_per_km sea_cost_per_km : Z)
    (u v : node) : Z :=
  match edge_data m u v with
  | Some d =>
      if String.eqb (route_type d) "land"
      then distance d * land_cost_per_km
      else distance d * sea_cost_per_km
  | None => 0
  end.

(** The summed cost of a path. *)
Definition total_cost (m : Map.t) (land_cost_per_km sea_cost_per_km : Z)
    (p : list node) : Q :=
  Path.total
    (fun u v => inject_Z (edge_cost m land_cost_per_km sea_cost_per_km u v))
    p.

(** No edge of the map has a negative distance. *)
Definition nonneg_distances (m : Map.t) : Prop :=
  List.Forall (fun d => 0 <= distance d) (cells m).

End MapSpec.

Module MapView.
Import Nx Map.

(** The view both queries search. *)
Definition view (m : Map.t) : View route := subgraph_view m (filter_edge m).

(** An [add_connection] between two different cities. *)
Definition distinct_ends (o : op) : Prop :=
  match o with
  | AddConnection a b _ _ _ => a <> b
  | _ => True
  end.

End MapView.

Module Example.
Import Nx Map.

(** Three cities: 1-2 and 2-3 by land, 100 km each; 1-3 by sea, 150 km. *)
Definition ops : list op :=
  [AddCity 1 [("name", "London")]; AddCity 2 [("name", "Lille")];
   AddCity 3 [("name", "Paris")];
   AddConnection 1 2 100 "land" true; AddConnection 2 3 100 "land" true;
   AddConnection 1 3 150 "sea" true].

Definition map : Map.t := run ops.

(** The same with a fourth city that no route reaches. *)
Definition map_with_island : Map.t := add_city map 4 [("name", "Perth")].

(** Three cities in a row, the first edge with a negative distance. *)
Definition with_negative_distance : Map.t :=
  run [AddCity 1 []; AddCity 2 []; AddCity 3 [];
       AddConnection 1 2 (-1) "land" true; AddConnection 2 3 1 "land" true].

(** Three cities: 1-2 of 3 km and 2-3 of 10^16 km by land, 1-3 of
    10^16 + 4 km by sea. *)
Definition with_large_distances : Map.t :=
  run [AddCity 1 []; AddCity 2 []; AddCity 3 [];
       AddConnection 1 2 3 "land" true;
       AddConnection 2 3 (10 ^ 16) "land" true;
       AddConnection 1 3 (10 ^ 16 + 4) "sea" true].

End Example.

(** * The search in exact arithmetic

    The same search with rational weights, exact sums and the heap as a
    list from which [heappop] takes the least entry: the reference the
    proofs about the path search go through. *)

Module Exact.
Import Nx.

(** The list holds the entries of the heap.  [heappop] removes the least
    tuple; the counter is unique, so nodes are never compared. *)
Definition entry : Type := Q * nat * node.

Definition entry_lt (x y : entry) : bool :=
  match (fst (fst x) ?= fst (fst y))%Q with
  | Lt => true
  | Eq => (snd (fst x) <? snd (fst y))%nat
  | Gt => false
  end.

Definition heappush (h : list entry) (x : entry) : list entry := x :: h.

Fixpoint heappop (h : list entry) : option (entry * list entry) :=
  match h with
  | [] => None
  | x :: h' =>
      match heappop h' with
      | None => Some (x, [])
      | Some (m, r) =>
          if entry_lt x m then Some (x, h') else Some (m, x :: r)
      end
  end.

(** The dictionaries and the heap of one search direction. *)
Record side : Type := mkSide {
  dists : gmap Z Q;            (* final distances *)
  paths : gmap Z (list node);  (* a path to each seen node *)
  fringe : list entry;         (* heap of nodes to expand *)
  seen : gmap Z Q              (* distance to each seen node *)
}.

(** [dir] is [false] for the forward direction (0), [true] for the
    backward one (1).  [finaldist] is only read once [finalpath] is not
    empty. *)
Record state : Type := mkState {
  fwd : side;
  bwd : side;
  counter : nat;
  finaldist : Q;
  finalpath : list node;
  dir : bool
}.

Definition side_of (st : state) (d : bool) : side :=
  if d then bwd st else fwd st.

Definition with_side (st : state) (d : bool) (s : side) : state :=
  if d
  then {| fwd := fwd st; bwd := s; counter := counter st;
          finaldist := finaldist st; finalpath := finalpath st;
          dir := dir st |}
  else {| fwd := s; bwd := bwd st; counter := counter st;
          finaldist := finaldist st; finalpath := finalpath st;
          dir := dir st |}.

Definition Qltb (x y : Q) : bool := if Qlt_le_dec x y then true else false.

Section Search.
Context {E : Type}.
Variable G : View E.
Variable weight : node -> node -> E -> Q.

(** The test made after a relaxation of [w]: a node seen from both ends
    gives a candidate path. *)
Definition meet (st : state) (w : node) : state :=
  match seen (fwd st) !! w, seen (bwd st) !! w with
  | Some s0, Some s1 =>
      let totaldist := (s0 + s1)%Q in
      if match finalpath st with [] => true | _ => false end
         || Qltb totaldist (finaldist st)
      then
        let revpath := rev (default [] (paths (bwd st) !! w)) in
        {| fwd := fwd st; bwd := bwd st; counter := counter st;
           finaldist := totaldist;
           finalpath := default [] (paths (fwd st) !! w) ++ tl revpath;
           dir := dir st |}
      else st
  | _, _ => st
  end.

(** One turn of the loop over the neighbours of [v]. *)
Definition relax (d : bool) (v : node) (st : state) (wd : node * E)
  : exn + state :=
  let '(w, data) := wd in
  let sd := side_of st d in
  let cost := if d then weight w v data else weight v w data in
  let vwLength := (default 0%Q (dists sd !! v) + cost)%Q in
  match dists sd !! w with
  | Some dw => if Qltb vwLength dw then inl ValueError else inr st
  | None =>
      if match seen sd !! w with
         | None => true
         | Some sw => Qltb vwLength sw
         end
      then
        let sd' :=
          {| dists := dists sd;
             paths := <[w := default [] (paths sd !! v) ++ [w]]> (paths sd);
             fringe := heappush (fringe sd) (vwLength, counter st, w);
             seen := <[w := vwLength]> (seen sd) |} in
        let st' := with_side st d sd' in
        inr (meet {| fwd := fwd st'; bwd := bwd st';
                     counter := S (counter st');
                     finaldist := finaldist st';
                     finalpath := finalpath st'; dir := dir st' |} w)
      else inr st
  end.

Fixpoint relax_all (d : bool) (v : node) (st : state)
    (l : list (node * E)) : exn + state :=
  match l with
  | [] => inr st
  | wd :: l' =>
      match relax d v st wd with
      | inl e => inl e
      | inr st' => relax_all d v st' l'
      end
  end.

(** What one turn of the [while] loop does: go on with a new state, or
    leave the function with a path or an exception. *)
Inductive outcome : Type :=
| Continue (st : state)
| Return (r : exn + list node).

Definition is_nil {A : Type} (l : list A) : bool :=
  match l with [] => true | _ => false end.

(** [(dist, _, v) = pop(fringe[dir])] *)
Definition popped (st : state) (d : bool) (rest : list entry) : state :=
  let sd := side_of st d in
  with_side {| fwd := fwd st; bwd := bwd st; counter := counter st;
               finaldist := finaldist st; finalpath := finalpath st;
               dir := d |}
            d {| dists := dists sd; paths := paths sd; fringe := rest;
                 seen := seen sd |}.

(** [dists[dir][v] = dist] *)
Definition settled (st : state) (d : bool) (v : node) (dist : Q) : state :=
  let sd := side_of st d in
  with_side st d {| dists := <[v := dist]> (dists sd); paths := paths sd;
                    fringe := fringe sd; seen := seen sd |}.

(** The loop test and the loop body. *)
Definition turn (st : state) : outcome :=
  if is_nil (fringe (fwd st)) || is_nil (fringe (bwd st))
  then Return (inl NetworkXNoPath)
  else
    let d := negb (dir st) in
    match heappop (fringe (side_of st d)) with
    | None => Return (inl NetworkXNoPath)
    | Some ((dist, _, v), rest) =>
        let st1 := popped st d rest in
        match dists (side_of st1 d) !! v with
        | Some _ => Continue st1
        | None =>
            let st2 := settled st1 d v dist in
            match dists (side_of st2 (negb d)) !! v with
            | Some _ => Return (inr (finalpath st2))
            | None =>
                match relax_all d v st2 (view_adj G v) with
                | inl e => Return (inl e)
                | inr st3 => Continue st3
                end
            end
        end
    end.

(** The [while] loop; [None] when [fuel] turns are not enough. *)
Fixpoint loop (fuel : nat) (st : state) : option (exn + list node) :=
  match fuel with
  | O => None
  | S fuel' =>
      match turn st with
      | Return r => Some r
      | Continue st' => loop fuel' st'
      end
  end.

Definition init_state (source target : node) : state :=
  {| fwd := {| dists := ∅; paths := {[source := [source]]};
               fringe := [(0%Q, 0%nat, source)];
               seen := {[source := 0%Q]} |};
     bwd := {| dists := ∅; paths := {[target := [target]]};
               fringe := [(0%Q, 1%nat, target)];
               seen := {[target := 0%Q]} |};
     counter := 2;
     finaldist := 0;
     finalpath := [];
     dir := true |}.

(** Every turn pops one heap entry and only the first expansion of a node
    in a direction pushes entries, one per neighbour at most. *)
Definition degree_sum : nat :=
  fold_right (fun u n => (length (view_adj G u) + n)%nat) 0%nat
             (view_nodes G).
Definition turns : nat := 3 + 2 * degree_sum.

Definition bidirectional_dijkstra (source target : node)
  : option (exn + list node) :=
  if negb (view_has_node G source) then Some (inl NodeNotFound)
  else if negb (view_has_node G target) then Some (inl NodeNotFound)
  else if source =? target then Some (inr [source])
  else loop turns (init_state source target).

(** [nx.shortest_path(G, source, target, weight)] with a weight and the
    default method. *)
Definition shortest_path (source target : node)
  : option (exn + list node) :=
  bidirectional_dijkstra source target.
End Search.

End Exact.

(** The weights the exact search is given for the two queries. *)
Module MapExact.
Import Nx Map.

Definition distance_weight (u v : node) (data : route) : Q :=
  inject_Z (distance data).

Definition cost (land_cost_per_km sea_cost_per_km : Z)
    (u v : node) (a : route) : Q :=
  if String.eqb (route_type a) "land"
  then inject_Z (distance a * land_cost_per_km)
  else inject_Z (distance a * sea_cost_per_km).

(** The weight of the edge between [u] and [v]. *)
Definition edge_weight (m : Map.t) (weight : node -> node -> route -> Q)
    (u v : node) : Q :=
  match edge_data m u v with
  | Some d => weight u v d
  | None => 0%Q
  end.

End MapExact.

(** * Invariants of the bidirectional search *)

Module SearchInv.
Import Nx GraphInv Exact.
Section SearchInv.
Context {E : Type}.
Variable G : View E.
Variable weight : node -> node -> E -> Q.
Variables source target : node.

(** The node a direction starts from. *)
Definition origin (d : bool) : node := if d then target else source.

(** The weight the search adds when direction [d] goes from [x] to its
    neighbour [y]. *)
Definition step_cost (d : bool) (x y : node) : Q :=
  if d then ecost G weight y x else ecost G weight x y.

(** The length, for direction [d], of a path it has stored. *)
Definition dcost (d : bool) (p : list node) : Q := Path.total (step_cost d) p.

(** Every stored path is a walk of the view, whatever the weights. *)
Record sound (st : state) : Prop := mk_sound {
  snd_paths : forall d w sw,
    seen (side_of st d) !! w = Some sw ->
    exists p, paths (side_of st d) !! w = Some p /\ walk G (origin d) w p;
  snd_fringe : forall d k c w,
    In (k, c, w) (fringe (side_of st d)) -> is_Some (seen (side_of st d) !! w);
  snd_dists : forall d w dw,
    dists (side_of st d) !! w = Some dw -> is_Some (seen (side_of st d) !! w);
  snd_meet : forall w,
    is_Some (seen (fwd st) !! w) -> is_Some (seen (bwd st) !! w) ->
    finalpath st <> [];
  snd_final : finalpath st <> [] -> walk G source target (finalpath st)
}.

(** The entries still to come: those in the heaps and one per neighbour of
    each node a direction has not expanded. *)
Definition potential (D : gmap Z Q) : nat :=
  fold_right (fun u n => ((match D !! u with
                           | Some _ => 0
                           | None => length (view_adj G u)
                           end) + n)%nat) 0%nat (view_nodes G).

Definition measure (st : state) : nat :=
  (length (fringe (fwd st)) + length (fringe (bwd st))
   + potential (dists (fwd st)) + potential (dists (bwd st)))%nat.

(** The neighbours of the node being expanded that the loop has yet to
    visit. *)
Definition pending : Type := option (bool * node * list (node * E)).

Definition is_pending (pend : pending) (d : bool) (u : node)
    (x : node * E) : Prop :=
  match pend with
  | Some (d0, v0, l) => d = d0 /\ u = v0 /\ In x l
  | None => False
  end.

(** What holds between two turns ([pend = None]) and inside the loop over
    the neighbours, when no weight is negative. *)
Record opt (pend : pending) (st : state) : Prop := mk_opt {
  opt_seen : forall d w sw,
    seen (side_of st d) !! w = Some sw ->
    exists p, paths (side_of st d) !! w = Some p /\ (dcost d p == sw)%Q;
  opt_dists : forall d w dw,
    dists (side_of st d) !! w = Some dw ->
    (exists sw, seen (side_of st d) !! w = Some sw /\ (sw == dw)%Q)
    /\ forall p, walk G (origin d) w p -> (dw <= dcost d p)%Q;
  opt_fringe_in : forall d w sw,
    seen (side_of st d) !! w = Some sw ->
    dists (side_of st d) !! w = None ->
    exists c, In (sw, c, w) (fringe (side_of st d));
  opt_fringe_ge : forall d k c w,
    In (k, c, w) (fringe (side_of st d)) ->
    exists sw, seen (side_of st d) !! w = Some sw /\ (sw <= k)%Q;
  opt_expanded : forall d u du w data,
    dists (side_of st d) !! u = Some du ->
    In (w, data) (view_adj G u) ->
    is_pending pend d u (w, data)
    \/ exists sw, seen (side_of st d) !! w = Some sw
                  /\ (sw <= du + step_cost d u w)%Q;
  opt_mono : forall d u du k c w,
    dists (side_of st d) !! u = Some du ->
    In (k, c, w) (fringe (side_of st d)) -> (du <= k)%Q;
  opt_max :
    match pend with
    | Some (d0, v0, _) =>
        exists dv, dists (side_of st d0) !! v0 = Some dv
          /\ forall u du, dists (side_of st d0) !! u = Some du -> (du <= dv)%Q
    | None => True
    end;
  opt_meet : forall w s0 s1,
    seen (fwd st) !! w = Some s0 -> seen (bwd st) !! w = Some s1 ->
    (finaldist st <= s0 + s1)%Q;
  opt_final : finalpath st <> [] -> (dcost false (finalpath st) == finaldist st)%Q;
  opt_origin : forall d,
    exists s, seen (side_of st d) !! origin d = Some s /\ (s <= 0)%Q;
  opt_disjoint : forall v,
    is_Some (dists (fwd st) !! v) -> is_Some (dists (bwd st) !! v) -> False;
  opt_phase1 :
    dists (fwd st) !! source = None ->
    dir st = true /\ dists (fwd st) = ∅ /\ dists (bwd st) = ∅
    /\ fringe (fwd st) = [(0%Q, 0%nat, source)]
    /\ fringe (bwd st) = [(0%Q, 1%nat, target)];
  opt_phase2 :
    dists (bwd st) !! target = None ->
    dists (bwd st) = ∅ /\ fringe (bwd st) = [(0%Q, 1%nat, target)]
    /\ (forall v, is_Some (dists (fwd st) !! v) -> v = source)
    /\ (is_Some (dists (fwd st) !! source) -> dir st = false)
}.

(** The state after [seen], the heap and [paths] are updated for [w]. *)
Definition pushed (d : bool) (v w : node) (vw : Q) (st : state) : state :=
  let sd := side_of st d in
  let st' :=
    with_side st d
      {| dists := dists sd;
         paths := <[w := default [] (paths sd !! v) ++ [w]]> (paths sd);
         fringe := heappush (fringe sd) (vw, counter st, w);
         seen := <[w := vw]> (seen sd) |} in
  {| fwd := fwd st'; bwd := bwd st'; counter := S (counter st');
     finaldist := finaldist st'; finalpath := finalpath st'; dir := dir st' |}.

(** ** One relaxation *)

Definition vw_length (d : bool) (v w : node) (data : E) (st : state) : Q :=
  (default 0%Q (dists (side_of st d) !! v)
   + (if d then weight w v data else weight v w data))%Q.

(** The four ways one relaxation can go. *)
Inductive relax_spec (d : bool) (v : node) (st : state) (w : node) (data : E)
  : exn + state -> Prop :=
| relax_settled dw :
    dists (side_of st d) !! w = Some dw ->
    (dw <= vw_length d v w data st)%Q ->
    relax_spec d v st w data (inr st)
| relax_contradiction dw :
    dists (side_of st d) !! w = Some dw ->
    (vw_length d v w data st < dw)%Q ->
    relax_spec d v st w data (inl ValueError)
| relax_keep sw :
    dists (side_of st d) !! w = None ->
    seen (side_of st d) !! w = Some sw ->
    (sw <= vw_length d v w data st)%Q ->
    relax_spec d v st w data (inr st)
| relax_improve :
    dists (side_of st d) !! w = None ->
    (forall sw, seen (side_of st d) !! w = Some sw ->
                (vw_length d v w data st < sw)%Q) ->
    relax_spec d v st w data
      (inr (meet (pushed d v w (vw_length d v w data st) st) w)).

(** What the test after a relaxation does to the best path found. *)
Inductive meet_spec (st : state) (w : node) : Prop :=
| meet_none :
    (seen (fwd st) !! w = None \/ seen (bwd st) !! w = None) ->
    finaldist (meet st w) = finaldist st ->
    finalpath (meet st w) = finalpath st ->
    meet_spec st w
| meet_worse s0 s1 :
    seen (fwd st) !! w = Some s0 -> seen (bwd st) !! w = Some s1 ->
    finalpath st <> [] -> (finaldist st <= s0 + s1)%Q ->
    finaldist (meet st w) = finaldist st ->
    finalpath (meet st w) = finalpath st ->
    meet_spec st w
| meet_better s0 s1 :
    seen (fwd st) !! w = Some s0 -> seen (bwd st) !! w = Some s1 ->
    (finalpath st = [] \/ (s0 + s1 < finaldist st)%Q) ->
    finaldist (meet st w) = (s0 + s1)%Q ->
    finalpath (meet st w)
    = default [] (paths (fwd st) !! w)
      ++ tl (rev (default [] (paths (bwd st) !! w))) ->
    meet_spec st w.

(** ** One turn of the loop *)

Inductive turn_spec (st : state) : outcome -> Prop :=
| turn_exit :
    fringe (fwd st) = [] \/ fringe (bwd st) = [] ->
    turn_spec st (Return (inl NetworkXNoPath))
| turn_stale dist c v rest dv :
    fringe (fwd st) <> [] -> fringe (bwd st) <> [] ->
    heappop (fringe (side_of st (negb (dir st)))) = Some ((dist, c, v), rest) ->
    dists (side_of st (negb (dir st))) !! v = Some dv ->
    turn_spec st (Continue (popped st (negb (dir st)) rest))
| turn_meet dist c v rest dv :
    fringe (fwd st) <> [] -> fringe (bwd st) <> [] ->
    heappop (fringe (side_of st (negb (dir st)))) = Some ((dist, c, v), rest) ->
    dists (side_of st (negb (dir st))) !! v = None ->
    dists (side_of st (dir st)) !! v = Some dv ->
    turn_spec st (Return (inr (finalpath st)))
| turn_expand dist c v rest r :
    fringe (fwd st) <> [] -> fringe (bwd st) <> [] ->
    heappop (fringe (side_of st (negb (dir st)))) = Some ((dist, c, v), rest) ->
    dists (side_of st (negb (dir st))) !! v = None ->
    dists (side_of st (dir st)) !! v = None ->
    relax_all weight (negb (dir st)) v
      (settled (popped st (negb (dir st)) rest) (negb (dir st)) v dist)
      (view_adj G v) = r ->
    turn_spec st (match r with
                  | inl e => Return (inl e)
                  | inr st3 => Continue st3
                  end).

(** ** The loop ends *)

Definition side_measure (s : side) : nat :=
  (length (fringe s) + potential (dists s))%nat.

(** [potential] over any list of nodes. *)
Definition pot_list (D : gmap Z Q) (l : list node) : nat :=
  fold_right (fun u n => ((match D !! u with
                           | Some _ => 0
                           | None => length (view_adj G u)
                           end) + n)%nat) 0%nat l.

End SearchInv.
End SearchInv.

(** * Invariants of the heap *)

Module HeapInv.
Import Nx.

(** [j] is a child of [i] in the array of a binary heap. *)
Definition child (i j : nat) : Prop :=
  j = (2 * i + 1)%nat \/ j = (2 * i + 2)%nat.

(** [x] is not greater than [y]. *)
Definition entry_le (x y : entry) : Prop := entry_lt y x = false.

(** The entry at [i], if any, is not greater than the one at [j]. *)
Definition le_at (h : list entry) (i j : nat) : Prop :=
  forall a b, h !! i = Some a -> h !! j = Some b -> entry_le a b.

(** The heap invariant of [heapq]. *)
Definition heap_ok (h : list entry) : Prop :=
  forall i j, child i j -> le_at h i j.

(** The distance of the entry is an [int]. *)
Definition int_entry (x : entry) : Prop := exists z, fst (fst x) = Int z.

(** The invariant of [_siftdown]: only the entry at [pos] may be less than
    its parent, and its children are not less than its parent. *)
Definition rising (h : list entry) (pos : nat) : Prop :=
  (forall i j, child i j -> j <> pos -> le_at h i j)
  /\ (forall g j, child g pos -> child pos j -> le_at h g j).

(** The invariant of [_siftup]: the position [pos] is free, and its
    children are not less than its parent. *)
Definition sinking (h : list entry) (pos : nat) : Prop :=
  (forall i j, child i j -> i <> pos -> j <> pos -> le_at h i j)
  /\ (forall g j, child g pos -> child pos j -> le_at h g j).

End HeapInv.

(** * Invariants of the search *)

Module NxInv.
Import Nx GraphInv.
Section NxInv.
Context {E : Type}.
Variable G : View E.
Variable weight : node -> node -> E -> exn + num.
Variables source target : node.

(** The node a direction starts from. *)
Definition origin (d : bool) : node := if d then target else source.

(** Every stored path is a walk of the view, whatever the weights. *)
Record sound (st : state) : Prop := mk_sound {
  snd_paths : forall d w sw,
    seen (side_of st d) !! w = Some sw ->
    exists p, paths (side_of st d) !! w = Some p /\ walk G (origin d) w p;
  snd_fringe : forall d k c w,
    (k, c, w) ∈ fringe (side_of st d) -> is_Some (seen (side_of st d) !! w);
  snd_dists : forall d w dw,
    dists (side_of st d) !! w = Some dw -> is_Some (seen (side_of st d) !! w);
  snd_meet : forall w,
    is_Some (seen (fwd st) !! w) -> is_Some (seen (bwd st) !! w) ->
    finalpath st <> [];
  snd_final : finalpath st <> [] -> walk G source target (finalpath st)
}.

(** The entries still to come: those in the heaps and one per neighbour of
    each node a direction has not expanded. *)
Definition pot_list (D : gmap Z num) (l : list node) : nat :=
  fold_right (fun u n => ((match D !! u with
                           | Some _ => 0
                           | None => length (view_adj G u)
                           end) + n)%nat) 0%nat l.

Definition potential (D : gmap Z num) : nat := pot_list D (view_nodes G).

Definition side_measure (s : side) : nat :=
  (length (fringe s) + potential (dists s))%nat.

Definition measure (st : state) : nat :=
  (side_measure (fwd st) + side_measure (bwd st))%nat.

(** The state after [seen], the heap and [paths] are updated for [w]. *)
Definition pushed (d : bool) (v w : node) (vw : num) (st : state) : state :=
  let sd := side_of st d in
  let st' :=
    with_side st d
      {| dists := dists sd;
         paths := <[w := default [] (paths sd !! v) ++ [w]]> (paths sd);
         fringe := heappush (fringe sd) (vw, counter st, w);
         seen := <[w := vw]> (seen sd) |} in
  {| fwd := fwd st'; bwd := bwd st'; counter := S (counter st');
     finaldist := finaldist st'; finalpath := finalpath st'; dir := dir st' |}.

(** The state once a better path through [w] is recorded. *)
Definition found (st : state) (w : node) (totaldist : num) : state :=
  {| fwd := fwd st; bwd := bwd st; counter := counter st;
     finaldist := totaldist;
     finalpath := default [] (paths (fwd st) !! w)
                  ++ tl (rev (default [] (paths (bwd st) !! w)));
     dir := dir st |}.

(** What the test after a relaxation does to the best path found. *)
Inductive meet_spec (st : state) (w : node) : exn + state -> Prop :=
| meet_none :
    (seen (fwd st) !! w = None \/ seen (bwd st) !! w = None) ->
    meet_spec st w (inr st)
| meet_error s0 s1 e :
    seen (fwd st) !! w = Some s0 -> seen (bwd st) !! w = Some s1 ->
    Py.add s0 s1 = inl e ->
    meet_spec st w (inl e)
| meet_worse s0 s1 totaldist :
    seen (fwd st) !! w = Some s0 -> seen (bwd st) !! w = Some s1 ->
    Py.add s0 s1 = inr totaldist ->
    finalpath st <> [] -> Py.gtb (finaldist st) totaldist = false ->
    meet_spec st w (inr st)
| meet_better s0 s1 totaldist :
    seen (fwd st) !! w = Some s0 -> seen (bwd st) !! w = Some s1 ->
    Py.add s0 s1 = inr totaldist ->
    (finalpath st = [] \/ Py.gtb (finaldist st) totaldist = true) ->
    meet_spec st w (inr (found st w totaldist)).

(** The weight given to the edge and the length through [v]. *)
Definition edge_cost (d : bool) (v w : node) (data : E) : exn + num :=
  if d then weight w v data else weight v w data.

Definition vw_length (d : bool) (v w : node) (data : E) (st : state)
  : exn + num :=
  bind (edge_cost d v w data) (fun cost =>
  Py.add (default (Int 0) (dists (side_of st d) !! v)) cost).

(** The ways one relaxation can go. *)
Inductive relax_spec (d : bool) (v : node) (st : state) (w : node) (data : E)
  : exn + state -> Prop :=
| relax_error e :
    vw_length d v w data st = inl e ->
    relax_spec d v st w data (inl e)
| relax_settled vw dw :
    vw_length d v w data st = inr vw ->
    dists (side_of st d) !! w = Some dw -> Py.ltb vw dw = false ->
    relax_spec d v st w data (inr st)
| relax_contradiction vw dw :
    vw_length d v w data st = inr vw ->
    dists (side_of st d) !! w = Some dw -> Py.ltb vw dw = true ->
    relax_spec d v st w data (inl ValueError)
| relax_keep vw sw :
    vw_length d v w data st = inr vw ->
    dists (side_of st d) !! w = None ->
    seen (side_of st d) !! w = Some sw -> Py.ltb vw sw = false ->
    relax_spec d v st w data (inr st)
| relax_improve vw :
    vw_length d v w data st = inr vw ->
    dists (side_of st d) !! w = None ->
    (forall sw, seen (side_of st d) !! w = Some sw -> Py.ltb vw sw = true) ->
    relax_spec d v st w data (meet (pushed d v w vw st) w).

(** One turn of the loop. *)
Inductive turn_spec (st : state) : outcome -> Prop :=
| turn_exit :
    fringe (fwd st) = [] \/ fringe (bwd st) = [] ->
    turn_spec st (Return (inl NetworkXNoPath))
| turn_stale dist c v rest dv :
    fringe (fwd st) <> [] -> fringe (bwd st) <> [] ->
    heappop (fringe (side_of st (negb (dir st)))) = Some ((dist, c, v), rest) ->
    dists (side_of st (negb (dir st))) !! v = Some dv ->
    turn_spec st (Continue (popped st (negb (dir st)) rest))
| turn_meet dist c v rest dv :
    fringe (fwd st) <> [] -> fringe (bwd st) <> [] ->
    heappop (fringe (side_of st (negb (dir st)))) = Some ((dist, c, v), rest) ->
    dists (side_of st (negb (dir st))) !! v = None ->
    dists (side_of st (dir st)) !! v = Some dv ->
    turn_spec st (Return (inr (finalpath st)))
| turn_expand dist c v rest r :
    fringe (fwd st) <> [] -> fringe (bwd st) <> [] ->
    heappop (fringe (side_of st (negb (dir st)))) = Some ((dist, c, v), rest) ->
    dists (side_of st (negb (dir st))) !! v = None ->
    dists (side_of st (dir st)) !! v = None ->
    relax_all weight (negb (dir st)) v
      (settled (popped st (negb (dir st)) rest) (negb (dir st)) v dist)
      (view_adj G v) = r ->
    turn_spec st (match r with
                  | inl e => Return (inl e)
                  | inr st3 => Continue st3
                  end).

(** The weight function raises nothing but [OverflowError]. *)
Definition overflow_only : Prop :=
  forall u v data e, weight u v data = inl e -> e = OverflowError.

End NxInv.
End NxInv.

(** * The search on integers and the exact search *)

Module Sim.
Import Nx HeapInv.

(** An [int] and the rational it stands for. *)
Definition Rnum (x : num) (q : Q) : Prop :=
  exists z, x = Int z /\ (q == inject_Z z)%Q.

Definition Rmap (A : gmap Z num) (X : gmap Z Q) : Prop :=
  forall k, option_Forall2 Rnum (A !! k) (X !! k).

Definition Rent (a : Nx.entry) (x : Exact.entry) : Prop :=
  Rnum (fst (fst a)) (fst (fst x))
  /\ snd (fst a) = snd (fst x) /\ snd a = snd x.

(** The heap holds the entries of the list, in some order. *)
Definition Rheap (ha : list Nx.entry) (hx : list Exact.entry) : Prop :=
  exists l, Permutation ha l /\ Forall2 Rent l hx.

Definition counter_of (a : Nx.entry) : nat := snd (fst a).

(** The heap of one direction is a heap of [int] entries with distinct
    counters, all below [n]. *)
Record tidy (n : nat) (h : list Nx.entry) : Prop := mk_tidy {
  tidy_heap : heap_ok h;
  tidy_int : Forall int_entry h;
  tidy_below : Forall (fun a => (counter_of a < n)%nat) h;
  tidy_distinct : List.NoDup (map counter_of h)
}.

Record Rside (n : nat) (a : Nx.side) (x : Exact.side) : Prop := mk_Rside {
  Rs_dists : Rmap (Nx.dists a) (Exact.dists x);
  Rs_paths : Nx.paths a = Exact.paths x;
  Rs_fringe : Rheap (Nx.fringe a) (Exact.fringe x);
  Rs_tidy : tidy n (Nx.fringe a);
  Rs_seen : Rmap (Nx.seen a) (Exact.seen x)
}.

Record Rstate (a : Nx.state) (x : Exact.state) : Prop := mk_Rstate {
  R_side : forall d,
    Rside (Nx.counter a) (Nx.side_of a d) (Exact.side_of x d);
  R_counter : Nx.counter a = Exact.counter x;
  R_finaldist : Rnum (Nx.finaldist a) (Exact.finaldist x);
  R_finalpath : Nx.finalpath a = Exact.finalpath x;
  R_dir : Nx.dir a = Exact.dir x
}.

Definition Rresult (a : exn + Nx.state) (x : exn + Exact.state) : Prop :=
  match a, x with
  | inl e, inl e' => e = e'
  | inr a', inr x' => Rstate a' x'
  | _, _ => False
  end.

Definition Routcome (a : Nx.outcome) (x : Exact.outcome) : Prop :=
  match a, x with
  | Nx.Continue a', Exact.Continue x' => Rstate a' x'
  | Nx.Return r, Exact.Return r' => r = r'
  | _, _ => False
  end.

(** The weights are integers, the same in both searches. *)
Definition Rweight {E : Type} (weight : node -> node -> E -> exn + num)
    (wq : node -> node -> E -> Q) : Prop :=
  forall u v data, exists z,
    weight u v data = inr (Int z) /\ (wq u v data == inject_Z z)%Q.

End Sim.

(** * Notions used for the operations of the map and the registry *)

Module MapInv.
Import Nx Map.

(** Two entries of the adjacency hold the same attribute dictionary only
    when they are the two entries of one edge. *)
Definition refs_distinct (m : Map.t) : Prop :=
  forall x y u v r,
    Dict.get Z.eqb y (adj m x) = Some r ->
    Dict.get Z.eqb v (adj m u) = Some r ->
    (x = u /\ y = v) \/ (x = v /\ y = u).

(** [x], [y] are the ends of the edge between [a] and [b], in either
    order. *)
Definition same_edge (a b x y : node) : bool :=
  ((x =? a) && (y =? b)) || ((x =? b) && (y =? a)).

(** [G.nodes[n]]: the attribute dictionary of a node. *)
Definition node_data (m : Map.t) (n : node) : option (list (string * string)) :=
  Dict.get Z.eqb n (_node m).

(** A sequence of calls of [set_accessibility]. *)
Definition set_all (m : Map.t) (l : list (node * node * bool)) : Map.t :=
  fold_left (fun m '(a, b, acc) => set_accessibility m a b acc) l m.

End MapInv.

Module RegistrySpec.
Import Registry.

(** Registering a list of [(name, ticker)] pairs, one call each, in
    order. *)
Definition register_all (r : Registry.t) (l : list (string * string))
  : Registry.t :=
  fold_left (fun r '(name, ticker) => fst (register_company r name ticker))
            l r.

(** The registry entry of a company. *)
Definition entry (company_id : Z) (name ticker : string) : pyval * pyval :=
  (PInt company_id, PTuple (PStr name) (PStr ticker)).

(** What holds of every registry built by [register_company]: the ids are
    1, 2, ... up to the last one given out, in this order, and every value is
    a pair of strings. *)
Record consecutive (r : Registry.t) : Prop := mk_consecutive {
  cons_next : 1 <= next_company_id r;
  cons_keys :
    Dict.keys (registry r) = map PInt (seqZ 1 (next_company_id r - 1));
  cons_values :
    Forall (fun v => exists n t, v = PTuple (PStr n) (PStr t))
           (Dict.values (registry r))
}.

End RegistrySpec.

(** * Facts *)

(** * Registry *)

Lemma registry_str_key_absent (name : string) (d : list (Registry.pyval * Registry.pyval)) :
  Registry.well_shaped d ->
  Dict.mem Registry.py_eqb (Registry.PStr name) d = false.
Proof.
  unfold Dict.mem. induction 1 as [|[k v] d [[z Hk] _] _ IH]; simpl; [reflexivity|].
  simpl in Hk. subst k. simpl. exact IH.
Qed.

Lemma registry_str_value_absent (ticker : string) (d : list (Registry.pyval * Registry.pyval)) :
  Registry.well_shaped d ->
  Registry.in_values (Registry.PStr ticker) d = false.
Proof.
  unfold Registry.in_values, Dict.values.
  induction 1 as [|[k v] d [_ (a & b & Hv)] _ IH]; simpl; [reflexivity|].
  simpl in Hv. subst v. simpl. exact IH.
Qed.

Lemma well_shaped_set (d : list (Registry.pyval * Registry.pyval)) z a b :
  Registry.well_shaped d ->
  Registry.well_shaped
    (Dict.set Registry.py_eqb (Registry.PInt z) (Registry.PTuple a b) d).
Proof.
  induction 1 as [|[k v] d Hkv Hd IH]; cbn [Dict.set].
  - constructor; [|constructor]. split; simpl; eauto.
  - destruct (Registry.py_eqb (Registry.PInt z) k).
    + constructor; [|exact Hd]. destruct Hkv as [Hk _]. split; simpl; eauto.
    + constructor; [exact Hkv | exact IH].
Qed.

Lemma reachable_well_shaped (r : Registry.t) :
  Registry.reachable r -> Registry.well_shaped (Registry.registry r).
Proof.
  induction 1 as [|r name ticker _ IH]; [constructor|].
  unfold Registry.register_company.
  rewrite (registry_str_key_absent name _ IH), (registry_str_value_absent ticker _ IH).
  simpl. apply well_shaped_set, IH.
Qed.

(** On every registry the program can build, the test of [register_company]
    is false: a name is compared with integer keys and a ticker with tuples. *)
Lemma register_company_never_refuses (r : Registry.t) (name ticker : string) :
  Registry.reachable r ->
  snd (Registry.register_company r name ticker)
  = Some (Registry.next_company_id r).
Proof.
  intros Hr. apply reachable_well_shaped in Hr.
  unfold Registry.register_company.
  rewrite (registry_str_key_absent name _ Hr), (registry_str_value_absent ticker _ Hr).
  reflexivity.
Qed.

(** C8 (the code departs from the claim).  [register_company] is meant to
    refuse a name or a ticker that a registered company already has.  On the
    registry that holds one company "Acme" with ticker "ACM", registering the
    same name and ticker again is not refused: the call returns the fresh id
    2 and the registry then holds the pair twice. *)
Theorem register_company_accepts_duplicate :
  let r1 := fst (Registry.register_company Registry.init "Acme" "ACM") in
  Registry.reachable r1
  /\ Registry.name_taken r1 "Acme"
  /\ Registry.ticker_taken r1 "ACM"
  /\ snd (Registry.register_company r1 "Acme" "ACM") = Some 2
  /\ Registry.registry (fst (Registry.register_company r1 "Acme" "ACM"))
     = [(Registry.PInt 1, Registry.PTuple (Registry.PStr "Acme") (Registry.PStr "ACM"));
        (Registry.PInt 2, Registry.PTuple (Registry.PStr "Acme") (Registry.PStr "ACM"))].
Proof.
  cbv zeta. split; [apply Registry.reach_register, Registry.reach_init|].
  split; [exists (Registry.PInt 1), (Registry.PStr "ACM"); left; reflexivity|].
  split; [exists (Registry.PInt 1), (Registry.PStr "Acme"); left; reflexivity|].
  split; reflexivity.

Defined.

(** * Dictionaries keyed by integers *)

Section DictZ.
Context {V : Type}.
Implicit Types (d : list (Z * V)) (k : Z) (v : V).

Lemma get_set_eq d k v : Dict.get Z.eqb k (Dict.set Z.eqb k v d) = Some v.
Proof.
  induction d as [|[k' v'] d IH]; simpl.
  - rewrite Z.eqb_refl. reflexivity.
  - destruct (k =? k') eqn:E; simpl; rewrite E; [reflexivity | exact IH].
Qed.

Lemma get_set_ne d k k' v :
  k <> k' -> Dict.get Z.eqb k' (Dict.set Z.eqb k v d) = Dict.get Z.eqb k' d.
Proof.
  intros Hne. induction d as [|[k0 v0] d IH]; simpl.
  - destruct (k' =? k) eqn:E; [apply Z.eqb_eq in E; congruence | reflexivity].
  - destruct (k =? k0) eqn:E; simpl.
    + apply Z.eqb_eq in E. subst k0.
      destruct (k' =? k) eqn:E'; [apply Z.eqb_eq in E'; congruence | reflexivity].
    + destruct (k' =? k0); [reflexivity | exact IH].
Qed.

Lemma get_set d k k' v :
  Dict.get Z.eqb k' (Dict.set Z.eqb k v d)
  = if k' =? k then Some v else Dict.get Z.eqb k' d.
Proof.
  destruct (k' =? k) eqn:E.
  - apply Z.eqb_eq in E. subst. apply get_set_eq.
  - apply Z.eqb_neq in E. apply get_set_ne. congruence.
Qed.

Lemma get_Some_In d k v : Dict.get Z.eqb k d = Some v -> In (k, v) d.
Proof.
  induction d as [|[k' v'] d IH]; simpl; [discriminate|].
  destruct (k =? k') eqn:E.
  - apply Z.eqb_eq in E. intros [= ->]. left. congruence.
  - intros H. right. exact (IH H).
Qed.

Lemma get_None_keys d k : Dict.get Z.eqb k d = None <-> ~ In k (Dict.keys d).
Proof.
  induction d as [|[k' v'] d IH]; simpl; [tauto|].
  destruct (k =? k') eqn:E.
  - apply Z.eqb_eq in E. split; [discriminate | intros H; exfalso; apply H; auto].
  - apply Z.eqb_neq in E. rewrite IH. split; [intros H [H'|H']; congruence | tauto].
Qed.

Lemma get_is_Some_keys d k :
  In k (Dict.keys d) <-> exists v, Dict.get Z.eqb k d = Some v.
Proof.
  destruct (Dict.get Z.eqb k d) as [v|] eqn:E.
  - split; [eauto|]. intros _. apply get_Some_In in E.
    unfold Dict.keys. apply in_map_iff. exists (k, v). auto.
  - apply get_None_keys in E. split; [tauto | intros [v Hv]; discriminate].
Qed.

Lemma In_get d k v :
  List.NoDup (Dict.keys d) -> In (k, v) d -> Dict.get Z.eqb k d = Some v.
Proof.
  induction d as [|[k' v'] d IH]; simpl; [tauto|].
  intros Hnd [H|H].
  - injection H as -> ->. rewrite Z.eqb_refl. reflexivity.
  - apply NoDup_cons_iff in Hnd. destruct Hnd as [Hni Hnd].
    destruct (k =? k') eqn:E; [|exact (IH Hnd H)].
    apply Z.eqb_eq in E. subst k'. exfalso. apply Hni.
    unfold Dict.keys in *. apply in_map_iff. exists (k, v). auto.
Qed.

Lemma keys_set_In d k v x :
  In x (Dict.keys (Dict.set Z.eqb k v d)) <-> x = k \/ In x (Dict.keys d).
Proof.
  rewrite !get_is_Some_keys. setoid_rewrite get_set.
  destruct (x =? k) eqn:E.
  - apply Z.eqb_eq in E. split; eauto.
  - apply Z.eqb_neq in E. split; [eauto | intros [H|H]; [congruence | exact H]].
Qed.

Lemma keys_set d k v :
  Dict.keys (Dict.set Z.eqb k v d)
  = if Dict.mem Z.eqb k d then Dict.keys d else Dict.keys d ++ [k].
Proof.
  unfold Dict.mem. induction d as [|[k' v'] d IH]; simpl; [reflexivity|].
  destruct (k =? k') eqn:E; simpl; [reflexivity|].
  rewrite IH. destruct (Dict.get Z.eqb k d); reflexivity.
Qed.

Lemma NoDup_keys_set d k v :
  List.NoDup (Dict.keys d) -> List.NoDup (Dict.keys (Dict.set Z.eqb k v d)).
Proof.
  intros Hnd. rewrite keys_set. unfold Dict.mem.
  destruct (Dict.get Z.eqb k d) eqn:E; [exact Hnd|].
  apply get_None_keys in E.
  apply List.NoDup_app; [exact Hnd | |].
  - constructor; [intros [] | constructor].
  - intros x Hx [<-|[]]. contradiction.
Qed.

Lemma mem_true_iff d k : Dict.mem Z.eqb k d = true <-> In k (Dict.keys d).
Proof.
  unfold Dict.mem. rewrite get_is_Some_keys.
  destruct (Dict.get Z.eqb k d); split; eauto; try discriminate.
  intros [v Hv]. discriminate.
Qed.
End DictZ.

Import Nx GraphInv.

(** * Graph operations keep the graph well formed *)

Section GraphFacts.
Context {E : Type}.
Implicit Types (g : Graph E) (u v x y n : node) (r : nat).

Lemma adjl_link a u v r x :
  adjl (link u v r a) x
  = if x =? u then Dict.set Z.eqb v r (adjl a u) else adjl a x.
Proof.
  unfold adjl, link. rewrite get_set. destruct (x =? u); reflexivity.
Qed.

Lemma get_adjl_link a u v r x y :
  Dict.get Z.eqb y (adjl (link u v r a) x)
  = if (x =? u) && (y =? v) then Some r else Dict.get Z.eqb y (adjl a x).
Proof.
  rewrite adjl_link. destruct (x =? u) eqn:Exu; simpl; [|reflexivity].
  apply Z.eqb_eq in Exu. subst x. rewrite get_set.
  destruct (y =? v); reflexivity.
Qed.

Lemma keys_link a u v r x :
  In x (Dict.keys (link u v r a)) <-> x = u \/ In x (Dict.keys a).
Proof. unfold link. apply keys_set_In. Qed.

Lemma has_node_iff g n : has_node g n = true <-> In n (Dict.keys (_node g)).
Proof. apply mem_true_iff. Qed.

Lemma adj_touch g n x : wf g -> adj (touch_node g n) x = adj g x.
Proof.
  intros W. unfold touch_node. destruct (has_node g n) eqn:Hn; [reflexivity|].
  unfold adj; simpl. rewrite get_set.
  destruct (x =? n) eqn:E'; [|reflexivity].
  apply Z.eqb_eq in E'. subst x.
  destruct (Dict.get Z.eqb n (_adj g)) eqn:G; [|reflexivity].
  exfalso. assert (H : In n (Dict.keys (_adj g))) by (apply get_is_Some_keys; eauto).
  apply (wf_same_keys g W), has_node_iff in H. congruence.
Qed.

Lemma wf_empty : wf (@Nx.empty E).
Proof.
  constructor; simpl; try constructor; try tauto; unfold adj; simpl;
    try constructor; discriminate.
Qed.

Lemma wf_touch g n : wf g -> wf (touch_node g n).
Proof.
  intros W. pose proof (adj_touch g n) as HA.
  unfold touch_node in *. destruct (has_node g n) eqn:Hn; [exact W|].
  destruct W as [W1 W2 W3 W4 W5 W6].
  pose proof (mk_wf g W1 W2 W3 W4 W5 W6) as W.
  constructor; simpl.
  - apply NoDup_keys_set, W1.
  - apply NoDup_keys_set, W2.
  - intros u. rewrite !keys_set_In, W3. reflexivity.
  - intros u. rewrite (HA u W). apply W4.
  - intros u v r. rewrite (HA u W), (HA v W). apply W5.
  - intros u v r. rewrite (HA u W). apply W6.
Qed.

Lemma has_node_touch g n x :
  has_node (touch_node g n) x = true <-> x = n \/ has_node g x = true.
Proof.
  unfold touch_node. destruct (has_node g n) eqn:Hn.
  - split; [auto | intros [->|H]; assumption].
  - rewrite !has_node_iff; simpl. apply keys_set_In.
Qed.

Lemma cells_touch g n : cells (touch_node g n) = cells g.
Proof. unfold touch_node. destruct (has_node g n); reflexivity. Qed.

Lemma wf_add_node g n attr : wf g -> wf (add_node g n attr).
Proof.
  intros W. unfold add_node.
  destruct (Dict.get Z.eqb n (_node g)) as [old|] eqn:G.
  - destruct W as [W1 W2 W3 W4 W5 W6]. constructor; simpl; try assumption.
    + apply NoDup_keys_set, W1.
    + intros u. rewrite keys_set_In, W3. split; [auto|].
      intros [->|H]; [|exact H]. apply get_is_Some_keys. eauto.
  - assert (Hn : has_node g n = false) by (unfold has_node, Dict.mem; rewrite G; reflexivity).
    pose proof (wf_touch g n W) as W'. pose proof (adj_touch g n) as HA.
    unfold touch_node in W', HA. rewrite Hn in W', HA.
    destruct W' as [W1 W2 W3 W4 W5 W6]. simpl in *.
    constructor; simpl; try assumption.
    + apply NoDup_keys_set, (wf_node_keys g W).
    + intros u. rewrite !keys_set_In. rewrite (wf_same_keys g W). reflexivity.
Qed.

Lemma adj_add_edge g u v data x y :
  wf g ->
  Dict.get Z.eqb y (adj (add_edge g u v data) x)
  = if ((x =? u) && (y =? v)) || ((x =? v) && (y =? u))
    then Some (edge_ref g u v)
    else Dict.get Z.eqb y (adj g x).
Proof.
  intros W.
  pose proof (wf_touch g u W) as W1.
  assert (HA : forall z, adj (touch_node (touch_node g u) v) z = adj g z).
  { intros z. rewrite adj_touch by exact W1. apply adj_touch, W. }
  assert (HC : cells (touch_node (touch_node g u) v) = cells g)
    by (rewrite !cells_touch; reflexivity).
  unfold add_edge, edge_ref. rewrite HA, HC.
  set (g1 := touch_node (touch_node g u) v) in *.
  assert (HL : forall r,
    Dict.get Z.eqb y (adjl (link v u r (link u v r (_adj g1))) x)
    = if ((x =? u) && (y =? v)) || ((x =? v) && (y =? u))
      then Some r else Dict.get Z.eqb y (adj g x)).
  { intros r. rewrite !get_adjl_link.
    change (adjl (_adj g1) x) with (adj g1 x). rewrite HA.
    destruct ((x =? v) && (y =? u)), ((x =? u) && (y =? v)); reflexivity. }
  destruct (Dict.get Z.eqb v (adj g u)); unfold adj at 1; simpl; apply HL.
Qed.

Lemma has_node_add_edge g u v data x :
  has_node (add_edge g u v data) x = true
  <-> x = u \/ x = v \/ has_node g x = true.
Proof.
  assert (H : _node (add_edge g u v data) = _node (touch_node (touch_node g u) v)).
  { unfold add_edge. destruct (Dict.get Z.eqb v _); reflexivity. }
  unfold has_node at 1. rewrite H.
  change (has_node (touch_node (touch_node g u) v) x = true <-> x = u \/ x = v \/ has_node g x = true).
  rewrite !has_node_touch. tauto.
Qed.

Lemma wf_add_edge g u v data : wf g -> wf (add_edge g u v data).
Proof.
  intros W.
  pose proof (wf_touch _ v (wf_touch g u W)) as W1.
  pose proof (adj_add_edge g u v data) as HG.
  assert (HA : forall z, adj (touch_node (touch_node g u) v) z = adj g z).
  { intros z. rewrite adj_touch by (apply wf_touch, W). apply adj_touch, W. }
  assert (Hu : has_node (touch_node (touch_node g u) v) u = true)
    by (apply has_node_touch; right; apply has_node_touch; auto).
  assert (Hv : has_node (touch_node (touch_node g u) v) v = true)
    by (apply has_node_touch; auto).
  set (g1 := touch_node (touch_node g u) v) in *.
  assert (HK : forall r x,
    In x (Dict.keys (link v u r (link u v r (_adj g1))))
    <-> In x (Dict.keys (_node g1))).
  { intros r x. rewrite !keys_link, (wf_same_keys g1 W1).
    apply has_node_iff in Hu, Hv. split; [intros [->|[->|H]]; assumption | auto]. }
  assert (HN : forall r,
    List.NoDup (Dict.keys (link v u r (link u v r (_adj g1))))).
  { intros r. unfold link. apply NoDup_keys_set, NoDup_keys_set, (wf_adj_keys g1 W1). }
  assert (HI : forall r x,
    List.NoDup (Dict.keys (adjl (link v u r (link u v r (_adj g1))) x))).
  { intros r x. rewrite adjl_link. destruct (x =? v).
    - apply NoDup_keys_set. rewrite adjl_link. destruct (v =? u).
      + apply NoDup_keys_set, (wf_inner g1 W1).
      + apply (wf_inner g1 W1).
    - rewrite adjl_link. destruct (x =? u).
      + apply NoDup_keys_set, (wf_inner g1 W1).
      + apply (wf_inner g1 W1). }
  assert (HS : forall x y r,
    Dict.get Z.eqb y (adj (add_edge g u v data) x) = Some r ->
    Dict.get Z.eqb x (adj (add_edge g u v data) y) = Some r).
  { intros x y r. rewrite !HG by exact W.
    destruct (x =? u) eqn:Exu, (x =? v) eqn:Exv, (y =? u) eqn:Eyu,
             (y =? v) eqn:Eyv; simpl; try (intros H; exact H);
      try apply (wf_sym g W). }
  assert (HR : forall x y r,
    Dict.get Z.eqb y (adj (add_edge g u v data) x) = Some r ->
    (r < length (cells (add_edge g u v data)))%nat).
  { intros x y r. rewrite HG by exact W.
    assert (HC : cells g1 = cells g) by (unfold g1; rewrite !cells_touch; reflexivity).
    assert (HL : (length (cells g) <= length (cells (add_edge g u v data)))%nat
                 /\ (edge_ref g u v < length (cells (add_edge g u v data)))%nat).
    { unfold add_edge, edge_ref. fold g1. rewrite HA.
      destruct (Dict.get Z.eqb v (adj g u)) as [r0|] eqn:G; simpl; rewrite HC.
      - rewrite length_insert. split; [lia|]. apply (wf_ref g W u v), G.
      - rewrite length_app; simpl. lia. }
    destruct (_ || _).
    - intros [= <-]. apply HL.
    - intros H. apply (wf_ref g W) in H. lia. }
  unfold add_edge in *. fold g1 in HS, HR |- *.
  destruct (Dict.get Z.eqb v (adj g1 u)) as [r|]; constructor; simpl;
    try apply (wf_node_keys g1 W1); try apply HN; try apply HK;
    try apply HI; try apply HS; try apply HR.
Qed.

End GraphFacts.

(** * The map *)

Import Map.

Lemma wf_set_accessibility (m : Map.t) a b acc :
  wf m -> wf (set_accessibility m a b acc).
Proof.
  intros W. unfold set_accessibility.
  destruct (has_edge m a b); try exact W;
    destruct (Dict.get Z.eqb b (adj m a)); try exact W;
    destruct W as [W1 W2 W3 W4 W5 W6]; constructor; simpl; try assumption;
    intros u v r0 H; rewrite length_alter; exact (W6 u v r0 H).
Qed.

Lemma wf_apply (m : Map.t) (o : op) : wf m -> wf (apply m o).
Proof.
  intros W. destruct o; simpl.
  - apply wf_add_node, W.
  - apply wf_add_edge, W.
  - apply wf_set_accessibility, W.
Qed.

Lemma wf_fold (ops : list op) (m : Map.t) : wf m -> wf (fold_left apply ops m).
Proof.
  revert m. induction ops as [|o ops IH]; intros m W; simpl; [exact W|].
  apply IH, wf_apply, W.
Qed.

Lemma reachable_wf (m : Map.t) : reachable m -> wf m.
Proof. intros [ops ->]. apply wf_fold, wf_empty. Qed.

(** * Chains and sums along a list *)

Section PathFacts.
Context {A : Type}.
Implicit Types (R : A -> A -> Prop) (w : A -> A -> Q) (p q : list A) (x y : A).

Lemma head_rev p : head (rev p) = last p.
Proof.
  induction p as [|x p IH]; [reflexivity|]. simpl rev.
  rewrite head_app, IH, last_cons. destruct (last p); reflexivity.
Qed.

Lemma last_rev p : last (rev p) = head p.
Proof. rewrite <- head_rev, rev_involutive. reflexivity. Qed.

Lemma chain_cons R x p :
  Path.chain R (x :: p)
  <-> match head p with Some y => R x y | None => True end /\ Path.chain R p.
Proof. destruct p as [|y p]; simpl; tauto. Qed.

Lemma chain_app R p x q :
  Path.chain R (p ++ x :: q)
  <-> Path.chain R (p ++ [x]) /\ Path.chain R (x :: q).
Proof.
  induction p as [|z p IH].
  - simpl. tauto.
  - rewrite <- !app_comm_cons, !(chain_cons R z), IH, !head_app.
    destruct (head p); simpl; tauto.
Qed.

Lemma chain_snoc R p x :
  Path.chain R (p ++ [x])
  <-> Path.chain R p /\ match last p with Some y => R y x | None => True end.
Proof.
  induction p as [|z p IH].
  - simpl. tauto.
  - rewrite <- app_comm_cons, !(chain_cons R z), IH, head_app, last_cons.
    destruct p as [|z' p]; simpl; [tauto|].
    destruct (last (z' :: p)) eqn:L; [tauto|].
    apply last_None in L. discriminate.
Qed.

Lemma chain_rev R p :
  (forall x y, R x y -> R y x) -> Path.chain R p -> Path.chain R (rev p).
Proof.
  intros S. induction p as [|x p IH]; [trivial|].
  rewrite chain_cons. intros [H1 H2]. simpl rev.
  apply chain_snoc. split; [exact (IH H2)|].
  rewrite last_rev. destruct (head p); [apply S, H1 | exact I].
Qed.

Lemma chain_impl R (R' : A -> A -> Prop) p :
  (forall x y, R x y -> R' x y) -> Path.chain R p -> Path.chain R' p.
Proof.
  intros HR. induction p as [|x p IH]; [trivial|].
  rewrite !chain_cons. intros [H1 H2]. split; [|exact (IH H2)].
  destruct (head p); [apply HR, H1 | exact I].
Qed.

Lemma chain_tl R p : Path.chain R p -> Path.chain R (tl p).
Proof. destruct p as [|x p]; [trivial|]. rewrite chain_cons. simpl. tauto. Qed.

Lemma total_cons w x p :
  (Path.total w (x :: p)
   == match head p with Some y => w x y | None => 0 end + Path.total w p)%Q.
Proof. destruct p as [|y p]; simpl; lra. Qed.

Lemma total_app w p x q :
  (Path.total w (p ++ x :: q)
   == Path.total w (p ++ [x]) + Path.total w (x :: q))%Q.
Proof.
  induction p as [|z p IH].
  - simpl app. simpl (Path.total w [x]). lra.
  - rewrite <- !app_comm_cons, !(total_cons w z), IH, !head_app.
    destruct (head p); simpl; lra.
Qed.

Lemma total_snoc w p x :
  (Path.total w (p ++ [x])
   == Path.total w p + match last p with Some y => w y x | None => 0 end)%Q.
Proof.
  induction p as [|z p IH].
  - simpl. lra.
  - rewrite <- app_comm_cons, !(total_cons w z), IH, head_app, last_cons.
    destruct p as [|z' p]; [simpl; lra|].
    change (head (z' :: p)) with (Some z').
    destruct (last (z' :: p)) eqn:L; [lra|].
    apply last_None in L. discriminate.
Qed.

Lemma total_rev w p :
  (Path.total (fun x y => w y x) (rev p) == Path.total w p)%Q.
Proof.
  induction p as [|x p IH]; [reflexivity|]. simpl rev.
  rewrite total_snoc, total_cons, IH, last_rev. destruct (head p); lra.
Qed.

Lemma total_ext R w (w' : A -> A -> Q) p :
  (forall x y, R x y -> (w x y == w' x y)%Q) ->
  Path.chain R p -> (Path.total w p == Path.total w' p)%Q.
Proof.
  intros HW. induction p as [|x p IH]; [reflexivity|].
  rewrite chain_cons, !total_cons. intros [H1 H2]. rewrite (IH H2).
  destruct (head p); [rewrite (HW _ _ H1)|]; reflexivity.
Qed.

Lemma total_nonneg R w p :
  (forall x y, R x y -> (0 <= w x y)%Q) ->
  Path.chain R p -> (0 <= Path.total w p)%Q.
Proof.
  intros HW. induction p as [|x p IH]; [simpl; lra|].
  rewrite chain_cons, total_cons. intros [H1 H2]. specialize (IH H2).
  destruct (head p); [specialize (HW _ _ H1)|]; lra.
Qed.

Lemma consecutive_chain R a b p :
  Path.consecutive a b p -> Path.chain R p -> R a b.
Proof.
  intros (p1 & p2 & ->) H. apply chain_app in H. destruct H as [_ H].
  simpl in H. tauto.
Qed.

Lemma chain_join R p q x :
  last p = Some x -> head q = Some x ->
  Path.chain R p -> Path.chain R q -> Path.chain R (p ++ tl q).
Proof.
  intros Hp Hq Cp Cq. apply last_Some in Hp. destruct Hp as [p' ->].
  destruct q as [|y q]; [discriminate|]. injection Hq as ->. simpl tl.
  rewrite <- app_assoc. simpl. apply chain_app. tauto.
Qed.

Lemma total_join w p q x :
  last p = Some x -> head q = Some x ->
  (Path.total w (p ++ tl q) == Path.total w p + Path.total w q)%Q.
Proof.
  intros Hp Hq. apply last_Some in Hp. destruct Hp as [p' ->].
  destruct q as [|y q]; [discriminate|]. injection Hq as ->. simpl tl.
  rewrite <- app_assoc. simpl. apply total_app.
Qed.

End PathFacts.

Import Nx GraphInv SearchInv Exact.

(** * The heap of the exact search *)

Lemma heappop_None (h : list entry) : heappop h = None <-> h = [].
Proof.
  destruct h as [|x h]; simpl; [tauto|].
  split; [|discriminate].
  destruct (heappop h) as [[m r]|]; [destruct (entry_lt x m)|]; discriminate.
Qed.

Lemma heappop_In (h : list entry) (m : entry) (r : list entry) :
  heappop h = Some (m, r) ->
  forall x, In x h <-> x = m \/ In x r.
Proof.
  revert m r. induction h as [|y h IH]; intros m r; simpl; [discriminate|].
  destruct (heappop h) as [[m' r']|] eqn:P.
  - specialize (IH m' r' eq_refl).
    destruct (entry_lt y m'); intros [= <- <-] x; simpl.
    + split; (intros [H|H]; [left; congruence | right; exact H]).
    + rewrite IH. split; [intros [H|[H|H]] | intros [H|[H|H]]]; auto.
  - apply heappop_None in P. subst h. intros [= <- <-] x. simpl.
    split; intros [H|[]]; left; congruence.
Qed.

Lemma heappop_length (h : list entry) (m : entry) (r : list entry) :
  heappop h = Some (m, r) -> length h = S (length r).
Proof.
  revert m r. induction h as [|y h IH]; intros m r; simpl; [discriminate|].
  destruct (heappop h) as [[m' r']|] eqn:P.
  - specialize (IH m' r' eq_refl).
    destruct (entry_lt y m'); intros [= <- <-]; simpl; lia.
  - apply heappop_None in P. subst h. intros [= <- <-]. reflexivity.
Qed.

Lemma entry_lt_false (x y : entry) :
  entry_lt x y = false -> (fst (fst y) <= fst (fst x))%Q.
Proof.
  unfold entry_lt. destruct (fst (fst x) ?= fst (fst y))%Q eqn:C; intros H.
  - apply Qeq_alt in C. lra.
  - discriminate.
  - apply Qgt_alt in C. lra.
Qed.

Lemma entry_lt_true (x y : entry) :
  entry_lt x y = true -> (fst (fst x) <= fst (fst y))%Q.
Proof.
  unfold entry_lt. destruct (fst (fst x) ?= fst (fst y))%Q eqn:C; intros H.
  - apply Qeq_alt in C. lra.
  - apply Qlt_alt in C. lra.
  - discriminate.
Qed.

Lemma heappop_min (h : list entry) (m : entry) (r : list entry) :
  heappop h = Some (m, r) ->
  forall x, In x h -> (fst (fst m) <= fst (fst x))%Q.
Proof.
  revert m r. induction h as [|y h IH]; intros m r; simpl; [discriminate|].
  destruct (heappop h) as [[m' r']|] eqn:P.
  - specialize (IH m' r' eq_refl).
    destruct (entry_lt y m') eqn:L; intros [= <- <-] x [<-|Hx].
    + lra.
    + apply entry_lt_true in L. specialize (IH x Hx). lra.
    + apply entry_lt_false in L. exact L.
    + exact (IH x Hx).
  - apply heappop_None in P. subst h. intros [= <- <-] x [<-|[]]. lra.
Qed.

(** * The state *)

Lemma side_of_with_side (st : state) (d : bool) (s : side) :
  side_of (with_side st d s) d = s.
Proof. destruct d; reflexivity. Qed.

Lemma side_of_with_side_other (st : state) (d : bool) (s : side) :
  side_of (with_side st d s) (negb d) = side_of st (negb d).
Proof. destruct d; reflexivity. Qed.

Lemma side_of_cases (st : state) (d d' : bool) (s : side) :
  side_of (with_side st d s) d' = if Bool.eqb d' d then s else side_of st d'.
Proof. destruct d, d'; reflexivity. Qed.

Lemma with_side_fields (st : state) (d : bool) (s : side) :
  counter (with_side st d s) = counter st
  /\ finaldist (with_side st d s) = finaldist st
  /\ finalpath (with_side st d s) = finalpath st
  /\ dir (with_side st d s) = dir st.
Proof. destruct d; repeat split. Qed.

Lemma Qltb_true (x y : Q) : Qltb x y = true <-> (x < y)%Q.
Proof. unfold Qltb. destruct (Qlt_le_dec x y); split; try discriminate; auto; lra. Qed.

Lemma Qltb_false (x y : Q) : Qltb x y = false <-> (y <= x)%Q.
Proof. unfold Qltb. destruct (Qlt_le_dec x y); split; try discriminate; auto; lra. Qed.

Section SearchFacts.
Context {E : Type}.
Variable G : View E.
Variable weight : node -> node -> E -> Q.
Variables source target : node.

#[local] Abbreviation origin := (origin source target).
#[local] Abbreviation sound := (sound G source target).
#[local] Abbreviation vw_length := (vw_length weight).
#[local] Abbreviation relax_spec := (relax_spec weight).
#[local] Abbreviation turn_spec := (turn_spec G weight).
#[local] Abbreviation side_measure := (side_measure G).
#[local] Abbreviation pot_list := (pot_list G).

Lemma relax_cases (d : bool) (v : node) (st : state) (w : node) (data : E) :
  relax_spec d v st w data (relax weight d v st (w, data)).
Proof.
  unfold relax. fold (SearchInv.vw_length weight d v w data st).
  destruct (dists (side_of st d) !! w) as [dw|] eqn:Dw.
  - destruct (Qltb _ dw) eqn:L.
    + apply Qltb_true in L. eapply relax_contradiction; eauto.
    + apply Qltb_false in L. eapply relax_settled; eauto.
  - destruct (seen (side_of st d) !! w) as [sw|] eqn:Sw.
    + destruct (Qltb _ sw) eqn:L.
      * apply Qltb_true in L. apply relax_improve; [exact Dw|].
        intros sw' Heq. assert (sw' = sw) by congruence. subst sw'. exact L.
      * apply Qltb_false in L. eapply relax_keep; eauto.
    + apply relax_improve; [exact Dw|]. intros sw' Heq. congruence.
Qed.

Lemma side_of_pushed (d : bool) (v w : node) (vw : Q) (st : state) (d' : bool) :
  side_of (pushed d v w vw st) d'
  = if Bool.eqb d' d
    then {| dists := dists (side_of st d);
            paths := <[w := default [] (paths (side_of st d) !! v) ++ [w]]>
                       (paths (side_of st d));
            fringe := heappush (fringe (side_of st d)) (vw, counter st, w);
            seen := <[w := vw]> (seen (side_of st d)) |}
    else side_of st d'.
Proof. destruct d, d'; reflexivity. Qed.

Lemma pushed_fields (d : bool) (v w : node) (vw : Q) (st : state) :
  finaldist (pushed d v w vw st) = finaldist st
  /\ finalpath (pushed d v w vw st) = finalpath st
  /\ dir (pushed d v w vw st) = dir st.
Proof. destruct d; repeat split. Qed.

Lemma side_of_meet (st : state) (w : node) (d : bool) :
  side_of (meet st w) d = side_of st d.
Proof.
  unfold meet.
  destruct (seen (fwd st) !! w), (seen (bwd st) !! w); try reflexivity.
  destruct (_ || _); destruct d; reflexivity.
Qed.

Lemma dir_meet (st : state) (w : node) : dir (meet st w) = dir st.
Proof.
  unfold meet.
  destruct (seen (fwd st) !! w), (seen (bwd st) !! w); try reflexivity.
  destruct (_ || _); reflexivity.
Qed.

Lemma meet_cases (st : state) (w : node) : meet_spec st w.
Proof.
  destruct (seen (fwd st) !! w) as [s0|] eqn:S0;
    [destruct (seen (bwd st) !! w) as [s1|] eqn:S1|].
  - destruct (match finalpath st with [] => true | _ => false end
              || Qltb (s0 + s1) (finaldist st)) eqn:C.
    + eapply meet_better; eauto; unfold meet; rewrite ?S0, ?S1, ?C; try reflexivity.
      apply orb_true_iff in C. destruct C as [C|C].
      * left. destruct (finalpath st); [reflexivity | discriminate].
      * right. apply Qltb_true, C.
    + apply orb_false_iff in C. destruct C as [C1 C2].
      eapply meet_worse; eauto; unfold meet; rewrite ?S0, ?S1, ?C1, ?C2; try reflexivity.
      * destruct (finalpath st); [discriminate | congruence].
      * apply Qltb_false, C2.
  - apply meet_none; [auto | |]; unfold meet; rewrite S0, S1; reflexivity.
  - apply meet_none; [auto | |]; unfold meet; rewrite S0; reflexivity.
Qed.

(** ** Walks of the view *)

Lemma walk_origin (a : node) : walk G a a [a].
Proof. repeat split. Qed.

Lemma walk_nonempty (a b : node) (p : list node) : walk G a b p -> p <> [].
Proof. intros [H _] ->. discriminate. Qed.

Lemma walk_snoc (a v w : node) (p : list node) :
  walk G a v p -> vedge G v w -> walk G a w (p ++ [w]).
Proof.
  intros (Hh & Hl & Hc) He. split; [|split].
  - rewrite head_app, Hh. reflexivity.
  - apply last_snoc.
  - apply chain_snoc. rewrite Hl. split; assumption.
Qed.

Lemma vedge_sym (u w : node) : view_ok G -> vedge G u w -> vedge G w u.
Proof. intros V [data H]. exists data. apply (vo_sym G V), H. Qed.

Lemma walk_rev (a b : node) (p : list node) :
  view_ok G -> walk G a b p -> walk G b a (rev p).
Proof.
  intros V (Hh & Hl & Hc). split; [|split].
  - rewrite head_rev. exact Hl.
  - rewrite last_rev. exact Hh.
  - apply chain_rev; [|exact Hc]. intros x y. apply vedge_sym, V.
Qed.

Lemma walk_join (a w b : node) (p q : list node) :
  walk G a w p -> walk G w b q -> walk G a b (p ++ tl q).
Proof.
  intros (Hh & Hl & Hc) (Hh' & Hl' & Hc'). split; [|split].
  - rewrite head_app, Hh. reflexivity.
  - destruct q as [|x [|y q]]; try discriminate.
    + simpl in *. rewrite app_nil_r. congruence.
    + simpl tl. rewrite last_app. rewrite last_cons_cons in Hl'. rewrite Hl'.
      reflexivity.
  - eapply chain_join; eauto.
Qed.

Lemma walk_last_node (a b : node) (p : list node) :
  view_ok G -> In a (view_nodes G) -> walk G a b p -> In b (view_nodes G).
Proof.
  intros V Ha (Hh & Hl & Hc). revert b Hl Hc Hh.
  induction p as [|x p IH] using rev_ind; intros b Hl Hc Hh; [discriminate|].
  rewrite last_snoc in Hl. injection Hl as ->.
  apply chain_snoc in Hc. destruct Hc as [Hc He].
  destruct (last p) as [y|] eqn:L.
  - destruct He as [data He]. apply (vo_closed G V) in He. tauto.
  - apply last_None in L. subst p. simpl in Hh. congruence.
Qed.

(** ** Soundness of the stored paths *)

Hypothesis V : view_ok G.
Hypothesis Hsource : In source (view_nodes G).
Hypothesis Htarget : In target (view_nodes G).
Hypothesis Hdistinct : source <> target.

Lemma origin_node (d : bool) : In (origin d) (view_nodes G).
Proof. destruct d; assumption. Qed.

Lemma sound_init : sound (init_state source target).
Proof.
  constructor.
  - intros d w sw. destruct d; simpl; intros H;
      apply lookup_singleton_Some in H; destruct H as [<- _];
      eexists; (split; [apply lookup_singleton_eq | apply walk_origin]).
  - intros d k c w. destruct d; simpl; intros [[= <- <- <-]|[]];
      rewrite lookup_singleton_eq; eauto.
  - intros d w dw. destruct d; simpl; rewrite lookup_empty; discriminate.
  - intros w [s0 H0] [s1 H1]. simpl in *.
    apply lookup_singleton_Some in H0, H1. destruct H0 as [<- _], H1 as [<- _].
    contradiction.
  - simpl. congruence.
Qed.

Lemma sound_popped (st : state) (d : bool) (m : entry) (rest : list entry) :
  sound st -> heappop (fringe (side_of st d)) = Some (m, rest) ->
  sound (popped st d rest).
Proof.
  intros [S1 S2 S3 S4 S5] P. pose proof (heappop_In _ _ _ P) as HI.
  assert (HS : forall d', seen (side_of (popped st d rest) d') = seen (side_of st d')
                       /\ paths (side_of (popped st d rest) d') = paths (side_of st d')
                       /\ dists (side_of (popped st d rest) d') = dists (side_of st d')
                       /\ forall x, In x (fringe (side_of (popped st d rest) d')) ->
                                    In x (fringe (side_of st d'))).
  { intros d'. destruct d, d'; simpl; repeat split; auto; intros x Hx;
      apply HI; auto. }
  constructor.
  - intros d' w sw. destruct (HS d') as (-> & -> & _). apply S1.
  - intros d' k c w H. destruct (HS d') as (-> & _ & _ & HF). eapply S2, HF, H.
  - intros d' w dw. destruct (HS d') as (-> & _ & -> & _). apply S3.
  - destruct d; simpl; exact S4.
  - destruct d; simpl; exact S5.
Qed.

Lemma sound_settled (st : state) (d : bool) (v : node) (dist : Q) :
  sound st -> is_Some (seen (side_of st d) !! v) ->
  sound (settled st d v dist).
Proof.
  intros [S1 S2 S3 S4 S5] Hv.
  assert (HS : forall d', seen (side_of (settled st d v dist) d') = seen (side_of st d')
                       /\ paths (side_of (settled st d v dist) d') = paths (side_of st d')
                       /\ fringe (side_of (settled st d v dist) d') = fringe (side_of st d')
                       /\ dists (side_of (settled st d v dist) d')
                          = if Bool.eqb d' d then <[v := dist]> (dists (side_of st d'))
                            else dists (side_of st d')).
  { intros d'. destruct d, d'; simpl; repeat split; auto. }
  constructor.
  - intros d' w sw. destruct (HS d') as (-> & -> & _). apply S1.
  - intros d' k c w. destruct (HS d') as (-> & _ & -> & _). apply S2.
  - intros d' w dw. destruct (HS d') as (-> & _ & _ & ->).
    destruct (Bool.eqb d' d) eqn:B; [|apply S3].
    apply eqb_prop in B. subst d'.
    destruct (decide (w = v)) as [->|Hne]; [intros _; exact Hv|].
    rewrite lookup_insert_ne by congruence. apply S3.
  - destruct d; simpl; exact S4.
  - destruct d; simpl; exact S5.
Qed.

Lemma sound_pushed_meet (st : state) (d : bool) (v w : node) (vw : Q) (pv : list node) :
  sound st ->
  paths (side_of st d) !! v = Some pv -> walk G (origin d) v pv ->
  vedge G v w ->
  sound (meet (pushed d v w vw st) w).
Proof.
  intros [S1 S2 S3 S4 S5] Hpv Wv He.
  set (st1 := pushed d v w vw st).
  assert (HS : forall d' x,
    (is_Some (seen (side_of st d') !! x) -> is_Some (seen (side_of st1 d') !! x))
    /\ (is_Some (seen (side_of st1 d') !! x) ->
        (d' = d /\ x = w) \/ is_Some (seen (side_of st d') !! x))).
  { intros d' x. unfold st1. rewrite side_of_pushed.
    destruct (Bool.eqb d' d) eqn:B; [|tauto]. apply eqb_prop in B. subst d'.
    simpl. destruct (decide (x = w)) as [->|Hne].
    - rewrite lookup_insert_eq. split; eauto.
    - rewrite lookup_insert_ne by congruence. tauto. }
  assert (P1 : forall d' x sx, seen (side_of st1 d') !! x = Some sx ->
    exists p, paths (side_of st1 d') !! x = Some p /\ walk G (origin d') x p).
  { intros d' x sx. unfold st1. rewrite side_of_pushed.
    destruct (Bool.eqb d' d) eqn:B; [|apply S1]. apply eqb_prop in B. subst d'.
    simpl. destruct (decide (x = w)) as [->|Hne].
    - intros _. rewrite lookup_insert_eq, Hpv. simpl.
      eexists. split; [reflexivity|]. apply walk_snoc with v; assumption.
    - rewrite !lookup_insert_ne by congruence. apply S1. }
  assert (F1 : finalpath st1 = finalpath st) by apply pushed_fields.
  pose proof (meet_cases st1 w) as M.
  constructor.
  - intros d' x sx. rewrite side_of_meet. apply P1.
  - intros d' k c x. rewrite side_of_meet. unfold st1. rewrite side_of_pushed.
    destruct (Bool.eqb d' d) eqn:B; [|apply S2]. apply eqb_prop in B. subst d'.
    simpl. intros [[= <- <- <-]|H].
    + rewrite lookup_insert_eq. eauto.
    + destruct (decide (x = w)) as [->|Hne]; [rewrite lookup_insert_eq; eauto|].
      rewrite lookup_insert_ne by congruence. eapply S2, H.
  - intros d' x dx. rewrite side_of_meet. intros H. apply HS.
    revert H. unfold st1. rewrite side_of_pushed.
    destruct (Bool.eqb d' d) eqn:B; [|apply S3]. apply eqb_prop in B. subst d'.
    simpl. apply S3.
  - intros x H0 H1.
    change (fwd (meet st1 w)) with (side_of (meet st1 w) false) in H0.
    change (bwd (meet st1 w)) with (side_of (meet st1 w) true) in H1.
    rewrite side_of_meet in H0, H1.
    destruct M as [HN _ HP | s0 s1 _ _ HP0 _ _ HP | s0 s1 H0' H1' _ _ HP].
    + rewrite HP, F1.
      destruct (decide (x = w)) as [->|Hne].
      * exfalso. change (side_of st1 false) with (fwd st1) in H0.
        change (side_of st1 true) with (bwd st1) in H1.
        destruct H0 as [s0 H0], H1 as [s1 H1].
        destruct HN as [HN|HN];
          [pose proof (eq_trans (eq_sym H0) HN) as HX
          |pose proof (eq_trans (eq_sym H1) HN) as HX]; discriminate HX.
      * apply (S4 x).
        -- apply HS in H0. destruct H0 as [[_ ?]|H0]; [contradiction | exact H0].
        -- apply HS in H1. destruct H1 as [[_ ?]|H1]; [contradiction | exact H1].
    + rewrite HP. exact HP0.
    + rewrite HP. destruct (P1 false w s0 H0') as (p0 & Hp0 & W0).
      change (side_of st1 false) with (fwd st1) in Hp0. rewrite Hp0. simpl.
      apply walk_nonempty in W0. destruct p0; [congruence | discriminate].
  - destruct M as [_ _ HP | s0 s1 _ _ _ _ _ HP | s0 s1 H0' H1' _ _ HP].
    + rewrite HP, F1. exact S5.
    + rewrite HP, F1. exact S5.
    + intros _. rewrite HP.
      destruct (P1 false w s0 H0') as (p0 & Hp0 & W0).
      destruct (P1 true w s1 H1') as (p1 & Hp1 & W1).
      change (side_of st1 false) with (fwd st1) in Hp0.
      change (side_of st1 true) with (bwd st1) in Hp1.
      rewrite Hp0, Hp1. simpl.
      eapply walk_join; [exact W0|]. apply walk_rev; [exact V | exact W1].
Qed.

Lemma dists_relax (d : bool) (v : node) (st st' : state) (wd : node * E) (d' : bool) :
  relax weight d v st wd = inr st' ->
  dists (side_of st' d') = dists (side_of st d').
Proof.
  destruct wd as [w data]. intros H.
  destruct (relax_cases d v st w data); try (injection H as <-; reflexivity);
    try discriminate.
  injection H as <-. rewrite side_of_meet, side_of_pushed.
  destruct (Bool.eqb d' d) eqn:B; [|reflexivity].
  apply eqb_prop in B. subst d'. reflexivity.
Qed.

Lemma sound_relax (d : bool) (v : node) (st st' : state) (w : node) (data : E) :
  sound st -> is_Some (dists (side_of st d) !! v) ->
  In (w, data) (view_adj G v) ->
  relax weight d v st (w, data) = inr st' -> sound st'.
Proof.
  intros S [dv Hv] Hin H.
  destruct (relax_cases d v st w data); try (injection H as <-; exact S);
    try discriminate.
  injection H as <-.
  destruct (snd_dists _ _ _ _ S d v dv Hv) as [sv Hsv].
  destruct (snd_paths _ _ _ _ S d v sv Hsv) as (pv & Hpv & Wv).
  eapply sound_pushed_meet; eauto. exists data. exact Hin.
Qed.

Lemma sound_relax_all (d : bool) (v : node) (l : list (node * E)) (st st' : state) :
  sound st -> is_Some (dists (side_of st d) !! v) ->
  (forall x, In x l -> In x (view_adj G v)) ->
  relax_all weight d v st l = inr st' ->
  sound st' /\ forall d', dists (side_of st' d') = dists (side_of st d').
Proof.
  revert st. induction l as [|[w data] l IH]; intros st S Hv Hl; cbn [relax_all].
  - intros [= <-]. split; [exact S | reflexivity].
  - destruct (relax weight d v st (w, data)) as [e|st1] eqn:R;
      [intros H; discriminate|].
    intros H.
    assert (S1 : sound st1).
    { eapply sound_relax; eauto. apply Hl. left. reflexivity. }
    pose proof (fun d' => dists_relax d v st st1 (w, data) d' R) as HD.
    destruct (IH st1 S1) as [S' HD']; auto.
    + rewrite HD. exact Hv.
    + intros x Hx. apply Hl. right. exact Hx.
    + split; [exact S'|]. intros d'. rewrite HD', HD. reflexivity.
Qed.

Lemma side_of_popped (st : state) (d : bool) (rest : list entry) (d' : bool) :
  side_of (popped st d rest) d'
  = if Bool.eqb d' d
    then {| dists := dists (side_of st d); paths := paths (side_of st d);
            fringe := rest; seen := seen (side_of st d) |}
    else side_of st d'.
Proof. destruct d, d'; reflexivity. Qed.

Lemma side_of_settled (st : state) (d : bool) (v : node) (dist : Q) (d' : bool) :
  side_of (settled st d v dist) d'
  = if Bool.eqb d' d
    then {| dists := <[v := dist]> (dists (side_of st d));
            paths := paths (side_of st d); fringe := fringe (side_of st d);
            seen := seen (side_of st d) |}
    else side_of st d'.
Proof. destruct d, d'; reflexivity. Qed.

Lemma popped_fields (st : state) (d : bool) (rest : list entry) :
  finaldist (popped st d rest) = finaldist st
  /\ finalpath (popped st d rest) = finalpath st
  /\ dir (popped st d rest) = d.
Proof. destruct d; repeat split. Qed.

Lemma settled_fields (st : state) (d : bool) (v : node) (dist : Q) :
  finaldist (settled st d v dist) = finaldist st
  /\ finalpath (settled st d v dist) = finalpath st
  /\ dir (settled st d v dist) = dir st.
Proof. destruct d; repeat split. Qed.

Lemma is_nil_false {A : Type} (l : list A) : is_nil l = false <-> l <> [].
Proof. destruct l; simpl; split; congruence. Qed.

Lemma turn_cases (st : state) : turn_spec st (turn G weight st).
Proof.
  unfold turn.
  destruct (is_nil (fringe (fwd st))) eqn:N0;
    [apply turn_exit; left; destruct (fringe (fwd st)); [reflexivity|discriminate]|].
  destruct (is_nil (fringe (bwd st))) eqn:N1;
    [apply turn_exit; right; destruct (fringe (bwd st)); [reflexivity|discriminate]|].
  apply is_nil_false in N0, N1. simpl orb. cbv iota.
  destruct (heappop (fringe (side_of st (negb (dir st))))) as [[[[dist c] v] rest]|] eqn:P.
  - rewrite side_of_popped, eqb_reflx. simpl dists.
    destruct (dists (side_of st (negb (dir st))) !! v) as [dv|] eqn:Dv.
    + eapply turn_stale; eauto.
    + rewrite side_of_settled.
      replace (Bool.eqb (negb (negb (dir st))) (negb (dir st))) with false
        by (destruct (dir st); reflexivity).
      rewrite side_of_popped.
      replace (Bool.eqb (negb (negb (dir st))) (negb (dir st))) with false
        by (destruct (dir st); reflexivity).
      rewrite negb_involutive.
      destruct (dists (side_of st (dir st)) !! v) as [dv|] eqn:Dv'.
      * replace (finalpath _) with (finalpath st).
        -- eapply turn_meet; eauto.
        -- symmetry. etransitivity; [apply settled_fields | apply popped_fields].
      * eapply (turn_expand G weight st dist c v rest); eauto.
  - apply heappop_None in P. exfalso. destruct (dir st); simpl in P; contradiction.
Qed.

Lemma sound_turn (st st' : state) :
  sound st -> turn G weight st = Continue st' -> sound st'.
Proof.
  intros S H. destruct (turn_cases st) as [| dist c v rest dv N0 N1 P Dv
    | | dist c v rest r N0 N1 P Dv Dv' R]; try discriminate.
  - injection H as <-. eapply sound_popped; eauto.
  - destruct r as [e|st3]; [discriminate|]. injection H as <-.
    set (d := negb (dir st)) in *.
    assert (S1 : sound (popped st d rest)) by (eapply sound_popped; eauto).
    assert (Hs : is_Some (seen (side_of (popped st d rest) d) !! v)).
    { rewrite side_of_popped, eqb_reflx. simpl.
      apply (snd_fringe _ _ _ _ S d dist c v).
      apply (heappop_In _ _ _ P). left. reflexivity. }
    pose proof (sound_settled _ d v dist S1 Hs) as S2.
    eapply sound_relax_all in R; eauto; [tauto|].
    rewrite side_of_settled, eqb_reflx. simpl. rewrite lookup_insert_eq. eauto.
Qed.

Lemma sound_return (st : state) (p : list node) :
  sound st -> turn G weight st = Return (inr p) -> walk G source target p.
Proof.
  intros S H. destruct (turn_cases st) as [| | dist c v rest dv N0 N1 P Dv Dv'
    | dist c v rest r N0 N1 P Dv Dv' R]; try discriminate.
  - injection H as <-. apply (snd_final _ _ _ _ S).
    assert (H1 : is_Some (seen (side_of st (negb (dir st))) !! v)).
    { apply (snd_fringe _ _ _ _ S _ dist c v), (heappop_In _ _ _ P). left. reflexivity. }
    assert (H2 : is_Some (seen (side_of st (dir st)) !! v)).
    { apply (snd_dists _ _ _ _ S _ v dv Dv'). }
    apply (snd_meet _ _ _ _ S v); destruct (dir st); assumption.
  - destruct r; discriminate.
Qed.

Lemma measure_sides (st : state) (d : bool) :
  measure G st
  = (side_measure (side_of st d) + side_measure (side_of st (negb d)))%nat.
Proof. unfold measure, SearchInv.side_measure. destruct d; simpl; lia. Qed.

Lemma pot_list_insert_notin (D : gmap Z Q) (v : node) (x : Q) (l : list node) :
  ~ In v l -> pot_list (<[v := x]> D) l = pot_list D l.
Proof.
  induction l as [|u l IH]; intros Hn; simpl; [reflexivity|].
  rewrite IH by (intros H; apply Hn; right; exact H).
  rewrite lookup_insert_ne; [reflexivity|]. intros ->. apply Hn. left. reflexivity.
Qed.

Lemma pot_list_insert_in (D : gmap Z Q) (v : node) (x : Q) (l : list node) :
  List.NoDup l -> In v l -> D !! v = None ->
  (pot_list (<[v := x]> D) l + length (view_adj G v) = pot_list D l)%nat.
Proof.
  induction 1 as [|u l Hu Hnd IH]; intros Hin Hv; [destruct Hin|]. simpl.
  destruct Hin as [->|Hin].
  - rewrite lookup_insert_eq, Hv, pot_list_insert_notin by exact Hu. lia.
  - assert (u <> v) by (intros ->; contradiction).
    rewrite lookup_insert_ne by congruence. specialize (IH Hin Hv). lia.
Qed.

Lemma potential_insert (D : gmap Z Q) (v : node) (x : Q) :
  In v (view_nodes G) -> D !! v = None ->
  (potential G (<[v := x]> D) + length (view_adj G v) = potential G D)%nat.
Proof. intros Hin Hv. apply pot_list_insert_in; [apply V | exact Hin | exact Hv]. Qed.

Lemma potential_empty : potential G ∅ = degree_sum G.
Proof.
  unfold potential, degree_sum. generalize (view_nodes G) as l.
  induction l as [|u l IH]; [reflexivity|].
  cbn [fold_right]. rewrite IH.
  replace ((∅ : gmap Z Q) !! u) with (@None Q) by (symmetry; apply lookup_empty).
  reflexivity.
Qed.

Lemma fringe_relax (d : bool) (v : node) (st st' : state) (wd : node * E) (d' : bool) :
  relax weight d v st wd = inr st' ->
  (length (fringe (side_of st' d'))
   <= length (fringe (side_of st d')) + (if Bool.eqb d' d then 1 else 0))%nat.
Proof.
  destruct wd as [w data]. intros H.
  destruct (relax_cases d v st w data); try (injection H as <-; lia);
    try discriminate.
  injection H as <-. rewrite side_of_meet, side_of_pushed.
  destruct (Bool.eqb d' d) eqn:B; [|lia].
  apply eqb_prop in B. subst d'. simpl. lia.
Qed.

Lemma fringe_relax_all (d : bool) (v : node) (l : list (node * E)) (st st' : state)
    (d' : bool) :
  relax_all weight d v st l = inr st' ->
  (length (fringe (side_of st' d'))
   <= length (fringe (side_of st d')) + (if Bool.eqb d' d then length l else 0))%nat.
Proof.
  revert st. induction l as [|wd l IH]; intros st; cbn [relax_all].
  - intros [= <-]. destruct (Bool.eqb d' d); lia.
  - destruct (relax weight d v st wd) as [e|st1] eqn:R; [intros H; discriminate|].
    intros H. apply IH in H. apply (fringe_relax _ _ _ _ _ d') in R.
    destruct (Bool.eqb d' d); simpl in *; lia.
Qed.

Lemma dists_relax_all (d : bool) (v : node) (l : list (node * E)) (st st' : state)
    (d' : bool) :
  relax_all weight d v st l = inr st' ->
  dists (side_of st' d') = dists (side_of st d').
Proof.
  revert st. induction l as [|wd l IH]; intros st; cbn [relax_all].
  - intros [= <-]. reflexivity.
  - destruct (relax weight d v st wd) as [e|st1] eqn:R; [intros H; discriminate|].
    intros H. rewrite (IH _ H). eapply dists_relax, R.
Qed.

Lemma seen_node (st : state) (d : bool) (w : node) :
  sound st -> is_Some (seen (side_of st d) !! w) -> In w (view_nodes G).
Proof.
  intros S [sw H]. destruct (snd_paths _ _ _ _ S d w sw H) as (p & _ & W).
  exact (walk_last_node (origin d) w p V (origin_node d) W).
Qed.

Lemma measure_turn (st st' : state) :
  sound st -> turn G weight st = Continue st' ->
  (measure G st' < measure G st)%nat.
Proof.
  intros S H. destruct (turn_cases st) as [| dist c v rest dv N0 N1 P Dv
    | | dist c v rest r N0 N1 P Dv Dv' R]; try discriminate.
  - injection H as <-. set (d := negb (dir st)) in *.
    rewrite (measure_sides _ d), (measure_sides st d). unfold SearchInv.side_measure.
    rewrite !side_of_popped, eqb_reflx.
    replace (Bool.eqb (negb d) d) with false by (destruct d; reflexivity).
    simpl. apply heappop_length in P. lia.
  - destruct r as [e|st3]; [discriminate|]. injection H as <-.
    set (d := negb (dir st)) in *.
    pose proof (fringe_relax_all _ _ _ _ _ d R) as F1.
    pose proof (fringe_relax_all _ _ _ _ _ (negb d) R) as F2.
    pose proof (dists_relax_all _ _ _ _ _ d R) as D1.
    pose proof (dists_relax_all _ _ _ _ _ (negb d) R) as D2.
    rewrite (measure_sides _ d), (measure_sides st d). unfold SearchInv.side_measure.
    rewrite D1, D2. rewrite !side_of_settled, !side_of_popped in *.
    replace (Bool.eqb (negb d) d) with false in * by (destruct d; reflexivity).
    rewrite eqb_reflx in *. simpl in *.
    assert (Hv : In v (view_nodes G)).
    { apply (seen_node st d); [exact S|].
      apply (snd_fringe _ _ _ _ S d dist c v), (heappop_In _ _ _ P).
      left. reflexivity. }
    pose proof (potential_insert _ v dist Hv Dv) as HP.
    apply heappop_length in P. lia.
Qed.

Lemma loop_total (fuel : nat) (st : state) :
  sound st -> (measure G st < fuel)%nat ->
  exists r, loop G weight fuel st = Some r.
Proof.
  revert st. induction fuel as [|fuel IH]; intros st S Hm; [lia|].
  simpl. destruct (turn G weight st) as [st'|r] eqn:T; [|eauto].
  apply IH; [eapply sound_turn; eauto|].
  pose proof (measure_turn _ _ S T). lia.
Qed.

Lemma loop_sound (fuel : nat) (st : state) (p : list node) :
  sound st -> loop G weight fuel st = Some (inr p) -> walk G source target p.
Proof.
  revert st. induction fuel as [|fuel IH]; intros st S; simpl; [discriminate|].
  destruct (turn G weight st) as [st'|r] eqn:T.
  - apply IH. eapply sound_turn; eauto.
  - intros [= ->]. eapply sound_return; eauto.
Qed.

Lemma loop_no_NodeNotFound (fuel : nat) (st : state) :
  loop G weight fuel st <> Some (inl NodeNotFound).
Proof.
  revert st. induction fuel as [|fuel IH]; intros st; simpl; [discriminate|].
  destruct (turn G weight st) as [st'|r] eqn:T; [apply IH|].
  intros [= ->].
  destruct (turn_cases st) as [| | | dist c v rest r N0 N1 P Dv Dv' R];
    try discriminate.
  destruct r as [e|]; [|discriminate]. injection T as ->.
  clear -R. revert R. generalize (settled (popped st (negb (dir st)) rest)
                                    (negb (dir st)) v dist).
  induction (view_adj G v) as [|[w data] l IHl]; intros s0; cbn [relax_all];
    [discriminate|].
  destruct (relax weight (negb (dir st)) v s0 (w, data)) as [e|s1] eqn:R1.
  - intros [= ->]. destruct (relax_cases (negb (dir st)) v s0 w data); discriminate.
  - apply IHl.
Qed.

Lemma measure_init :
  (measure G (init_state source target) < turns G)%nat.
Proof.
  unfold measure, turns. simpl. rewrite potential_empty. lia.
Qed.

(** ** Lengths of walks *)

#[local] Abbreviation step_cost := (step_cost G weight).
#[local] Abbreviation dcost := (dcost G weight).
#[local] Abbreviation opt := (opt G weight source target).

Hypothesis Hnonneg : nonneg_weight G weight.

Lemma ecost_edge (u w : node) (data : E) :
  In (w, data) (view_adj G u) -> ecost G weight u w = weight u w data.
Proof.
  intros H. unfold ecost. rewrite (In_get _ _ _ (vo_keys G V u) H). reflexivity.
Qed.

Lemma step_cost_edge (d : bool) (v w : node) (data : E) :
  In (w, data) (view_adj G v) ->
  step_cost d v w = if d then weight w v data else weight v w data.
Proof.
  intros H. unfold SearchInv.step_cost. destruct d.
  - apply ecost_edge, (vo_sym G V), H.
  - apply ecost_edge, H.
Qed.

Lemma step_cost_nonneg (d : bool) (v w : node) :
  vedge G v w -> (0 <= step_cost d v w)%Q.
Proof.
  intros [data H]. rewrite (step_cost_edge d v w data H).
  destruct (Hnonneg v w data H). destruct d; assumption.
Qed.

Lemma dcost_nonneg (d : bool) (p : list node) :
  Path.chain (vedge G) p -> (0 <= dcost d p)%Q.
Proof. apply total_nonneg. intros x y. apply step_cost_nonneg. Qed.

Lemma dcost_snoc (d : bool) (a v w : node) (p : list node) :
  walk G a v p -> (dcost d (p ++ [w]) == dcost d p + step_cost d v w)%Q.
Proof.
  intros (_ & Hl & _). unfold SearchInv.dcost. rewrite total_snoc, Hl. reflexivity.
Qed.

Lemma dcost_rev (d : bool) (p : list node) :
  (dcost (negb d) (rev p) == dcost d p)%Q.
Proof.
  unfold SearchInv.dcost. destruct d; simpl negb.
  - apply (total_rev (SearchInv.step_cost G weight true) p).
  - apply (total_rev (SearchInv.step_cost G weight false) p).
Qed.

Lemma dcost_app (d : bool) (p1 p2 : list node) (y : node) :
  (dcost d (p1 ++ y :: p2) == dcost d (p1 ++ [y]) + dcost d (y :: p2))%Q.
Proof. apply total_app. Qed.

Lemma dcost_prefix (d : bool) (p1 p2 : list node) (y : node) :
  Path.chain (vedge G) (p1 ++ y :: p2) ->
  (dcost d (p1 ++ [y]) <= dcost d (p1 ++ y :: p2))%Q.
Proof.
  intros C. pose proof (dcost_app d p1 p2 y) as HA.
  apply chain_app in C. destruct C as [_ C].
  pose proof (dcost_nonneg d _ C). lra.
Qed.

Lemma opt_meet_dir (pend : pending) (st : state) (d : bool) (w : node) (a b : Q) :
  opt pend st ->
  seen (side_of st d) !! w = Some a ->
  seen (side_of st (negb d)) !! w = Some b ->
  (finaldist st <= a + b)%Q.
Proof.
  intros O Ha Hb. destruct d; simpl in *.
  - pose proof (opt_meet _ _ _ _ _ _ O w b a Hb Ha). lra.
  - exact (opt_meet _ _ _ _ _ _ O w a b Ha Hb).
Qed.

(** A walk from the origin of a direction either stays among the nodes the
    direction has settled or reaches a seen node that is not settled, at a
    distance that is at most the length walked so far. *)
Lemma frontier (st : state) (d : bool) (x : node) (p : list node) :
  opt None st -> walk G (origin d) x p ->
  Forall (fun y => is_Some (dists (side_of st d) !! y)) p
  \/ exists p1 y p2 sy,
       p = p1 ++ y :: p2
       /\ dists (side_of st d) !! y = None
       /\ seen (side_of st d) !! y = Some sy
       /\ (sy <= dcost d (p1 ++ [y]))%Q.
Proof.
  intros O. revert x. induction p as [|x' p IH] using rev_ind; intros x W.
  - left. constructor.
  - destruct W as (Hh & Hl & Hc). rewrite last_snoc in Hl. injection Hl as ->.
    destruct p as [|a p].
    + simpl in Hh. injection Hh as ->.
      destruct (dists (side_of st d) !! origin d) as [dx|] eqn:Dx.
      * left. constructor; [rewrite Dx; eauto | constructor].
      * right. destruct (opt_origin _ _ _ _ _ _ O d) as (s & Hs & Hle).
        exists [], (origin d), [], s. repeat split; auto.
    + apply chain_snoc in Hc. destruct Hc as [Hc He].
      destruct (last (a :: p)) as [x0|] eqn:L;
        [|apply last_None in L; discriminate].
      assert (W0 : walk G (origin d) x0 (a :: p)).
      { split; [|split]; [rewrite head_app in Hh; exact Hh | exact L | exact Hc]. }
      destruct (IH x0 W0) as [HF | (p1 & y & p2 & sy & Hp & Hy & Hsy & Hle)].
      * assert (Hx0 : is_Some (dists (side_of st d) !! x0)).
        { apply last_Some in L. destruct L as [l' L]. rewrite L in HF.
          apply Forall_app in HF. destruct HF as [_ HF].
          apply Forall_inv in HF. exact HF. }
        destruct Hx0 as [d0 Hd0]. destruct He as [data He].
        destruct (opt_dists _ _ _ _ _ _ O d x0 d0 Hd0) as [_ Hopt].
        destruct (opt_expanded _ _ _ _ _ _ O d x0 d0 x data Hd0 He)
          as [[]|(sx & Hsx & Hle)].
        destruct (dists (side_of st d) !! x) as [dx|] eqn:Dx.
        -- left. apply Forall_app. split; [exact HF|].
           constructor; [rewrite Dx; eauto | constructor].
        -- right. exists (a :: p), x, [], sx. repeat split; auto.
           rewrite (dcost_snoc d (origin d) x0 x (a :: p) W0).
           specialize (Hopt _ W0). lra.
      * right. exists p1, y, (p2 ++ [x]), sy. repeat split; auto.
        rewrite Hp, <- app_assoc. reflexivity.
Qed.

(** ** The invariant of the search with non-negative weights *)

Lemma opt_init : opt None (init_state source target).
Proof.
  constructor.
  - intros d w sw. destruct d; simpl; intros H;
      apply lookup_singleton_Some in H; destruct H as [<- <-];
      eexists; (split; [apply lookup_singleton_eq | reflexivity]).
  - intros d w dw. destruct d; simpl; rewrite lookup_empty; discriminate.
  - intros d w sw. destruct d; simpl; intros H _;
      apply lookup_singleton_Some in H; destruct H as [<- <-];
      eexists; left; reflexivity.
  - intros d k c w. destruct d; simpl; intros [[= <- <- <-]|[]];
      rewrite lookup_singleton_eq; eexists; (split; [reflexivity | lra]).
  - intros d u du w data. destruct d; simpl; rewrite lookup_empty; discriminate.
  - intros d u du k c w. destruct d; simpl; rewrite lookup_empty; discriminate.
  - exact I.
  - intros w s0 s1. simpl. intros H0 H1.
    apply lookup_singleton_Some in H0, H1. destruct H0 as [<- _], H1 as [<- _].
    contradiction.
  - simpl. congruence.
  - intros d. destruct d; simpl; rewrite lookup_singleton_eq;
      eexists; (split; [reflexivity | lra]).
  - intros v [x H]. simpl in H. rewrite lookup_empty in H. discriminate.
  - intros _. simpl. repeat split.
  - intros _. simpl. repeat split.
    + intros v [x H]. rewrite lookup_empty in H. discriminate.
    + intros [x H]. rewrite lookup_empty in H. discriminate.
Qed.

(** The entry the heap gives is the current distance of its node. *)
Lemma popped_dist (st : state) (d : bool) (dist : Q) (c : nat) (v : node)
    (rest : list entry) :
  opt None st ->
  heappop (fringe (side_of st d)) = Some ((dist, c, v), rest) ->
  dists (side_of st d) !! v = None ->
  exists sv, seen (side_of st d) !! v = Some sv /\ (sv == dist)%Q.
Proof.
  intros O P Dv.
  assert (Hin : In (dist, c, v) (fringe (side_of st d)))
    by (apply (heappop_In _ _ _ P); left; reflexivity).
  destruct (opt_fringe_ge _ _ _ _ _ _ O d dist c v Hin) as (sv & Hsv & Hle).
  exists sv. split; [exact Hsv|].
  destruct (opt_fringe_in _ _ _ _ _ _ O d v sv Hsv Dv) as [c' Hin'].
  pose proof (heappop_min _ _ _ P _ Hin') as Hmin. simpl in Hmin. lra.
Qed.

(** The entry the heap gives is at most the length of every walk to a node
    the direction has not settled. *)
Lemma popped_least (st : state) (d : bool) (dist : Q) (c : nat) (v : node)
    (rest : list entry) (x : node) (p : list node) :
  opt None st ->
  heappop (fringe (side_of st d)) = Some ((dist, c, v), rest) ->
  walk G (origin d) x p -> dists (side_of st d) !! x = None ->
  (dist <= dcost d p)%Q.
Proof.
  intros O P W Dx.
  destruct (frontier st d x p O W) as [HF | (p1 & y & p2 & sy & Hp & Hy & Hsy & Hle)].
  - exfalso. destruct W as (_ & Hl & _). apply last_Some in Hl.
    destruct Hl as [l' ->]. apply Forall_app in HF. destruct HF as [_ HF].
    apply Forall_inv in HF. rewrite Dx in HF. destruct HF as [? HF]. discriminate.
  - destruct (opt_fringe_in _ _ _ _ _ _ O d y sy Hsy Hy) as [c' Hin'].
    pose proof (heappop_min _ _ _ P _ Hin') as Hmin. simpl in Hmin.
    destruct W as (_ & _ & Hc). rewrite Hp in Hc |- *.
    pose proof (dcost_prefix d p1 p2 y Hc). lra.
Qed.

(** Every walk to a node a direction has not settled is at least as long as
    each distance the direction has settled. *)
Lemma unsettled_far (st : state) (d : bool) (u : node) (du : Q) (x : node)
    (p : list node) :
  opt None st ->
  dists (side_of st d) !! u = Some du ->
  walk G (origin d) x p -> dists (side_of st d) !! x = None ->
  (du <= dcost d p)%Q.
Proof.
  intros O Du W Dx.
  destruct (frontier st d x p O W) as [HF | (p1 & y & p2 & sy & Hp & Hy & Hsy & Hle)].
  - exfalso. destruct W as (_ & Hl & _). apply last_Some in Hl.
    destruct Hl as [l' ->]. apply Forall_app in HF. destruct HF as [_ HF].
    apply Forall_inv in HF. rewrite Dx in HF. destruct HF as [? HF]. discriminate.
  - destruct (opt_fringe_in _ _ _ _ _ _ O d y sy Hsy Hy) as [c' Hin'].
    pose proof (opt_mono _ _ _ _ _ _ O d u du sy c' y Du Hin') as Hm.
    destruct W as (_ & _ & Hc). rewrite Hp in Hc |- *.
    pose proof (dcost_prefix d p1 p2 y Hc). lra.
Qed.

Ltac side_cases d' d B :=
  destruct (Bool.eqb d' d) eqn:B;
  [apply eqb_prop in B; subst d' |].

Lemma opt_stale (st : state) (dist : Q) (c : nat) (v : node)
    (rest : list entry) (dv : Q) :
  opt None st ->
  heappop (fringe (side_of st (negb (dir st)))) = Some ((dist, c, v), rest) ->
  dists (side_of st (negb (dir st))) !! v = Some dv ->
  opt None (popped st (negb (dir st)) rest).
Proof.
  intros O P Dv. pose proof (heappop_In _ _ _ P) as HI.
  set (d := negb (dir st)) in *.
  constructor.
  - intros d' w sw. rewrite side_of_popped. side_cases d' d B; simpl;
      apply (opt_seen _ _ _ _ _ _ O).
  - intros d' w dw. rewrite side_of_popped. side_cases d' d B; simpl;
      apply (opt_dists _ _ _ _ _ _ O).
  - intros d' w sw. rewrite side_of_popped. side_cases d' d B; simpl;
      [|apply (opt_fringe_in _ _ _ _ _ _ O)].
    intros Hs Hd. destruct (opt_fringe_in _ _ _ _ _ _ O d w sw Hs Hd) as [c' Hin].
    exists c'. apply HI in Hin. destruct Hin as [Hin|Hin]; [|exact Hin].
    injection Hin as _ _ ->. congruence.
  - intros d' k c' w. rewrite side_of_popped. side_cases d' d B; simpl;
      [|apply (opt_fringe_ge _ _ _ _ _ _ O)].
    intros Hin. apply (opt_fringe_ge _ _ _ _ _ _ O d k c' w), HI. right. exact Hin.
  - intros d' u du w data. rewrite side_of_popped. side_cases d' d B; simpl;
      apply (opt_expanded _ _ _ _ _ _ O).
  - intros d' u du k c' w. rewrite side_of_popped. side_cases d' d B; simpl;
      [|apply (opt_mono _ _ _ _ _ _ O)].
    intros Hu Hin. apply (opt_mono _ _ _ _ _ _ O d u du k c' w Hu), HI. right. exact Hin.
  - exact I.
  - destruct d; simpl; apply (opt_meet _ _ _ _ _ _ O).
  - destruct d; simpl; apply (opt_final _ _ _ _ _ _ O).
  - intros d'. rewrite side_of_popped. side_cases d' d B; simpl;
      apply (opt_origin _ _ _ _ _ _ O).
  - destruct d; simpl; apply (opt_disjoint _ _ _ _ _ _ O).
  - pose proof (opt_phase1 _ _ _ _ _ _ O) as P1.
    unfold d in *. destruct (dir st) eqn:Hdir; simpl in *; intros H.
    + destruct (P1 H) as (_ & _ & _ & Hf & _). rewrite Hf in P. simpl in P.
      injection P as _ _ <- _. congruence.
    + destruct (P1 H) as (Hd & _). discriminate.
  - pose proof (opt_phase2 _ _ _ _ _ _ O) as P2.
    unfold d in *. destruct (dir st) eqn:Hdir; simpl in *; intros H.
    + destruct (P2 H) as (H1 & H2 & H3 & H4). repeat split; auto.
    + destruct (P2 H) as (_ & Hf & _). rewrite Hf in P. simpl in P.
      injection P as _ _ <- _. congruence.
Qed.

Lemma opt_settle (st : state) (dist : Q) (c : nat) (v : node) (rest : list entry) :
  opt None st ->
  heappop (fringe (side_of st (negb (dir st)))) = Some ((dist, c, v), rest) ->
  dists (side_of st (negb (dir st))) !! v = None ->
  dists (side_of st (dir st)) !! v = None ->
  opt (Some (negb (dir st), v, view_adj G v))
      (settled (popped st (negb (dir st)) rest) (negb (dir st)) v dist).
Proof.
  intros O P Dv Dv'. pose proof (heappop_In _ _ _ P) as HI.
  pose proof (heappop_min _ _ _ P) as HM.
  set (d := negb (dir st)) in *.
  destruct (popped_dist st d dist c v rest O P Dv) as (sv & Hsv & Hsvd).
  assert (Hin : In (dist, c, v) (fringe (side_of st d))) by (apply HI; auto).
  assert (HS : forall d',
    side_of (settled (popped st d rest) d v dist) d'
    = if Bool.eqb d' d
      then {| dists := <[v := dist]> (dists (side_of st d));
              paths := paths (side_of st d); fringe := rest;
              seen := seen (side_of st d) |}
      else side_of st d').
  { intros d'. rewrite side_of_settled, !side_of_popped, eqb_reflx.
    destruct (Bool.eqb d' d); reflexivity. }
  constructor.
  - intros d' w sw. rewrite HS. side_cases d' d B; simpl;
      apply (opt_seen _ _ _ _ _ _ O).
  - intros d' w dw. rewrite HS. side_cases d' d B; simpl;
      [|apply (opt_dists _ _ _ _ _ _ O)].
    destruct (decide (w = v)) as [->|Hne].
    + rewrite lookup_insert_eq. intros [= <-]. split; [eauto|].
      intros p W. eapply popped_least; eauto.
    + rewrite lookup_insert_ne by congruence. apply (opt_dists _ _ _ _ _ _ O).
  - intros d' w sw. rewrite HS. side_cases d' d B; simpl;
      [|apply (opt_fringe_in _ _ _ _ _ _ O)].
    intros Hs Hd. destruct (decide (w = v)) as [->|Hne];
      [rewrite lookup_insert_eq in Hd; discriminate|].
    rewrite lookup_insert_ne in Hd by congruence.
    destruct (opt_fringe_in _ _ _ _ _ _ O d w sw Hs Hd) as [c' Hin'].
    exists c'. apply HI in Hin'. destruct Hin' as [Hin'|Hin']; [|exact Hin'].
    injection Hin' as _ _ ->. congruence.
  - intros d' k c' w. rewrite HS. side_cases d' d B; simpl;
      [|apply (opt_fringe_ge _ _ _ _ _ _ O)].
    intros Hin'. apply (opt_fringe_ge _ _ _ _ _ _ O d k c' w), HI. right. exact Hin'.
  - intros d' u du w data. rewrite HS. side_cases d' d B; simpl.
    + destruct (decide (u = v)) as [->|Hne].
      * intros _ Hw. left. repeat split. exact Hw.
      * rewrite lookup_insert_ne by congruence. intros Hu Hw.
        destruct (opt_expanded _ _ _ _ _ _ O d u du w data Hu Hw) as [[]|H].
        right. exact H.
    + intros Hu Hw.
      destruct (opt_expanded _ _ _ _ _ _ O d' u du w data Hu Hw) as [[]|H].
      right. exact H.
  - intros d' u du k c' w. rewrite HS. side_cases d' d B; simpl;
      [|apply (opt_mono _ _ _ _ _ _ O)].
    intros Hu Hin'. destruct (decide (u = v)) as [->|Hne].
    + rewrite lookup_insert_eq in Hu. injection Hu as <-.
      apply (HM (k, c', w)), HI. right. exact Hin'.
    + rewrite lookup_insert_ne in Hu by congruence.
      apply (opt_mono _ _ _ _ _ _ O d u du k c' w Hu), HI. right. exact Hin'.
  - rewrite HS, eqb_reflx. simpl. exists dist. split; [apply lookup_insert_eq|].
    intros u du. destruct (decide (u = v)) as [->|Hne].
    + rewrite lookup_insert_eq. intros [= <-]. lra.
    + rewrite lookup_insert_ne by congruence. intros Hu.
      exact (opt_mono _ _ _ _ _ _ O d u du dist c v Hu Hin).
  - destruct d; simpl; apply (opt_meet _ _ _ _ _ _ O).
  - destruct d; simpl; apply (opt_final _ _ _ _ _ _ O).
  - intros d'. rewrite HS. side_cases d' d B; simpl;
      apply (opt_origin _ _ _ _ _ _ O).
  - pose proof (opt_disjoint _ _ _ _ _ _ O) as HD. intros u.
    unfold d in *. destruct (dir st); simpl in *.
    + destruct (decide (u = v)) as [->|Hne].
      * intros _ [x Hx]. pose proof (eq_trans (eq_sym Hx) Dv') as HX.
        discriminate HX.
      * rewrite lookup_insert_ne by congruence. apply HD.
    + destruct (decide (u = v)) as [->|Hne].
      * intros [x Hx] _. pose proof (eq_trans (eq_sym Hx) Dv') as HX.
        discriminate HX.
      * rewrite lookup_insert_ne by congruence. apply HD.
  - pose proof (opt_phase1 _ _ _ _ _ _ O) as P1.
    unfold d in *. destruct (dir st) eqn:Hdir; simpl in *; intros H.
    + destruct (decide (source = v)) as [->|Hne];
        [rewrite lookup_insert_eq in H; discriminate|].
      rewrite lookup_insert_ne in H by congruence.
      destruct (P1 H) as (_ & _ & _ & Hf & _). rewrite Hf in P. simpl in P.
      injection P as _ _ <- _. congruence.
    + destruct (P1 H) as (Hd & _). discriminate.
  - pose proof (opt_phase1 _ _ _ _ _ _ O) as P1.
    pose proof (opt_phase2 _ _ _ _ _ _ O) as P2.
    unfold d in *. destruct (dir st) eqn:Hdir; simpl in *; intros H.
    + destruct (P2 H) as (H1 & H2 & H3 & H4).
      assert (Hs : dists (fwd st) !! source = None).
      { destruct (dists (fwd st) !! source) eqn:X; [|reflexivity].
        assert (true = false) by (apply H4; eauto). discriminate. }
      destruct (P1 Hs) as (_ & _ & _ & Hf & _). rewrite Hf in P. simpl in P.
      injection P as _ _ <- _.
      repeat split; auto.
      intros u Hu. destruct (decide (u = source)) as [->|Hne]; [reflexivity|].
      rewrite lookup_insert_ne in Hu by congruence. apply H3, Hu.
    + destruct (decide (target = v)) as [->|Hne];
        [rewrite lookup_insert_eq in H; discriminate|].
      rewrite lookup_insert_ne in H by congruence.
      destruct (P2 H) as (_ & Hf & _). rewrite Hf in P. simpl in P.
      injection P as _ _ <- _. congruence.
Qed.

Lemma same_Some {A : Type} (o : option A) (x y : A) :
  o = Some x -> o = Some y -> x = y.
Proof. congruence. Qed.

(** What is known of the node being expanded. *)
Lemma expanding (st : state) (d : bool) (v : node) (l : list (node * E)) :
  opt (Some (d, v, l)) st -> sound st ->
  exists dv pv,
    dists (side_of st d) !! v = Some dv
    /\ (forall u du, dists (side_of st d) !! u = Some du -> (du <= dv)%Q)
    /\ paths (side_of st d) !! v = Some pv
    /\ walk G (origin d) v pv
    /\ (dcost d pv == dv)%Q.
Proof.
  intros O S. destruct (opt_max _ _ _ _ _ _ O) as (dv & Hdv & Hmax).
  destruct (opt_dists _ _ _ _ _ _ O d v dv Hdv) as [(sv & Hsv & Hsvd) _].
  destruct (opt_seen _ _ _ _ _ _ O d v sv Hsv) as (pv & Hpv & Hc).
  destruct (snd_paths _ _ _ _ S d v sv Hsv) as (pv' & Hpv' & W).
  pose proof (same_Some _ _ _ Hpv' Hpv). subst pv'.
  exists dv, pv. repeat split; auto; try apply W. lra.
Qed.

Lemma vw_length_eq (st : state) (d : bool) (v w : node) (data : E) (dv : Q) :
  dists (side_of st d) !! v = Some dv -> In (w, data) (view_adj G v) ->
  vw_length d v w data st = (dv + step_cost d v w)%Q.
Proof.
  intros Hdv Hin. unfold SearchInv.vw_length. rewrite Hdv, (step_cost_edge d v w data Hin).
  reflexivity.
Qed.

(** A neighbour whose distance is already small enough is crossed off. *)
Lemma opt_drop (st : state) (d : bool) (v w : node) (data : E)
    (l : list (node * E)) (dv sw : Q) :
  opt (Some (d, v, (w, data) :: l)) st ->
  dists (side_of st d) !! v = Some dv ->
  seen (side_of st d) !! w = Some sw -> (sw <= dv + step_cost d v w)%Q ->
  opt (Some (d, v, l)) st.
Proof.
  intros O Hdv Hsw Hle. destruct O. constructor; try assumption.
  intros d' u du w' data' Hu Hw'.
  destruct (opt_expanded0 d' u du w' data' Hu Hw') as [(-> & -> & [Heq|Hin])|H].
  - injection Heq as <- <-. right. exists sw. split; [exact Hsw|].
    pose proof (same_Some _ _ _ Hu Hdv). subst du. exact Hle.
  - left. repeat split. exact Hin.
  - right. exact H.
Qed.

Lemma opt_improve (st : state) (d : bool) (v w : node) (data : E)
    (l : list (node * E)) :
  opt (Some (d, v, (w, data) :: l)) st -> sound st ->
  In (w, data) (view_adj G v) ->
  dists (side_of st d) !! w = None ->
  (forall sw, seen (side_of st d) !! w = Some sw ->
              (vw_length d v w data st < sw)%Q) ->
  opt (Some (d, v, l)) (meet (pushed d v w (vw_length d v w data st) st) w).
Proof.
  intros O S Hin Dw Himp.
  destruct (expanding st d v _ O S) as (dv & pv & Hdv & Hmax & Hpv & Wv & Hcv).
  rewrite (vw_length_eq st d v w data dv Hdv Hin) in *.
  set (vw := (dv + step_cost d v w)%Q) in *.
  assert (Hcost : (0 <= step_cost d v w)%Q)
    by (apply step_cost_nonneg; exists data; exact Hin).
  set (st1 := pushed d v w vw st).
  assert (HS : forall d',
    side_of (meet st1 w) d'
    = if Bool.eqb d' d
      then {| dists := dists (side_of st d);
              paths := <[w := pv ++ [w]]> (paths (side_of st d));
              fringe := (vw, counter st, w) :: fringe (side_of st d);
              seen := <[w := vw]> (seen (side_of st d)) |}
      else side_of st d').
  { intros d'. rewrite side_of_meet. unfold st1. rewrite side_of_pushed, Hpv.
    reflexivity. }
  assert (HS1 : forall d', side_of st1 d' = side_of (meet st1 w) d')
    by (intros d'; rewrite side_of_meet; reflexivity).
  assert (Wn : walk G (origin d) w (pv ++ [w])).
  { apply walk_snoc with v; [exact Wv | exists data; exact Hin]. }
  assert (Cn : (dcost d (pv ++ [w]) == vw)%Q).
  { rewrite (dcost_snoc d (origin d) v w pv Wv). unfold vw. lra. }
  assert (NS : forall d' x sx,
    seen (side_of (meet st1 w) d') !! x = Some sx ->
    exists p, paths (side_of (meet st1 w) d') !! x = Some p
              /\ (dcost d' p == sx)%Q).
  { intros d' x sx. rewrite HS. side_cases d' d B; simpl;
      [|apply (opt_seen _ _ _ _ _ _ O)].
    destruct (decide (x = w)) as [->|Hne].
    - rewrite !lookup_insert_eq. intros [= <-]. eauto.
    - rewrite !lookup_insert_ne by congruence. apply (opt_seen _ _ _ _ _ _ O). }
  assert (NW : forall d' x sx,
    seen (side_of (meet st1 w) d') !! x = Some sx ->
    exists p, paths (side_of (meet st1 w) d') !! x = Some p
              /\ walk G (origin d') x p).
  { apply (snd_paths G source target).
    apply (sound_pushed_meet st d v w vw pv S Hpv Wv). exists data. exact Hin. }
  assert (OLD : forall d' x sx,
    x <> w -> seen (side_of (meet st1 w) d') !! x = Some sx ->
    seen (side_of st d') !! x = Some sx).
  { intros d' x sx Hne. rewrite HS. side_cases d' d B; simpl; [|auto].
    rewrite lookup_insert_ne by congruence. auto. }
  assert (F1 : finaldist st1 = finaldist st /\ finalpath st1 = finalpath st
               /\ dir st1 = dir st) by apply pushed_fields.
  destruct F1 as (Fd & Fp & Fdir).
  pose proof (meet_cases st1 w) as M.
  constructor.
  - exact NS.
  - intros d' x dx. rewrite HS. side_cases d' d B; simpl;
      [|apply (opt_dists _ _ _ _ _ _ O)].
    intros Hx. destruct (opt_dists _ _ _ _ _ _ O d x dx Hx) as [(sx & Hsx & Hq) Ho].
    split; [|exact Ho]. exists sx. split; [|exact Hq].
    rewrite lookup_insert_ne; [exact Hsx|]. intros ->. congruence.
  - intros d' x sx. rewrite HS. side_cases d' d B; simpl;
      [|apply (opt_fringe_in _ _ _ _ _ _ O)].
    destruct (decide (x = w)) as [->|Hne].
    + rewrite lookup_insert_eq. intros [= <-] _. eauto.
    + rewrite lookup_insert_ne by congruence. intros Hs Hd.
      destruct (opt_fringe_in _ _ _ _ _ _ O d x sx Hs Hd) as [c' Hc'].
      exists c'. right. exact Hc'.
  - intros d' k c' x. rewrite HS. side_cases d' d B; simpl;
      [|apply (opt_fringe_ge _ _ _ _ _ _ O)].
    intros [Heq|Hin'].
    + injection Heq as <- <- <-. rewrite lookup_insert_eq. exists vw. split; [reflexivity|lra].
    + destruct (opt_fringe_ge _ _ _ _ _ _ O d k c' x Hin') as (sx & Hsx & Hle).
      destruct (decide (x = w)) as [->|Hne].
      * rewrite lookup_insert_eq. exists vw. split; [reflexivity|].
        specialize (Himp sx Hsx). lra.
      * rewrite lookup_insert_ne by congruence. eauto.
  - intros d' u du x data' Hu Hx.
    assert (Hu' : dists (side_of st d') !! u = Some du).
    { revert Hu. rewrite HS. side_cases d' d B; simpl; auto. }
    destruct (opt_expanded _ _ _ _ _ _ O d' u du x data' Hu' Hx)
      as [(-> & -> & [Heq|Hin'])|(sx & Hsx & Hle)].
    + injection Heq as <- <-. right. rewrite HS, eqb_reflx. simpl.
      rewrite lookup_insert_eq. exists vw. split; [reflexivity|].
      pose proof (same_Some _ _ _ Hu' Hdv). subst du. unfold vw. lra.
    + left. repeat split. exact Hin'.
    + right. rewrite HS. side_cases d' d B; simpl; [|eauto].
      destruct (decide (x = w)) as [->|Hne].
      * rewrite lookup_insert_eq. exists vw. split; [reflexivity|].
        specialize (Himp sx Hsx). lra.
      * rewrite lookup_insert_ne by congruence. eauto.
  - intros d' u du k c' x. rewrite HS. side_cases d' d B; simpl;
      [|apply (opt_mono _ _ _ _ _ _ O)].
    intros Hu [Heq|Hin'].
    + injection Heq as <- _ _. specialize (Hmax u du Hu). unfold vw. lra.
    + exact (opt_mono _ _ _ _ _ _ O d u du k c' x Hu Hin').
  - rewrite HS, eqb_reflx. simpl. exists dv. split; assumption.
  - intros x s0 s1 H0 H1.
    change (fwd (meet st1 w)) with (side_of (meet st1 w) false) in H0.
    change (bwd (meet st1 w)) with (side_of (meet st1 w) true) in H1.
    destruct (decide (x = w)) as [->|Hne].
    + rewrite <- HS1 in H0, H1.
      change (side_of st1 false) with (fwd st1) in H0.
      change (side_of st1 true) with (bwd st1) in H1.
      destruct M as [[HN|HN] HF _ | a b Ha Hb _ Hle HF _ | a b Ha Hb _ HF _].
      * pose proof (eq_trans (eq_sym H0) HN) as HX. discriminate HX.
      * pose proof (eq_trans (eq_sym H1) HN) as HX. discriminate HX.
      * rewrite HF.
        pose proof (eq_trans (eq_sym H0) Ha) as HX; injection HX as ->.
        pose proof (eq_trans (eq_sym H1) Hb) as HX; injection HX as ->.
        exact Hle.
      * rewrite HF.
        pose proof (eq_trans (eq_sym H0) Ha) as HX; injection HX as ->.
        pose proof (eq_trans (eq_sym H1) Hb) as HX; injection HX as ->.
        lra.
    + apply OLD in H0, H1; try exact Hne.
      pose proof (opt_meet _ _ _ _ _ _ O x s0 s1 H0 H1) as Hold.
      destruct M as [_ HF _ | a b _ _ _ _ HF _ | a b _ _ [HE|Hlt] HF _].
      * rewrite HF, Fd. exact Hold.
      * rewrite HF, Fd. exact Hold.
      * exfalso. rewrite Fp in HE.
        apply (snd_meet _ _ _ _ S x);
          [exists s0; exact H0 | exists s1; exact H1 | exact HE].
      * rewrite HF. rewrite Fd in Hlt. lra.
  - destruct M as [_ HF HP | a b _ _ _ _ HF HP | a b Ha Hb _ HF HP].
    + rewrite HF, HP, Fd, Fp. apply (opt_final _ _ _ _ _ _ O).
    + rewrite HF, HP, Fd, Fp. apply (opt_final _ _ _ _ _ _ O).
    + intros _. rewrite HF, HP.
      assert (Ha' : seen (side_of (meet st1 w) false) !! w = Some a)
        by (rewrite <- HS1; exact Ha).
      assert (Hb' : seen (side_of (meet st1 w) true) !! w = Some b)
        by (rewrite <- HS1; exact Hb).
      destruct (NS false w a Ha') as (p0 & Hp0 & C0).
      destruct (NS true w b Hb') as (p1 & Hp1 & C1).
      destruct (NW false w a Ha') as (p0' & Hp0' & W0).
      destruct (NW true w b Hb') as (p1' & Hp1' & W1).
      pose proof (same_Some _ _ _ Hp0' Hp0). pose proof (same_Some _ _ _ Hp1' Hp1).
      rewrite <- HS1 in Hp0, Hp1.
      change (side_of st1 false) with (fwd st1) in Hp0.
      change (side_of st1 true) with (bwd st1) in Hp1.
      subst p0' p1'. rewrite Hp0, Hp1. simpl default.
      unfold SearchInv.dcost.
      rewrite (total_join _ p0 (rev p1) w);
        [|apply W0 | rewrite head_rev; apply W1].
      pose proof (dcost_rev true p1) as HR. simpl negb in HR.
      unfold SearchInv.dcost in *. lra.
  - intros d'. rewrite HS. side_cases d' d B; simpl;
      [|apply (opt_origin _ _ _ _ _ _ O)].
    destruct (opt_origin _ _ _ _ _ _ O d) as (s & Hs & Hle).
    destruct (decide (origin d = w)) as [Heq|Hne].
    + rewrite Heq in *. rewrite lookup_insert_eq. exists vw. split; [reflexivity|].
      specialize (Himp s Hs). lra.
    + rewrite lookup_insert_ne by congruence. eauto.
  - pose proof (opt_disjoint _ _ _ _ _ _ O) as HD. intros u.
    change (fwd (meet st1 w)) with (side_of (meet st1 w) false).
    change (bwd (meet st1 w)) with (side_of (meet st1 w) true).
    rewrite !HS. destruct d; simpl; apply HD.
  - pose proof (opt_phase1 _ _ _ _ _ _ O) as P1.
    change (fwd (meet st1 w)) with (side_of (meet st1 w) false).
    change (bwd (meet st1 w)) with (side_of (meet st1 w) true).
    rewrite !HS. intros H. exfalso.
    assert (H' : dists (fwd st) !! source = None)
      by (revert H; destruct d; simpl; auto).
    destruct (P1 H') as (_ & E0 & E1 & _).
    destruct d; simpl in Hdv; [rewrite E1 in Hdv | rewrite E0 in Hdv];
      rewrite lookup_empty in Hdv; discriminate.
  - pose proof (opt_phase2 _ _ _ _ _ _ O) as P2.
    change (fwd (meet st1 w)) with (side_of (meet st1 w) false).
    change (bwd (meet st1 w)) with (side_of (meet st1 w) true).
    rewrite !HS, dir_meet, Fdir. intros H.
    assert (H' : dists (bwd st) !! target = None)
      by (revert H; destruct d; simpl; auto).
    destruct (P2 H') as (E1 & F & A & B).
    destruct d; simpl in *.
    + rewrite E1, lookup_empty in Hdv. discriminate.
    + repeat split; auto.
Qed.

Lemma opt_relax (st : state) (d : bool) (v w : node) (data : E)
    (l : list (node * E)) :
  opt (Some (d, v, (w, data) :: l)) st -> sound st ->
  In (w, data) (view_adj G v) ->
  exists st', relax weight d v st (w, data) = inr st'
              /\ opt (Some (d, v, l)) st'.
Proof.
  intros O S Hin.
  destruct (expanding st d v _ O S) as (dv & pv & Hdv & Hmax & Hpv & Wv & Hcv).
  pose proof (vw_length_eq st d v w data dv Hdv Hin) as Hvw.
  destruct (relax_cases d v st w data) as [dw Dw Hle|dw Dw Hlt|sw Dw Sw Hle|Dw Himp].
  - exists st. split; [reflexivity|].
    destruct (opt_dists _ _ _ _ _ _ O d w dw Dw) as [(sw & Hsw & Hq) _].
    apply (opt_drop st d v w data l dv sw O Hdv Hsw). rewrite Hvw in Hle. lra.
  - exfalso. destruct (opt_dists _ _ _ _ _ _ O d w dw Dw) as [_ Ho].
    assert (Wn : walk G (origin d) w (pv ++ [w])).
    { apply walk_snoc with v; [exact Wv | exists data; exact Hin]. }
    specialize (Ho _ Wn). rewrite (dcost_snoc d (origin d) v w pv Wv) in Ho.
    rewrite Hvw in Hlt. lra.
  - exists st. split; [reflexivity|].
    apply (opt_drop st d v w data l dv sw O Hdv Sw). rewrite Hvw in Hle. exact Hle.
  - eexists. split; [reflexivity|]. apply opt_improve; assumption.
Qed.

Lemma opt_relax_all (d : bool) (v : node) (l : list (node * E)) (st : state) :
  opt (Some (d, v, l)) st -> sound st ->
  (forall x, In x l -> In x (view_adj G v)) ->
  exists st', relax_all weight d v st l = inr st'
              /\ opt (Some (d, v, [])) st'.
Proof.
  revert st. induction l as [|[w data] l IH]; intros st O S Hl; cbn [relax_all].
  - exists st. split; [reflexivity | exact O].
  - assert (Hin : In (w, data) (view_adj G v)) by (apply Hl; left; reflexivity).
    destruct (opt_relax st d v w data l O S Hin) as (st1 & R & O1).
    rewrite R. apply IH; [exact O1 | |].
    + apply (sound_relax d v st st1 w data S); [|exact Hin | exact R].
      destruct (opt_max _ _ _ _ _ _ O) as (dv & Hdv & _). eauto.
    + intros x Hx. apply Hl. right. exact Hx.
Qed.

Lemma opt_done (st : state) (d : bool) (v : node) :
  opt (Some (d, v, [])) st -> opt None st.
Proof.
  intros O. destruct O. constructor; try assumption; [|exact I].
  intros d' u du w data Hu Hw.
  destruct (opt_expanded0 d' u du w data Hu Hw) as [(_ & _ & [])|H].
  right. exact H.
Qed.

Lemma opt_turn (st : state) :
  sound st -> opt None st ->
  match turn G weight st with
  | Continue st' => opt None st'
  | Return (inl ValueError) => False
  | Return _ => True
  end.
Proof.
  intros S O. destruct (turn_cases st) as [| dist c v rest dv N0 N1 P Dv
    | | dist c v rest r N0 N1 P Dv Dv' R]; try exact I.
  - eapply opt_stale; eauto.
  - set (d := negb (dir st)) in *.
    pose proof (opt_settle st dist c v rest O P Dv Dv') as O2. fold d in O2.
    assert (S2 : sound (settled (popped st d rest) d v dist)).
    { apply sound_settled; [eapply sound_popped; eauto|].
      rewrite side_of_popped, eqb_reflx. simpl.
      apply (snd_fringe _ _ _ _ S d dist c v), (heappop_In _ _ _ P).
      left. reflexivity. }
    destruct (opt_relax_all d v (view_adj G v) _ O2 S2) as (st3 & R3 & O3); [auto|].
    rewrite R3 in R. subst r. eapply opt_done; eauto.
Qed.

(** ** The answer of the search *)

Lemma walk_suffix (a b y : node) (p1 p2 : list node) :
  walk G a b (p1 ++ y :: p2) -> walk G y b (y :: p2).
Proof.
  intros (_ & Hl & Hc). split; [reflexivity|]. split.
  - rewrite last_app_cons in Hl. exact Hl.
  - apply chain_app in Hc. apply Hc.
Qed.

Lemma last_settled (st : state) (d : bool) (a b : node) (p : list node) :
  walk G a b p ->
  Forall (fun y => is_Some (dists (side_of st d) !! y)) p ->
  is_Some (dists (side_of st d) !! b).
Proof.
  intros (_ & Hl & _) HF. apply last_Some in Hl. destruct Hl as [l' ->].
  apply Forall_app in HF. destruct HF as [_ HF]. apply Forall_inv in HF. exact HF.
Qed.

(** When every seen, unsettled node of direction [e'] is at distance
    [lo e'] at least and the best path found is no longer than
    [lo false + lo true], no walk between the two ends is shorter than the
    best path found. *)
Lemma meet_bound (st : state) (lo : bool -> Q) (e : bool) (p : list node) :
  opt None st ->
  (forall e' y sy, dists (side_of st e') !! y = None ->
                   seen (side_of st e') !! y = Some sy -> (lo e' <= sy)%Q) ->
  (finaldist st <= lo false + lo true)%Q ->
  walk G (origin e) (origin (negb e)) p ->
  (finaldist st <= dcost e p)%Q.
Proof.
  intros O Hlo Hfin W.
  assert (Hfin' : (finaldist st <= lo e + lo (negb e))%Q)
    by (destruct e; simpl; lra).
  destruct (frontier st e _ p O W)
    as [HF | (p1 & y & p2 & sy & Hp & Hy & Hsy & Hle)].
  - destruct (last_settled st e _ _ p W HF) as [a Ha].
    destruct (opt_dists _ _ _ _ _ _ O e _ a Ha) as [(sa & Hsa & Hq) Ho].
    destruct (opt_origin _ _ _ _ _ _ O (negb e)) as (s & Hs & Hs0).
    pose proof (opt_meet_dir None st e _ sa s O Hsa Hs).
    specialize (Ho p W). lra.
  - subst p. pose proof (walk_suffix _ _ y p1 p2 W) as Ws.
    pose proof (walk_rev _ _ _ V Ws) as Wr.
    pose proof (dcost_app e p1 p2 y) as Happ.
    pose proof (dcost_rev e (y :: p2)) as Hrev.
    destruct (frontier st (negb e) y (rev (y :: p2)) O Wr)
      as [HF | (q1 & z & q2 & sz & Hq & Hz & Hsz & Hlez)].
    + destruct (last_settled st (negb e) _ _ _ Wr HF) as [b Hb].
      destruct (opt_dists _ _ _ _ _ _ O (negb e) y b Hb) as [(sb & Hsb & Hqb) Ho].
      pose proof (opt_meet_dir None st e y sy sb O Hsy Hsb).
      specialize (Ho _ Wr). lra.
    + pose proof (Hlo e y sy Hy Hsy). pose proof (Hlo (negb e) z sz Hz Hsz).
      assert (Hpre : (dcost (negb e) (q1 ++ [z]) <= dcost (negb e) (rev (y :: p2)))%Q).
      { rewrite Hq. apply dcost_prefix. rewrite <- Hq. apply Wr. }
      lra.
Qed.

Lemma opt_return (st : state) (p q : list node) :
  sound st -> opt None st ->
  turn G weight st = Return (inr p) ->
  walk G source target q ->
  (dcost false p <= dcost false q)%Q.
Proof.
  intros S O H Wq. destruct (turn_cases st) as [| | dist c v rest dv N0 N1 P Dv Dv'
    | dist c v rest r N0 N1 P Dv Dv' R]; try discriminate;
    [|destruct r; discriminate].
  injection H as <-. set (d := negb (dir st)) in *.
  assert (Hd : dir st = negb d) by (unfold d; rewrite negb_involutive; reflexivity).
  rewrite Hd in Dv'.
  destruct (popped_dist st d dist c v rest O P Dv) as (sv & Hsv & Hsvd).
  destruct (opt_dists _ _ _ _ _ _ O (negb d) v dv Dv') as [(sv' & Hsv' & Hq') _].
  pose proof (opt_meet_dir None st d v sv sv' O Hsv Hsv') as Hm.
  assert (Hne : finalpath st <> []).
  { apply (snd_meet _ _ _ _ S v); destruct d; simpl in *; eauto. }
  rewrite (opt_final _ _ _ _ _ _ O Hne).
  apply (meet_bound st (fun e' => if Bool.eqb e' d then dist else dv) false q O).
  - intros e' y sy Hy Hsy. side_cases e' d B.
    + destruct (opt_fringe_in _ _ _ _ _ _ O d y sy Hsy Hy) as [c' Hin].
      exact (heappop_min _ _ _ P _ Hin).
    + assert (e' = negb d) by (destruct e', d; try reflexivity; discriminate).
      subst e'.
      destruct (opt_fringe_in _ _ _ _ _ _ O (negb d) y sy Hsy Hy) as [c' Hin].
      exact (opt_mono _ _ _ _ _ _ O (negb d) v dv sy c' y Dv' Hin).
  - destruct d; simpl; lra.
  - exact Wq.
Qed.

Lemma opt_exit (st : state) (q : list node) :
  opt None st ->
  fringe (fwd st) = [] \/ fringe (bwd st) = [] ->
  walk G source target q -> False.
Proof.
  intros O Hex Wq.
  assert (Hempty : forall e p,
    fringe (side_of st e) = [] -> walk G (origin e) (origin (negb e)) p ->
    is_Some (dists (side_of st e) !! origin (negb e))).
  { intros e p He W.
    destruct (frontier st e _ p O W)
      as [HF | (p1 & y & p2 & sy & Hp & Hy & Hsy & Hle)].
    - eapply last_settled; eauto.
    - destruct (opt_fringe_in _ _ _ _ _ _ O e y sy Hsy Hy) as [c' Hin].
      rewrite He in Hin. destruct Hin. }
  destruct Hex as [He|He].
  - pose proof (Hempty false q He Wq) as Ht. simpl in Ht.
    destruct (dists (bwd st) !! target) as [x|] eqn:Dt.
    + apply (opt_disjoint _ _ _ _ _ _ O target); [exact Ht | rewrite Dt; eauto].
    + destruct (opt_phase2 _ _ _ _ _ _ O Dt) as (_ & _ & Hall & _).
      apply Hdistinct. symmetry. apply Hall, Ht.
  - pose proof (Hempty true (rev q) He (walk_rev _ _ _ V Wq)) as Hs. simpl in Hs.
    destruct (dists (fwd st) !! source) as [x|] eqn:Ds.
    + apply (opt_disjoint _ _ _ _ _ _ O source); [rewrite Ds; eauto | exact Hs].
    + destruct (opt_phase1 _ _ _ _ _ _ O Ds) as (_ & _ & E1 & _).
      rewrite E1, lookup_empty in Hs. destruct Hs as [? Hs]. discriminate.
Qed.

(** The loop, started from a state that satisfies the invariants, stops
    with a shortest walk when there is a walk and with [NetworkXNoPath]
    when there is none. *)
Lemma loop_opt (fuel : nat) (st : state) :
  sound st -> opt None st -> (measure G st < fuel)%nat ->
  (exists p, loop G weight fuel st = Some (inr p)
             /\ walk G source target p
             /\ forall q, walk G source target q ->
                          (dcost false p <= dcost false q)%Q)
  \/ (loop G weight fuel st = Some (inl NetworkXNoPath)
      /\ forall q, ~ walk G source target q).
Proof.
  revert st. induction fuel as [|fuel IH]; intros st S O Hm; [lia|].
  simpl. pose proof (opt_turn st S O) as OT.
  destruct (turn G weight st) as [st'|r] eqn:T.
  - apply IH; [eapply sound_turn; eauto | exact OT |].
    pose proof (measure_turn _ _ S T). lia.
  - destruct r as [e|p].
    + assert (He : e = NetworkXNoPath).
      { destruct (turn_cases st) as [| | | dist c v rest r N0 N1 P Dv Dv' R];
          try discriminate.
        - congruence.
        - exfalso. destruct r as [e'|]; [|discriminate].
          set (d := negb (dir st)) in *.
          pose proof (opt_settle st dist c v rest O P Dv Dv') as O2. fold d in O2.
          assert (S2 : sound (settled (popped st d rest) d v dist)).
          { apply sound_settled; [eapply sound_popped; eauto|].
            rewrite side_of_popped, eqb_reflx. simpl.
            apply (snd_fringe _ _ _ _ S d dist c v), (heappop_In _ _ _ P).
            left. reflexivity. }
          destruct (opt_relax_all d v (view_adj G v) _ O2 S2) as (st3 & R3 & _);
            [auto|]. rewrite R3 in R. discriminate. }
      subst e. right. split; [reflexivity|]. intros q Wq.
      destruct (turn_cases st) as [Hex| | | dist c v rest r N0 N1 P Dv Dv' R];
        try discriminate.
      * exact (opt_exit st q O Hex Wq).
      * destruct r as [e|]; [|discriminate]. injection T as ->.
        set (d := negb (dir st)) in *.
        pose proof (opt_settle st dist c v rest O P Dv Dv') as O2. fold d in O2.
        assert (S2 : sound (settled (popped st d rest) d v dist)).
        { apply sound_settled; [eapply sound_popped; eauto|].
          rewrite side_of_popped, eqb_reflx. simpl.
          apply (snd_fringe _ _ _ _ S d dist c v), (heappop_In _ _ _ P).
          left. reflexivity. }
        destruct (opt_relax_all d v (view_adj G v) _ O2 S2) as (st3 & R3 & _);
          [auto|]. rewrite R3 in R. discriminate.
    + left. exists p. split; [reflexivity|]. split.
      * eapply sound_return; eauto.
      * intros q Wq. eapply opt_return; eauto.
Qed.

End SearchFacts.

Import Nx GraphInv SearchInv Exact.

(** * The exact search as a whole *)

Section Dijkstra.
Context {E : Type}.
Variable G : View E.
Variable weight : node -> node -> E -> Q.
Hypothesis V : view_ok G.

Lemma view_has_node_iff (n : node) :
  view_has_node G n = true <-> In n (view_nodes G).
Proof.
  unfold view_has_node. rewrite existsb_exists. split.
  - intros (x & Hx & Heq). apply Z.eqb_eq in Heq. subst. exact Hx.
  - intros H. exists n. split; [exact H | apply Z.eqb_refl].
Qed.

Lemma bidirectional_dijkstra_absent (source target : node) :
  view_has_node G source = false \/ view_has_node G target = false ->
  bidirectional_dijkstra G weight source target = Some (inl NodeNotFound).
Proof.
  unfold bidirectional_dijkstra. intros [H|H].
  - rewrite H. reflexivity.
  - rewrite H. destruct (view_has_node G source); reflexivity.
Qed.

(** Whatever the weights, the search ends, and a path it returns is a walk
    of the view between the two nodes. *)
Lemma bidirectional_dijkstra_sound (source target : node) :
  view_has_node G source = true -> view_has_node G target = true ->
  exists r, bidirectional_dijkstra G weight source target = Some r
    /\ r <> inl NodeNotFound
    /\ forall p, r = inr p -> walk G source target p.
Proof.
  intros Hs Ht. unfold bidirectional_dijkstra. rewrite Hs, Ht. simpl.
  apply view_has_node_iff in Hs, Ht.
  destruct (source =? target) eqn:Heq.
  - apply Z.eqb_eq in Heq. subst target. eexists. split; [reflexivity|].
    split; [discriminate|]. intros p [= <-]. apply walk_origin.
  - apply Z.eqb_neq in Heq.
    pose proof (sound_init G source target Hs Heq) as S.
    destruct (loop_total G weight source target V Hs Ht _ _ S
                (measure_init G source target)) as [r Hr].
    exists r. split; [exact Hr|]. split.
    + intros ->. exact (loop_no_NodeNotFound G weight _ _ Hr).
    + intros p ->. exact (loop_sound G weight source target V _ _ p S Hr).
Qed.

Hypothesis Hnonneg : nonneg_weight G weight.

(** With non-negative weights the search returns a walk of least total
    weight when the two nodes are connected and raises [NetworkXNoPath]
    when they are not. *)
Lemma bidirectional_dijkstra_optimal (source target : node) :
  view_has_node G source = true -> view_has_node G target = true ->
  (exists p, bidirectional_dijkstra G weight source target = Some (inr p)
             /\ walk G source target p
             /\ forall q, walk G source target q ->
                  (Path.total (ecost G weight) p
                   <= Path.total (ecost G weight) q)%Q)
  \/ (bidirectional_dijkstra G weight source target
      = Some (inl NetworkXNoPath)
      /\ forall q, ~ walk G source target q).
Proof.
  intros Hs Ht. unfold bidirectional_dijkstra. rewrite Hs, Ht. simpl.
  apply view_has_node_iff in Hs, Ht.
  destruct (source =? target) eqn:Heq.
  - apply Z.eqb_eq in Heq. subst target. left. exists [source].
    split; [reflexivity|]. split; [apply walk_origin|].
    intros q (_ & _ & Hc). simpl.
    apply (total_nonneg (vedge G)); [|exact Hc].
    intros x y Hxy.
    exact (step_cost_nonneg G weight V Hnonneg false x y Hxy).
  - apply Z.eqb_neq in Heq.
    exact (loop_opt G weight source target V Hs Ht Heq Hnonneg _ _
             (sound_init G source target Hs Heq)
             (opt_init G weight source target Hs Heq)
             (measure_init G source target)).
Qed.

End Dijkstra.

Import Nx HeapInv.

(** * The heap of [heapq] *)

(** ** The entries are kept *)

Lemma insert_perm {A : Type} (l : list A) (i : nat) (a x : A) :
  l !! i = Some a -> Permutation (x :: l) (a :: <[i := x]> l).
Proof.
  revert i. induction l as [|y l IH]; intros [|i] H; simpl in *;
    try discriminate.
  - injection H as ->. apply perm_swap.
  - specialize (IH i H). cbn [insert list_insert].
    transitivity (y :: x :: l); [apply perm_swap|].
    transitivity (y :: a :: <[i := x]> l); [apply perm_skip, IH|].
    apply perm_swap.
Qed.

(** Writing [y], the entry at [j], at [i] and [x] at [j] is the same, up
    to the order, as writing [x] at [i]. *)
Lemma insert_swap_perm {A : Type} (l : list A) (i j : nat) (a x y : A) :
  i <> j -> l !! i = Some a -> l !! j = Some y ->
  Permutation (<[j := x]> (<[i := y]> l)) (<[i := x]> l).
Proof.
  intros Hne Hi Hj.
  pose proof (insert_perm l i a y Hi) as P1.
  assert (Hj' : <[i := y]> l !! j = Some y)
    by (rewrite list_lookup_insert_ne by exact Hne; exact Hj).
  pose proof (insert_perm (<[i := y]> l) j y x Hj') as P2.
  pose proof (insert_perm l i a x Hi) as P3.
  apply (Permutation_cons_inv (a := a)).
  apply (Permutation_cons_inv (a := y)).
  transitivity (a :: x :: <[i := y]> l).
  { transitivity (a :: y :: <[j := x]> (<[i := y]> l)); [apply perm_swap|].
    apply perm_skip. symmetry. exact P2. }
  transitivity (x :: a :: <[i := y]> l); [apply perm_swap|].
  transitivity (x :: y :: l); [apply perm_skip; symmetry; exact P1|].
  transitivity (y :: x :: l); [apply perm_swap|].
  apply perm_skip. exact P3.
Qed.

Lemma parent_child (p : nat) :
  (0 < p)%nat -> child ((p - 1) / 2) p.
Proof.
  intros H. unfold child. pose proof (Nat.div_mod_eq (p - 1) 2) as E.
  pose proof (Nat.mod_upper_bound (p - 1) 2 ltac:(lia)) as U. lia.
Qed.

Lemma parent_lt (p : nat) : (0 < p -> (p - 1) / 2 < p)%nat.
Proof.
  intros H. pose proof (Nat.div_mod_eq (p - 1) 2) as E.
  pose proof (Nat.mod_upper_bound (p - 1) 2 ltac:(lia)) as U. lia.
Qed.

Lemma child_parent (i j : nat) : child i j -> i = ((j - 1) / 2)%nat /\ (i < j)%nat.
Proof.
  unfold child. intros H. pose proof (Nat.div_mod_eq (j - 1) 2) as E.
  pose proof (Nat.mod_upper_bound (j - 1) 2 ltac:(lia)) as U. lia.
Qed.

Lemma siftdown_loop_perm (fuel : nat) (heap : list entry) (startpos pos : nat)
    (newitem : entry) :
  (pos < length heap)%nat ->
  Permutation (siftdown_loop fuel heap startpos pos newitem)
              (<[pos := newitem]> heap).
Proof.
  revert heap pos. induction fuel as [|fuel IH]; intros heap pos Hp;
    cbn [siftdown_loop]; [reflexivity|].
  destruct (startpos <? pos)%nat eqn:Hs; [|reflexivity].
  apply Nat.ltb_lt in Hs.
  assert (Hlt : ((pos - 1) / 2 < pos)%nat) by (apply parent_lt; lia).
  destruct (heap !! ((pos - 1) / 2)%nat) as [parent|] eqn:Hpar; [|reflexivity].
  destruct (entry_lt newitem parent); [|reflexivity].
  rewrite IH by (rewrite length_insert; lia).
  destruct (lookup_lt_is_Some_2 heap pos Hp) as [a Ha].
  apply (insert_swap_perm heap pos _ a newitem parent); [lia | exact Ha | exact Hpar].
Qed.

Lemma siftdown_perm (heap : list entry) (startpos pos : nat) :
  Permutation (siftdown heap startpos pos) heap.
Proof.
  unfold siftdown. destruct (heap !! pos) as [x|] eqn:Hx; [|reflexivity].
  rewrite siftdown_loop_perm by (apply lookup_lt_is_Some; eauto).
  rewrite list_insert_id by exact Hx. reflexivity.
Qed.

Lemma siftup_loop_perm (fuel : nat) (heap : list entry) (endpos pos : nat)
    (x : entry) :
  (pos < length heap)%nat ->
  (snd (siftup_loop fuel heap endpos pos) < length heap)%nat
  /\ length (fst (siftup_loop fuel heap endpos pos)) = length heap
  /\ Permutation (<[snd (siftup_loop fuel heap endpos pos) := x]>
                    (fst (siftup_loop fuel heap endpos pos)))
                 (<[pos := x]> heap).
Proof.
  revert heap pos. induction fuel as [|fuel IH]; intros heap pos Hp;
    cbn [siftup_loop fst snd]; [auto|].
  destruct (2 * pos + 1 <? endpos)%nat eqn:Hc; [|cbn [fst snd]; auto].
  set (cp := match heap !! (2 * pos + 1)%nat with
             | Some c =>
                 match heap !! (2 * pos + 1 + 1)%nat with
                 | Some r =>
                     if entry_lt c r then (2 * pos + 1)%nat
                     else (2 * pos + 1 + 1)%nat
                 | None => (2 * pos + 1)%nat
                 end
             | None => (2 * pos + 1)%nat
             end).
  assert (Hcp : (pos < cp)%nat).
  { unfold cp. destruct (heap !! (2 * pos + 1)%nat); [|lia].
    destruct (heap !! (2 * pos + 1 + 1)%nat); [|lia].
    destruct (entry_lt _ _); lia. }
  destruct (heap !! cp) as [c|] eqn:Hcc; [|cbn [fst snd]; auto].
  assert (Hcl : (cp < length heap)%nat) by (apply lookup_lt_is_Some; eauto).
  destruct (IH (<[pos := c]> heap) cp) as (H1 & H2 & H3);
    [rewrite length_insert; exact Hcl|].
  rewrite length_insert in H1, H2.
  split; [exact H1|]. split; [exact H2|].
  rewrite H3.
  destruct (lookup_lt_is_Some_2 heap pos Hp) as [a Ha].
  apply (insert_swap_perm heap pos cp a x c); [lia | exact Ha | exact Hcc].
Qed.

Lemma siftup_perm (heap : list entry) (pos : nat) :
  Permutation (siftup heap pos) heap.
Proof.
  unfold siftup. destruct (heap !! pos) as [x|] eqn:Hx; [|reflexivity].
  assert (Hp : (pos < length heap)%nat) by (apply lookup_lt_is_Some; eauto).
  destruct (siftup_loop_perm (length heap) heap (length heap) pos x Hp)
    as (H1 & H2 & H3).
  destruct (siftup_loop (length heap) heap (length heap) pos) as [h' leaf].
  simpl in *. rewrite siftdown_perm, H3, list_insert_id by exact Hx.
  reflexivity.
Qed.

Lemma heappush_perm (heap : list entry) (item : entry) :
  Permutation (heappush heap item) (item :: heap).
Proof.
  unfold heappush. rewrite siftdown_perm. symmetry.
  apply Permutation_cons_append.
Qed.

Lemma heappop_empty (heap : list entry) : heappop heap = None <-> heap = [].
Proof.
  unfold heappop. split.
  - destruct (last heap) as [x|] eqn:L; [|apply last_None in L; auto].
    destruct (removelast heap); discriminate.
  - intros ->. reflexivity.
Qed.

Lemma heappop_split (heap : list entry) (x : entry) (rest : list entry) :
  heappop heap = Some (x, rest) ->
  exists lastelt body,
    heap = body ++ [lastelt]
    /\ ((body = [] /\ x = lastelt /\ rest = [])
        \/ exists tl', body = x :: tl' /\ rest = siftup (lastelt :: tl') 0).
Proof.
  unfold heappop. destruct (last heap) as [lastelt|] eqn:L; [|discriminate].
  apply last_Some in L. destruct L as [body ->].
  rewrite removelast_last. intros H. exists lastelt, body.
  split; [reflexivity|].
  destruct body as [|r tl']; injection H as <- <-; [left; auto | right; eauto].
Qed.

Lemma heappop_perm (heap : list entry) (x : entry) (rest : list entry) :
  heappop heap = Some (x, rest) -> Permutation heap (x :: rest).
Proof.
  intros H. apply heappop_split in H.
  destruct H as (lastelt & body & -> & [(-> & -> & ->)|(tl' & -> & ->)]).
  - reflexivity.
  - rewrite siftup_perm. simpl. apply perm_skip.
    symmetry. apply Permutation_cons_append.
Qed.

(** ** The order of the entries whose distance is an [int] *)

Lemma entry_lt_int (a b : Z) (c c' : nat) (v v' : node) :
  entry_lt (Int a, c, v) (Int b, c', v') = true
  <-> a < b \/ (a = b /\ ((c < c')%nat \/ (c = c' /\ v < v'))).
Proof.
  unfold entry_lt, Py.eqb, Py.ltb, Py.compare.
  destruct (a ?= b) eqn:Hab.
  - apply Z.compare_eq in Hab. subst b.
    destruct (c =? c')%nat eqn:Hc.
    + apply Nat.eqb_eq in Hc. subst c'. rewrite Z.ltb_lt. lia.
    + apply Nat.eqb_neq in Hc. rewrite Nat.ltb_lt. lia.
  - rewrite Z.compare_lt_iff in Hab. split; [auto | reflexivity].
  - rewrite Z.compare_gt_iff in Hab. split; [discriminate | lia].
Qed.

Lemma entry_le_int (a b : Z) (c c' : nat) (v v' : node) :
  entry_le (Int a, c, v) (Int b, c', v')
  <-> a < b \/ (a = b /\ ((c < c')%nat \/ (c = c' /\ v <= v'))).
Proof.
  unfold entry_le. pose proof (entry_lt_int b a c' c v' v) as H.
  destruct (entry_lt (Int b, c', v') (Int a, c, v)).
  - split; [discriminate|]. intros H'. assert (true = true) as X by reflexivity.
    apply H in X. lia.
  - split; [|reflexivity]. intros _.
    assert (~ (b < a \/ (b = a /\ ((c' < c)%nat \/ (c' = c /\ v' < v))))) as N
      by (intros X; apply H in X; discriminate).
    lia.
Qed.

Lemma int_entry_inv (x : entry) :
  int_entry x -> exists a c v, x = (Int a, c, v).
Proof. destruct x as [[d c] v]. intros [z Hz]. simpl in Hz. subst d. eauto. Qed.

Lemma entry_le_refl (x : entry) : int_entry x -> entry_le x x.
Proof.
  intros Hx. apply int_entry_inv in Hx. destruct Hx as (a & c & v & ->).
  apply entry_le_int. lia.
Qed.

Lemma entry_le_trans (x y z : entry) :
  int_entry x -> int_entry y -> int_entry z ->
  entry_le x y -> entry_le y z -> entry_le x z.
Proof.
  intros Hx Hy Hz. apply int_entry_inv in Hx, Hy, Hz.
  destruct Hx as (a & c & v & ->), Hy as (a' & c' & v' & ->),
    Hz as (a'' & c'' & v'' & ->).
  rewrite !entry_le_int. lia.
Qed.

Lemma entry_lt_le (x y : entry) :
  int_entry x -> int_entry y -> entry_lt x y = true -> entry_le x y.
Proof.
  intros Hx Hy. apply int_entry_inv in Hx, Hy.
  destruct Hx as (a & c & v & ->), Hy as (a' & c' & v' & ->).
  rewrite entry_lt_int, entry_le_int. lia.
Qed.

Lemma entry_le_antisym (x y : entry) :
  int_entry x -> int_entry y -> entry_le x y -> entry_le y x -> x = y.
Proof.
  intros Hx Hy. apply int_entry_inv in Hx, Hy.
  destruct Hx as (a & c & v & ->), Hy as (a' & c' & v' & ->).
  rewrite !entry_le_int. intros H1 H2.
  assert (a = a' /\ c = c' /\ v = v') as (-> & -> & ->) by lia. reflexivity.
Qed.

(** ** The heap invariant is kept *)

Lemma Forall_lookup_int (h : list entry) (i : nat) (x : entry) :
  Forall int_entry h -> h !! i = Some x -> int_entry x.
Proof.
  intros F H. rewrite List.Forall_forall in F. apply F.
  apply list_elem_of_In. eapply list_elem_of_lookup_2, H.
Qed.

Lemma root_least (h : list entry) (r : entry) :
  heap_ok h -> Forall int_entry h -> h !! 0%nat = Some r ->
  forall j y, h !! j = Some y -> entry_le r y.
Proof.
  intros Hok F Hr j. induction j as [j IH] using lt_wf_ind. intros y Hy.
  destruct (Nat.eq_dec j 0%nat) as [->|Hj].
  - assert (y = r) by congruence. subst y.
    apply entry_le_refl. eapply Forall_lookup_int; eauto.
  - assert (C : child ((j - 1) / 2) j) by (apply parent_child; lia).
    assert (L : ((j - 1) / 2 < j)%nat) by (apply parent_lt; lia).
    assert (Hj' : (j < length h)%nat) by (apply lookup_lt_is_Some; eauto).
    destruct (lookup_lt_is_Some_2 h ((j - 1) / 2)%nat ltac:(lia)) as [a Ha].
    apply (entry_le_trans r a y); try (eapply Forall_lookup_int; eauto).
    + exact (IH _ L a Ha).
    + exact (Hok _ _ C a y Ha Hy).
Qed.

Lemma siftdown_loop_ok (fuel : nat) (h : list entry) (pos : nat) (x : entry) :
  (pos <= fuel)%nat -> (pos < length h)%nat ->
  Forall int_entry (<[pos := x]> h) ->
  rising (<[pos := x]> h) pos ->
  heap_ok (siftdown_loop fuel h 0 pos x).
Proof.
  revert h pos. induction fuel as [|fuel IH]; intros h pos Hf Hp F [Ra Rb];
    cbn [siftdown_loop].
  - assert (pos = 0%nat) by lia. subst pos.
    intros i j C. apply Ra; [exact C|]. unfold child in C. lia.
  - destruct (0 <? pos)%nat eqn:H0.
    2:{ apply Nat.ltb_ge in H0. assert (pos = 0%nat) by lia. subst pos.
        intros i j C. apply Ra; [exact C|]. unfold child in C. lia. }
    apply Nat.ltb_lt in H0.
    set (pp := ((pos - 1) / 2)%nat).
    assert (Cp : child pp pos) by (apply parent_child; exact H0).
    assert (Lp : (pp < pos)%nat) by (apply parent_lt; exact H0).
    destruct (lookup_lt_is_Some_2 h pp ltac:(lia)) as [parent Hpar].
    rewrite Hpar.
    assert (HHpp : <[pos := x]> h !! pp = Some parent)
      by (rewrite list_lookup_insert_ne by lia; exact Hpar).
    assert (HHpos : <[pos := x]> h !! pos = Some x)
      by (apply list_lookup_insert_eq; exact Hp).
    assert (Ix : int_entry x) by (eapply Forall_lookup_int; eauto).
    assert (Ipar : int_entry parent) by (eapply Forall_lookup_int; eauto).
    destruct (entry_lt x parent) eqn:Hlt.
    + (* the parent moves down *)
      destruct (lookup_lt_is_Some_2 h pos Hp) as [a0 Ha0].
      assert (P : Permutation (<[pp := x]> (<[pos := parent]> h))
                              (<[pos := x]> h))
        by (apply (insert_swap_perm h pos pp a0 x parent);
            [lia | exact Ha0 | exact Hpar]).
      assert (F' : Forall int_entry (<[pp := x]> (<[pos := parent]> h)))
        by (eapply Permutation_Forall; [symmetry; exact P | exact F]).
      assert (Lpp : <[pp := x]> (<[pos := parent]> h) !! pp = Some x)
        by (apply list_lookup_insert_eq; rewrite length_insert; lia).
      assert (Lpos : <[pp := x]> (<[pos := parent]> h) !! pos = Some parent)
        by (rewrite list_lookup_insert_ne by lia;
            apply list_lookup_insert_eq; exact Hp).
      assert (Lx : forall k, k <> pp -> k <> pos ->
        <[pp := x]> (<[pos := parent]> h) !! k = <[pos := x]> h !! k)
        by (intros k N1 N2; rewrite !list_lookup_insert_ne by lia;
            reflexivity).
      assert (Lxp : entry_le x parent) by (apply entry_lt_le; assumption).
      apply IH; [lia | rewrite length_insert; lia | exact F' |].
      split.
      * intros i j C Hj a b Ha Hb.
        destruct (child_parent i j C) as [Hi Hij].
        destruct (Nat.eq_dec j pos) as [->|Njp].
        -- fold pp in Hi. subst i. rewrite Lpp in Ha. rewrite Lpos in Hb.
           injection Ha as <-. injection Hb as <-. exact Lxp.
        -- rewrite Lx in Hb by assumption.
           destruct (Nat.eq_dec i pp) as [->|Nip].
           ++ rewrite Lpp in Ha. injection Ha as <-.
              pose proof (Ra pp j C Njp parent b HHpp Hb) as Hpb.
              apply (entry_le_trans x parent b); try assumption.
              exact (Forall_lookup_int _ _ _ F Hb).
           ++ destruct (Nat.eq_dec i pos) as [->|Nipos].
              ** rewrite Lpos in Ha. injection Ha as <-.
                 exact (Rb pp j Cp C parent b HHpp Hb).
              ** rewrite Lx in Ha by assumption.
                 exact (Ra i j C Njp a b Ha Hb).
      * intros g j Cg Cj a b Ha Hb.
        destruct (child_parent g pp Cg) as [_ Hg].
        destruct (child_parent pp j Cj) as [_ Hjp].
        rewrite Lx in Ha by lia.
        assert (Hap : entry_le a parent)
          by (apply (Ra g pp Cg ltac:(lia) a parent Ha HHpp)).
        destruct (Nat.eq_dec j pos) as [->|Njp].
        -- rewrite Lpos in Hb. injection Hb as <-. exact Hap.
        -- rewrite Lx in Hb by lia.
           apply (entry_le_trans a parent b); try assumption.
           ++ exact (Forall_lookup_int _ _ _ F Ha).
           ++ exact (Forall_lookup_int _ _ _ F Hb).
           ++ exact (Ra pp j Cj Njp parent b HHpp Hb).
    + (* [newitem] stays at [pos] *)
      intros i j C a b Ha Hb.
      destruct (Nat.eq_dec j pos) as [->|Njp].
      * destruct (child_parent i pos C) as [Hi _]. fold pp in Hi. subst i.
        assert (a = parent) by congruence. assert (b = x) by congruence.
        subst a b. exact Hlt.
      * exact (Ra i j C Njp a b Ha Hb).
Qed.

Lemma siftup_loop_ok (fuel : nat) (h : list entry) (pos : nat) :
  (length h - pos <= fuel)%nat -> (pos < length h)%nat ->
  Forall int_entry h -> sinking h pos ->
  let '(h', leaf) := siftup_loop fuel h (length h) pos in
  sinking h' leaf /\ (leaf < length h')%nat /\ length h' = length h
  /\ (length h' <= 2 * leaf + 1)%nat /\ (pos <= leaf)%nat
  /\ Forall int_entry h'.
Proof.
  revert h pos. induction fuel as [|fuel IH]; intros h pos Hf Hp F [Sa Sb];
    cbn [siftup_loop]; [lia|].
  destruct (2 * pos + 1 <? length h)%nat eqn:Hc.
  2:{ apply Nat.ltb_ge in Hc. repeat split; auto; lia. }
  apply Nat.ltb_lt in Hc.
  destruct (lookup_lt_is_Some_2 h (2 * pos + 1)%nat Hc) as [c1 Hc1].
  rewrite Hc1.
  set (cp := match h !! (2 * pos + 1 + 1)%nat with
             | Some r => if entry_lt c1 r then (2 * pos + 1)%nat
                         else (2 * pos + 1 + 1)%nat
             | None => (2 * pos + 1)%nat
             end).
  assert (Hcp : exists c, h !! cp = Some c /\ child pos cp
            /\ forall j b, child pos j -> j <> cp -> h !! j = Some b ->
                 entry_le c b).
  { unfold cp. destruct (h !! (2 * pos + 1 + 1)%nat) as [r|] eqn:Hr.
    - destruct (entry_lt c1 r) eqn:Hlt.
      + exists c1. split; [exact Hc1|]. split; [left; reflexivity|].
        intros j b [->| ->] Hj Hb; [contradiction|].
        replace (2 * pos + 2)%nat with (2 * pos + 1 + 1)%nat in Hb by lia.
        assert (b = r) by congruence. subst b.
        apply entry_lt_le; [| |exact Hlt];
          eapply Forall_lookup_int; eauto.
      + exists r. split; [exact Hr|]. split; [right; lia|].
        intros j b [->| ->] Hj Hb; [|lia].
        assert (b = c1) by congruence. subst b. exact Hlt.
    - exists c1. split; [exact Hc1|]. split; [left; reflexivity|].
      intros j b [->| ->] Hj Hb; [contradiction|].
      replace (2 * pos + 2)%nat with (2 * pos + 1 + 1)%nat in Hb by lia.
      congruence. }
  destruct Hcp as (c & Hcpc & Ccp & Hmin). rewrite Hcpc.
  destruct (child_parent pos cp Ccp) as [Hpar Hlt].
  assert (Hcl : (cp < length h)%nat) by (apply lookup_lt_is_Some; eauto).
  assert (Ic : int_entry c) by (eapply Forall_lookup_int; eauto).
  assert (F1 : Forall int_entry (<[pos := c]> h)).
  { apply Forall_insert; assumption. }
  assert (L1 : forall k, k <> pos -> <[pos := c]> h !! k = h !! k)
    by (intros k N; apply list_lookup_insert_ne; lia).
  assert (L2 : <[pos := c]> h !! pos = Some c)
    by (apply list_lookup_insert_eq; exact Hp).
  assert (S1 : sinking (<[pos := c]> h) cp).
  { split.
    - intros i j C Ni Nj a b Ha Hb.
      destruct (child_parent i j C) as [Hi Hij].
      destruct (Nat.eq_dec i pos) as [->|Nip].
      + rewrite L2 in Ha. injection Ha as <-.
        rewrite L1 in Hb by lia. exact (Hmin j b C Nj Hb).
      + rewrite L1 in Ha by assumption.
        destruct (Nat.eq_dec j pos) as [->|Njp].
        * rewrite L2 in Hb. injection Hb as <-.
          exact (Sb i cp C Ccp a c Ha Hcpc).
        * rewrite L1 in Hb by assumption. exact (Sa i j C Nip Njp a b Ha Hb).
    - intros g j Cg Cj a b Ha Hb.
      destruct (child_parent g cp Cg) as [Hg _].
      destruct (child_parent pos cp Ccp) as [Hg' _].
      assert (Eg : g = pos) by congruence. clear Hg Hg'. subst g.
      destruct (child_parent cp j Cj) as [_ Hj].
      rewrite L2 in Ha. injection Ha as <-.
      rewrite L1 in Hb by lia.
      exact (Sa cp j Cj ltac:(lia) ltac:(lia) c b Hcpc Hb). }
  specialize (IH (<[pos := c]> h) cp).
  rewrite length_insert in IH.
  assert (Hfu : (length h - cp <= fuel)%nat)
    by lia.
  specialize (IH Hfu Hcl F1 S1).
  destruct (siftup_loop fuel (<[pos := c]> h) (length h) cp) as [h' leaf].
  destruct IH as (I1 & I2 & I3 & I4 & I5 & I6).
  split; [exact I1|]. split; [exact I2|]. split; [exact I3|].
  split; [exact I4|]. split; [lia | exact I6].
Qed.

Lemma siftup_ok (h : list entry) :
  Forall int_entry h -> sinking h 0 -> heap_ok (siftup h 0).
Proof.
  intros F Hs. unfold siftup.
  destruct (h !! 0%nat) as [newitem|] eqn:H0.
  2:{ destruct h; [|discriminate]. intros i j _ a b Ha. discriminate. }
  assert (Hl : (0 < length h)%nat) by (apply lookup_lt_is_Some; eauto).
  assert (Hfu : (length h - 0 <= length h)%nat) by lia.
  pose proof (siftup_loop_ok (length h) h 0%nat Hfu Hl F Hs) as L.
  destruct (siftup_loop (length h) h (length h) 0) as [h' leaf].
  destruct L as ([Sa Sb] & L2 & L3 & L4 & _ & L6).
  assert (In : int_entry newitem) by exact (Forall_lookup_int _ _ _ F H0).
  unfold siftdown.
  rewrite list_lookup_insert_eq by exact L2.
  apply siftdown_loop_ok.
  - lia.
  - rewrite length_insert. exact L2.
  - rewrite list_insert_insert_eq. apply Forall_insert; assumption.
  - rewrite list_insert_insert_eq. split.
    + intros i j C Nj a b Ha Hb.
      destruct (child_parent i j C) as [_ Hij].
      destruct (Nat.eq_dec i leaf) as [->|Ni].
      * assert (j < length (<[leaf := newitem]> h'))%nat
          by (apply lookup_lt_is_Some; eauto).
        rewrite length_insert in *. unfold child in C. lia.
      * rewrite list_lookup_insert_ne in Ha, Hb by lia.
        exact (Sa i j C Ni Nj a b Ha Hb).
    + intros g j Cg Cj a b Ha Hb.
      assert (j < length (<[leaf := newitem]> h'))%nat
        by (apply lookup_lt_is_Some; eauto).
      rewrite length_insert in *. unfold child in Cj. lia.
Qed.

Lemma heap_ok_nil : heap_ok [].
Proof. intros i j _ a b Ha. discriminate. Qed.

Lemma heappush_ok (heap : list entry) (item : entry) :
  heap_ok heap -> Forall int_entry heap -> int_entry item ->
  heap_ok (heappush heap item).
Proof.
  intros Hok F Ii. unfold heappush, siftdown.
  rewrite lookup_app_r by lia. rewrite Nat.sub_diag. cbn [lookup list_lookup].
  assert (E : <[length heap := item]> (heap ++ [item]) = heap ++ [item]).
  { apply list_insert_id. rewrite lookup_app_r by lia.
    rewrite Nat.sub_diag. reflexivity. }
  apply siftdown_loop_ok.
  - lia.
  - rewrite length_app. simpl. lia.
  - rewrite E. apply Forall_app. split; [exact F|]. constructor; auto.
  - rewrite E. split.
    + intros i j C Nj a b Ha Hb.
      destruct (child_parent i j C) as [_ Hij].
      assert (j < length (heap ++ [item]))%nat
        by (apply lookup_lt_is_Some; eauto).
      rewrite length_app in *. simpl in *.
      rewrite lookup_app_l in Ha, Hb by lia.
      exact (Hok i j C a b Ha Hb).
    + intros g j Cg Cj a b Ha Hb.
      assert (j < length (heap ++ [item]))%nat
        by (apply lookup_lt_is_Some; eauto).
      rewrite length_app in *. simpl in *. unfold child in Cj. lia.
Qed.

Lemma heappop_root (heap : list entry) (x : entry) (rest : list entry) :
  heappop heap = Some (x, rest) -> heap !! 0%nat = Some x.
Proof.
  intros H. apply heappop_split in H.
  destruct H as (lastelt & body & -> & [(-> & -> & ->)|(tl' & -> & ->)]);
    reflexivity.
Qed.

Lemma heappop_least (heap : list entry) (x : entry) (rest : list entry) :
  heap_ok heap -> Forall int_entry heap -> heappop heap = Some (x, rest) ->
  forall y, y ∈ heap -> entry_le x y.
Proof.
  intros Hok F H y Hy. apply heappop_root in H.
  apply list_elem_of_lookup in Hy. destruct Hy as [j Hj].
  exact (root_least heap x Hok F H j y Hj).
Qed.

Lemma heappop_ok (heap : list entry) (x : entry) (rest : list entry) :
  heap_ok heap -> Forall int_entry heap -> heappop heap = Some (x, rest) ->
  heap_ok rest.
Proof.
  intros Hok F H. apply heappop_split in H.
  destruct H as (lastelt & body & -> & [(-> & -> & ->)|(tl' & -> & ->)]).
  - apply heap_ok_nil.
  - apply Forall_app in F. destruct F as [F1 F2].
    apply Forall_cons in F1. destruct F1 as [_ F1].
    apply Forall_cons in F2. destruct F2 as [F2 _].
    apply siftup_ok.
    + constructor; assumption.
    + split.
      * intros i j C Ni Nj a b Ha Hb.
        destruct (child_parent i j C) as [_ Hij].
        assert (Hjl : (j < length (lastelt :: tl'))%nat)
          by (apply lookup_lt_is_Some; eauto).
        simpl in Hjl.
        apply (Hok i j C a b).
        -- destruct i as [|i]; [contradiction|].
           change (((x :: tl') ++ [lastelt]) !! S i)
             with ((tl' ++ [lastelt]) !! i).
           rewrite lookup_app_l by lia. exact Ha.
        -- destruct j as [|j]; [contradiction|].
           change (((x :: tl') ++ [lastelt]) !! S j)
             with ((tl' ++ [lastelt]) !! j).
           rewrite lookup_app_l by lia. exact Hb.
      * intros g j Cg. unfold child in Cg. lia.
Qed.

Import Nx GraphInv NxInv.

(** * The search, whatever the weights *)

Lemma add_raises (x y : num) (e : exn) : Py.add x y = inl e -> e = OverflowError.
Proof.
  unfold Py.add, Py.float_op, Py.to_float, Py.float_of_int, bind.
  destruct x as [a|f], y as [b|g]; try discriminate;
    repeat match goal with
           | |- context [binary_normalize ?p ?m ?z ?x ?s] =>
               destruct (binary_normalize p m z x s)
           end; congruence.
Qed.

Lemma mul_raises (x y : num) (e : exn) : Py.mul x y = inl e -> e = OverflowError.
Proof.
  unfold Py.mul, Py.float_op, Py.to_float, Py.float_of_int, bind.
  destruct x as [a|f], y as [b|g]; try discriminate;
    repeat match goal with
           | |- context [binary_normalize ?p ?m ?z ?x ?s] =>
               destruct (binary_normalize p m z x s)
           end; congruence.
Qed.

Lemma nx_side_of_cases (st : state) (d d' : bool) (s : side) :
  side_of (with_side st d s) d' = if Bool.eqb d' d then s else side_of st d'.
Proof. destruct d, d'; reflexivity. Qed.

Lemma nx_side_of_pushed (d : bool) (v w : node) (vw : num) (st : state)
    (d' : bool) :
  side_of (pushed d v w vw st) d'
  = if Bool.eqb d' d
    then {| dists := dists (side_of st d);
            paths := <[w := default [] (paths (side_of st d) !! v) ++ [w]]>
                       (paths (side_of st d));
            fringe := heappush (fringe (side_of st d)) (vw, counter st, w);
            seen := <[w := vw]> (seen (side_of st d)) |}
    else side_of st d'.
Proof. destruct d, d'; reflexivity. Qed.

Lemma nx_pushed_fields (d : bool) (v w : node) (vw : num) (st : state) :
  finaldist (pushed d v w vw st) = finaldist st
  /\ finalpath (pushed d v w vw st) = finalpath st
  /\ dir (pushed d v w vw st) = dir st
  /\ counter (pushed d v w vw st) = S (counter st).
Proof. destruct d; repeat split. Qed.

Lemma nx_side_of_popped (st : state) (d : bool) (rest : list entry)
    (d' : bool) :
  side_of (popped st d rest) d'
  = if Bool.eqb d' d
    then {| dists := dists (side_of st d); paths := paths (side_of st d);
            fringe := rest; seen := seen (side_of st d) |}
    else side_of st d'.
Proof. destruct d, d'; reflexivity. Qed.

Lemma nx_side_of_settled (st : state) (d : bool) (v : node) (dist : num)
    (d' : bool) :
  side_of (settled st d v dist) d'
  = if Bool.eqb d' d
    then {| dists := <[v := dist]> (dists (side_of st d));
            paths := paths (side_of st d); fringe := fringe (side_of st d);
            seen := seen (side_of st d) |}
    else side_of st d'.
Proof. destruct d, d'; reflexivity. Qed.

Lemma nx_popped_fields (st : state) (d : bool) (rest : list entry) :
  finaldist (popped st d rest) = finaldist st
  /\ finalpath (popped st d rest) = finalpath st
  /\ dir (popped st d rest) = d
  /\ counter (popped st d rest) = counter st.
Proof. destruct d; repeat split. Qed.

Lemma nx_settled_fields (st : state) (d : bool) (v : node) (dist : num) :
  finaldist (settled st d v dist) = finaldist st
  /\ finalpath (settled st d v dist) = finalpath st
  /\ dir (settled st d v dist) = dir st
  /\ counter (settled st d v dist) = counter st.
Proof. destruct d; repeat split. Qed.

Lemma nx_side_of_found (st : state) (w : node) (t : num) (d : bool) :
  side_of (found st w t) d = side_of st d.
Proof. destruct d; reflexivity. Qed.

Lemma nx_is_nil_false {A : Type} (l : list A) : is_nil l = false <-> l <> [].
Proof. destruct l; simpl; split; congruence. Qed.

Lemma heappush_elem (h : list entry) (x y : entry) :
  y ∈ heappush h x <-> y = x \/ y ∈ h.
Proof. rewrite (heappush_perm h x). apply elem_of_cons. Qed.

Lemma heappush_length (h : list entry) (x : entry) :
  length (heappush h x) = S (length h).
Proof. rewrite (Permutation_length (heappush_perm h x)). reflexivity. Qed.

Lemma heappop_elem (h : list entry) (x : entry) (rest : list entry) :
  heappop h = Some (x, rest) -> forall y, y ∈ h <-> y = x \/ y ∈ rest.
Proof.
  intros P y. rewrite (heappop_perm h x rest P). apply elem_of_cons.
Qed.

Lemma heappop_shorter (h : list entry) (x : entry) (rest : list entry) :
  heappop h = Some (x, rest) -> length h = S (length rest).
Proof.
  intros P. rewrite (Permutation_length (heappop_perm h x rest P)).
  reflexivity.
Qed.

Section NxFacts.
Context {E : Type}.
Variable G : View E.
Variable weight : node -> node -> E -> exn + num.
Variables source target : node.

#[local] Abbreviation origin := (origin source target).
#[local] Abbreviation sound := (sound G source target).
#[local] Abbreviation vw_length := (vw_length weight).
#[local] Abbreviation relax_spec := (relax_spec weight).
#[local] Abbreviation turn_spec := (turn_spec G weight).
#[local] Abbreviation side_measure := (side_measure G).
#[local] Abbreviation pot_list := (pot_list G).
#[local] Abbreviation potential := (potential G).
#[local] Abbreviation measure := (measure G).

Lemma nx_relax_cases (d : bool) (v : node) (st : state) (w : node) (data : E) :
  relax_spec d v st w data (relax weight d v st (w, data)).
Proof.
  pose proof (eq_refl (vw_length d v w data st)) as HL.
  unfold NxInv.vw_length at 2, edge_cost in HL. unfold relax.
  destruct (if d then weight w v data else weight v w data) as [e|cost];
    cbn [bind] in *; [apply relax_error; exact HL|].
  destruct (Py.add (default (Int 0) (dists (side_of st d) !! v)) cost)
    as [e|vw]; cbn [bind]; [apply relax_error; exact HL|].
  destruct (dists (side_of st d) !! w) as [dw|] eqn:Dw.
  - destruct (Py.ltb vw dw) eqn:L;
      [eapply relax_contradiction | eapply relax_settled]; eauto.
  - destruct (seen (side_of st d) !! w) as [sw|] eqn:Sw.
    + destruct (Py.ltb vw sw) eqn:L.
      * apply (relax_improve weight d v st w data vw HL Dw).
        intros sw' Heq. assert (sw' = sw) by congruence. subst sw'. exact L.
      * eapply relax_keep; eauto.
    + apply (relax_improve weight d v st w data vw HL Dw).
      intros sw' Heq. congruence.
Qed.

Lemma nx_meet_cases (st : state) (w : node) : meet_spec st w (meet st w).
Proof.
  unfold meet.
  destruct (seen (fwd st) !! w) as [s0|] eqn:S0; [|apply meet_none; auto].
  destruct (seen (bwd st) !! w) as [s1|] eqn:S1; [|apply meet_none; auto].
  destruct (Py.add s0 s1) as [e|t] eqn:A; cbn [bind];
    [eapply meet_error; eauto|].
  destruct (match finalpath st with [] => true | _ => false end
            || Py.gtb (finaldist st) t) eqn:C.
  - apply (meet_better st w s0 s1 t S0 S1 A).
    apply orb_true_iff in C. destruct C as [C|C].
    + left. destruct (finalpath st); [reflexivity | discriminate].
    + right. exact C.
  - apply orb_false_iff in C. destruct C as [C1 C2].
    apply (meet_worse st w s0 s1 t S0 S1 A); [|exact C2].
    destruct (finalpath st); [discriminate | congruence].
Qed.

Lemma nx_side_of_meet (st st' : state) (w : node) (d : bool) :
  meet st w = inr st' -> side_of st' d = side_of st d.
Proof.
  intros H. pose proof (nx_meet_cases st w) as M. rewrite H in M.
  inversion M; subst; reflexivity.
Qed.

Lemma nx_counter_meet (st st' : state) (w : node) :
  meet st w = inr st' -> counter st' = counter st /\ dir st' = dir st.
Proof.
  intros H. pose proof (nx_meet_cases st w) as M. rewrite H in M.
  inversion M; subst; split; reflexivity.
Qed.

Lemma nx_meet_raises (st : state) (w : node) (e : exn) :
  meet st w = inl e -> e = OverflowError.
Proof.
  intros H. pose proof (nx_meet_cases st w) as M. rewrite H in M.
  inversion M; subst. eapply add_raises; eauto.
Qed.

(** ** Soundness of the stored paths *)

Hypothesis V : view_ok G.
Hypothesis Hsource : In source (view_nodes G).
Hypothesis Htarget : In target (view_nodes G).
Hypothesis Hdistinct : source <> target.

Lemma nx_origin_node (d : bool) : In (origin d) (view_nodes G).
Proof. destruct d; assumption. Qed.

Lemma heappush_nil (x : entry) : heappush [] x = [x].
Proof. reflexivity. Qed.

Lemma nx_sound_init : sound (init_state source target).
Proof.
  constructor.
  - intros d w sw. destruct d; simpl; intros H;
      apply lookup_singleton_Some in H; destruct H as [<- _];
      eexists; (split; [apply lookup_singleton_eq | apply walk_origin]).
  - intros d k c w. destruct d; simpl; rewrite heappush_nil;
      intros H; apply list_elem_of_singleton in H; injection H as -> -> ->;
      rewrite lookup_singleton_eq; eauto.
  - intros d w dw. destruct d; simpl; rewrite lookup_empty; discriminate.
  - intros w [s0 H0] [s1 H1]. simpl in *.
    apply lookup_singleton_Some in H0, H1. destruct H0 as [<- _], H1 as [<- _].
    contradiction.
  - simpl. congruence.
Qed.

Lemma nx_sound_popped (st : state) (d : bool) (m : entry) (rest : list entry) :
  sound st -> heappop (fringe (side_of st d)) = Some (m, rest) ->
  sound (popped st d rest).
Proof.
  intros [S1 S2 S3 S4 S5] P. pose proof (heappop_elem _ _ _ P) as HI.
  assert (HS : forall d',
    seen (side_of (popped st d rest) d') = seen (side_of st d')
    /\ paths (side_of (popped st d rest) d') = paths (side_of st d')
    /\ dists (side_of (popped st d rest) d') = dists (side_of st d')
    /\ forall x, x ∈ fringe (side_of (popped st d rest) d') ->
                 x ∈ fringe (side_of st d')).
  { intros d'. destruct d, d'; simpl; repeat split; auto; intros x Hx;
      apply HI; auto. }
  constructor.
  - intros d' w sw. destruct (HS d') as (-> & -> & _). apply S1.
  - intros d' k c w H. destruct (HS d') as (-> & _ & _ & HF). eapply S2, HF, H.
  - intros d' w dw. destruct (HS d') as (-> & _ & -> & _). apply S3.
  - destruct d; simpl; exact S4.
  - destruct d; simpl; exact S5.
Qed.

Lemma nx_sound_settled (st : state) (d : bool) (v : node) (dist : num) :
  sound st -> is_Some (seen (side_of st d) !! v) ->
  sound (settled st d v dist).
Proof.
  intros [S1 S2 S3 S4 S5] Hv.
  assert (HS : forall d',
    seen (side_of (settled st d v dist) d') = seen (side_of st d')
    /\ paths (side_of (settled st d v dist) d') = paths (side_of st d')
    /\ fringe (side_of (settled st d v dist) d') = fringe (side_of st d')
    /\ dists (side_of (settled st d v dist) d')
       = if Bool.eqb d' d then <[v := dist]> (dists (side_of st d'))
         else dists (side_of st d')).
  { intros d'. destruct d, d'; simpl; repeat split; auto. }
  constructor.
  - intros d' w sw. destruct (HS d') as (-> & -> & _). apply S1.
  - intros d' k c w. destruct (HS d') as (-> & _ & -> & _). apply S2.
  - intros d' w dw. destruct (HS d') as (-> & _ & _ & ->).
    destruct (Bool.eqb d' d) eqn:B; [|apply S3].
    apply eqb_prop in B. subst d'.
    destruct (decide (w = v)) as [->|Hne]; [intros _; exact Hv|].
    rewrite lookup_insert_ne by congruence. apply S3.
  - destruct d; simpl; exact S4.
  - destruct d; simpl; exact S5.
Qed.

Lemma nx_sound_pushed_meet (st st' : state) (d : bool) (v w : node)
    (vw : num) (pv : list node) :
  sound st ->
  paths (side_of st d) !! v = Some pv -> walk G (origin d) v pv ->
  vedge G v w ->
  meet (pushed d v w vw st) w = inr st' ->
  sound st'.
Proof.
  intros [S1 S2 S3 S4 S5] Hpv Wv He HM.
  set (st1 := pushed d v w vw st) in *.
  assert (HS : forall d' x,
    (is_Some (seen (side_of st d') !! x) -> is_Some (seen (side_of st1 d') !! x))
    /\ (is_Some (seen (side_of st1 d') !! x) ->
        (d' = d /\ x = w) \/ is_Some (seen (side_of st d') !! x))).
  { intros d' x. unfold st1. rewrite nx_side_of_pushed.
    destruct (Bool.eqb d' d) eqn:B; [|tauto]. apply eqb_prop in B. subst d'.
    simpl. destruct (decide (x = w)) as [->|Hne].
    - rewrite lookup_insert_eq. split; eauto.
    - rewrite lookup_insert_ne by congruence. tauto. }
  assert (P1 : forall d' x sx, seen (side_of st1 d') !! x = Some sx ->
    exists p, paths (side_of st1 d') !! x = Some p /\ walk G (origin d') x p).
  { intros d' x sx. unfold st1. rewrite nx_side_of_pushed.
    destruct (Bool.eqb d' d) eqn:B; [|apply S1]. apply eqb_prop in B. subst d'.
    simpl. destruct (decide (x = w)) as [->|Hne].
    - intros _. rewrite lookup_insert_eq, Hpv. simpl.
      eexists. split; [reflexivity|]. apply walk_snoc with v; assumption.
    - rewrite !lookup_insert_ne by congruence. apply S1. }
  assert (P2 : forall d' k c x, (k, c, x) ∈ fringe (side_of st1 d') ->
    is_Some (seen (side_of st1 d') !! x)).
  { intros d' k c x. unfold st1. rewrite nx_side_of_pushed.
    destruct (Bool.eqb d' d) eqn:B; [|apply S2]. apply eqb_prop in B. subst d'.
    simpl. rewrite heappush_elem. intros [[= -> -> ->]|H].
    - rewrite lookup_insert_eq. eauto.
    - destruct (decide (x = w)) as [->|Hne]; [rewrite lookup_insert_eq; eauto|].
      rewrite lookup_insert_ne by congruence. eapply S2, H. }
  assert (P3 : forall d' x dx, dists (side_of st1 d') !! x = Some dx ->
    is_Some (seen (side_of st1 d') !! x)).
  { intros d' x dx H. apply HS. revert H. unfold st1.
    rewrite nx_side_of_pushed.
    destruct (Bool.eqb d' d) eqn:B; [|apply S3]. apply eqb_prop in B. subst d'.
    simpl. apply S3. }
  assert (F1 : finalpath st1 = finalpath st) by apply nx_pushed_fields.
  pose proof (nx_meet_cases st1 w) as M. rewrite HM in M.
  inversion M as [HN Heq | | s0 s1 t H0 H1 _ HP0 _ Heq
                 | s0 s1 t H0 H1 _ _ Heq]; subst st'.
  - constructor; [exact P1 | exact P2 | exact P3 | | rewrite F1; exact S5].
    intros x H0 H1. rewrite F1.
    destruct (decide (x = w)) as [->|Hne].
    + exfalso. destruct H0 as [s0 H0], H1 as [s1 H1].
      destruct HN as [HN|HN]; congruence.
    + apply (S4 x).
      * apply (HS false) in H0.
        destruct H0 as [[_ ?]|H0]; [contradiction | exact H0].
      * apply (HS true) in H1.
        destruct H1 as [[_ ?]|H1]; [contradiction | exact H1].
  - constructor; [exact P1 | exact P2 | exact P3 | | rewrite F1; exact S5].
    intros x _ _. exact HP0.
  - destruct (P1 false w s0 H0) as (p0 & Hp0 & W0).
    destruct (P1 true w s1 H1) as (p1 & Hp1 & W1).
    change (side_of st1 false) with (fwd st1) in Hp0.
    change (side_of st1 true) with (bwd st1) in Hp1.
    assert (Hf : finalpath (found st1 w t) = p0 ++ tl (rev p1))
      by (unfold found; cbn [finalpath]; rewrite Hp0, Hp1; reflexivity).
    constructor.
    + intros d' x sx. rewrite nx_side_of_found. apply P1.
    + intros d' k c x. rewrite nx_side_of_found. apply P2.
    + intros d' x dx. rewrite nx_side_of_found. apply P3.
    + intros x _ _. rewrite Hf. apply walk_nonempty in W0.
      destruct p0; [congruence | discriminate].
    + intros _. rewrite Hf.
      eapply walk_join; [exact W0|]. apply walk_rev; [exact V | exact W1].
Qed.

Lemma nx_relax_sides (d : bool) (v : node) (st st' : state) (wd : node * E)
    (d' : bool) :
  relax weight d v st wd = inr st' ->
  dists (side_of st' d') = dists (side_of st d')
  /\ (length (fringe (side_of st' d'))
      <= length (fringe (side_of st d')) + (if Bool.eqb d' d then 1 else 0))%nat.
Proof.
  destruct wd as [w data]. intros H.
  pose proof (nx_relax_cases d v st w data) as R. rewrite H in R.
  inversion R as [ | vw dw _ _ _ Heq | | vw sw _ _ _ _ Heq | vw _ _ _ Heq];
    subst; try (split; [reflexivity | lia]).
  rewrite (nx_side_of_meet _ _ _ d' Heq), nx_side_of_pushed.
  destruct (Bool.eqb d' d) eqn:B; [|split; [reflexivity | lia]].
  apply eqb_prop in B. subst d'. simpl. rewrite heappush_length.
  split; [reflexivity | lia].
Qed.

Lemma nx_sound_relax (d : bool) (v : node) (st st' : state) (w : node)
    (data : E) :
  sound st -> is_Some (dists (side_of st d) !! v) ->
  In (w, data) (view_adj G v) ->
  relax weight d v st (w, data) = inr st' -> sound st'.
Proof.
  intros S [dv Hv] Hin H.
  pose proof (nx_relax_cases d v st w data) as R. rewrite H in R.
  inversion R as [ | vw dw _ _ _ Heq | | vw sw _ _ _ _ Heq | vw _ _ _ Heq];
    subst; try exact S.
  destruct (snd_dists _ _ _ _ S d v dv Hv) as [sv Hsv].
  destruct (snd_paths _ _ _ _ S d v sv Hsv) as (pv & Hpv & Wv).
  eapply nx_sound_pushed_meet; eauto. exists data. exact Hin.
Qed.

Lemma nx_sound_relax_all (d : bool) (v : node) (l : list (node * E))
    (st st' : state) :
  sound st -> is_Some (dists (side_of st d) !! v) ->
  (forall x, In x l -> In x (view_adj G v)) ->
  relax_all weight d v st l = inr st' ->
  sound st'
  /\ (forall d', dists (side_of st' d') = dists (side_of st d'))
  /\ forall d', (length (fringe (side_of st' d'))
                 <= length (fringe (side_of st d'))
                    + (if Bool.eqb d' d then length l else 0))%nat.
Proof.
  revert st. induction l as [|[w data] l IH]; intros st S Hv Hl; cbn [relax_all].
  - intros [= <-]. split; [exact S|]. split; [reflexivity|].
    intros d'. destruct (Bool.eqb d' d); lia.
  - destruct (relax weight d v st (w, data)) as [e|st1] eqn:R;
      [intros H; discriminate|].
    intros H.
    assert (S1 : sound st1).
    { eapply nx_sound_relax; eauto. apply Hl. left. reflexivity. }
    pose proof (fun d' => nx_relax_sides d v st st1 (w, data) d' R) as HD.
    destruct (IH st1 S1) as (S' & HD' & HF'); auto.
    + rewrite (proj1 (HD d)). exact Hv.
    + intros x Hx. apply Hl. right. exact Hx.
    + split; [exact S'|]. split.
      * intros d'. rewrite HD'. apply HD.
      * intros d'. specialize (HF' d'). destruct (HD d') as [_ HF].
        destruct (Bool.eqb d' d); simpl in *; lia.
Qed.

Lemma nx_relax_all_raises (d : bool) (v : node) (l : list (node * E))
    (st : state) (e : exn) :
  overflow_only weight ->
  relax_all weight d v st l = inl e -> e = OverflowError \/ e = ValueError.
Proof.
  intros Ho. revert st. induction l as [|[w data] l IH]; intros st;
    cbn [relax_all]; [discriminate|].
  destruct (relax weight d v st (w, data)) as [e'|st1] eqn:R; [|apply IH].
  intros [= ->].
  pose proof (nx_relax_cases d v st w data) as C. rewrite R in C.
  inversion C as [e' HL | | | | vw _ _ _ Heq]; subst; auto.
  - left. unfold NxInv.vw_length, edge_cost in HL.
    destruct (if d then weight w v data else weight v w data) as [e1|cost] eqn:W;
      cbn [bind] in HL.
    + injection HL as ->. destruct d; eapply Ho; eauto.
    + eapply add_raises; eauto.
  - left. eapply nx_meet_raises; eauto.
Qed.

Lemma nx_turn_cases (st : state) : turn_spec st (turn G weight st).
Proof.
  unfold turn.
  destruct (is_nil (fringe (fwd st))) eqn:N0;
    [apply turn_exit; left; destruct (fringe (fwd st)); [reflexivity|discriminate]|].
  destruct (is_nil (fringe (bwd st))) eqn:N1;
    [apply turn_exit; right; destruct (fringe (bwd st)); [reflexivity|discriminate]|].
  apply nx_is_nil_false in N0, N1. simpl orb. cbv iota.
  destruct (heappop (fringe (side_of st (negb (dir st)))))
    as [[[[dist c] v] rest]|] eqn:P.
  - rewrite nx_side_of_popped, eqb_reflx. simpl dists.
    destruct (dists (side_of st (negb (dir st))) !! v) as [dv|] eqn:Dv.
    + eapply turn_stale; eauto.
    + rewrite nx_side_of_settled.
      replace (Bool.eqb (negb (negb (dir st))) (negb (dir st))) with false
        by (destruct (dir st); reflexivity).
      rewrite nx_side_of_popped.
      replace (Bool.eqb (negb (negb (dir st))) (negb (dir st))) with false
        by (destruct (dir st); reflexivity).
      rewrite negb_involutive.
      destruct (dists (side_of st (dir st)) !! v) as [dv|] eqn:Dv'.
      * replace (finalpath _) with (finalpath st).
        -- eapply turn_meet; eauto.
        -- symmetry. etransitivity;
             [apply nx_settled_fields | apply nx_popped_fields].
      * eapply (turn_expand G weight st dist c v rest); eauto.
  - apply heappop_empty in P. exfalso. destruct (dir st); simpl in P; contradiction.
Qed.

Lemma nx_seen_node (st : state) (d : bool) (w : node) :
  sound st -> is_Some (seen (side_of st d) !! w) -> In w (view_nodes G).
Proof.
  intros S [sw H]. destruct (snd_paths _ _ _ _ S d w sw H) as (p & _ & W).
  exact (walk_last_node G (fun _ _ _ => 0%Q) source (origin d) w p V
           (nx_origin_node d) W).
Qed.

Lemma nx_measure_sides (st : state) (d : bool) :
  measure st
  = (side_measure (side_of st d) + side_measure (side_of st (negb d)))%nat.
Proof. unfold NxInv.measure. destruct d; simpl; lia. Qed.

Lemma nx_pot_list_insert_notin (D : gmap Z num) (v : node) (x : num)
    (l : list node) :
  ~ In v l -> pot_list (<[v := x]> D) l = pot_list D l.
Proof.
  induction l as [|u l IH]; intros Hn; simpl; [reflexivity|].
  rewrite IH by (intros H; apply Hn; right; exact H).
  rewrite lookup_insert_ne; [reflexivity|]. intros ->. apply Hn. left. reflexivity.
Qed.

Lemma nx_pot_list_insert_in (D : gmap Z num) (v : node) (x : num)
    (l : list node) :
  List.NoDup l -> In v l -> D !! v = None ->
  (pot_list (<[v := x]> D) l + length (view_adj G v) = pot_list D l)%nat.
Proof.
  induction 1 as [|u l Hu Hnd IH]; intros Hin Hv; [destruct Hin|]. simpl.
  destruct Hin as [->|Hin].
  - rewrite lookup_insert_eq, Hv, nx_pot_list_insert_notin by exact Hu. lia.
  - assert (u <> v) by (intros ->; contradiction).
    rewrite lookup_insert_ne by congruence. specialize (IH Hin Hv). lia.
Qed.

Lemma nx_potential_insert (D : gmap Z num) (v : node) (x : num) :
  In v (view_nodes G) -> D !! v = None ->
  (potential (<[v := x]> D) + length (view_adj G v) = potential D)%nat.
Proof.
  intros Hin Hv. apply nx_pot_list_insert_in; [apply V | exact Hin | exact Hv].
Qed.

Lemma nx_potential_empty : potential ∅ = degree_sum G.
Proof.
  unfold NxInv.potential, NxInv.pot_list, degree_sum.
  generalize (view_nodes G) as l.
  induction l as [|u l IH]; [reflexivity|].
  cbn [fold_right]. rewrite IH.
  replace ((∅ : gmap Z num) !! u) with (@None num)
    by (symmetry; apply lookup_empty).
  reflexivity.
Qed.

Lemma nx_popped_seen (st : state) (d : bool) (dist : num) (c : nat) (v : node)
    (rest : list entry) :
  sound st -> heappop (fringe (side_of st d)) = Some ((dist, c, v), rest) ->
  is_Some (seen (side_of st d) !! v).
Proof.
  intros S P. apply (snd_fringe _ _ _ _ S d dist c v).
  apply (heappop_elem _ _ _ P). left. reflexivity.
Qed.

Lemma nx_step (st st' : state) :
  sound st -> turn G weight st = Continue st' ->
  sound st' /\ (measure st' < measure st)%nat.
Proof.
  intros S H. destruct (nx_turn_cases st) as [| dist c v rest dv N0 N1 P Dv
    | | dist c v rest r N0 N1 P Dv Dv' R]; try discriminate.
  - injection H as <-. split; [eapply nx_sound_popped; eauto|].
    set (d := negb (dir st)) in *.
    rewrite (nx_measure_sides _ d), (nx_measure_sides st d).
    unfold NxInv.side_measure.
    rewrite !nx_side_of_popped, eqb_reflx.
    replace (Bool.eqb (negb d) d) with false by (destruct d; reflexivity).
    simpl. apply heappop_shorter in P. lia.
  - destruct r as [e|st3]; [discriminate|]. injection H as <-.
    set (d := negb (dir st)) in *.
    assert (S1 : sound (popped st d rest)) by (eapply nx_sound_popped; eauto).
    assert (Hs : is_Some (seen (side_of (popped st d rest) d) !! v)).
    { rewrite nx_side_of_popped, eqb_reflx. simpl.
      eapply nx_popped_seen; eauto. }
    pose proof (nx_sound_settled _ d v dist S1 Hs) as S2.
    destruct (nx_sound_relax_all d v (view_adj G v) _ st3 S2) as (S3 & D & F);
      auto.
    { rewrite nx_side_of_settled, eqb_reflx. simpl.
      rewrite lookup_insert_eq. eauto. }
    split; [exact S3|].
    pose proof (F d) as F1. pose proof (F (negb d)) as F2.
    rewrite (nx_measure_sides _ d), (nx_measure_sides st d).
    unfold NxInv.side_measure.
    rewrite (D d), (D (negb d)).
    rewrite !nx_side_of_settled, !nx_side_of_popped in *.
    replace (Bool.eqb (negb d) d) with false in * by (destruct d; reflexivity).
    rewrite eqb_reflx in *. simpl in *.
    assert (Hv : In v (view_nodes G)).
    { apply (nx_seen_node st d); [exact S|]. eapply nx_popped_seen; eauto. }
    pose proof (nx_potential_insert _ v dist Hv Dv) as HP.
    apply heappop_shorter in P. lia.
Qed.

Lemma nx_sound_return (st : state) (p : list node) :
  sound st -> turn G weight st = Return (inr p) -> walk G source target p.
Proof.
  intros S H. destruct (nx_turn_cases st) as [| | dist c v rest dv N0 N1 P Dv Dv'
    | dist c v rest r N0 N1 P Dv Dv' R]; try discriminate.
  - injection H as <-. apply (snd_final _ _ _ _ S).
    assert (H1 : is_Some (seen (side_of st (negb (dir st))) !! v))
      by (eapply nx_popped_seen; eauto).
    assert (H2 : is_Some (seen (side_of st (dir st)) !! v)).
    { apply (snd_dists _ _ _ _ S _ v dv Dv'). }
    apply (snd_meet _ _ _ _ S v); destruct (dir st); assumption.
  - destruct r; discriminate.
Qed.

Lemma nx_turn_raises (st : state) (e : exn) :
  overflow_only weight -> turn G weight st = Return (inl e) ->
  e = NetworkXNoPath \/ e = OverflowError \/ e = ValueError.
Proof.
  intros Ho H. destruct (nx_turn_cases st) as [| | 
    | dist c v rest r N0 N1 P Dv Dv' R]; try discriminate.
  - injection H as <-. auto.
  - destruct r as [e'|]; [|discriminate]. injection H as ->.
    right. eapply nx_relax_all_raises; eauto.
Qed.

Lemma nx_loop_total (fuel : nat) (st : state) :
  sound st -> (measure st < fuel)%nat ->
  exists r, loop G weight fuel st = Some r.
Proof.
  revert st. induction fuel as [|fuel IH]; intros st S Hm; [lia|].
  simpl. destruct (turn G weight st) as [st'|r] eqn:T; [|eauto].
  destruct (nx_step _ _ S T) as [S' Hlt]. apply IH; [exact S' | lia].
Qed.

Lemma nx_loop_sound (fuel : nat) (st : state) (p : list node) :
  sound st -> loop G weight fuel st = Some (inr p) -> walk G source target p.
Proof.
  revert st. induction fuel as [|fuel IH]; intros st S; simpl; [discriminate|].
  destruct (turn G weight st) as [st'|r] eqn:T.
  - apply IH. eapply nx_step; eauto.
  - intros [= ->]. eapply nx_sound_return; eauto.
Qed.

Lemma nx_loop_raises (fuel : nat) (st : state) (e : exn) :
  overflow_only weight -> loop G weight fuel st = Some (inl e) ->
  e = NetworkXNoPath \/ e = OverflowError \/ e = ValueError.
Proof.
  intros Ho. revert st. induction fuel as [|fuel IH]; intros st; simpl;
    [discriminate|].
  destruct (turn G weight st) as [st'|r] eqn:T; [apply IH|].
  intros [= ->]. eapply nx_turn_raises; eauto.
Qed.

Lemma nx_measure_init :
  (measure (init_state source target) < turns G)%nat.
Proof.
  unfold NxInv.measure, NxInv.side_measure, turns. simpl.
  rewrite nx_potential_empty. lia.
Qed.

End NxFacts.

Section NxDijkstra.
Context {E : Type}.
Variable G : View E.
Variable weight : node -> node -> E -> exn + num.
Hypothesis V : view_ok G.

Lemma nx_dijkstra_absent (source target : node) :
  view_has_node G source = false \/ view_has_node G target = false ->
  bidirectional_dijkstra G weight source target = Some (inl NodeNotFound).
Proof.
  unfold bidirectional_dijkstra. intros [H|H].
  - rewrite H. reflexivity.
  - rewrite H. destruct (view_has_node G source); reflexivity.
Qed.

(** Whatever the weights, the search ends, and a path it returns is a walk
    of the view between the two nodes. *)
Lemma nx_dijkstra_sound (source target : node) :
  view_has_node G source = true -> view_has_node G target = true ->
  exists r, bidirectional_dijkstra G weight source target = Some r
    /\ (forall p, r = inr p -> walk G source target p)
    /\ (overflow_only weight -> forall e, r = inl e ->
          e = NetworkXNoPath \/ e = OverflowError \/ e = ValueError).
Proof.
  intros Hs Ht. unfold bidirectional_dijkstra. rewrite Hs, Ht. simpl.
  apply view_has_node_iff in Hs, Ht.
  destruct (source =? target) eqn:Heq.
  - apply Z.eqb_eq in Heq. subst target. eexists. split; [reflexivity|].
    split; [|discriminate]. intros p [= <-]. apply walk_origin.
  - apply Z.eqb_neq in Heq.
    assert (S : sound G source target (init_state source target))
      by (apply nx_sound_init; assumption).
    destruct (nx_loop_total G weight source target V Hs Ht _ _ S
                (nx_measure_init G source target)) as [r Hr].
    exists r. split; [exact Hr|]. split.
    + intros p ->. exact (nx_loop_sound G weight source target V Hs Ht _ _ p S Hr).
    + intros Ho e ->. exact (nx_loop_raises G weight _ _ e Ho Hr).
Qed.

End NxDijkstra.

Import Nx GraphInv HeapInv Sim.

(** * With integer weights the search is the exact search *)

(** ** Numbers *)

Lemma Rnum_Int (z : Z) : Rnum (Int z) (inject_Z z).
Proof. exists z. split; reflexivity. Qed.

Lemma Rnum_ltb (a b : num) (x y : Q) :
  Rnum a x -> Rnum b y -> Py.ltb a b = Exact.Qltb x y.
Proof.
  intros (za & -> & Hx) (zb & -> & Hy). unfold Py.ltb, Py.compare.
  destruct (Exact.Qltb x y) eqn:L.
  - apply Qltb_true in L. rewrite Hx, Hy, <- Zlt_Qlt in L.
    apply (proj2 (Z.compare_lt_iff _ _)) in L. rewrite L. reflexivity.
  - apply Qltb_false in L. rewrite Hx, Hy, <- Zle_Qle in L.
    destruct (za ?= zb) eqn:C; try reflexivity.
    apply (proj1 (Z.compare_lt_iff _ _)) in C. lia.
Qed.

Lemma Rnum_gtb (a b : num) (x y : Q) :
  Rnum a x -> Rnum b y -> Py.gtb a b = Exact.Qltb y x.
Proof.
  intros (za & -> & Hx) (zb & -> & Hy). unfold Py.gtb, Py.compare.
  destruct (Exact.Qltb y x) eqn:L.
  - apply Qltb_true in L. rewrite Hx, Hy, <- Zlt_Qlt in L.
    apply (proj2 (Z.compare_gt_iff _ _)) in L. rewrite L. reflexivity.
  - apply Qltb_false in L. rewrite Hx, Hy, <- Zle_Qle in L.
    destruct (za ?= zb) eqn:C; try reflexivity.
    apply (proj1 (Z.compare_gt_iff _ _)) in C. lia.
Qed.

Lemma Rnum_add (a b : num) (x y : Q) :
  Rnum a x -> Rnum b y ->
  exists c, Py.add a b = inr c /\ Rnum c (x + y)%Q.
Proof.
  intros (za & -> & Hx) (zb & -> & Hy). exists (Int (za + zb)).
  split; [reflexivity|]. exists (za + zb). split; [reflexivity|].
  rewrite Hx, Hy, inject_Z_plus. reflexivity.
Qed.

Lemma Rnum_int_entry (a : Nx.entry) (x : Exact.entry) :
  Rent a x -> int_entry a.
Proof. intros ((z & Hz & _) & _). exists z. exact Hz. Qed.

(** ** Dictionaries *)

Lemma Rmap_Some (A : gmap Z num) (X : gmap Z Q) (k : Z) (a : num) :
  Rmap A X -> A !! k = Some a -> exists x, X !! k = Some x /\ Rnum a x.
Proof.
  intros R H. specialize (R k). rewrite H in R. inversion R; subst. eauto.
Qed.

Lemma Rmap_None (A : gmap Z num) (X : gmap Z Q) (k : Z) :
  Rmap A X -> A !! k = None -> X !! k = None.
Proof.
  intros R H. specialize (R k). rewrite H in R. inversion R; subst. auto.
Qed.

Lemma Rmap_insert (A : gmap Z num) (X : gmap Z Q) (k : Z) (a : num) (x : Q) :
  Rmap A X -> Rnum a x -> Rmap (<[k := a]> A) (<[k := x]> X).
Proof.
  intros R H j. destruct (decide (j = k)) as [->|N].
  - rewrite !lookup_insert_eq. constructor. exact H.
  - rewrite !lookup_insert_ne by congruence. apply R.
Qed.

Lemma Rmap_empty : Rmap ∅ ∅.
Proof. intros k. rewrite !lookup_empty. constructor. Qed.

Lemma Rmap_default (A : gmap Z num) (X : gmap Z Q) (k : Z) :
  Rmap A X -> Rnum (default (Int 0) (A !! k)) (default 0%Q (X !! k)).
Proof.
  intros R. specialize (R k). inversion R; simpl; [assumption|].
  apply (Rnum_Int 0).
Qed.

(** ** The heap *)

Lemma exact_lt_iff (x y : Exact.entry) :
  Exact.entry_lt x y = true
  <-> (fst (fst x) < fst (fst y))%Q
      \/ ((fst (fst x) == fst (fst y))%Q /\ (snd (fst x) < snd (fst y))%nat).
Proof.
  unfold Exact.entry_lt.
  destruct (fst (fst x) ?= fst (fst y))%Q eqn:C.
  - apply Qeq_alt in C. rewrite Nat.ltb_lt. split; [auto|].
    intros [H|[_ H]]; [lra | exact H].
  - apply Qlt_alt in C. split; auto.
  - apply Qgt_alt in C. split; [discriminate|]. intros [H|[H _]]; lra.
Qed.

Lemma exact_lt_trans (x y z : Exact.entry) :
  Exact.entry_lt x y = true -> Exact.entry_lt y z = true ->
  Exact.entry_lt x z = true.
Proof.
  rewrite !exact_lt_iff. intros [H1|[H1 H1']] [H2|[H2 H2']].
  - left. lra.
  - left. lra.
  - left. lra.
  - right. split; [lra | lia].
Qed.

Lemma exact_lt_irrefl (x : Exact.entry) : Exact.entry_lt x x = false.
Proof.
  destruct (Exact.entry_lt x x) eqn:H; [|reflexivity].
  apply exact_lt_iff in H. destruct H as [H|[_ H]]; [lra | lia].
Qed.

Lemma exact_heappop_least (h : list Exact.entry) (m : Exact.entry)
    (r : list Exact.entry) :
  Exact.heappop h = Some (m, r) ->
  forall x, In x h -> Exact.entry_lt x m = false.
Proof.
  revert m r. induction h as [|y h IH]; intros m r; simpl; [discriminate|].
  destruct (Exact.heappop h) as [[m' r']|] eqn:P.
  - specialize (IH m' r' eq_refl).
    destruct (Exact.entry_lt y m') eqn:L; intros [= <- <-] x [<-|Hx].
    + apply exact_lt_irrefl.
    + destruct (Exact.entry_lt x y) eqn:L'; [|reflexivity].
      rewrite <- (IH x Hx). symmetry. eapply exact_lt_trans; eauto.
    + exact L.
    + exact (IH x Hx).
  - apply heappop_None in P. subst h. intros [= <- <-] x [<-|[]].
    apply exact_lt_irrefl.
Qed.

Lemma exact_heappop_perm (h : list Exact.entry) (m : Exact.entry)
    (r : list Exact.entry) :
  Exact.heappop h = Some (m, r) -> Permutation h (m :: r).
Proof.
  revert m r. induction h as [|y h IH]; intros m r; simpl; [discriminate|].
  destruct (Exact.heappop h) as [[m' r']|] eqn:P.
  - specialize (IH m' r' eq_refl).
    destruct (Exact.entry_lt y m'); intros [= <- <-].
    + reflexivity.
    + rewrite IH. apply perm_swap.
  - apply heappop_None in P. subst h. intros [= <- <-]. reflexivity.
Qed.

Lemma Forall2_elem_l {A B : Type} (R : A -> B -> Prop) (l : list A)
    (k : list B) (x : A) :
  Forall2 R l k -> In x l -> exists y, In y k /\ R x y.
Proof.
  induction 1 as [|a b l k Hab _ IH]; intros Hx; [destruct Hx|].
  destruct Hx as [<-|Hx].
  - exists b. split; [left; reflexivity | exact Hab].
  - destruct (IH Hx) as (y & Hy & Hr). exists y. split; [right|]; assumption.
Qed.

Lemma NoDup_map_eq {A B : Type} (f : A -> B) (l : list A) (x y : A) :
  List.NoDup (map f l) -> In x l -> In y l -> f x = f y -> x = y.
Proof.
  induction l as [|a l IH]; intros Hn Hx Hy Hf; [destruct Hx|].
  simpl in Hn. apply List.NoDup_cons_iff in Hn. destruct Hn as [Ha Hn].
  destruct Hx as [<-|Hx], Hy as [<-|Hy].
  - reflexivity.
  - exfalso. apply Ha. rewrite Hf. apply in_map. exact Hy.
  - exfalso. apply Ha. rewrite <- Hf. apply in_map. exact Hx.
  - exact (IH Hn Hx Hy Hf).
Qed.

Lemma tidy_perm (n : nat) (h h' : list Nx.entry) :
  Permutation h h' -> heap_ok h' -> tidy n h -> tidy n h'.
Proof.
  intros P Hok [_ T2 T3 T4]. constructor.
  - exact Hok.
  - eapply Permutation_Forall; eauto.
  - eapply Permutation_Forall; eauto.
  - eapply Permutation_NoDup; [apply Permutation_map; exact P | exact T4].
Qed.

Lemma tidy_nil (n : nat) : tidy n [].
Proof.
  constructor; [apply heap_ok_nil | constructor | constructor | constructor].
Qed.

Lemma tidy_mono (n n' : nat) (h : list Nx.entry) :
  (n <= n')%nat -> tidy n h -> tidy n' h.
Proof.
  intros Hn [T1 T2 T3 T4]. constructor; auto.
  eapply List.Forall_impl; [|exact T3]. simpl. intros a Ha. lia.
Qed.

Lemma tidy_push (n : nat) (h : list Nx.entry) (z : Z) (w : node) :
  tidy n h -> tidy (S n) (heappush h (Int z, n, w)).
Proof.
  intros [T1 T2 T3 T4].
  assert (Hi : int_entry (Int z, n, w)) by (exists z; reflexivity).
  pose proof (heappush_perm h (Int z, n, w)) as P. symmetry in P.
  constructor.
  - apply heappush_ok; assumption.
  - eapply Permutation_Forall; [exact P|]. constructor; assumption.
  - eapply Permutation_Forall; [exact P|]. constructor.
    + unfold counter_of. simpl. lia.
    + eapply List.Forall_impl; [|exact T3]. simpl. intros a Ha. lia.
  - eapply Permutation_NoDup; [apply Permutation_map; exact P|].
    simpl. constructor; [|exact T4].
    intros Hin. apply in_map_iff in Hin. destruct Hin as (a & Ha & Hin).
    rewrite List.Forall_forall in T3. specialize (T3 a Hin).
    unfold counter_of in *. simpl in *. lia.
Qed.

Lemma Rheap_nil (ha : list Nx.entry) (hx : list Exact.entry) :
  Rheap ha hx -> (ha = [] <-> hx = []).
Proof.
  intros (l & P & F). split; intros ->.
  - apply Permutation_nil in P. subst l. inversion F. reflexivity.
  - inversion F; subst. apply Permutation_sym, Permutation_nil in P. exact P.
Qed.

Lemma Rheap_push (ha : list Nx.entry) (hx : list Exact.entry)
    (a : Nx.entry) (x : Exact.entry) :
  Rheap ha hx -> Rent a x -> Rheap (heappush ha a) (Exact.heappush hx x).
Proof.
  intros (l & P & F) H. exists (a :: l). split.
  - rewrite heappush_perm. apply perm_skip. exact P.
  - constructor; assumption.
Qed.

Lemma Rent_order (a a' : Nx.entry) (x x' : Exact.entry) :
  Rent a x -> Rent a' x' ->
  entry_le a a' -> Exact.entry_lt x x' = false ->
  counter_of a = counter_of a'.
Proof.
  destruct a as [[d c] v], a' as [[d' c'] v'], x as [[q k] u], x' as [[q' k'] u'].
  intros ((z & Hz & Hq) & Hc & Hv) ((z' & Hz' & Hq') & Hc' & Hv') Hle Hlt.
  simpl in *. subst d d' k k' u u'.
  apply entry_le_int in Hle. unfold counter_of. simpl.
  assert (N : ~ ((q < q')%Q \/ ((q == q')%Q /\ (c < c')%nat))).
  { intros H. apply (exact_lt_iff (q, c, v) (q', c', v')) in H. congruence. }
  rewrite Hq, Hq' in N. rewrite <- Zlt_Qlt, inject_Z_injective in N. lia.
Qed.

Lemma Rheap_pop (n : nat) (ha : list Nx.entry) (hx : list Exact.entry) :
  tidy n ha -> Rheap ha hx ->
  match heappop ha, Exact.heappop hx with
  | None, None => True
  | Some (a, ra), Some (x, rx) => Rent a x /\ Rheap ra rx /\ tidy n ra
  | _, _ => False
  end.
Proof.
  intros T RH. pose proof (Rheap_nil ha hx RH) as Hnil.
  destruct RH as (l & P & F).
  destruct (heappop ha) as [[a ra]|] eqn:Pa.
  2:{ apply heappop_empty in Pa. apply Hnil in Pa. subst hx. exact I. }
  destruct (Exact.heappop hx) as [[m rx]|] eqn:Px.
  2:{ apply heappop_None in Px. apply Hnil in Px. subst ha.
      discriminate Pa. }
  pose proof (heappop_perm ha a ra Pa) as Pa'.
  pose proof (exact_heappop_perm hx m rx Px) as Px'.
  apply Forall2_flip in F.
  destruct (Permutation_Forall2 Px' F) as (l2 & Pl2 & F2).
  apply Forall2_flip in F2.
  destruct l2 as [|a' l2']; [inversion F2|].
  apply Forall2_cons in F2. destruct F2 as [Ha'm F2].
  destruct T as [T1 T2 T3 T4].
  assert (Ha' : In a' ha).
  { eapply Permutation_in; [symmetry; exact P|].
    eapply Permutation_in; [symmetry; exact Pl2|]. left. reflexivity. }
  assert (Ha : In a ha).
  { eapply Permutation_in; [symmetry; exact Pa'|]. left. reflexivity. }
  assert (Hle : entry_le a a').
  { apply (heappop_least ha a ra T1 T2 Pa). apply list_elem_of_In. exact Ha'. }
  assert (Hal : In a l) by (eapply Permutation_in; eauto).
  apply Forall2_flip in F.
  destruct (Forall2_elem_l Rent l hx a F Hal) as (y & Hy & Hay).
  pose proof (exact_heappop_least hx m rx Px y Hy) as Hym.
  pose proof (Rent_order a a' y m Hay Ha'm Hle Hym) as Hc.
  assert (a = a') by (eapply (NoDup_map_eq counter_of ha); eauto).
  subst a'.
  assert (Prest : Permutation ra l2').
  { apply (Permutation_cons_inv (a := a)).
    rewrite <- Pa', P. exact Pl2. }
  split; [exact Ha'm|]. split; [exists l2'; split; assumption|].
  constructor.
  - eapply heappop_ok; eauto.
  - apply (Permutation_Forall Pa') in T2.
    apply Forall_cons in T2. apply T2.
  - apply (Permutation_Forall Pa') in T3.
    apply Forall_cons in T3. apply T3.
  - apply (Permutation_map counter_of) in Pa'.
    apply (Permutation_NoDup Pa') in T4. simpl in T4.
    apply List.NoDup_cons_iff in T4. apply T4.
Qed.

(** ** The states *)

Lemma Rside_mono (n n' : nat) (a : Nx.side) (x : Exact.side) :
  (n <= n')%nat -> Rside n a x -> Rside n' a x.
Proof.
  intros Hn [H1 H2 H3 H4 H5]. constructor; auto. eapply tidy_mono; eauto.
Qed.

Lemma is_nil_R (ha : list Nx.entry) (hx : list Exact.entry) :
  Rheap ha hx -> Nx.is_nil ha = Exact.is_nil hx.
Proof.
  intros H. apply Rheap_nil in H.
  destruct ha, hx; try reflexivity; exfalso.
  - assert (X : e :: hx = []) by (apply H; reflexivity). discriminate X.
  - assert (X : e :: ha = []) by (apply H; reflexivity). discriminate X.
Qed.

Lemma R_found (a : Nx.state) (x : Exact.state) (w : node) (t : num) (q : Q) :
  Rstate a x -> Rnum t q ->
  Rstate (NxInv.found a w t)
    {| Exact.fwd := Exact.fwd x; Exact.bwd := Exact.bwd x;
       Exact.counter := Exact.counter x; Exact.finaldist := q;
       Exact.finalpath :=
         default [] (Exact.paths (Exact.fwd x) !! w)
         ++ tl (rev (default [] (Exact.paths (Exact.bwd x) !! w)));
       Exact.dir := Exact.dir x |}.
Proof.
  intros [R1 R2 R3 R4 R5] Ht.
  pose proof (Rs_paths _ _ _ (R1 false)) as P0.
  pose proof (Rs_paths _ _ _ (R1 true)) as P1. simpl in P0, P1.
  constructor; [| exact R2 | exact Ht | | exact R5].
  - intros d. specialize (R1 d). destruct d; exact R1.
  - simpl. rewrite P0, P1. reflexivity.
Qed.

Lemma R_meet (a : Nx.state) (x : Exact.state) (w : node) :
  Rstate a x -> Rresult (Nx.meet a w) (inr (Exact.meet x w)).
Proof.
  intros R. unfold Nx.meet, Exact.meet.
  pose proof (R_side a x R false) as Rf. pose proof (R_side a x R true) as Rb.
  simpl in Rf, Rb.
  destruct (Nx.seen (Nx.fwd a) !! w) as [s0|] eqn:A0.
  2:{ rewrite (Rmap_None _ _ _ (Rs_seen _ _ _ Rf) A0). exact R. }
  destruct (Rmap_Some _ _ _ _ (Rs_seen _ _ _ Rf) A0) as (q0 & -> & H0).
  destruct (Nx.seen (Nx.bwd a) !! w) as [s1|] eqn:A1.
  2:{ rewrite (Rmap_None _ _ _ (Rs_seen _ _ _ Rb) A1). exact R. }
  destruct (Rmap_Some _ _ _ _ (Rs_seen _ _ _ Rb) A1) as (q1 & -> & H1).
  destruct (Rnum_add s0 s1 q0 q1 H0 H1) as (t & -> & Rt). cbn [bind].
  rewrite (R_finalpath a x R).
  rewrite (Rnum_gtb _ _ _ _ (R_finaldist a x R) Rt).
  destruct (match Exact.finalpath x with [] => true | _ => false end
            || Exact.Qltb (q0 + q1) (Exact.finaldist x)).
  - apply (R_found a x w t (q0 + q1)%Q R Rt).
  - exact R.
Qed.

Lemma R_pushed (d : bool) (v w : node) (vw : num) (vq : Q)
    (a : Nx.state) (x : Exact.state) :
  Rstate a x -> Rnum vw vq ->
  Rstate (NxInv.pushed d v w vw a) (SearchInv.pushed d v w vq x).
Proof.
  intros R Hv. pose proof R as [R1 R2 R3 R4 R5].
  destruct (nx_pushed_fields d v w vw a) as (F1 & F2 & F3 & F4).
  destruct (pushed_fields d v w vq x) as (G1 & G2 & G3).
  constructor.
  - intros d'. rewrite F4, nx_side_of_pushed, side_of_pushed.
    destruct (Bool.eqb d' d).
    + destruct (R1 d) as [D P Fr T S]. constructor; simpl.
      * exact D.
      * rewrite P. reflexivity.
      * apply Rheap_push; [exact Fr|]. split; [exact Hv|].
        split; [exact R2 | reflexivity].
      * destruct Hv as (z & -> & _). apply tidy_push. exact T.
      * apply Rmap_insert; assumption.
    + eapply Rside_mono; [|apply R1]. lia.
  - rewrite F4. destruct d; simpl; rewrite R2; reflexivity.
  - rewrite F1, G1. exact R3.
  - rewrite F2, G2. exact R4.
  - rewrite F3, G3. exact R5.
Qed.

Lemma R_popped (a : Nx.state) (x : Exact.state) (d : bool)
    (ra : list Nx.entry) (rx : list Exact.entry) :
  Rstate a x -> Rheap ra rx -> tidy (Nx.counter a) ra ->
  Rstate (Nx.popped a d ra) (Exact.popped x d rx).
Proof.
  intros [R1 R2 R3 R4 R5] H T.
  destruct (nx_popped_fields a d ra) as (F1 & F2 & F3 & F4).
  destruct (popped_fields x d rx) as (G1 & G2 & G3).
  constructor.
  - intros d'. rewrite F4, nx_side_of_popped, side_of_popped.
    destruct (Bool.eqb d' d); [|apply R1].
    destruct (R1 d) as [D P Fr T' S]. constructor; simpl; assumption.
  - rewrite F4. destruct d; exact R2.
  - rewrite F1, G1. exact R3.
  - rewrite F2, G2. exact R4.
  - rewrite F3, G3. reflexivity.
Qed.

Lemma R_settled (a : Nx.state) (x : Exact.state) (d : bool) (v : node)
    (dist : num) (dq : Q) :
  Rstate a x -> Rnum dist dq ->
  Rstate (Nx.settled a d v dist) (Exact.settled x d v dq).
Proof.
  intros [R1 R2 R3 R4 R5] H.
  destruct (nx_settled_fields a d v dist) as (F1 & F2 & F3 & F4).
  destruct (settled_fields x d v dq) as (G1 & G2 & G3).
  constructor.
  - intros d'. rewrite F4, nx_side_of_settled, side_of_settled.
    destruct (Bool.eqb d' d); [|apply R1].
    destruct (R1 d) as [D P Fr T' S]. constructor; simpl; try assumption.
    apply Rmap_insert; assumption.
  - rewrite F4. destruct d; exact R2.
  - rewrite F1, G1. exact R3.
  - rewrite F2, G2. exact R4.
  - rewrite F3, G3. exact R5.
Qed.

Section Simulation.
Context {E : Type}.
Variable G : View E.
Variable weight : node -> node -> E -> exn + num.
Variable wq : node -> node -> E -> Q.
Hypothesis Hw : Rweight weight wq.

Lemma R_relax (d : bool) (v : node) (a : Nx.state) (x : Exact.state)
    (wd : node * E) :
  Rstate a x ->
  Rresult (Nx.relax weight d v a wd) (Exact.relax wq d v x wd).
Proof.
  intros R. destruct wd as [w data]. unfold Nx.relax, Exact.relax.
  pose proof (R_side a x R d) as Rd.
  assert (Hc : exists z,
    (if d then weight w v data else weight v w data) = inr (Int z)
    /\ ((if d then wq w v data else wq v w data) == inject_Z z)%Q)
    by (destruct d; apply Hw).
  destruct Hc as (z & -> & Hz). cbn [bind]. cbv zeta.
  destruct (Rnum_add _ _ _ _ (Rmap_default _ _ v (Rs_dists _ _ _ Rd))
              (ex_intro _ z (conj eq_refl Hz))) as (vw & -> & Rvw).
  cbn [bind].
  set (vq := (default 0%Q (Exact.dists (Exact.side_of x d) !! v)
              + (if d then wq w v data else wq v w data))%Q) in *.
  destruct (Nx.dists (Nx.side_of a d) !! w) as [dw|] eqn:Dw.
  - destruct (Rmap_Some _ _ _ _ (Rs_dists _ _ _ Rd) Dw) as (dq & -> & Hd).
    rewrite (Rnum_ltb vw dw vq dq Rvw Hd).
    destruct (Exact.Qltb vq dq); simpl; [reflexivity | exact R].
  - rewrite (Rmap_None _ _ _ (Rs_dists _ _ _ Rd) Dw).
    destruct (Nx.seen (Nx.side_of a d) !! w) as [sw|] eqn:Sw.
    + destruct (Rmap_Some _ _ _ _ (Rs_seen _ _ _ Rd) Sw) as (sq & -> & Hs).
      rewrite (Rnum_ltb vw sw vq sq Rvw Hs).
      destruct (Exact.Qltb vq sq); [|exact R].
      exact (R_meet _ _ w (R_pushed d v w vw vq a x R Rvw)).
    + rewrite (Rmap_None _ _ _ (Rs_seen _ _ _ Rd) Sw).
      exact (R_meet _ _ w (R_pushed d v w vw vq a x R Rvw)).
Qed.

Lemma R_relax_all (d : bool) (v : node) (l : list (node * E))
    (a : Nx.state) (x : Exact.state) :
  Rstate a x ->
  Rresult (Nx.relax_all weight d v a l) (Exact.relax_all wq d v x l).
Proof.
  revert a x. induction l as [|wd l IH]; intros a x R; simpl; [exact R|].
  pose proof (R_relax d v a x wd R) as H.
  destruct (Nx.relax weight d v a wd) as [e|a'],
           (Exact.relax wq d v x wd) as [e'|x']; simpl in H;
    try contradiction.
  - exact H.
  - apply IH. exact H.
Qed.

Lemma R_turn (a : Nx.state) (x : Exact.state) :
  Rstate a x -> Routcome (Nx.turn G weight a) (Exact.turn G wq x).
Proof.
  intros R. unfold Nx.turn, Exact.turn.
  pose proof (R_side a x R false) as Rf. pose proof (R_side a x R true) as Rb.
  simpl in Rf, Rb.
  rewrite (is_nil_R _ _ (Rs_fringe _ _ _ Rf)),
          (is_nil_R _ _ (Rs_fringe _ _ _ Rb)).
  destruct (Exact.is_nil (Exact.fringe (Exact.fwd x))
            || Exact.is_nil (Exact.fringe (Exact.bwd x))); [reflexivity|].
  cbv zeta. rewrite <- (R_dir a x R).
  set (d := negb (Nx.dir a)).
  pose proof (R_side a x R d) as Rd.
  pose proof (Rheap_pop _ _ _ (Rs_tidy _ _ _ Rd) (Rs_fringe _ _ _ Rd)) as P.
  destruct (heappop (Nx.fringe (Nx.side_of a d))) as [[[[dist c] v] ra]|],
           (Exact.heappop (Exact.fringe (Exact.side_of x d)))
             as [[[[dq c'] v'] rx]|]; try contradiction; [|reflexivity].
  destruct P as ((Hd & Hc & Hv) & RH & T). simpl in Hd, Hc, Hv. subst c' v'.
  pose proof (R_popped a x d ra rx R RH T) as R1.
  rewrite nx_side_of_popped, side_of_popped, !eqb_reflx. cbn [Nx.dists Exact.dists].
  destruct (Nx.dists (Nx.side_of a d) !! v) as [dv|] eqn:Dv.
  - destruct (Rmap_Some _ _ _ _ (Rs_dists _ _ _ Rd) Dv) as (dvq & -> & _).
    exact R1.
  - rewrite (Rmap_None _ _ _ (Rs_dists _ _ _ Rd) Dv).
    pose proof (R_settled _ _ d v dist dq R1 Hd) as R2.
    pose proof (R_side _ _ R2 (negb d)) as Ro.
    destruct (Nx.dists (Nx.side_of (Nx.settled (Nx.popped a d ra) d v dist)
                          (negb d)) !! v) as [dv|] eqn:Dv'.
    + destruct (Rmap_Some _ _ _ _ (Rs_dists _ _ _ Ro) Dv') as (dvq & -> & _).
      simpl. rewrite (R_finalpath _ _ R2). reflexivity.
    + rewrite (Rmap_None _ _ _ (Rs_dists _ _ _ Ro) Dv').
      pose proof (R_relax_all d v (view_adj G v) _ _ R2) as R3.
      destruct (Nx.relax_all weight d v _ (view_adj G v)) as [e|a3],
               (Exact.relax_all wq d v _ (view_adj G v)) as [e'|x3];
        simpl in R3; try contradiction.
      * simpl. rewrite R3. reflexivity.
      * exact R3.
Qed.

Lemma R_loop (fuel : nat) (a : Nx.state) (x : Exact.state) :
  Rstate a x -> Nx.loop G weight fuel a = Exact.loop G wq fuel x.
Proof.
  revert a x. induction fuel as [|fuel IH]; intros a x R; simpl; [reflexivity|].
  pose proof (R_turn a x R) as T.
  destruct (Nx.turn G weight a) as [a'|r], (Exact.turn G wq x) as [x'|r'];
    simpl in T; try contradiction.
  - apply IH. exact T.
  - rewrite T. reflexivity.
Qed.

Lemma R_init (source target : node) :
  Rstate (Nx.init_state source target) (Exact.init_state source target).
Proof.
  constructor; simpl; try reflexivity; [|apply (Rnum_Int 0)].
  intros d. destruct d; simpl; constructor; simpl;
    try apply Rmap_empty; try reflexivity.
  - exists [(Int 0, 1%nat, target)]. split; [reflexivity|].
    constructor; [|constructor]. split; [apply (Rnum_Int 0)|]. split; reflexivity.
  - apply (tidy_push 1 [] 0 target). apply tidy_nil.
  - rewrite <- insert_empty. apply Rmap_insert; [apply Rmap_empty|].
    apply (Rnum_Int 0).
  - exists [(Int 0, 0%nat, source)]. split; [reflexivity|].
    constructor; [|constructor]. split; [apply (Rnum_Int 0)|]. split; reflexivity.
  - apply (tidy_mono 1 2); [lia|]. apply (tidy_push 0 [] 0 source).
    apply tidy_nil.
  - rewrite <- insert_empty. apply Rmap_insert; [apply Rmap_empty|].
    apply (Rnum_Int 0).
Qed.

(** With integer weights the search computes what the exact search
    computes: overflow and rounding play no part. *)
Lemma dijkstra_exact (source target : node) :
  Nx.bidirectional_dijkstra G weight source target
  = Exact.bidirectional_dijkstra G wq source target.
Proof.
  unfold Nx.bidirectional_dijkstra, Exact.bidirectional_dijkstra.
  destruct (negb (view_has_node G source)); [reflexivity|].
  destruct (negb (view_has_node G target)); [reflexivity|].
  destruct (source =? target); [reflexivity|].
  apply R_loop, R_init.
Qed.

End Simulation.

Import Nx GraphInv.

(** * The accessible view of a map *)

Import Map MapSpec MapView.

Section MapFacts.
Variable m : Map.t.
Hypothesis W : wf m.

Lemma adj_nonempty_key (u w : node) (r : nat) :
  Dict.get Z.eqb w (adj m u) = Some r -> In u (Dict.keys (_node m)).
Proof.
  intros H. apply (wf_same_keys m W). apply get_is_Some_keys.
  unfold adj in H. destruct (Dict.get Z.eqb u (_adj m)) as [d|]; [eauto|].
  discriminate.
Qed.

Lemma edge_data_sym (u w : node) : edge_data m u w = edge_data m w u.
Proof.
  unfold edge_data.
  destruct (Dict.get Z.eqb w (adj m u)) as [r|] eqn:H1.
  - rewrite (wf_sym m W u w r H1). reflexivity.
  - destruct (Dict.get Z.eqb u (adj m w)) as [r|] eqn:H2; [|reflexivity].
    apply (wf_sym m W) in H2. congruence.
Qed.

Lemma edge_data_cell (u w : node) (data : route) :
  edge_data m u w = Some data -> In data (cells m).
Proof.
  unfold edge_data. destruct (Dict.get Z.eqb w (adj m u)); [|discriminate].
  intros H. apply list_elem_of_In. eapply list_elem_of_lookup_2, H.
Qed.

Lemma view_adj_In (u w : node) (data : route) :
  In (w, data) (view_adj (view m) u)
  <-> edge_data m u w = Some data /\ accessible data = true.
Proof.
  unfold view, subgraph_view. simpl. rewrite in_flat_map. split.
  - intros ([w' r] & Hin & Hres). apply filter_In in Hin. destruct Hin as [Hin Hf].
    unfold resolve in Hres. simpl in *.
    destruct (cells m !! r) as [d|] eqn:Hc; [|destruct Hres].
    destruct Hres as [[= -> ->]|[]].
    apply (In_get _ _ _ (wf_inner m W u)) in Hin.
    assert (He : edge_data m u w = Some data) by (unfold edge_data; rewrite Hin; exact Hc).
    split; [exact He|]. unfold filter_edge in Hf. rewrite He in Hf. exact Hf.
  - intros [He Ha]. unfold edge_data in He.
    destruct (Dict.get Z.eqb w (adj m u)) as [r|] eqn:Hg; [|discriminate].
    exists (w, r). split.
    + apply filter_In. split; [apply get_Some_In, Hg|]. simpl.
      unfold filter_edge, edge_data. rewrite Hg, He. exact Ha.
    + unfold resolve. simpl. rewrite He. left. reflexivity.
Qed.

Lemma view_keys_sub (f : node * nat -> bool) (l : list (node * nat)) (k : node) :
  In k (Dict.keys (flat_map (resolve m) (List.filter f l))) ->
  In k (Dict.keys l).
Proof.
  unfold Dict.keys. rewrite !in_map_iff.
  intros ([k' d] & <- & Hin). apply in_flat_map in Hin.
  destruct Hin as ([w r] & Hin & Hres). apply filter_In in Hin.
  unfold resolve in Hres. simpl in Hres.
  destruct (cells m !! r); [|destruct Hres]. destruct Hres as [[= <- <-]|[]].
  exists (w, r). split; [reflexivity | apply Hin].
Qed.

Lemma view_keys_NoDup (f : node * nat -> bool) (l : list (node * nat)) :
  List.NoDup (Dict.keys l) ->
  List.NoDup (Dict.keys (flat_map (resolve m) (List.filter f l))).
Proof.
  induction l as [|[w r] l IH]; intros Hnd; simpl; [constructor|].
  apply NoDup_cons_iff in Hnd. destruct Hnd as [Hni Hnd].
  destruct (f (w, r)); simpl; [|exact (IH Hnd)].
  unfold resolve at 1. simpl. destruct (cells m !! r); simpl; [|exact (IH Hnd)].
  constructor; [|exact (IH Hnd)].
  intros H. apply Hni. eapply view_keys_sub, H.
Qed.

Lemma view_ok_map : view_ok (view m).
Proof.
  constructor.
  - apply (wf_node_keys m W).
  - intros u. apply view_keys_NoDup, (wf_inner m W).
  - intros u w data H. apply view_adj_In in H. destruct H as [He _].
    pose proof He as He'. rewrite edge_data_sym in He'.
    unfold edge_data in He, He'. simpl.
    destruct (Dict.get Z.eqb w (adj m u)) as [r|] eqn:H1; [|discriminate].
    destruct (Dict.get Z.eqb u (adj m w)) as [r'|] eqn:H2; [|discriminate].
    split; eapply adj_nonempty_key; eauto.
  - intros u w data H. apply view_adj_In in H. apply view_adj_In.
    rewrite edge_data_sym. exact H.
Qed.

Lemma view_has_node_map (n : node) : view_has_node (view m) n = has_node m n.
Proof.
  destruct (has_node m n) eqn:H.
  - apply view_has_node_iff. apply has_node_iff in H. exact H.
  - destruct (view_has_node (view m) n) eqn:H'; [|reflexivity].
    apply view_has_node_iff in H'. apply has_node_iff in H'. congruence.
Qed.

Lemma vedge_accessible (u w : node) :
  vedge (view m) u w <-> accessible_edge m u w.
Proof.
  unfold vedge, accessible_edge. split; intros [d H]; exists d; apply view_adj_In, H.
Qed.

Lemma ecost_edge_weight (weight : node -> node -> route -> Q) (u w : node) :
  accessible_edge m u w ->
  ecost (view m) weight u w = MapExact.edge_weight m weight u w.
Proof.
  intros [d [He Ha]]. unfold MapExact.edge_weight. rewrite He.
  apply (ecost_edge (view m) weight view_ok_map). apply view_adj_In. auto.
Qed.

Lemma chain_nodes (p : list node) (s : node) :
  head p = Some s -> has_node m s = true ->
  Path.chain (accessible_edge m) p ->
  Forall (fun u => has_node m u = true) p.
Proof.
  revert s. induction p as [|x p IH]; intros s Hh Hs Hc; [constructor|].
  injection Hh as ->. constructor; [exact Hs|].
  apply chain_cons in Hc. destruct Hc as [He Hc].
  destruct p as [|y p]; [constructor|]. simpl in He.
  apply (IH y); [reflexivity | | exact Hc].
  apply vedge_accessible in He. destruct He as [data He].
  apply (vo_closed _ view_ok_map) in He. apply has_node_iff, He.
Qed.

Lemma walk_accessible_path (s e : node) (p : list node) :
  has_node m s = true ->
  walk (view m) s e p <-> accessible_path m s e p.
Proof.
  intros Hs. unfold walk, accessible_path. split.
  - intros (Hh & Hl & Hc).
    assert (Hc' : Path.chain (accessible_edge m) p).
    { eapply chain_impl; [|exact Hc]. intros x y. apply vedge_accessible. }
    split; [exact Hh|]. split; [exact Hl|]. split; [|exact Hc'].
    eapply chain_nodes; eauto.
  - intros (Hh & Hl & _ & Hc). split; [exact Hh|]. split; [exact Hl|].
    eapply chain_impl; [|exact Hc]. intros x y. apply vedge_accessible.
Qed.

Lemma accessible_path_start (s e : node) (p : list node) :
  accessible_path m s e p -> has_node m s = true /\ has_node m e = true.
Proof.
  intros (Hh & Hl & HF & _). rewrite List.Forall_forall in HF. split; apply HF.
  - destruct p; [discriminate|]. injection Hh as ->. left. reflexivity.
  - apply last_Some in Hl. destruct Hl as [l' ->]. apply in_or_app. right.
    left. reflexivity.
Qed.

Lemma total_view (weight : node -> node -> route -> Q) (p : list node) :
  Path.chain (accessible_edge m) p ->
  (Path.total (ecost (view m) weight) p
   == Path.total (MapExact.edge_weight m weight) p)%Q.
Proof.
  apply total_ext. intros x y H. rewrite (ecost_edge_weight weight x y H).
  reflexivity.
Qed.

Lemma nonneg_distance_weight :
  nonneg_distances m -> nonneg_weight (view m) MapExact.distance_weight.
Proof.
  intros Hn u w data H. apply view_adj_In in H. destruct H as [He _].
  apply edge_data_cell in He. unfold nonneg_distances in Hn.
  rewrite List.Forall_forall in Hn. specialize (Hn _ He).
  unfold MapExact.distance_weight.
  change 0%Q with (inject_Z 0). rewrite <- Zle_Qle. split; exact Hn.
Qed.

Lemma nonneg_cost (land sea : Z) :
  nonneg_distances m -> 0 <= land -> 0 <= sea ->
  nonneg_weight (view m) (MapExact.cost land sea).
Proof.
  intros Hn Hl Hs u w data H. apply view_adj_In in H. destruct H as [He _].
  apply edge_data_cell in He. unfold nonneg_distances in Hn.
  rewrite List.Forall_forall in Hn. specialize (Hn _ He).
  unfold MapExact.cost. change 0%Q with (inject_Z 0).
  destruct (String.eqb (route_type data) "land");
    rewrite <- Zle_Qle; split; apply Z.mul_nonneg_nonneg; assumption.
Qed.

(** The weights of the exact search sum to the distance and to the cost
    of a path. *)
Lemma edge_weight_km (u w : node) :
  MapExact.edge_weight m MapExact.distance_weight u w = inject_Z (km m u w).
Proof.
  unfold MapExact.edge_weight, km, MapExact.distance_weight.
  destruct (edge_data m u w); reflexivity.
Qed.

Lemma edge_weight_cost (land sea : Z) (u w : node) :
  MapExact.edge_weight m (MapExact.cost land sea) u w
  = inject_Z (edge_cost m land sea u w).
Proof.
  unfold MapExact.edge_weight, edge_cost, MapExact.cost.
  destruct (edge_data m u w) as [d|]; [|reflexivity].
  destruct (String.eqb (route_type d) "land"); reflexivity.
Qed.



End MapFacts.

Import Nx GraphInv SearchInv Map MapSpec MapView.

Lemma total_same {A : Type} (w w' : A -> A -> Q) (p : list A) :
  (forall x y, (w x y == w' x y)%Q) ->
  (Path.total w p == Path.total w' p)%Q.
Proof.
  intros H. induction p as [|x [|y p] IH]; simpl; try reflexivity.
  simpl in IH. rewrite IH, (H x y). reflexivity.
Qed.

Lemma total_distance_exact (m : Map.t) (p : list node) :
  (Path.total (MapExact.edge_weight m MapExact.distance_weight) p
   == total_distance m p)%Q.
Proof.
  apply total_same. intros x y. unfold MapExact.edge_weight, km,
    MapExact.distance_weight. destruct (edge_data m x y); reflexivity.
Qed.

Lemma total_cost_exact (m : Map.t) (land sea : Z) (p : list node) :
  (Path.total (MapExact.edge_weight m (MapExact.cost land sea)) p
   == total_cost m land sea p)%Q.
Proof.
  apply total_same. intros x y. unfold MapExact.edge_weight, edge_cost,
    MapExact.cost. destruct (edge_data m x y) as [d|]; [|reflexivity].
  destruct (String.eqb (route_type d) "land"); reflexivity.
Qed.

(** * The weights of the two queries *)

Lemma distance_weight_exact :
  Sim.Rweight distance_weight MapExact.distance_weight.
Proof. intros u v data. exists (distance data). split; reflexivity. Qed.

Lemma cost_exact (land sea : Z) :
  Sim.Rweight (cost (Int land) (Int sea)) (MapExact.cost land sea).
Proof.
  intros u v data. unfold cost, MapExact.cost.
  destruct (String.eqb (route_type data) "land"); eexists;
    split; reflexivity.
Qed.

Lemma distance_weight_raises : NxInv.overflow_only distance_weight.
Proof. intros u v data e H. discriminate H. Qed.

Lemma cost_raises (land sea : num) : NxInv.overflow_only (cost land sea).
Proof.
  intros u v data e. unfold cost.
  destruct (String.eqb (route_type data) "land"); apply mul_raises.
Qed.

(** * The queries of the map *)

(** With integer weights a query is the exact search. *)
Lemma get_shortest_path_exact (m : Map.t) (s e : node) :
  get_shortest_path m s e
  = Exact.shortest_path (view m) MapExact.distance_weight s e.
Proof. apply dijkstra_exact, distance_weight_exact. Qed.

Lemma get_cheapest_path_exact (m : Map.t) (s e : node) (land sea : Z) :
  get_cheapest_path m s e (Int land) (Int sea)
  = Exact.shortest_path (view m) (MapExact.cost land sea) s e.
Proof. apply dijkstra_exact, cost_exact. Qed.

Lemma query_optimal (m : Map.t) (weight : node -> node -> route -> Q)
    (s e : node) :
  wf m -> nonneg_weight (view m) weight ->
  (exists q, accessible_path m s e q) ->
  exists p, Exact.shortest_path (view m) weight s e = Some (inr p)
    /\ accessible_path m s e p
    /\ forall q, accessible_path m s e q ->
         (Path.total (MapExact.edge_weight m weight) p
          <= Path.total (MapExact.edge_weight m weight) q)%Q.
Proof.
  intros W Hn [q0 Hq0].
  destruct (accessible_path_start m s e q0 Hq0) as [Hs He].
  pose proof (view_ok_map m W) as V.
  destruct (bidirectional_dijkstra_optimal (view m) weight V Hn s e)
    as [(p & Hp & Wp & Hopt)|[_ Hno]].
  - rewrite view_has_node_map; assumption.
  - rewrite view_has_node_map; assumption.
  - exists p. split; [exact Hp|].
    apply (walk_accessible_path m W s e p Hs) in Wp. split; [exact Wp|].
    intros q Hq. pose proof Hq as Wq.
    apply (walk_accessible_path m W s e q Hs) in Wq. specialize (Hopt q Wq).
    rewrite <- (total_view m W weight p), <- (total_view m W weight q);
      [exact Hopt | apply Hq | apply Wp].
  - exfalso. apply (Hno q0). apply (walk_accessible_path m W s e q0 Hs), Hq0.
Qed.

Lemma query_no_path (m : Map.t) (weight : node -> node -> route -> Q)
    (s e : node) :
  wf m -> nonneg_weight (view m) weight ->
  has_node m s = true -> has_node m e = true ->
  (forall q, ~ accessible_path m s e q) ->
  Exact.shortest_path (view m) weight s e = Some (inl NetworkXNoPath).
Proof.
  intros W Hn Hs He Hno. pose proof (view_ok_map m W) as V.
  destruct (bidirectional_dijkstra_optimal (view m) weight V Hn s e)
    as [(p & Hp & Wp & _)|[H _]]; try (rewrite view_has_node_map; assumption).
  - exfalso. apply (Hno p), (walk_accessible_path m W s e p Hs), Wp.
  - exact H.
Qed.

Lemma query_absent (m : Map.t) (weight : node -> node -> route -> exn + num)
    (s e : node) :
  has_node m s = false \/ has_node m e = false ->
  shortest_path (view m) weight s e = Some (inl NodeNotFound).
Proof.
  intros H. apply nx_dijkstra_absent.
  rewrite !(view_has_node_map m). exact H.
Qed.

(** Whatever the weights, a query ends; it raises [NodeNotFound] exactly
    when an end is not a city, a path it returns is an accessible path, and
    its other failures are those of the search. *)
Lemma query_cases (m : Map.t) (weight : node -> node -> route -> exn + num)
    (s e : node) :
  wf m -> NxInv.overflow_only weight ->
  exists r, shortest_path (view m) weight s e = Some r
    /\ (r = inl NodeNotFound <-> has_node m s = false \/ has_node m e = false)
    /\ (forall p, r = inr p -> accessible_path m s e p)
    /\ (forall x, r = inl x ->
          x = NodeNotFound \/ x = NetworkXNoPath
          \/ x = ValueError \/ x = OverflowError).
Proof.
  intros W Ho. pose proof (view_ok_map m W) as V.
  destruct (has_node m s) eqn:Hs; [destruct (has_node m e) eqn:He|].
  - destruct (nx_dijkstra_sound (view m) weight V s e)
      as (r & Hr & Hp & Hx); try (rewrite view_has_node_map; assumption).
    exists r. split; [exact Hr|]. split; [|split].
    + split; [|intros [H|H]; discriminate].
      intros ->. destruct (Hx Ho NodeNotFound eq_refl) as [H|[H|H]];
        discriminate H.
    + intros p ->. apply (walk_accessible_path m W s e p Hs), Hp. reflexivity.
    + intros x ->. destruct (Hx Ho x eq_refl) as [H|[H|H]]; auto.
  - eexists. split; [apply query_absent; auto|].
    split; [tauto|]. split; [discriminate|]. intros x [= <-]. auto.
  - eexists. split; [apply query_absent; auto|].
    split; [tauto|]. split; [discriminate|]. intros x [= <-]. auto.
Qed.

(** A path a query returns is an accessible path, for every weight
    function. *)
Lemma query_path (m : Map.t) (weight : node -> node -> route -> exn + num)
    (s e : node) (p : list node) :
  wf m -> shortest_path (view m) weight s e = Some (inr p) ->
  accessible_path m s e p.
Proof.
  intros W H. pose proof (view_ok_map m W) as V.
  destruct (has_node m s) eqn:Hs; [destruct (has_node m e) eqn:He|].
  - destruct (nx_dijkstra_sound (view m) weight V s e)
      as (r & Hr & Hp & _); try (rewrite view_has_node_map; assumption).
    unfold shortest_path in H. rewrite H in Hr. injection Hr as <-.
    apply (walk_accessible_path m W s e p Hs), Hp. reflexivity.
  - rewrite (query_absent m weight s e) in H by auto. discriminate.
  - rewrite (query_absent m weight s e) in H by auto. discriminate.
Qed.

Import Nx GraphInv SearchInv Map MapSpec MapView.

(** * The claims about the map *)

(** ** Examples *)

Lemma example_reachable : reachable Example.map.
Proof. exists Example.ops. reflexivity. Defined.

Lemma example_island_reachable : reachable Example.map_with_island.
Proof.
  exists (Example.ops ++ [AddCity 4 [("name", "Perth")]]). reflexivity.
Defined.

Lemma example_nonneg : nonneg_distances Example.map.
Proof. repeat constructor; simpl; lia. Defined.

Lemma example_island_nonneg : nonneg_distances Example.map_with_island.
Proof. repeat constructor; simpl; lia. Defined.

Lemma example_path : accessible_path Example.map 1 3 [1; 3].
Proof.
  split; [reflexivity|]. split; [reflexivity|]. split.
  - repeat constructor.
  - split; [|exact I]. eexists. split; reflexivity.
Defined.

Lemma example_negative_reachable : reachable Example.with_negative_distance.
Proof. eexists. reflexivity. Defined.

Lemma example_negative_path :
  accessible_path Example.with_negative_distance 1 3 [1; 2; 3].
Proof.
  split; [reflexivity|]. split; [reflexivity|]. split.
  - repeat constructor.
  - split; [eexists; split; reflexivity|].
    split; [eexists; split; reflexivity | exact I].
Defined.

Lemma example_large_reachable : reachable Example.with_large_distances.
Proof. eexists. reflexivity. Defined.

Lemma example_large_path :
  accessible_path Example.with_large_distances 1 3 [1; 2; 3].
Proof.
  split; [reflexivity|]. split; [reflexivity|]. split.
  - repeat constructor.
  - split; [eexists; split; reflexivity|].
    split; [eexists; split; reflexivity | exact I].
Defined.

(** ** Shortest paths *)

(** C1 as stated fails.  [add_connection] accepts any distance.  On the map
    with the edges 1-2 of distance -1 and 2-3 of distance 1, all accessible,
    the path [1; 2; 3] joins 1 and 3, yet [get_shortest_path] returns no
    path: the search raises [ValueError]. *)
Lemma negative_distance_no_shortest_path :
  reachable Example.with_negative_distance
  /\ accessible_path Example.with_negative_distance 1 3 [1; 2; 3]
  /\ get_shortest_path Example.with_negative_distance 1 3
     = Some (inl ValueError)
  /\ ~ (forall (m : Map.t) (s e : node),
          reachable m -> (exists q, accessible_path m s e q) ->
          exists p, get_shortest_path m s e = Some (inr p)).
Proof.
  split; [exact example_negative_reachable|].
  split; [exact example_negative_path|].
  split; [vm_compute; reflexivity|].
  intros H.
  destruct (H Example.with_negative_distance 1 3 example_negative_reachable
              (ex_intro _ _ example_negative_path)) as [p Hp].
  vm_compute in Hp. discriminate Hp.
Qed.

(** C1, amended.  On a map built by the operations in which no distance is
    negative, if some path of accessible edges joins the cities [s] and [e]
    then [get_shortest_path] returns a path: it starts with [s], ends with
    [e], each of its cities is joined to the next by an accessible edge, and
    the sum of the distances of its edges is at most that of every
    accessible path from [s] to [e]. *)
Theorem get_shortest_path_optimal (m : Map.t) (s e : node) :
  reachable m -> nonneg_distances m ->
  (exists q, accessible_path m s e q) ->
  exists p, get_shortest_path m s e = Some (inr p)
    /\ accessible_path m s e p
    /\ forall q, accessible_path m s e q ->
         (total_distance m p <= total_distance m q)%Q.
Proof.
  intros R Hn Hq. apply reachable_wf in R.
  destruct (query_optimal m MapExact.distance_weight s e R
              (nonneg_distance_weight m R Hn) Hq) as (p & Hp & Ha & Hopt).
  exists p. rewrite get_shortest_path_exact.
  split; [exact Hp|]. split; [exact Ha|].
  intros q Hq'. rewrite <- !total_distance_exact. exact (Hopt q Hq').
Qed.

Lemma get_shortest_path_optimal_witness :
  exists p, get_shortest_path Example.map 1 3 = Some (inr p)
    /\ accessible_path Example.map 1 3 p
    /\ forall q, accessible_path Example.map 1 3 q ->
         (total_distance Example.map p <= total_distance Example.map q)%Q.
Proof.
  apply (get_shortest_path_optimal Example.map 1 3).
  - exact example_reachable.
  - exact example_nonneg.
  - exists [1; 3]. exact example_path.
Defined.

(** ** Cheapest paths *)

(** C2 as stated fails, in two ways.  With the negative land cost -1 the
    query from 1 to 3 on the example map returns no path although [1; 3] is
    an accessible path: the search raises [ValueError].  With the float
    costs 1.0 and 1.0 on the map with the edges 1-2 (3 km), 2-3 (10^16 km)
    and 1-3 (10^16 + 4 km) the query returns [1; 3], of cost 10^16 + 4,
    although [1; 2; 3] costs 10^16 + 3: the float sum of 3.0 and 1e16 is
    rounded to 1e16 + 4. *)
Lemma get_cheapest_path_not_optimal :
  get_cheapest_path Example.map 1 3 (-1) 2 = Some (inl ValueError)
  /\ accessible_path Example.map 1 3 [1; 3]
  /\ Py.literal 1 1 = Float (S754_finite false 4503599627370496 (-52))
  /\ (Py.value (S754_finite false 4503599627370496 (-52)) == 1)%Q
  /\ get_cheapest_path Example.with_large_distances 1 3
       (Py.literal 1 1) (Py.literal 1 1) = Some (inr [1; 3])
  /\ accessible_path Example.with_large_distances 1 3 [1; 2; 3]
  /\ (total_cost Example.with_large_distances 1 1 [1; 2; 3]%Z
      < total_cost Example.with_large_distances 1 1 [1; 3]%Z)%Q
  /\ ~ (forall (m : Map.t) (s e : node) (l c : num),
          reachable m -> (exists q, accessible_path m s e q) ->
          exists p, get_cheapest_path m s e l c = Some (inr p)).
Proof.
  split; [vm_compute; reflexivity|].
  split; [exact example_path|].
  split; [vm_compute; reflexivity|].
  split; [unfold Qeq; vm_compute; reflexivity|].
  split; [vm_compute; reflexivity|].
  split; [exact example_large_path|].
  split; [vm_compute; reflexivity|].
  intros H.
  destruct (H Example.map 1 3 (Int (-1)) (Int 2) example_reachable
              (ex_intro _ _ example_path)) as [p Hp].
  vm_compute in Hp. discriminate Hp.
Qed.

(** C2, amended.  On a map built by the operations in which no distance is
    negative, and for costs per km that are non-negative integers, if some
    path of accessible edges joins [s] and [e] then [get_cheapest_path]
    returns an accessible path from [s] to [e] whose summed cost (distance
    times the land cost on a "land" edge, times the sea cost on any other
    edge) is at most that of every accessible path from [s] to [e]. *)
Theorem get_cheapest_path_optimal (m : Map.t) (s e : node)
    (land_cost_per_km sea_cost_per_km : Z) :
  reachable m -> nonneg_distances m ->
  0 <= land_cost_per_km -> 0 <= sea_cost_per_km ->
  (exists q, accessible_path m s e q) ->
  exists p,
    get_cheapest_path m s e (Int land_cost_per_km) (Int sea_cost_per_km)
    = Some (inr p)
    /\ accessible_path m s e p
    /\ forall q, accessible_path m s e q ->
         (total_cost m land_cost_per_km sea_cost_per_km p
          <= total_cost m land_cost_per_km sea_cost_per_km q)%Q.
Proof.
  intros R Hn Hl Hs Hq. apply reachable_wf in R.
  destruct (query_optimal m (MapExact.cost land_cost_per_km sea_cost_per_km)
              s e R (nonneg_cost m R _ _ Hn Hl Hs) Hq)
    as (p & Hp & Ha & Hopt).
  exists p. rewrite get_cheapest_path_exact.
  split; [exact Hp|]. split; [exact Ha|].
  intros q Hq'. rewrite <- !total_cost_exact. exact (Hopt q Hq').
Qed.

Lemma get_cheapest_path_optimal_witness :
  exists p, get_cheapest_path Example.map 1 3 1 2 = Some (inr p)
    /\ accessible_path Example.map 1 3 p
    /\ forall q, accessible_path Example.map 1 3 q ->
         (total_cost Example.map 1 2 p <= total_cost Example.map 1 2 q)%Q.
Proof.
  apply (get_cheapest_path_optimal Example.map 1 3 1 2).
  - exact example_reachable.
  - exact example_nonneg.
  - lia.
  - lia.
  - exists [1; 3]. exact example_path.
Defined.

(** ** Absent cities *)

(** C3 as stated fails.  City 9 was never added to the example map: both
    queries with 9 as an end raise [NodeNotFound], whereas the query between
    city 1 and the unconnected city 4 raises [NetworkXNoPath].  So a query on
    an absent city does not fail with the failure used for unconnected
    cities. *)
Lemma absent_city_is_not_NetworkXNoPath :
  has_node Example.map 9 = false
  /\ get_shortest_path Example.map 9 1 = Some (inl NodeNotFound)
  /\ get_shortest_path Example.map 1 9 = Some (inl NodeNotFound)
  /\ get_cheapest_path Example.map 9 1 1 2 = Some (inl NodeNotFound)
  /\ get_shortest_path Example.map_with_island 1 4 = Some (inl NetworkXNoPath)
  /\ ~ (forall (m : Map.t) (s e : node),
          has_node m s = false \/ has_node m e = false ->
          get_shortest_path m s e = Some (inl NetworkXNoPath)).
Proof.
  repeat (split; [vm_compute; reflexivity|]).
  intros H. specialize (H Example.map 9 1 (or_introl eq_refl)).
  vm_compute in H. discriminate H.
Qed.

(** C3, amended.  When [s] or [e] is not a city of the map, both queries
    raise [NodeNotFound]; when both are cities of a map built by the
    operations with no negative distance and no accessible path joins them,
    [get_shortest_path] raises [NetworkXNoPath]; the two exceptions are
    different. *)
Theorem absent_city_NodeNotFound (m : Map.t) (s e : node) :
  (has_node m s = false \/ has_node m e = false ->
   get_shortest_path m s e = Some (inl NodeNotFound)
   /\ forall land_cost_per_km sea_cost_per_km,
        get_cheapest_path m s e land_cost_per_km sea_cost_per_km
        = Some (inl NodeNotFound))
  /\ (reachable m -> nonneg_distances m ->
      has_node m s = true -> has_node m e = true ->
      (forall q, ~ accessible_path m s e q) ->
      get_shortest_path m s e = Some (inl NetworkXNoPath))
  /\ NodeNotFound <> NetworkXNoPath.
Proof.
  split; [|split; [|discriminate]].
  - intros H. split; [|intros l c]; apply query_absent, H.
  - intros R Hn Hs He Hno. apply reachable_wf in R.
    rewrite get_shortest_path_exact.
    exact (query_no_path m MapExact.distance_weight s e R
             (nonneg_distance_weight m R Hn) Hs He Hno).
Qed.

Lemma absent_city_NodeNotFound_witness :
  get_shortest_path Example.map 1 9 = Some (inl NodeNotFound)
  /\ get_cheapest_path Example.map 1 9 1 2 = Some (inl NodeNotFound).
Proof.
  destruct (proj1 (absent_city_NodeNotFound Example.map 1 9)) as [H1 H2].
  - right. reflexivity.
  - split; [exact H1 | apply H2].
Defined.

(** ** Costs per km are not checked *)

(** C4 as stated fails.  With the negative sea cost -2 the query from 1 to 3
    on the example map is not rejected: it returns the path [1; 3], and the
    weight it gave the sea edge is 150 * -2 = -300.  With the negative land
    cost -1 the query does fail, but inside the search, with the
    [ValueError] of networkx, which a clamped cost would not raise. *)
Lemma negative_cost_is_accepted :
  -2 < 0
  /\ get_cheapest_path Example.map 1 3 1 (-2) = Some (inr [1; 3])
  /\ edge_data Example.map 1 3
     = Some {| distance := 150; route_type := "sea"; accessible := true |}
  /\ cost 1 (-2) 1 3
       {| distance := 150; route_type := "sea"; accessible := true |}
     = inr (Int (-300))
  /\ get_cheapest_path Example.map 1 3 (-1) 2 = Some (inl ValueError)
  /\ get_cheapest_path Example.map 1 3 0 2 = Some (inr [1; 2; 3])
  /\ ~ (forall (m : Map.t) (s e : node) (l c : Z),
          l < 0 \/ c < 0 ->
          exists x, get_cheapest_path m s e l c = Some (inl x)).
Proof.
  split; [reflexivity|]. split; [vm_compute; reflexivity|].
  split; [vm_compute; reflexivity|]. split; [vm_compute; reflexivity|].
  split; [vm_compute; reflexivity|]. split; [vm_compute; reflexivity|].
  intros H. destruct (H Example.map 1 3 1 (-2)) as [x Hx].
  - right. reflexivity.
  - vm_compute in Hx. discriminate Hx.
Qed.

(** C4, amended.  [get_cheapest_path] does not check its costs per km; on a
    map built by the operations it runs the search with them, whatever
    they are.  For integer costs of either sign the query is the exact
    search in which the weight of an edge is its distance times the cost
    per km as given (the land cost on a "land" edge, the sea cost on any
    other), never clamped.  For all costs, floats included, the query ends
    with a result; the result is [NodeNotFound] exactly when [s] or [e] is
    not a city; a path it returns is an accessible path from [s] to [e];
    and the only other failures are those of the search:
    [NetworkXNoPath], [ValueError] and [OverflowError]. *)
Theorem get_cheapest_path_unvalidated (m : Map.t) (s e : node) :
  reachable m ->
  (forall land_cost_per_km sea_cost_per_km : Z,
     get_cheapest_path m s e (Int land_cost_per_km) (Int sea_cost_per_km)
     = Exact.shortest_path (view m)
         (fun u v a =>
            inject_Z (distance a
                      * (if String.eqb (route_type a) "land"
                         then land_cost_per_km else sea_cost_per_km)))
         s e)
  /\ (forall land_cost_per_km sea_cost_per_km : num,
       exists r,
         get_cheapest_path m s e land_cost_per_km sea_cost_per_km = Some r
         /\ (r = inl NodeNotFound
             <-> has_node m s = false \/ has_node m e = false)
         /\ (forall p, r = inr p -> accessible_path m s e p)
         /\ (forall x, r = inl x ->
               x = NodeNotFound \/ x = NetworkXNoPath
               \/ x = ValueError \/ x = OverflowError)).
Proof.
  intros R. apply reachable_wf in R. split.
  - intros l c. apply dijkstra_exact. intros u v a. unfold cost.
    destruct (String.eqb (route_type a) "land"); eexists; split; reflexivity.
  - intros l c.
    destruct (query_cases m (cost l c) s e R (cost_raises l c))
      as (r & Hr & Hn & Hp & Hx).
    exists r. split; [exact Hr|]. split; [exact Hn|]. split; [exact Hp|].
    exact Hx.
Qed.

Lemma get_cheapest_path_unvalidated_witness :
  get_cheapest_path Example.map 1 3 1 (-2)
  = Exact.shortest_path (view Example.map)
      (fun u v a =>
         inject_Z (distance a
                   * (if String.eqb (route_type a) "land" then 1 else -2)))
      1 3
  /\ exists r, get_cheapest_path Example.map 1 3 (-1) 2 = Some r
       /\ r = inl ValueError
       /\ (r = inl NodeNotFound
           <-> has_node Example.map 1 = false \/ has_node Example.map 3 = false).
Proof.
  destruct (get_cheapest_path_unvalidated Example.map 1 3 example_reachable)
    as [H1 H2].
  split; [exact (H1 1 (-2))|].
  destruct (H2 (Int (-1)) (Int 2)) as (r & Hr & Hn & _).
  exists r. split; [exact Hr|]. split; [|exact Hn].
  vm_compute in Hr. injection Hr as <-. reflexivity.
Defined.

(** ** Accessibility *)

Lemma has_edge_ref (m : Map.t) (a b : node) :
  has_edge m a b = true <-> exists r, Dict.get Z.eqb b (adj m a) = Some r.
Proof.
  unfold has_edge, adj, Dict.mem.
  destruct (Dict.get Z.eqb a (_adj m)) as [d|]; simpl.
  - destruct (Dict.get Z.eqb b d); split; eauto; try discriminate.
    intros [r H]. discriminate.
  - split; [discriminate | intros [r H]; discriminate].
Qed.

Lemma set_accessibility_cells (m : Map.t) (a b : node) (acc : bool) (r : nat) :
  Dict.get Z.eqb b (adj m a) = Some r ->
  set_accessibility m a b acc
  = {| _node := _node m; _adj := _adj m;
       cells := alter (set_flag acc) r (cells m) |}.
Proof.
  intros H. unfold set_accessibility.
  assert (He : has_edge m a b = true) by (apply has_edge_ref; eauto).
  rewrite He, H. reflexivity.
Qed.

Lemma set_accessibility_edge (m : Map.t) (a b : node) (acc : bool) :
  wf m -> has_edge m a b = true ->
  exists d, edge_data m a b = Some d
    /\ edge_data (set_accessibility m a b acc) a b = Some (set_flag acc d)
    /\ edge_data (set_accessibility m a b acc) b a = Some (set_flag acc d).
Proof.
  intros W He. apply has_edge_ref in He. destruct He as [r Hr].
  pose proof (wf_ref m W a b r Hr) as Hlt.
  destruct (lookup_lt_is_Some_2 (cells m) r Hlt) as [d Hd].
  exists d. rewrite (set_accessibility_cells m a b acc r Hr).
  assert (H1 : forall u v,
    edge_data {| _node := _node m; _adj := _adj m;
                 cells := alter (set_flag acc) r (cells m) |} u v
    = match Dict.get Z.eqb v (adj m u) with
      | Some r' => alter (set_flag acc) r (cells m) !! r'
      | None => None
      end) by reflexivity.
  rewrite !H1, Hr, (wf_sym m W a b r Hr), list_lookup_alter_eq, Hd.
  unfold edge_data. rewrite Hr. auto.
Qed.

Lemma set_accessibility_restore (m : Map.t) (a b : node) :
  wf m -> has_edge m a b = true -> filter_edge m a b = true ->
  set_accessibility (set_accessibility m a b false) a b true = m.
Proof.
  intros W He Hf. apply has_edge_ref in He. destruct He as [r Hr].
  rewrite (set_accessibility_cells m a b false r Hr).
  rewrite (set_accessibility_cells _ a b true r) by exact Hr.
  simpl. rewrite list_alter_alter_eq.
  unfold filter_edge, edge_data in Hf. rewrite Hr in Hf.
  destruct (cells m !! r) as [d|] eqn:Hd; [|discriminate].
  rewrite (list_alter_ext _ id (cells m) (cells m) r), list_alter_id;
    [destruct m; reflexivity | reflexivity | | reflexivity].
  intros x Hx. assert (x = d) by congruence. subst x.
  destruct d as [dd rt ac]. simpl in *. subst ac. reflexivity.
Qed.

Lemma not_consecutive (m : Map.t) (s e a b : node) (p : list node) :
  ~ accessible_edge m a b -> accessible_path m s e p ->
  ~ Path.consecutive a b p.
Proof.
  intros Hn (_ & _ & _ & Hc) Hab. apply Hn.
  exact (consecutive_chain _ a b p Hab Hc).
Qed.

(** C5.  Let the edge between [a] and [b] exist in a map built by the
    operations.  After [set_accessibility a b false] no path returned by
    either query has [a] and [b] next to each other, in either order.  After
    [set_accessibility a b true] on top of that the edge is accessible again
    in both directions, and if it was accessible to begin with the map is the
    one before the edge was disabled, so every query answers as before. *)
Theorem set_accessibility_toggles (m : Map.t) (a b : node) :
  reachable m -> has_edge m a b = true ->
  (forall s e p,
     get_shortest_path (set_accessibility m a b false) s e = Some (inr p) ->
     ~ Path.consecutive a b p /\ ~ Path.consecutive b a p)
  /\ (forall s e land_cost_per_km sea_cost_per_km p,
        get_cheapest_path (set_accessibility m a b false) s e
          land_cost_per_km sea_cost_per_km = Some (inr p) ->
        ~ Path.consecutive a b p /\ ~ Path.consecutive b a p)
  /\ accessible_edge (set_accessibility (set_accessibility m a b false) a b true) a b
  /\ accessible_edge (set_accessibility (set_accessibility m a b false) a b true) b a
  /\ (filter_edge m a b = true ->
      set_accessibility (set_accessibility m a b false) a b true = m
      /\ (forall s e,
            get_shortest_path
              (set_accessibility (set_accessibility m a b false) a b true) s e
            = get_shortest_path m s e)
      /\ (forall s e land_cost_per_km sea_cost_per_km,
            get_cheapest_path
              (set_accessibility (set_accessibility m a b false) a b true) s e
              land_cost_per_km sea_cost_per_km
            = get_cheapest_path m s e land_cost_per_km sea_cost_per_km)).
Proof.
  intros R He. apply reachable_wf in R.
  pose proof (wf_set_accessibility m a b false R) as W1.
  destruct (set_accessibility_edge m a b false R He) as (d & Hd & Hab & Hba).
  assert (Nab : ~ accessible_edge (set_accessibility m a b false) a b).
  { intros (x & Hx & Hacc). rewrite Hab in Hx. injection Hx as <-. discriminate. }
  assert (Nba : ~ accessible_edge (set_accessibility m a b false) b a).
  { intros (x & Hx & Hacc). rewrite Hba in Hx. injection Hx as <-. discriminate. }
  assert (Q : forall weight s e p,
    shortest_path (view (set_accessibility m a b false)) weight s e = Some (inr p) ->
    ~ Path.consecutive a b p /\ ~ Path.consecutive b a p).
  { intros weight s e p Hp.
    pose proof (query_path _ weight s e p W1 Hp) as Hpath.
    split; eapply not_consecutive; eauto. }
  split; [intros s e p; apply Q|].
  split; [intros s e l c p; apply Q|].
  assert (He1 : has_edge (set_accessibility m a b false) a b = true).
  { apply has_edge_ref in He. destruct He as [r Hr].
    rewrite (set_accessibility_cells m a b false r Hr). apply has_edge_ref.
    exists r. exact Hr. }
  destruct (set_accessibility_edge _ a b true W1 He1) as (d1 & _ & Hab1 & Hba1).
  split; [eexists; split; [exact Hab1 | reflexivity]|].
  split; [eexists; split; [exact Hba1 | reflexivity]|].
  intros Hf. pose proof (set_accessibility_restore m a b R He Hf) as Heq.
  split; [exact Heq|]. split; intros; rewrite Heq; reflexivity.
Qed.

Lemma set_accessibility_toggles_witness :
  (forall s e p,
     get_shortest_path (set_accessibility Example.map 1 3 false) s e
     = Some (inr p) ->
     ~ Path.consecutive 1 3 p /\ ~ Path.consecutive 3 1 p)
  /\ set_accessibility (set_accessibility Example.map 1 3 false) 1 3 true
     = Example.map.
Proof.
  destruct (set_accessibility_toggles Example.map 1 3 example_reachable eq_refl)
    as (H1 & _ & _ & _ & H5).
  split; [exact H1|]. apply H5. reflexivity.
Defined.

(** C6.  When no edge joins [a] and [b], [set_accessibility a b accessible]
    raises nothing and returns the map unchanged (nodes, adjacency and edge
    attributes); in particular the edge is not created. *)
Theorem set_accessibility_missing_edge (m : Map.t) (a b : node) (acc : bool) :
  has_edge m a b = false ->
  set_accessibility m a b acc = m
  /\ has_edge (set_accessibility m a b acc) a b = false.
Proof.
  intros H. unfold set_accessibility. rewrite H. split; [reflexivity | exact H].
Qed.

Lemma set_accessibility_missing_edge_witness :
  set_accessibility Example.map_with_island 1 4 false = Example.map_with_island
  /\ has_edge (set_accessibility Example.map_with_island 1 4 false) 1 4 = false.
Proof.
  apply (set_accessibility_missing_edge Example.map_with_island 1 4 false).
  reflexivity.
Defined.

(** ** Self-loops *)

(** C7 as stated fails.  [add_connection 1 1 ...] is accepted and gives city
    1 an edge to itself. *)
Lemma add_connection_self_loop :
  reachable (run [AddCity 1 []; AddConnection 1 1 5 "land" true])
  /\ has_edge (run [AddCity 1 []; AddConnection 1 1 5 "land" true]) 1 1 = true
  /\ ~ (forall m u, reachable m -> has_edge m u u = false).
Proof.
  assert (R : reachable (run [AddCity 1 []; AddConnection 1 1 5 "land" true]))
    by (eexists; reflexivity).
  split; [exact R|]. split; [reflexivity|].
  intros H. specialize (H _ 1 R). vm_compute in H. discriminate H.
Qed.

Lemma adj_add_node {E : Type} (g : Graph E) (n : node)
    (attr : list (string * string)) (x : node) :
  wf g -> adj (add_node g n attr) x = adj g x.
Proof.
  intros W. unfold add_node.
  destruct (Dict.get Z.eqb n (_node g)) as [old|] eqn:G; [reflexivity|].
  assert (Hn : has_node g n = false)
    by (unfold has_node, Dict.mem; rewrite G; reflexivity).
  pose proof (adj_touch g n x W) as HA. unfold touch_node in HA.
  rewrite Hn in HA. exact HA.
Qed.

Lemma no_self_loop_apply (m : Map.t) (o : op) :
  wf m -> distinct_ends o ->
  (forall u, Dict.get Z.eqb u (adj m u) = None) ->
  forall u, Dict.get Z.eqb u (adj (apply m o) u) = None.
Proof.
  intros W Hd Hno u. destruct o as [c attr|a b dd rt acc|a b acc]; simpl in *.
  - unfold add_city. rewrite adj_add_node by exact W. apply Hno.
  - unfold add_connection. rewrite adj_add_edge by exact W.
    destruct ((u =? a) && (u =? b) || (u =? b) && (u =? a)) eqn:B; [|apply Hno].
    exfalso. apply Hd.
    apply orb_true_iff in B. destruct B as [B|B];
      apply andb_true_iff in B; destruct B as [B1 B2];
      apply Z.eqb_eq in B1, B2; congruence.
  - unfold set_accessibility.
    destruct (has_edge m a b); [|apply Hno].
    destruct (Dict.get Z.eqb b (adj m a)); [|apply Hno].
    unfold adj. simpl. apply Hno.
Qed.

Lemma no_self_loop_fold (ops : list op) (m : Map.t) :
  wf m -> Forall distinct_ends ops ->
  (forall u, Dict.get Z.eqb u (adj m u) = None) ->
  forall u, Dict.get Z.eqb u (adj (fold_left apply ops m) u) = None.
Proof.
  revert m. induction ops as [|o ops IH]; intros m W Hd Hno; simpl; [exact Hno|].
  apply Forall_cons in Hd. destruct Hd as [Ho Hd].
  apply IH; [apply wf_apply, W | exact Hd | apply no_self_loop_apply; assumption].
Qed.

(** C7, amended.  In every map built by a sequence of [add_city],
    [add_connection] and [set_accessibility] in which each [add_connection]
    is given two different cities, no edge joins a city to itself. *)
Theorem no_self_loop (ops : list op) (u : node) :
  Forall distinct_ends ops -> has_edge (run ops) u u = false.
Proof.
  intros Hd.
  destruct (has_edge (run ops) u u) eqn:H; [|reflexivity].
  apply has_edge_ref in H. destruct H as [r Hr].
  rewrite (no_self_loop_fold ops Map.init wf_empty Hd) in Hr; [discriminate|].
  intros x. reflexivity.
Qed.

Lemma no_self_loop_witness : has_edge (run Example.ops) 1 1 = false.
Proof.
  apply (no_self_loop Example.ops 1).
  repeat constructor; discriminate.
Defined.

Import Py.

(** * Company *)

Lemma totals_fold (outputs capacity : list (string * Z)) (acc : Z * Z) :
  fold_left (Company.totals_step outputs) capacity acc
  = (fst acc + Company.total_output outputs capacity,
     snd acc + Company.total_capacity capacity).
Proof.
  revert acc. induction capacity as [|[p c] capacity IH]; intros [o k]; simpl.
  - unfold Company.total_output, Company.total_capacity; simpl. f_equal; lia.
  - rewrite IH. unfold Company.total_output, Company.total_capacity; simpl.
    f_equal; lia.
Qed.

Lemma totals_eq (outputs capacity : list (string * Z)) :
  Company.totals outputs capacity
  = (Company.total_output outputs capacity, Company.total_capacity capacity).
Proof. unfold Company.totals. rewrite totals_fold. reflexivity. Qed.

Lemma float_of_100 :
  float_of_int 100 = inr CompanySpec.hundred.
Proof. vm_compute. reflexivity. Qed.

Lemma mul_100 (f : spec_float) :
  mul (Float f) (Int 100)
  = inr (Float (SFmul prec emax f CompanySpec.hundred)).
Proof. unfold mul, float_op, to_float. rewrite float_of_100. reflexivity. Qed.

Lemma calculate_efficiency_eq (outputs capacity : list (string * Z)) :
  Company.calculate_efficiency outputs capacity
  = if Company.total_capacity capacity =? 0 then inr (Int 0)
    else match int_quotient (Company.total_output outputs capacity)
                            (Company.total_capacity capacity) with
         | S754_infinity _ => inl OverflowError
         | q => inr (Float (SFmul prec emax q CompanySpec.hundred))
         end.
Proof.
  unfold Company.calculate_efficiency. rewrite totals_eq.
  destruct (Company.total_capacity capacity =? 0) eqn:Hc; [reflexivity|].
  unfold truediv. rewrite Hc.
  destruct (int_quotient _ _); cbn [bind]; try apply mul_100. reflexivity.
Qed.

(** C10 as stated fails: [calculate_efficiency] is not total.  The
    quotient of two integers that is too large for a float raises
    [OverflowError]. *)
Lemma calculate_efficiency_overflows :
  Company.calculate_efficiency [("Steel", 10 ^ 400)] [("Steel", 1)]
  = inl OverflowError
  /\ ~ (forall outputs capacity : list (string * Z),
          exists q, Company.calculate_efficiency outputs capacity = inr q).
Proof.
  assert (H : Company.calculate_efficiency [("Steel", 10 ^ 400)] [("Steel", 1)]
              = inl OverflowError) by (vm_compute; reflexivity).
  split; [exact H|]. intros T.
  destruct (T [("Steel", 10 ^ 400)] [("Steel", 1)]) as [q Hq].
  rewrite H in Hq. discriminate Hq.
Qed.

(** C10, amended.  [calculate_efficiency] never raises
    [ZeroDivisionError].  Its loop sums, over the products listed in
    [capacity], the output found in [outputs] (0 for a product that is
    missing there) and the capacity.  When the summed capacity is 0, which
    includes an empty [capacity], it returns the integer 0 without
    dividing.  Otherwise it divides the two sums: it raises [OverflowError]
    when the quotient is too large for a float, and else returns the
    quotient, rounded to a float, times 100.0, rounded again. *)
Theorem calculate_efficiency_no_zero_division
    (outputs capacity : list (string * Z)) :
  Company.totals outputs capacity
  = (Company.total_output outputs capacity, Company.total_capacity capacity)
  /\ Company.calculate_efficiency outputs capacity <> inl ZeroDivisionError
  /\ (forall e, Company.calculate_efficiency outputs capacity = inl e ->
        e = OverflowError /\ Company.total_capacity capacity <> 0)
  /\ (Company.total_capacity capacity = 0 ->
      Company.calculate_efficiency outputs capacity = inr (Int 0))
  /\ (Company.total_capacity capacity <> 0 ->
      match int_quotient (Company.total_output outputs capacity)
                         (Company.total_capacity capacity) with
      | S754_infinity _ =>
          Company.calculate_efficiency outputs capacity = inl OverflowError
      | q =>
          Company.calculate_efficiency outputs capacity
          = inr (Float (SFmul prec emax q CompanySpec.hundred))
      end).
Proof.
  split; [apply totals_eq|]. rewrite calculate_efficiency_eq.
  destruct (Company.total_capacity capacity =? 0) eqn:Hc.
  - apply Z.eqb_eq in Hc.
    split; [discriminate|]. split; [intros x Hx; discriminate Hx|].
    split; [reflexivity | contradiction].
  - apply Z.eqb_neq in Hc.
    destruct (int_quotient _ _) as [s|s| |s mm ee] eqn:Hq;
      (split; [discriminate|]);
      (split; [|split; [contradiction | reflexivity]]);
      intros x Hx; try discriminate Hx.
    injection Hx as <-. auto.
Qed.

Lemma calculate_efficiency_no_zero_division_witness :
  Company.calculate_efficiency [] [] = inr (Int 0)
  /\ Company.calculate_efficiency [("Steel", 40)]
       [("Steel", 50); ("Iron", 30)]
     = inr (Float (S754_finite false 7036874417766400 (-47))).
Proof.
  destruct (calculate_efficiency_no_zero_division [] [])
    as (_ & _ & _ & H0 & _).
  destruct (calculate_efficiency_no_zero_division [("Steel", 40)]
              [("Steel", 50); ("Iron", 30)]) as (_ & _ & _ & _ & H1).
  split; [apply H0; reflexivity|].
  assert (N : Company.total_capacity [("Steel", 50); ("Iron", 30)] <> 0)
    by (vm_compute; discriminate).
  specialize (H1 N). vm_compute in H1. vm_compute. exact H1.
Defined.

(** ** The status *)










Import Nx GraphInv SearchInv Map MapSpec MapView MapInv.

(** * More on the operations of the map *)

Lemma adj_set_accessibility (m : Map.t) (a b : node) (acc : bool) :
  _adj (set_accessibility m a b acc) = _adj m
  /\ _node (set_accessibility m a b acc) = _node m.
Proof.
  unfold set_accessibility. destruct (has_edge m a b); [|auto].
  destruct (Dict.get Z.eqb b (adj m a)); auto.
Qed.

Lemma refs_distinct_apply (m : Map.t) (o : op) :
  wf m -> refs_distinct m -> refs_distinct (apply m o).
Proof.
  intros W D. destruct o as [c attr|a b dd rt acc|a b acc]; simpl.
  - intros x y u v r. unfold add_city. rewrite !adj_add_node by exact W.
    apply D.
  - intros x y u v r. unfold add_connection.
    rewrite !adj_add_edge by exact W.
    destruct ((x =? a) && (y =? b) || (x =? b) && (y =? a)) eqn:B1;
      destruct ((u =? a) && (v =? b) || (u =? b) && (v =? a)) eqn:B2.
    + intros _ _.
      apply orb_true_iff in B1, B2.
      destruct B1 as [B1|B1], B2 as [B2|B2];
        apply andb_true_iff in B1, B2; destruct B1 as [B11 B12];
        destruct B2 as [B21 B22]; apply Z.eqb_eq in B11, B12, B21, B22;
        subst; auto.
    + intros [= <-] H. exfalso. unfold edge_ref in H.
      destruct (Dict.get Z.eqb b (adj m a)) as [r0|] eqn:G.
      * destruct (D _ _ _ _ _ H G) as [[-> ->]|[-> ->]].
        -- rewrite !Z.eqb_refl in B2. discriminate.
        -- rewrite !Z.eqb_refl in B2. simpl in B2.
           rewrite orb_true_r in B2. discriminate.
      * apply (wf_ref m W) in H. lia.
    + intros H [= <-]. exfalso. unfold edge_ref in H.
      destruct (Dict.get Z.eqb b (adj m a)) as [r0|] eqn:G.
      * destruct (D _ _ _ _ _ H G) as [[-> ->]|[-> ->]].
        -- rewrite !Z.eqb_refl in B1. discriminate.
        -- rewrite !Z.eqb_refl in B1. simpl in B1.
           rewrite orb_true_r in B1. discriminate.
      * apply (wf_ref m W) in H. lia.
    + apply D.
  - intros x y u v r. unfold adj.
    rewrite (proj1 (adj_set_accessibility m a b acc)). apply D.
Qed.

Lemma refs_distinct_fold (ops : list op) (m : Map.t) :
  wf m -> refs_distinct m -> refs_distinct (fold_left apply ops m).
Proof.
  revert m. induction ops as [|o ops IH]; intros m W D; simpl; [exact D|].
  apply IH; [apply wf_apply, W | apply refs_distinct_apply; assumption].
Qed.

Lemma reachable_refs_distinct (m : Map.t) : reachable m -> refs_distinct m.
Proof.
  intros [ops ->]. apply refs_distinct_fold; [apply wf_empty|].
  intros x y u v r H. discriminate H.
Qed.

(** ** Dictionaries keyed by strings *)

Section DictS.
Context {V : Type}.
Implicit Types (d : list (string * V)) (k : string) (v : V).

Lemma sget_set d k k' v :
  Dict.get String.eqb k' (Dict.set String.eqb k v d)
  = if String.eqb k' k then Some v else Dict.get String.eqb k' d.
Proof.
  induction d as [|[k0 v0] d IH]; simpl.
  - reflexivity.
  - destruct (String.eqb k k0) eqn:E; simpl.
    + apply String.eqb_eq in E. subst k0.
      destruct (String.eqb k' k); reflexivity.
    + rewrite IH. destruct (String.eqb k' k0) eqn:E0; [|reflexivity].
      apply String.eqb_eq in E0. subst k0.
      destruct (String.eqb k' k) eqn:E1; [|reflexivity].
      apply String.eqb_eq in E1. subst k'. rewrite String.eqb_refl in E.
      discriminate.
Qed.

Lemma sget_None d k :
  ~ In k (Dict.keys d) -> Dict.get String.eqb k d = None.
Proof.
  induction d as [|[k0 v0] d IH]; simpl; [reflexivity|].
  intros H. destruct (String.eqb k k0) eqn:E.
  - apply String.eqb_eq in E. subst. exfalso. apply H. left. reflexivity.
  - apply IH. intros H'. apply H. right. exact H'.
Qed.
End DictS.

Lemma get_dict_update (old new : list (string * string)) (k : string) :
  List.NoDup (Dict.keys new) ->
  Dict.get String.eqb k (dict_update old new)
  = match Dict.get String.eqb k new with
    | Some v => Some v
    | None => Dict.get String.eqb k old
    end.
Proof.
  unfold dict_update. revert old.
  induction new as [|[k1 v1] new IH]; intros old Hnd; simpl; [reflexivity|].
  apply NoDup_cons_iff in Hnd. destruct Hnd as [Hni Hnd].
  rewrite (IH _ Hnd), sget_set.
  destruct (String.eqb k k1) eqn:E; [|reflexivity].
  apply String.eqb_eq in E. subst k1. rewrite (sget_None new k Hni).
  reflexivity.
Qed.

(** ** [add_node] and [add_edge] *)

Lemma has_node_add_node {E : Type} (g : Graph E) (n x : node)
    (attr : list (string * string)) :
  has_node (add_node g n attr) x = true <-> x = n \/ has_node g x = true.
Proof.
  rewrite !has_node_iff. unfold add_node.
  destruct (Dict.get Z.eqb n (_node g)) as [old|] eqn:G; simpl;
    rewrite keys_set_In; [|reflexivity].
  split; [auto|]. intros [->|H]; [|right; exact H]. right.
  apply get_is_Some_keys. eauto.
Qed.

Lemma node_add_node {E : Type} (g : Graph E) (n x : node)
    (attr : list (string * string)) :
  Dict.get Z.eqb x (_node (add_node g n attr))
  = if x =? n
    then Some (dict_update (default [] (Dict.get Z.eqb n (_node g))) attr)
    else Dict.get Z.eqb x (_node g).
Proof.
  unfold add_node.
  destruct (Dict.get Z.eqb n (_node g)) as [old|] eqn:G; simpl;
    rewrite get_set; reflexivity.
Qed.

Lemma cells_add_node {E : Type} (g : Graph E) (n : node)
    (attr : list (string * string)) :
  cells (add_node g n attr) = cells g.
Proof.
  unfold add_node. destruct (Dict.get Z.eqb n (_node g)); reflexivity.
Qed.

Lemma node_touch {E : Type} (g : Graph E) (n x : node) :
  Dict.get Z.eqb x (_node (touch_node g n))
  = if has_node g x then Dict.get Z.eqb x (_node g)
    else if x =? n then Some [] else None.
Proof.
  unfold touch_node. destruct (has_node g n) eqn:Hn.
  - destruct (has_node g x) eqn:Hx; [reflexivity|].
    destruct (x =? n) eqn:Exn; [apply Z.eqb_eq in Exn; congruence|].
    unfold has_node, Dict.mem in Hx.
    destruct (Dict.get Z.eqb x (_node g)); [discriminate | reflexivity].
  - simpl. rewrite get_set. destruct (x =? n) eqn:Exn.
    + apply Z.eqb_eq in Exn. subst x. rewrite Hn. reflexivity.
    + unfold has_node, Dict.mem.
      destruct (Dict.get Z.eqb x (_node g)); reflexivity.
Qed.

Lemma node_add_edge {E : Type} (g : Graph E) (u v x : node) (data : E) :
  Dict.get Z.eqb x (_node (add_edge g u v data))
  = if has_node g x then Dict.get Z.eqb x (_node g)
    else if (x =? u) || (x =? v) then Some [] else None.
Proof.
  assert (H : _node (add_edge g u v data) = _node (touch_node (touch_node g u) v)).
  { unfold add_edge. destruct (Dict.get Z.eqb v _); reflexivity. }
  rewrite H, node_touch, node_touch.
  destruct (has_node (touch_node g u) x) eqn:H1.
  - apply has_node_touch in H1. destruct (has_node g x) eqn:Hx; [reflexivity|].
    destruct H1 as [->|H1]; [|discriminate]. rewrite Z.eqb_refl. reflexivity.
  - destruct (has_node g x) eqn:Hx.
    + assert (has_node (touch_node g u) x = true)
        by (apply has_node_touch; auto). congruence.
    + destruct (x =? u) eqn:Exu; [|reflexivity].
      apply Z.eqb_eq in Exu. subst x.
      assert (has_node (touch_node g u) u = true)
        by (apply has_node_touch; auto). congruence.
Qed.

Lemma cells_add_edge {E : Type} (g : Graph E) (u v : node) (data : E) :
  wf g ->
  cells (add_edge g u v data)
  = match Dict.get Z.eqb v (adj g u) with
    | Some r => <[r := data]> (cells g)
    | None => cells g ++ [data]
    end.
Proof.
  intros W.
  assert (HA : adj (touch_node (touch_node g u) v) u = adj g u).
  { rewrite adj_touch by (apply wf_touch, W). apply adj_touch, W. }
  unfold add_edge. rewrite HA.
  destruct (Dict.get Z.eqb v (adj g u)); simpl; rewrite !cells_touch;
    reflexivity.
Qed.

Lemma same_edge_sym (a b x y : node) : same_edge a b x y = same_edge b a x y.
Proof. unfold same_edge. apply orb_comm. Qed.

Lemma same_edge_swap (a b x y : node) : same_edge a b x y = same_edge a b y x.
Proof.
  unfold same_edge. rewrite orb_comm.
  rewrite (andb_comm (x =? b)), (andb_comm (x =? a)). reflexivity.
Qed.

Lemma same_edge_true (a b x y : node) :
  same_edge a b x y = true <-> (x = a /\ y = b) \/ (x = b /\ y = a).
Proof.
  unfold same_edge. rewrite orb_true_iff, !andb_true_iff, !Z.eqb_eq.
  reflexivity.
Qed.

Lemma edge_data_add_edge (m : Map.t) (u v x y : node) (data : route) :
  wf m -> refs_distinct m ->
  edge_data (add_edge m u v data) x y
  = if same_edge u v x y then Some data else edge_data m x y.
Proof.
  intros W D. unfold edge_data. rewrite adj_add_edge by exact W.
  rewrite cells_add_edge by exact W. fold (same_edge u v x y).
  unfold edge_ref.
  destruct (same_edge u v x y) eqn:B.
  - destruct (Dict.get Z.eqb v (adj m u)) as [r|] eqn:G.
    + apply list_lookup_insert_eq. apply (wf_ref m W u v), G.
    + rewrite lookup_app_r by lia. rewrite Nat.sub_diag. reflexivity.
  - destruct (Dict.get Z.eqb y (adj m x)) as [r'|] eqn:G'; [|reflexivity].
    destruct (Dict.get Z.eqb v (adj m u)) as [r|] eqn:G.
    + apply list_lookup_insert_ne. intros ->.
      destruct (D _ _ _ _ _ G' G) as [H|H];
        assert (same_edge u v x y = true) by (apply same_edge_true; tauto);
        congruence.
    + apply lookup_app_l. apply (wf_ref m W x y), G'.
Qed.

Lemma has_edge_get (m : Map.t) (a b : node) :
  has_edge m a b
  = match Dict.get Z.eqb b (adj m a) with Some _ => true | None => false end.
Proof.
  unfold has_edge, adj, Dict.mem.
  destruct (Dict.get Z.eqb a (_adj m)); reflexivity.
Qed.

Lemma has_edge_add_edge (m : Map.t) (u v x y : node) (data : route) :
  wf m ->
  has_edge (add_edge m u v data) x y = same_edge u v x y || has_edge m x y.
Proof.
  intros W. rewrite !has_edge_get, adj_add_edge by exact W.
  fold (same_edge u v x y). destruct (same_edge u v x y); reflexivity.
Qed.

Lemma has_edge_add_node (m : Map.t) (n x y : node)
    (attr : list (string * string)) :
  wf m -> has_edge (add_node m n attr) x y = has_edge m x y.
Proof.
  intros W. rewrite !has_edge_get, adj_add_node by exact W. reflexivity.
Qed.

Lemma edge_data_add_node (m : Map.t) (n x y : node)
    (attr : list (string * string)) :
  wf m -> edge_data (add_node m n attr) x y = edge_data m x y.
Proof.
  intros W. unfold edge_data. rewrite adj_add_node, cells_add_node by exact W.
  reflexivity.
Qed.

Lemma has_edge_sym (m : Map.t) (a b : node) :
  wf m -> has_edge m a b = has_edge m b a.
Proof.
  intros W. rewrite !has_edge_get.
  destruct (Dict.get Z.eqb b (adj m a)) as [r|] eqn:H1.
  - rewrite (wf_sym m W a b r H1). reflexivity.
  - destruct (Dict.get Z.eqb a (adj m b)) as [r|] eqn:H2; [|reflexivity].
    apply (wf_sym m W) in H2. congruence.
Qed.

Lemma set_same {V : Type} (d : list (Z * V)) (k : Z) (v : V) :
  Dict.get Z.eqb k d = Some v -> Dict.set Z.eqb k v d = d.
Proof.
  induction d as [|[k0 v0] d IH]; simpl; [discriminate|].
  destruct (k =? k0) eqn:Ek.
  - intros [= ->]. reflexivity.
  - intros H. rewrite (IH H). reflexivity.
Qed.

Lemma link_same (a : list (node * list (node * nat))) (u v : node) (r : nat) :
  Dict.get Z.eqb v (adjl a u) = Some r -> link u v r a = a.
Proof.
  unfold adjl, link. destruct (Dict.get Z.eqb u a) as [inner|] eqn:G.
  - intros H. rewrite (set_same inner v r H). apply set_same, G.
  - discriminate.
Qed.

Lemma touch_node_same {E : Type} (g : Graph E) (n : node) :
  has_node g n = true -> touch_node g n = g.
Proof. intros H. unfold touch_node. rewrite H. reflexivity. Qed.

(** What [add_edge] builds: the nodes and the adjacency do not depend on
    the attributes given. *)
Lemma add_edge_eq {E : Type} (g : Graph E) (u v : node) (data : E) :
  wf g ->
  add_edge g u v data
  = {| _node := _node (touch_node (touch_node g u) v);
       _adj := link v u (edge_ref g u v)
                 (link u v (edge_ref g u v)
                    (_adj (touch_node (touch_node g u) v)));
       cells := match Dict.get Z.eqb v (adj g u) with
                | Some r => <[r := data]> (cells g)
                | None => cells g ++ [data]
                end |}.
Proof.
  intros W.
  assert (HA : adj (touch_node (touch_node g u) v) u = adj g u).
  { rewrite adj_touch by (apply wf_touch, W). apply adj_touch, W. }
  unfold add_edge, edge_ref. rewrite HA.
  destruct (Dict.get Z.eqb v (adj g u)); rewrite !cells_touch; reflexivity.
Qed.

Lemma add_edge_again (m : Map.t) (u v x y : node) (d1 d2 : route) :
  wf m -> same_edge u v x y = true ->
  add_edge (add_edge m u v d1) x y d2 = add_edge m u v d2.
Proof.
  intros W B.
  pose proof (wf_add_edge m u v d1 W) as W1.
  assert (Hx : has_node (add_edge m u v d1) x = true).
  { apply has_node_add_edge. apply same_edge_true in B. tauto. }
  assert (Hy : has_node (add_edge m u v d1) y = true).
  { apply has_node_add_edge. apply same_edge_true in B. tauto. }
  assert (Gxy : Dict.get Z.eqb y (adj (add_edge m u v d1) x)
                = Some (edge_ref m u v)).
  { rewrite adj_add_edge by exact W. fold (same_edge u v x y). rewrite B.
    reflexivity. }
  assert (Gyx : Dict.get Z.eqb x (adj (add_edge m u v d1) y)
                = Some (edge_ref m u v)) by (apply (wf_sym _ W1), Gxy).
  rewrite (add_edge_eq (add_edge m u v d1) x y d2 W1).
  rewrite (touch_node_same _ x Hx), (touch_node_same _ y Hy).
  assert (Hr : edge_ref (add_edge m u v d1) x y = edge_ref m u v).
  { unfold edge_ref at 1. rewrite Gxy. reflexivity. }
  rewrite Hr, Gxy.
  rewrite (link_same (_adj (add_edge m u v d1)) x y _ Gxy).
  rewrite (link_same (_adj (add_edge m u v d1)) y x _ Gyx).
  rewrite (add_edge_eq m u v d1 W), (add_edge_eq m u v d2 W). simpl.
  f_equal. unfold edge_ref.
  destruct (Dict.get Z.eqb v (adj m u)) as [r|] eqn:G.
  - apply list_insert_insert_eq.
  - rewrite insert_app_r_alt by lia. rewrite Nat.sub_diag. reflexivity.
Qed.

(** ** [set_accessibility] *)

Lemma adj_set_acc (m : Map.t) (a b x : node) (acc : bool) :
  adj (set_accessibility m a b acc) x = adj m x.
Proof.
  unfold adj. rewrite (proj1 (adj_set_accessibility m a b acc)). reflexivity.
Qed.

Lemma has_edge_set_accessibility (m : Map.t) (a b x y : node) (acc : bool) :
  has_edge (set_accessibility m a b acc) x y = has_edge m x y.
Proof. rewrite !has_edge_get, adj_set_acc. reflexivity. Qed.

Lemma has_node_set_accessibility (m : Map.t) (a b x : node) (acc : bool) :
  has_node (set_accessibility m a b acc) x = has_node m x.
Proof.
  unfold has_node. rewrite (proj2 (adj_set_accessibility m a b acc)).
  reflexivity.
Qed.

Lemma set_accessibility_none (m : Map.t) (a b : node) (acc : bool) :
  Dict.get Z.eqb b (adj m a) = None -> set_accessibility m a b acc = m.
Proof.
  intros H. unfold set_accessibility. rewrite has_edge_get, H. reflexivity.
Qed.

Lemma edge_data_set_accessibility (m : Map.t) (a b x y : node) (acc : bool) :
  wf m -> refs_distinct m ->
  edge_data (set_accessibility m a b acc) x y
  = option_map (fun d => if same_edge a b x y then set_flag acc d else d)
               (edge_data m x y).
Proof.
  intros W D.
  destruct (Dict.get Z.eqb b (adj m a)) as [r|] eqn:G.
  - rewrite (set_accessibility_cells m a b acc r G).
    assert (H1 :
      edge_data {| _node := _node m; _adj := _adj m;
                   cells := alter (set_flag acc) r (cells m) |} x y
      = match Dict.get Z.eqb y (adj m x) with
        | Some r' => alter (set_flag acc) r (cells m) !! r'
        | None => None
        end) by reflexivity.
    rewrite H1. unfold edge_data.
    destruct (Dict.get Z.eqb y (adj m x)) as [r'|] eqn:G'; [|reflexivity].
    destruct (same_edge a b x y) eqn:B.
    + assert (r' = r).
      { apply same_edge_true in B. destruct B as [[-> ->]|[-> ->]].
        - congruence.
        - apply (wf_sym m W) in G. congruence. }
      subst r'. rewrite list_lookup_alter_eq.
      destruct (cells m !! r); reflexivity.
    + assert (r <> r').
      { intros <-. destruct (D _ _ _ _ _ G' G) as [H|H];
          assert (same_edge a b x y = true) by (apply same_edge_true; tauto);
          congruence. }
      rewrite list_lookup_alter_ne by assumption.
      destruct (cells m !! r'); reflexivity.
  - rewrite (set_accessibility_none m a b acc G).
    destruct (same_edge a b x y) eqn:B.
    + assert (edge_data m x y = None) as ->; [|reflexivity].
      unfold edge_data. apply same_edge_true in B.
      destruct B as [[-> ->]|[-> ->]].
      * rewrite G. reflexivity.
      * destruct (Dict.get Z.eqb a (adj m b)) as [r|] eqn:G'; [|reflexivity].
        apply (wf_sym m W) in G'. congruence.
    + destruct (edge_data m x y); reflexivity.
Qed.

Lemma set_accessibility_sym (m : Map.t) (a b : node) (acc : bool) :
  wf m -> set_accessibility m a b acc = set_accessibility m b a acc.
Proof.
  intros W. destruct (Dict.get Z.eqb b (adj m a)) as [r|] eqn:G.
  - rewrite (set_accessibility_cells m a b acc r G).
    rewrite (set_accessibility_cells m b a acc r (wf_sym m W a b r G)).
    reflexivity.
  - rewrite (set_accessibility_none m a b acc G).
    destruct (Dict.get Z.eqb a (adj m b)) as [r|] eqn:G'.
    + apply (wf_sym m W) in G'. congruence.
    + rewrite (set_accessibility_none m b a acc G'). reflexivity.
Qed.

Lemma set_accessibility_twice (m : Map.t) (a b : node) (x y : bool) :
  set_accessibility (set_accessibility m a b x) a b y
  = set_accessibility m a b y.
Proof.
  destruct (Dict.get Z.eqb b (adj m a)) as [r|] eqn:G.
  - rewrite (set_accessibility_cells m a b x r G).
    rewrite (set_accessibility_cells _ a b y r) by exact G.
    rewrite (set_accessibility_cells m a b y r G). simpl.
    rewrite list_alter_alter_eq. reflexivity.
  - rewrite (set_accessibility_none m a b x G).
    reflexivity.
Qed.

Lemma set_accessibility_comm (m : Map.t) (a b c d : node) (x y : bool) :
  refs_distinct m -> same_edge a b c d = false ->
  set_accessibility (set_accessibility m a b x) c d y
  = set_accessibility (set_accessibility m c d y) a b x.
Proof.
  intros D B.
  destruct (Dict.get Z.eqb b (adj m a)) as [r|] eqn:G;
    destruct (Dict.get Z.eqb d (adj m c)) as [r'|] eqn:G'.
  - assert (r <> r').
    { intros <-. destruct (D _ _ _ _ _ G' G) as [H|H];
        assert (same_edge a b c d = true) by (apply same_edge_true; tauto);
        congruence. }
    rewrite (set_accessibility_cells m a b x r G).
    rewrite (set_accessibility_cells m c d y r' G').
    rewrite (set_accessibility_cells _ c d y r') by exact G'.
    rewrite (set_accessibility_cells _ a b x r) by exact G.
    simpl. f_equal. apply list_alter_alter_ne. congruence.
  - rewrite (set_accessibility_none m c d y G').
    apply set_accessibility_none. rewrite adj_set_acc. exact G'.
  - rewrite (set_accessibility_none m a b x G).
    symmetry. apply set_accessibility_none. rewrite adj_set_acc. exact G.
  - rewrite (set_accessibility_none m a b x G).
    rewrite (set_accessibility_none m c d y G').
    rewrite (set_accessibility_none m a b x G). reflexivity.
Qed.

Lemma nonneg_set_accessibility (m : Map.t) (a b : node) (acc : bool) :
  nonneg_distances m -> nonneg_distances (set_accessibility m a b acc).
Proof.
  unfold nonneg_distances, set_accessibility. intros H.
  destruct (has_edge m a b); [|exact H].
  destruct (Dict.get Z.eqb b (adj m a)) as [r|]; [|exact H]. simpl.
  rewrite List.Forall_forall in *. intros d Hd.
  apply list_elem_of_In in Hd. apply list_elem_of_lookup_1 in Hd.
  destruct Hd as [i Hi].
  destruct (Nat.eq_dec r i) as [->|Hne].
  - rewrite list_lookup_alter_eq in Hi.
    destruct (cells m !! i) as [d0|] eqn:E; [|discriminate].
    injection Hi as <-. simpl. apply H, list_elem_of_In.
    eapply list_elem_of_lookup_2, E.
  - rewrite list_lookup_alter_ne in Hi by exact Hne.
    apply H, list_elem_of_In. eapply list_elem_of_lookup_2, Hi.
Qed.

(** ** Nothing is removed *)

Lemma has_node_apply (m : Map.t) (o : op) (x : node) :
  has_node m x = true -> has_node (apply m o) x = true.
Proof.
  intros H. destruct o as [c attr|a b dd rt acc|a b acc]; simpl.
  - apply has_node_add_node. auto.
  - apply has_node_add_edge. auto.
  - rewrite has_node_set_accessibility. exact H.
Qed.

Lemma has_edge_apply (m : Map.t) (o : op) (x y : node) :
  wf m -> has_edge m x y = true -> has_edge (apply m o) x y = true.
Proof.
  intros W H. destruct o as [c attr|a b dd rt acc|a b acc]; simpl.
  - unfold add_city. rewrite has_edge_add_node by exact W. exact H.
  - unfold add_connection. rewrite has_edge_add_edge by exact W.
    rewrite H. apply orb_true_r.
  - rewrite has_edge_set_accessibility. exact H.
Qed.

Lemma has_node_fold (ops : list op) (m : Map.t) (x : node) :
  has_node m x = true -> has_node (fold_left apply ops m) x = true.
Proof.
  revert m. induction ops as [|o ops IH]; intros m H; simpl; [exact H|].
  apply IH, has_node_apply, H.
Qed.

Lemma has_edge_fold (ops : list op) (m : Map.t) (x y : node) :
  wf m -> has_edge m x y = true -> has_edge (fold_left apply ops m) x y = true.
Proof.
  revert m. induction ops as [|o ops IH]; intros m W H; simpl; [exact H|].
  apply IH; [apply wf_apply, W | apply has_edge_apply; assumption].
Qed.

Lemma run_app (ops1 ops2 : list op) :
  run (ops1 ++ ops2) = fold_left apply ops2 (run ops1).
Proof. unfold run. apply fold_left_app. Qed.

Lemma reachable_apply (m : Map.t) (o : op) : reachable m -> reachable (apply m o).
Proof.
  intros [ops ->]. exists (ops ++ [o]). rewrite run_app. reflexivity.
Qed.

Lemma has_edge_nodes (m : Map.t) (a b : node) :
  wf m -> has_edge m a b = true ->
  has_node m a = true /\ has_node m b = true.
Proof.
  intros W H. apply has_edge_ref in H. destruct H as [r Hr].
  split; apply has_node_iff.
  - eapply adj_nonempty_key; eauto.
  - apply (wf_sym m W) in Hr. eapply adj_nonempty_key; eauto.
Qed.

Import Nx GraphInv SearchInv Map MapSpec MapView MapInv.

(** * Building and changing the map *)

(** [add_connection] makes both cities nodes of the map (a city that was
    not one gets an empty attribute dictionary, a city that was one keeps its
    attributes) and joins them, in both directions, by one edge that carries
    exactly the distance, route type and accessibility given. *)
Theorem add_connection_creates_edge (m : Map.t) (a b : node) (d : Z)
    (rt : string) (acc : bool) :
  reachable m ->
  let m' := add_connection m a b d rt acc in
  let r := {| distance := d; route_type := rt; accessible := acc |} in
  edge_data m' a b = Some r /\ edge_data m' b a = Some r
  /\ has_edge m' a b = true /\ has_edge m' b a = true
  /\ (forall x, has_node m' x = true <-> x = a \/ x = b \/ has_node m x = true)
  /\ (forall x, has_node m x = true -> node_data m' x = node_data m x)
  /\ (has_node m a = false -> node_data m' a = Some [])
  /\ (has_node m b = false -> node_data m' b = Some []).
Proof.
  intros R m' r. pose proof (reachable_refs_distinct m R) as D.
  apply reachable_wf in R. unfold m', add_connection. fold r.
  rewrite !edge_data_add_edge, !has_edge_add_edge by assumption.
  unfold same_edge. rewrite !Z.eqb_refl. simpl. rewrite !orb_true_r.
  repeat split; try reflexivity.
  - apply has_node_add_edge.
  - apply has_node_add_edge.
  - intros x Hx. unfold node_data. rewrite node_add_edge, Hx. reflexivity.
  - intros Ha. unfold node_data. rewrite node_add_edge, Ha, Z.eqb_refl.
    reflexivity.
  - intros Hb. unfold node_data. rewrite node_add_edge, Hb, Z.eqb_refl.
    rewrite orb_true_r. reflexivity.
Qed.

Lemma add_connection_creates_edge_witness :
  edge_data (add_connection Example.map 3 7 80 "sea" false) 7 3
  = Some {| distance := 80; route_type := "sea"; accessible := false |}
  /\ node_data (add_connection Example.map 3 7 80 "sea" false) 7 = Some []
  /\ node_data (add_connection Example.map 3 7 80 "sea" false) 3
     = Some [("name", "Paris")].
Proof.
  destruct (add_connection_creates_edge Example.map 3 7 80 "sea" false
              example_reachable) as (_ & H2 & _ & _ & _ & H6 & _ & H8).
  split; [exact H2|]. split; [apply H8; reflexivity|].
  rewrite (H6 3) by reflexivity. reflexivity.
Defined.

(** [add_connection] between [a] and [b] leaves every other edge as it
    was: for a pair of cities that is not [a], [b] in either order, the edge
    exists after the call exactly when it did before, with the same
    attributes. *)
Theorem add_connection_keeps_other_edges (m : Map.t) (a b x y : node) (d : Z)
    (rt : string) (acc : bool) :
  reachable m -> same_edge a b x y = false ->
  has_edge (add_connection m a b d rt acc) x y = has_edge m x y
  /\ edge_data (add_connection m a b d rt acc) x y = edge_data m x y.
Proof.
  intros R B. pose proof (reachable_refs_distinct m R) as D.
  apply reachable_wf in R. unfold add_connection.
  rewrite edge_data_add_edge, has_edge_add_edge by assumption.
  rewrite B. split; reflexivity.
Qed.

Lemma add_connection_keeps_other_edges_witness :
  edge_data (add_connection Example.map 1 3 999 "land" false) 1 2
  = Some {| distance := 100; route_type := "land"; accessible := true |}.
Proof.
  rewrite (proj2 (add_connection_keeps_other_edges Example.map 1 3 1 2 999
                    "land" false example_reachable eq_refl)).
  reflexivity.
Defined.

(** Adding a connection between two cities that are already joined
    overwrites the attributes of the one edge, whichever way round the
    cities are given: the map is the one obtained by the last call alone.
    In particular [add_connection] twice with the same arguments is the same
    as once. *)
Theorem add_connection_overwrites (m : Map.t) (a b : node) (d1 d2 : Z)
    (rt1 rt2 : string) (acc1 acc2 : bool) :
  reachable m ->
  add_connection (add_connection m a b d1 rt1 acc1) a b d2 rt2 acc2
  = add_connection m a b d2 rt2 acc2
  /\ add_connection (add_connection m a b d1 rt1 acc1) b a d2 rt2 acc2
     = add_connection m a b d2 rt2 acc2
  /\ add_connection (add_connection m a b d1 rt1 acc1) a b d1 rt1 acc1
     = add_connection m a b d1 rt1 acc1.
Proof.
  intros R. apply reachable_wf in R. unfold add_connection.
  assert (B1 : same_edge a b a b = true)
    by (apply same_edge_true; left; auto).
  assert (B2 : same_edge a b b a = true)
    by (apply same_edge_true; right; auto).
  repeat split; apply add_edge_again; assumption.
Qed.

Lemma add_connection_overwrites_witness :
  add_connection Example.map 3 1 170 "land" true
  = add_connection (run [AddCity 1 [("name", "London")];
                         AddCity 2 [("name", "Lille")];
                         AddCity 3 [("name", "Paris")];
                         AddConnection 1 2 100 "land" true;
                         AddConnection 2 3 100 "land" true])
                   1 3 170 "land" true.
Proof.
  assert (R : reachable (run [AddCity 1 [("name", "London")];
                              AddCity 2 [("name", "Lille")];
                              AddCity 3 [("name", "Paris")];
                              AddConnection 1 2 100 "land" true;
                              AddConnection 2 3 100 "land" true]))
    by (eexists; reflexivity).
  exact (proj1 (proj2 (add_connection_overwrites _ 1 3 150 170 "sea" "land"
                         true true R))).
Defined.

(** [add_city] never touches an edge.  For a city that is already on the
    map it merges the attributes given into the stored ones: an attribute
    named in the call takes the new value, every other attribute keeps its
    value; for a new city the stored attributes are the ones given.  The
    attributes of the other cities do not change. *)
Theorem add_city_keeps_edges (m : Map.t) (c : node)
    (attributes : list (string * string)) :
  reachable m -> List.NoDup (Dict.keys attributes) ->
  let m' := add_city m c attributes in
  (forall x, has_node m' x = true <-> x = c \/ has_node m x = true)
  /\ (forall x y, has_edge m' x y = has_edge m x y
                  /\ edge_data m' x y = edge_data m x y)
  /\ (forall x, x <> c -> node_data m' x = node_data m x)
  /\ exists stored, node_data m' c = Some stored
       /\ forall k,
            Dict.get String.eqb k stored
            = match Dict.get String.eqb k attributes with
              | Some v => Some v
              | None =>
                  match node_data m c with
                  | Some old => Dict.get String.eqb k old
                  | None => None
                  end
              end.
Proof.
  intros R Hnd m'. apply reachable_wf in R. unfold m', add_city.
  split; [intros x; apply has_node_add_node|].
  split; [intros x y; rewrite has_edge_add_node, edge_data_add_node
                        by exact R; auto|].
  split.
  - intros x Hx. unfold node_data. rewrite node_add_node.
    destruct (x =? c) eqn:Exc; [apply Z.eqb_eq in Exc; congruence|].
    reflexivity.
  - eexists. split.
    + unfold node_data. rewrite node_add_node, Z.eqb_refl. reflexivity.
    + intros k. rewrite get_dict_update by exact Hnd. unfold node_data.
      destruct (Dict.get String.eqb k attributes); [reflexivity|].
      destruct (Dict.get Z.eqb c (_node m)); reflexivity.
Qed.

Lemma add_city_keeps_edges_witness :
  has_edge (add_city Example.map 1 [("country", "UK")]) 1 3 = true
  /\ node_data (add_city Example.map 1 [("country", "UK")]) 1
     = Some [("name", "London"); ("country", "UK")].
Proof.
  assert (Hnd : List.NoDup (Dict.keys [("country", "UK")]))
    by (repeat constructor; simpl; tauto).
  destruct (add_city_keeps_edges Example.map 1 [("country", "UK")]
              example_reachable Hnd) as (_ & H2 & _ & _).
  split; [rewrite (proj1 (H2 1 3)); reflexivity | reflexivity].
Defined.

(** [set_accessibility] does not depend on the order in which the two
    cities of the edge are given. *)
Theorem set_accessibility_symmetric (m : Map.t) (a b : node) (acc : bool) :
  reachable m ->
  set_accessibility m a b acc = set_accessibility m b a acc.
Proof. intros R. apply set_accessibility_sym, reachable_wf, R. Qed.

Lemma set_accessibility_symmetric_witness :
  set_accessibility Example.map 1 3 false
  = set_accessibility Example.map 3 1 false.
Proof.
  exact (set_accessibility_symmetric Example.map 1 3 false example_reachable).
Defined.

(** [set_accessibility] changes one flag and nothing else: the cities and
    their attributes, the set of edges, and the distance and route type of
    every edge are as before; the flag [accessible] of an edge changes only
    if the edge is the one between the two cities given, and then it is the
    value given. *)
Theorem set_accessibility_only_flag (m : Map.t) (a b : node) (acc : bool) :
  reachable m ->
  let m' := set_accessibility m a b acc in
  (forall x, node_data m' x = node_data m x)
  /\ (forall x y, has_edge m' x y = has_edge m x y)
  /\ (forall x y, edge_data m x y = None -> edge_data m' x y = None)
  /\ (forall x y d, edge_data m x y = Some d ->
        exists d', edge_data m' x y = Some d'
          /\ distance d' = distance d /\ route_type d' = route_type d
          /\ accessible d'
             = if same_edge a b x y then acc else accessible d).
Proof.
  intros R m'. pose proof (reachable_refs_distinct m R) as D.
  apply reachable_wf in R. unfold m'.
  split.
  { intros x. unfold node_data.
    rewrite (proj2 (adj_set_accessibility m a b acc)). reflexivity. }
  split; [intros x y; apply has_edge_set_accessibility|].
  split.
  - intros x y H. rewrite edge_data_set_accessibility by assumption.
    rewrite H. reflexivity.
  - intros x y d H. rewrite edge_data_set_accessibility by assumption.
    rewrite H. simpl. eexists. split; [reflexivity|].
    destruct (same_edge a b x y); auto.
Qed.

Lemma set_accessibility_only_flag_witness :
  exists d', edge_data (set_accessibility Example.map 1 3 false) 1 2 = Some d'
    /\ distance d' = 100 /\ route_type d' = "land" /\ accessible d' = true.
Proof.
  destruct (set_accessibility_only_flag Example.map 1 3 false
              example_reachable) as (_ & _ & _ & H).
  exact (H 1 2 {| distance := 100; route_type := "land"; accessible := true |}
           eq_refl).
Defined.

(** The last call of [set_accessibility] on an edge wins: a call followed
    by another one on the same edge, the cities in either order, gives the
    map of the second call alone.  Calls on two different edges can be made
    in either order. *)
Theorem set_accessibility_last_wins (m : Map.t) (a b c d : node)
    (x y : bool) :
  reachable m ->
  set_accessibility (set_accessibility m a b x) a b y
  = set_accessibility m a b y
  /\ set_accessibility (set_accessibility m a b x) b a y
     = set_accessibility m a b y
  /\ (same_edge a b c d = false ->
      set_accessibility (set_accessibility m a b x) c d y
      = set_accessibility (set_accessibility m c d y) a b x).
Proof.
  intros R. pose proof (reachable_refs_distinct m R) as D.
  apply reachable_wf in R.
  split; [apply set_accessibility_twice|]. split.
  - rewrite <- (set_accessibility_sym _ a b y)
      by (apply wf_set_accessibility, R).
    apply set_accessibility_twice.
  - intros B. apply set_accessibility_comm; assumption.
Qed.

Lemma set_accessibility_last_wins_witness :
  set_accessibility (set_accessibility Example.map 1 3 false) 3 1 true
  = set_accessibility Example.map 1 3 true
  /\ set_accessibility (set_accessibility Example.map 1 3 false) 1 2 false
     = set_accessibility (set_accessibility Example.map 1 2 false) 1 3 false.
Proof.
  destruct (set_accessibility_last_wins Example.map 1 3 1 2 false true
              example_reachable) as (_ & H2 & _).
  destruct (set_accessibility_last_wins Example.map 1 3 1 2 false false
              example_reachable) as (_ & _ & H3).
  split; [exact H2 | exact (H3 eq_refl)].
Defined.

(** No operation removes anything: a city of the map is still a city, and
    two joined cities are still joined, after any further sequence of
    [add_city], [add_connection] and [set_accessibility]. *)
Theorem operations_never_remove (m : Map.t) (ops : list op) :
  reachable m ->
  (forall x, has_node m x = true -> has_node (fold_left apply ops m) x = true)
  /\ (forall x y, has_edge m x y = true ->
        has_edge (fold_left apply ops m) x y = true).
Proof.
  intros R. apply reachable_wf in R. split.
  - intros x. apply has_node_fold.
  - intros x y. apply has_edge_fold, R.
Qed.

Lemma operations_never_remove_witness :
  has_edge (fold_left apply
              [SetAccessibility 1 3 false; AddCity 1 [];
               AddConnection 3 4 7 "sea" true] Example.map) 1 3 = true.
Proof.
  apply (operations_never_remove Example.map
           [SetAccessibility 1 3 false; AddCity 1 [];
            AddConnection 3 4 7 "sea" true] example_reachable).
  reflexivity.
Defined.

(** The edges of a map built by the operations are undirected and join
    cities of the map: the edge from [a] to [b] exists exactly when the edge
    from [b] to [a] does, both carry the same attributes, and when it exists
    [a] and [b] are nodes and the attributes can be read. *)
Theorem edges_undirected (m : Map.t) (a b : node) :
  reachable m ->
  has_edge m a b = has_edge m b a
  /\ edge_data m a b = edge_data m b a
  /\ (has_edge m a b = true ->
      has_node m a = true /\ has_node m b = true
      /\ exists d, edge_data m a b = Some d).
Proof.
  intros R. apply reachable_wf in R.
  split; [apply has_edge_sym, R|]. split; [apply edge_data_sym, R|].
  intros H. destruct (has_edge_nodes m a b R H) as [Ha Hb].
  split; [exact Ha|]. split; [exact Hb|].
  apply has_edge_ref in H. destruct H as [r Hr].
  unfold edge_data. rewrite Hr. apply lookup_lt_is_Some_2.
  apply (wf_ref m R a b r Hr).
Qed.

Lemma edges_undirected_witness :
  has_edge Example.map 3 1 = true
  /\ edge_data Example.map 3 1 = edge_data Example.map 1 3.
Proof.
  destruct (edges_undirected Example.map 3 1 example_reachable) as (H1 & H2 & _).
  split; [rewrite H1; reflexivity | exact H2].
Defined.

Import Nx GraphInv SearchInv Map MapSpec MapView MapInv.

(** * More on the queries *)

Lemma exact_query_cases (m : Map.t) (weight : node -> node -> route -> Q)
    (s e : node) :
  wf m -> nonneg_weight (view m) weight ->
  has_node m s = true -> has_node m e = true ->
  (exists p, Exact.shortest_path (view m) weight s e = Some (inr p)
     /\ accessible_path m s e p
     /\ forall q, accessible_path m s e q ->
          (Path.total (MapExact.edge_weight m weight) p
           <= Path.total (MapExact.edge_weight m weight) q)%Q)
  \/ (Exact.shortest_path (view m) weight s e = Some (inl NetworkXNoPath)
      /\ forall q, ~ accessible_path m s e q).
Proof.
  intros W Hn Hs He. pose proof (view_ok_map m W) as V.
  destruct (bidirectional_dijkstra_optimal (view m) weight V Hn s e)
    as [(p & Hp & Wp & Hopt)|[Hr Hno]];
    try (rewrite view_has_node_map; assumption).
  - left. exists p. split; [exact Hp|].
    apply (walk_accessible_path m W s e p Hs) in Wp. split; [exact Wp|].
    intros q Hq. pose proof Hq as Wq.
    apply (walk_accessible_path m W s e q Hs) in Wq. specialize (Hopt q Wq).
    rewrite <- (total_view m W weight p), <- (total_view m W weight q);
      [exact Hopt | apply Hq | apply Wp].
  - right. split; [exact Hr|]. intros q Hq. apply (Hno q).
    apply (walk_accessible_path m W s e q Hs), Hq.
Qed.

Lemma exact_query_sound (m : Map.t) (weight : node -> node -> route -> Q)
    (s e : node) :
  wf m ->
  exists r, Exact.shortest_path (view m) weight s e = Some r
    /\ (r = inl NodeNotFound <-> has_node m s = false \/ has_node m e = false)
    /\ forall p, r = inr p -> accessible_path m s e p.
Proof.
  intros W. pose proof (view_ok_map m W) as V.
  destruct (has_node m s) eqn:Hs; [destruct (has_node m e) eqn:He|].
  - destruct (bidirectional_dijkstra_sound (view m) weight V s e)
      as (r & Hr & Hnn & Hp); try (rewrite view_has_node_map; assumption).
    exists r. split; [exact Hr|]. split.
    + split; [intros ->; contradiction | intros [H|H]; discriminate].
    + intros p ->. apply (walk_accessible_path m W s e p Hs), Hp. reflexivity.
  - eexists. split.
    + apply bidirectional_dijkstra_absent. right. rewrite view_has_node_map. exact He.
    + split; [tauto | discriminate].
  - eexists. split.
    + apply bidirectional_dijkstra_absent. left. rewrite view_has_node_map. exact Hs.
    + split; [tauto | discriminate].
Qed.

Lemma query_same (m : Map.t) (weight : node -> node -> route -> Q)
    (x : node) :
  has_node m x = true -> Exact.shortest_path (view m) weight x x = Some (inr [x]).
Proof.
  intros H. unfold Exact.shortest_path, Exact.bidirectional_dijkstra.
  rewrite view_has_node_map, H, Z.eqb_refl. reflexivity.
Qed.

Lemma accessible_edge_sym (m : Map.t) (x y : node) :
  wf m -> accessible_edge m x y -> accessible_edge m y x.
Proof.
  intros W (d & Hd & Ha). exists d. rewrite <- (edge_data_sym m W x y). auto.
Qed.

Lemma accessible_path_rev (m : Map.t) (s e : node) (p : list node) :
  wf m -> accessible_path m s e p -> accessible_path m e s (rev p).
Proof.
  intros W (Hh & Hl & HF & Hc).
  split; [rewrite head_rev; exact Hl|]. split; [rewrite last_rev; exact Hh|].
  split; [apply List.Forall_rev, HF|].
  apply chain_rev; [|exact Hc]. intros x y. apply accessible_edge_sym, W.
Qed.

Lemma chain_top {A : Type} (p : list A) : Path.chain (fun _ _ => True) p.
Proof.
  induction p as [|x p IH]; [exact I|]. apply chain_cons.
  split; [destruct (head p); exact I | exact IH].
Qed.

Lemma total_pointwise {A : Type} (w w' : A -> A -> Q) (p : list A) :
  (forall x y, (w x y == w' x y)%Q) ->
  (Path.total w p == Path.total w' p)%Q.
Proof.
  intros H. apply (total_ext (fun _ _ => True)); [auto | apply chain_top].
Qed.

Lemma total_scale {A : Type} (w : A -> A -> Q) (k : Q) (p : list A) :
  (Path.total (fun x y => k * w x y) p == k * Path.total w p)%Q.
Proof.
  induction p as [|x p IH]; [simpl; lra|].
  rewrite !total_cons, IH. destruct (head p); lra.
Qed.

Lemma edge_weight_sym (m : Map.t) (weight : node -> node -> route -> Q)
    (x y : node) :
  wf m -> (forall u v d, weight u v d = weight v u d) ->
  MapExact.edge_weight m weight x y = MapExact.edge_weight m weight y x.
Proof.
  intros W S. unfold MapExact.edge_weight. rewrite (edge_data_sym m W x y).
  destruct (edge_data m y x); [apply S | reflexivity].
Qed.

Lemma total_weight_rev (m : Map.t) (weight : node -> node -> route -> Q)
    (p : list node) :
  wf m -> (forall u v d, weight u v d = weight v u d) ->
  (Path.total (MapExact.edge_weight m weight) (rev p)
   == Path.total (MapExact.edge_weight m weight) p)%Q.
Proof.
  intros W S. rewrite <- (total_rev (MapExact.edge_weight m weight) p).
  apply total_pointwise. intros x y.
  rewrite (edge_weight_sym m weight x y W S). reflexivity.
Qed.

(** ** Queries before and after [set_accessibility] *)

Lemma accessible_edge_closed (m : Map.t) (a b x y : node) :
  wf m -> refs_distinct m ->
  accessible_edge (set_accessibility m a b false) x y ->
  accessible_edge m x y.
Proof.
  intros W D (d & Hd & Ha).
  rewrite edge_data_set_accessibility in Hd by assumption.
  destruct (edge_data m x y) as [d0|] eqn:E; [|discriminate].
  simpl in Hd. injection Hd as <-. exists d0. split; [exact E|].
  destruct (same_edge a b x y); [discriminate | exact Ha].
Qed.

Lemma accessible_edge_opened (m : Map.t) (a b x y : node) :
  wf m -> refs_distinct m ->
  accessible_edge m x y ->
  accessible_edge (set_accessibility m a b true) x y.
Proof.
  intros W D (d & Hd & Ha). unfold accessible_edge.
  rewrite edge_data_set_accessibility by assumption. rewrite Hd. simpl.
  eexists. split; [reflexivity|].
  destruct (same_edge a b x y); [reflexivity | exact Ha].
Qed.

Lemma accessible_path_impl (m m' : Map.t) (s e : node) (p : list node) :
  (forall x, has_node m x = true -> has_node m' x = true) ->
  (forall x y, accessible_edge m x y -> accessible_edge m' x y) ->
  accessible_path m s e p -> accessible_path m' s e p.
Proof.
  intros HN HE (Hh & Hl & HF & Hc).
  split; [exact Hh|]. split; [exact Hl|]. split.
  - eapply List.Forall_impl; [|exact HF]. exact HN.
  - eapply chain_impl; [|exact Hc]. exact HE.
Qed.

Lemma edge_weight_set_accessibility (m : Map.t)
    (weight : node -> node -> route -> Q) (a b x y : node) (acc : bool) :
  wf m -> refs_distinct m ->
  (forall u v d f, weight u v (set_flag f d) = weight u v d) ->
  MapExact.edge_weight (set_accessibility m a b acc) weight x y
  = MapExact.edge_weight m weight x y.
Proof.
  intros W D F. unfold MapExact.edge_weight.
  rewrite edge_data_set_accessibility by assumption.
  destruct (edge_data m x y) as [d|]; [|reflexivity]. simpl.
  destruct (same_edge a b x y); [apply F | reflexivity].
Qed.

Lemma total_set_accessibility (m : Map.t)
    (weight : node -> node -> route -> Q) (a b : node) (acc : bool)
    (p : list node) :
  wf m -> refs_distinct m ->
  (forall u v d f, weight u v (set_flag f d) = weight u v d) ->
  (Path.total (MapExact.edge_weight (set_accessibility m a b acc) weight) p
   == Path.total (MapExact.edge_weight m weight) p)%Q.
Proof.
  intros W D F. apply total_pointwise. intros x y.
  rewrite edge_weight_set_accessibility by assumption. reflexivity.
Qed.

(** ** A city without edges *)





(** ** Both directions *)

Lemma query_symmetric (m : Map.t) (weight : node -> node -> route -> Q)
    (s e : node) (p : list node) :
  wf m -> nonneg_weight (view m) weight ->
  (forall u v d, weight u v d = weight v u d) ->
  Exact.shortest_path (view m) weight s e = Some (inr p) ->
  exists p', Exact.shortest_path (view m) weight e s = Some (inr p')
    /\ accessible_path m e s p'
    /\ (Path.total (MapExact.edge_weight m weight) p'
        == Path.total (MapExact.edge_weight m weight) p)%Q.
Proof.
  intros W Hn S Hp.
  destruct (exact_query_sound m weight s e W) as (r & Hr & _ & Hacc).
  rewrite Hp in Hr. injection Hr as <-. specialize (Hacc p eq_refl).
  destruct (query_optimal m weight s e W Hn (ex_intro _ p Hacc))
    as (p0 & Hp0 & _ & Hopt0).
  rewrite Hp in Hp0. injection Hp0 as <-.
  pose proof (accessible_path_rev m s e p W Hacc) as Hrev.
  destruct (query_optimal m weight e s W Hn (ex_intro _ (rev p) Hrev))
    as (p' & Hp' & Hacc' & Hopt').
  exists p'. split; [exact Hp'|]. split; [exact Hacc'|].
  specialize (Hopt' (rev p) Hrev).
  specialize (Hopt0 (rev p') (accessible_path_rev m e s p' W Hacc')).
  rewrite (total_weight_rev m weight p W S) in Hopt'.
  rewrite (total_weight_rev m weight p' W S) in Hopt0.
  apply Qle_antisym; assumption.
Qed.

Lemma query_closed (m : Map.t) (weight : node -> node -> route -> Q)
    (a b s e : node) (p' : list node) :
  wf m -> refs_distinct m -> nonneg_weight (view m) weight ->
  (forall u v d f, weight u v (set_flag f d) = weight u v d) ->
  Exact.shortest_path (view (set_accessibility m a b false)) weight s e
  = Some (inr p') ->
  exists p, Exact.shortest_path (view m) weight s e = Some (inr p)
    /\ (Path.total (MapExact.edge_weight m weight) p
        <= Path.total (MapExact.edge_weight m weight) p')%Q
    /\ (Path.total (MapExact.edge_weight (set_accessibility m a b false) weight) p'
        == Path.total (MapExact.edge_weight m weight) p')%Q.
Proof.
  intros W D Hn F Hp'.
  pose proof (wf_set_accessibility m a b false W) as W'.
  destruct (exact_query_sound _ weight s e W') as (r & Hr & _ & Hacc).
  rewrite Hp' in Hr. injection Hr as <-. specialize (Hacc p' eq_refl).
  assert (Hacc0 : accessible_path m s e p').
  { eapply accessible_path_impl; [| |exact Hacc].
    - intros x. rewrite has_node_set_accessibility. auto.
    - intros x y. apply accessible_edge_closed; assumption. }
  destruct (query_optimal m weight s e W Hn (ex_intro _ p' Hacc0))
    as (p & Hp & _ & Hopt).
  exists p. split; [exact Hp|]. split; [apply Hopt, Hacc0|].
  apply total_set_accessibility; assumption.
Qed.

Lemma nonneg_weight_set_accessibility (m : Map.t)
    (weight : node -> node -> route -> Q) (a b : node) (acc : bool) :
  wf m -> refs_distinct m ->
  (forall u v d f, weight u v (set_flag f d) = weight u v d) ->
  (forall u v d, In d (cells m) -> (0 <= weight u v d)%Q) ->
  nonneg_weight (view (set_accessibility m a b acc)) weight.
Proof.
  intros W D F Hn u w data H.
  apply (view_adj_In _ (wf_set_accessibility m a b acc W)) in H.
  destruct H as [He _].
  rewrite edge_data_set_accessibility in He by assumption.
  destruct (edge_data m u w) as [d0|] eqn:E; [|discriminate].
  apply (edge_data_cell m u w d0) in E. simpl in He. injection He as <-.
  destruct (same_edge a b u w); [rewrite !F|]; split; apply Hn, E.
Qed.

Lemma query_opened (m : Map.t) (weight : node -> node -> route -> Q)
    (a b s e : node) (p : list node) :
  wf m -> refs_distinct m ->
  (forall u v d f, weight u v (set_flag f d) = weight u v d) ->
  (forall u v d, In d (cells m) -> (0 <= weight u v d)%Q) ->
  Exact.shortest_path (view m) weight s e = Some (inr p) ->
  exists p', Exact.shortest_path (view (set_accessibility m a b true)) weight s e
             = Some (inr p')
    /\ (Path.total (MapExact.edge_weight m weight) p'
        <= Path.total (MapExact.edge_weight m weight) p)%Q.
Proof.
  intros W D F Hn Hp.
  pose proof (wf_set_accessibility m a b true W) as W'.
  destruct (exact_query_sound m weight s e W) as (r & Hr & _ & Hacc).
  rewrite Hp in Hr. injection Hr as <-. specialize (Hacc p eq_refl).
  assert (Hacc' : accessible_path (set_accessibility m a b true) s e p).
  { eapply accessible_path_impl; [| |exact Hacc].
    - intros x. rewrite has_node_set_accessibility. auto.
    - intros x y. apply accessible_edge_opened; assumption. }
  destruct (query_optimal _ weight s e W'
              (nonneg_weight_set_accessibility m weight a b true W D F Hn)
              (ex_intro _ p Hacc'))
    as (p' & Hp' & _ & Hopt).
  exists p'. split; [exact Hp'|]. specialize (Hopt p Hacc').
  rewrite !(total_set_accessibility m weight a b true) in Hopt by assumption.
  exact Hopt.
Qed.


Lemma nonneg_cells_cost (m : Map.t) (land sea : Z) :
  nonneg_distances m -> 0 <= land -> 0 <= sea ->
  forall (u v : node) d, In d (cells m) ->
    (0 <= MapExact.cost land sea u v d)%Q.
Proof.
  unfold nonneg_distances. rewrite List.Forall_forall. intros H Hl Hs u v d Hd.
  unfold MapExact.cost. change 0%Q with (inject_Z 0).
  destruct (String.eqb (route_type d) "land");
    rewrite <- Zle_Qle; apply Z.mul_nonneg_nonneg; auto.
Qed.

Import Nx GraphInv SearchInv Map MapSpec MapView MapInv.

(** * Answers of the queries *)

(** [get_shortest_path] always ends with an answer on a map built by the
    operations, whatever the distances, negative ones included.  The answer
    is [NodeNotFound] exactly when one of the two cities is not on the map;
    a path it returns starts at [s], ends at [e], stays on cities of the map
    and only follows accessible edges; it is the answer of the exact search
    on the distances. *)
Theorem get_shortest_path_answers (m : Map.t) (s e : node) :
  reachable m ->
  exists r, get_shortest_path m s e = Some r
    /\ (r = inl NodeNotFound
        <-> has_node m s = false \/ has_node m e = false)
    /\ (forall p, r = inr p -> accessible_path m s e p)
    /\ Exact.shortest_path (view m)
         (fun _ _ d => inject_Z (distance d)) s e = Some r.
Proof.
  intros R. apply reachable_wf in R.
  destruct (exact_query_sound m MapExact.distance_weight s e R)
    as (r & Hr & Hn & Hp).
  exists r. rewrite get_shortest_path_exact.
  split; [exact Hr|]. split; [exact Hn|]. split; [exact Hp | exact Hr].
Qed.

Lemma get_shortest_path_answers_witness :
  exists r,
    get_shortest_path (add_connection Example.map 2 3 (-500) "land" true) 1 3
    = Some r
    /\ (r = inl NodeNotFound
        <-> has_node (add_connection Example.map 2 3 (-500) "land" true) 1
            = false
            \/ has_node (add_connection Example.map 2 3 (-500) "land" true) 3
               = false).
Proof.
  destruct (get_shortest_path_answers
              (add_connection Example.map 2 3 (-500) "land" true) 1 3)
    as (r & Hr & Hn & _).
  - exists (Example.ops ++ [AddConnection 2 3 (-500) "land" true]).
    reflexivity.
  - exists r. split; assumption.
Defined.

(** On a map built by the operations, with no negative distance and for
    non-negative integer costs per km, a query between two cities of the
    map raises [NetworkXNoPath] exactly when no path of accessible edges
    joins them, and never raises [ValueError]; the two queries fail
    together: one returns a path exactly when the other does. *)
Theorem no_path_exactly_when_unconnected (m : Map.t) (s e : node)
    (land_cost_per_km sea_cost_per_km : Z) :
  reachable m -> nonneg_distances m ->
  0 <= land_cost_per_km -> 0 <= sea_cost_per_km ->
  has_node m s = true -> has_node m e = true ->
  (get_shortest_path m s e = Some (inl NetworkXNoPath)
   <-> forall q, ~ accessible_path m s e q)
  /\ (get_cheapest_path m s e (Int land_cost_per_km) (Int sea_cost_per_km)
      = Some (inl NetworkXNoPath)
      <-> forall q, ~ accessible_path m s e q)
  /\ get_shortest_path m s e <> Some (inl ValueError)
  /\ get_cheapest_path m s e (Int land_cost_per_km) (Int sea_cost_per_km)
     <> Some (inl ValueError)
  /\ ((exists p, get_shortest_path m s e = Some (inr p))
      <-> exists p,
            get_cheapest_path m s e (Int land_cost_per_km)
              (Int sea_cost_per_km) = Some (inr p)).
Proof.
  intros R Hn Hl Hc Hs He. apply reachable_wf in R.
  rewrite get_shortest_path_exact, get_cheapest_path_exact.
  destruct (exact_query_cases m MapExact.distance_weight s e R
              (nonneg_distance_weight m R Hn) Hs He)
    as [(p & Hp & Ap & _)|[Hp Np]];
    destruct (exact_query_cases m
                (MapExact.cost land_cost_per_km sea_cost_per_km) s e R
                (nonneg_cost m R _ _ Hn Hl Hc) Hs He)
      as [(p' & Hp' & Ap' & _)|[Hp' Np']];
    rewrite Hp, Hp'.
  - repeat split; try discriminate; eauto;
      intros H; exfalso; apply (H p), Ap.
  - exfalso. apply (Np' p), Ap.
  - exfalso. apply (Np p'), Ap'.
  - repeat split; try discriminate; auto; intros [q Hq]; discriminate.
Qed.

Lemma no_path_exactly_when_unconnected_witness :
  (get_shortest_path Example.map_with_island 1 4 = Some (inl NetworkXNoPath)
   <-> forall q, ~ accessible_path Example.map_with_island 1 4 q)
  /\ get_cheapest_path Example.map_with_island 1 4 1 2
     <> Some (inl ValueError).
Proof.
  destruct (no_path_exactly_when_unconnected Example.map_with_island 1 4 1 2
              example_island_reachable example_island_nonneg)
    as (H1 & _ & _ & H4 & _);
    try reflexivity; try lia.
  split; [exact H1 | exact H4].
Defined.

(** The way back is as short as the way there.  On a map built by the
    operations with no negative distance, when [get_shortest_path] returns a
    path from [s] to [e] it also returns one from [e] to [s], of the same
    summed distance; likewise for [get_cheapest_path] with non-negative
    integer costs per km and the summed cost. *)
Theorem shortest_distance_symmetric (m : Map.t) (s e : node)
    (land_cost_per_km sea_cost_per_km : Z) :
  reachable m -> nonneg_distances m ->
  (forall p, get_shortest_path m s e = Some (inr p) ->
     exists p', get_shortest_path m e s = Some (inr p')
       /\ (total_distance m p' == total_distance m p)%Q)
  /\ (0 <= land_cost_per_km -> 0 <= sea_cost_per_km ->
      forall p,
        get_cheapest_path m s e (Int land_cost_per_km) (Int sea_cost_per_km)
        = Some (inr p) ->
        exists p',
          get_cheapest_path m e s (Int land_cost_per_km)
            (Int sea_cost_per_km) = Some (inr p')
          /\ (total_cost m land_cost_per_km sea_cost_per_km p'
              == total_cost m land_cost_per_km sea_cost_per_km p)%Q).
Proof.
  intros R Hn. apply reachable_wf in R. split.
  - intros p Hp. rewrite get_shortest_path_exact in Hp.
    destruct (query_symmetric m MapExact.distance_weight s e p R
                (nonneg_distance_weight m R Hn) (fun _ _ _ => eq_refl) Hp)
      as (p' & Hp' & _ & Heq).
    exists p'. rewrite get_shortest_path_exact. split; [exact Hp'|].
    rewrite <- !total_distance_exact. exact Heq.
  - intros Hl Hc p Hp. rewrite get_cheapest_path_exact in Hp.
    destruct (query_symmetric m
                (MapExact.cost land_cost_per_km sea_cost_per_km) s e p
                R (nonneg_cost m R _ _ Hn Hl Hc) (fun _ _ _ => eq_refl) Hp)
      as (p' & Hp' & _ & Heq).
    exists p'. rewrite get_cheapest_path_exact. split; [exact Hp'|].
    rewrite <- !total_cost_exact. exact Heq.
Qed.

Lemma shortest_distance_symmetric_witness :
  exists p', get_shortest_path Example.map 3 1 = Some (inr p')
    /\ (total_distance Example.map p' == total_distance Example.map [1; 3]%Z)%Q.
Proof.
  apply (proj1 (shortest_distance_symmetric Example.map 1 3 1 2
                  example_reachable example_nonneg)).
  vm_compute. reflexivity.
Defined.



(** The same for costs: with non-negative integer costs per km, closing an
    edge never makes the cheapest route cheaper and opening one never makes
    it dearer. *)
Theorem closing_never_cheapens (m : Map.t) (a b s e : node)
    (land_cost_per_km sea_cost_per_km : Z) :
  reachable m -> nonneg_distances m ->
  0 <= land_cost_per_km -> 0 <= sea_cost_per_km ->
  (forall p',
     get_cheapest_path (set_accessibility m a b false) s e
       (Int land_cost_per_km) (Int sea_cost_per_km) = Some (inr p') ->
     exists p,
       get_cheapest_path m s e (Int land_cost_per_km) (Int sea_cost_per_km)
       = Some (inr p)
       /\ (total_cost m land_cost_per_km sea_cost_per_km p
           <= total_cost m land_cost_per_km sea_cost_per_km p')%Q)
  /\ (forall p,
        get_cheapest_path m s e (Int land_cost_per_km) (Int sea_cost_per_km)
        = Some (inr p) ->
        exists p',
          get_cheapest_path (set_accessibility m a b true) s e
            (Int land_cost_per_km) (Int sea_cost_per_km) = Some (inr p')
          /\ (total_cost m land_cost_per_km sea_cost_per_km p'
              <= total_cost m land_cost_per_km sea_cost_per_km p)%Q).
Proof.
  intros R Hn Hl Hc. pose proof (reachable_refs_distinct m R) as D.
  apply reachable_wf in R. split.
  - intros p' Hp'. rewrite get_cheapest_path_exact in Hp'.
    destruct (query_closed m (MapExact.cost land_cost_per_km sea_cost_per_km)
                a b s e p' R D (nonneg_cost m R _ _ Hn Hl Hc)
                (fun _ _ _ _ => eq_refl) Hp') as (p & Hp & Hle & _).
    exists p. rewrite get_cheapest_path_exact. split; [exact Hp|].
    rewrite <- !total_cost_exact. exact Hle.
  - intros p Hp. rewrite get_cheapest_path_exact in Hp.
    destruct (query_opened m (MapExact.cost land_cost_per_km sea_cost_per_km)
                a b s e p R D (fun _ _ _ _ => eq_refl)
                (nonneg_cells_cost m _ _ Hn Hl Hc) Hp) as (p' & Hp' & Hle).
    exists p'. rewrite get_cheapest_path_exact. split; [exact Hp'|].
    rewrite <- !total_cost_exact. exact Hle.
Qed.

Lemma closing_never_cheapens_witness :
  exists p, get_cheapest_path Example.map 1 3 1 2 = Some (inr p)
    /\ (total_cost Example.map 1 2 p
        <= total_cost Example.map 1 2 [1; 3]%Z)%Q.
Proof.
  apply (proj1 (closing_never_cheapens Example.map 1 2 1 3 1 2
                  example_reachable example_nonneg
                  ltac:(lia) ltac:(lia))).
  vm_compute. reflexivity.
Defined.



Import Registry RegistrySpec.

(** * More on the registry *)

Lemma py_eqb_eq (x y : pyval) : py_eqb x y = true <-> x = y.
Proof.
  revert y. induction x as [a|a|a1 IH1 a2 IH2]; intros [b|b|b1 b2]; simpl;
    try (split; [discriminate | intros H; discriminate H]).
  - rewrite Z.eqb_eq. split; [intros ->; reflexivity | intros [= ->]; reflexivity].
  - rewrite String.eqb_eq. split; [intros ->; reflexivity | intros [= ->]; reflexivity].
  - rewrite andb_true_iff, IH1, IH2.
    split; [intros [-> ->]; reflexivity | intros [= -> ->]; auto].
Qed.

Lemma py_eqb_refl (x : pyval) : py_eqb x x = true.
Proof. apply py_eqb_eq. reflexivity. Qed.

Lemma py_get_None (d : list (pyval * pyval)) (k : pyval) :
  Dict.get py_eqb k d = None <-> ~ In k (Dict.keys d).
Proof.
  induction d as [|[k' v'] d IH]; simpl; [tauto|].
  destruct (py_eqb k k') eqn:Ek.
  - apply py_eqb_eq in Ek. subst.
    split; [discriminate | intros H; exfalso; apply H; auto].
  - rewrite IH. split; [|tauto]. intros H [H'|H']; [|tauto].
    subst. rewrite py_eqb_refl in Ek. discriminate.
Qed.

Lemma py_get_In (d : list (pyval * pyval)) (k v : pyval) :
  Dict.get py_eqb k d = Some v -> In (k, v) d.
Proof.
  induction d as [|[k' v'] d IH]; simpl; [discriminate|].
  destruct (py_eqb k k') eqn:Ek.
  - apply py_eqb_eq in Ek. intros [= ->]. left. congruence.
  - intros H. right. exact (IH H).
Qed.

Lemma py_set_fresh (d : list (pyval * pyval)) (k v : pyval) :
  ~ In k (Dict.keys d) -> Dict.set py_eqb k v d = d ++ [(k, v)].
Proof.
  induction d as [|[k' v'] d IH]; simpl; [reflexivity|].
  intros H. destruct (py_eqb k k') eqn:Ek.
  - apply py_eqb_eq in Ek. subst. exfalso. apply H. left. reflexivity.
  - rewrite IH; [reflexivity|]. intros H'. apply H. right. exact H'.
Qed.

Lemma py_get_app (d1 d2 : list (pyval * pyval)) (k : pyval) :
  Dict.get py_eqb k (d1 ++ d2)
  = match Dict.get py_eqb k d1 with
    | Some v => Some v
    | None => Dict.get py_eqb k d2
    end.
Proof.
  induction d1 as [|[k' v'] d1 IH]; simpl; [reflexivity|].
  destruct (py_eqb k k'); [reflexivity | exact IH].
Qed.

Lemma next_id_fresh (r : Registry.t) :
  consecutive r -> ~ In (PInt (next_company_id r)) (Dict.keys (registry r)).
Proof.
  intros C. rewrite (cons_keys r C). intros H. apply in_map_iff in H.
  destruct H as (z & [= Hz] & Hin). apply list_elem_of_In in Hin.
  apply elem_of_seqZ in Hin. lia.
Qed.

Lemma consecutive_well_shaped (r : Registry.t) :
  consecutive r -> well_shaped (registry r).
Proof.
  intros C. unfold well_shaped. apply List.Forall_forall. intros [k v] Hin.
  split.
  - assert (Hk : In k (Dict.keys (registry r)))
      by (apply in_map_iff; exists (k, v); auto).
    rewrite (cons_keys r C) in Hk. apply in_map_iff in Hk.
    destruct Hk as (z & <- & _). simpl. eauto.
  - assert (Hv : In v (Dict.values (registry r)))
      by (apply in_map_iff; exists (k, v); auto).
    pose proof (cons_values r C) as F. rewrite List.Forall_forall in F.
    destruct (F v Hv) as (n & t & ->). simpl. eauto.
Qed.

(** What one call does to a registry of this shape. *)
Lemma register_company_appends (r : Registry.t) (name ticker : string) :
  consecutive r ->
  register_company r name ticker
  = ({| registry := registry r ++ [entry (next_company_id r) name ticker];
        next_company_id := next_company_id r + 1 |},
     Some (next_company_id r)).
Proof.
  intros C. pose proof (consecutive_well_shaped r C) as S.
  unfold register_company.
  rewrite (registry_str_key_absent name _ S).
  rewrite (registry_str_value_absent ticker _ S). simpl.
  rewrite (py_set_fresh _ _ _ (next_id_fresh r C)). reflexivity.
Qed.

Lemma consecutive_init : consecutive Registry.init.
Proof. constructor; simpl; [lia | reflexivity | constructor]. Qed.

Lemma consecutive_register (r : Registry.t) (name ticker : string) :
  consecutive r -> consecutive (fst (register_company r name ticker)).
Proof.
  intros C. rewrite (register_company_appends r name ticker C). simpl.
  pose proof (cons_next r C) as N. constructor; simpl.
  - lia.
  - unfold Dict.keys. rewrite map_app. fold (Dict.keys (registry r)).
    rewrite (cons_keys r C). simpl.
    replace (next_company_id r + 1 - 1) with ((next_company_id r - 1) + 1)
      by lia.
    rewrite seqZ_app by lia. rewrite map_app. f_equal.
    rewrite seqZ_cons by lia. rewrite seqZ_nil by lia. simpl.
    do 2 f_equal. lia.
  - unfold Dict.values. rewrite map_app. apply Forall_app. split.
    + apply (cons_values r C).
    + constructor; [simpl; eauto | constructor].
Qed.

Lemma reachable_consecutive (r : Registry.t) : reachable r -> consecutive r.
Proof.
  induction 1 as [|r name ticker _ IH];
    [apply consecutive_init | apply consecutive_register, IH].
Qed.

Lemma reachable_register_all (r : Registry.t) (l : list (string * string)) :
  reachable r -> reachable (register_all r l).
Proof.
  unfold register_all. revert r.
  induction l as [|[n t] l IH]; intros r R; simpl; [exact R|].
  apply IH. constructor. exact R.
Qed.

Lemma get_register (r : Registry.t) (name ticker : string) (k : pyval) :
  consecutive r ->
  Dict.get py_eqb k (registry (fst (register_company r name ticker)))
  = match Dict.get py_eqb k (registry r) with
    | Some v => Some v
    | None =>
        if py_eqb k (PInt (next_company_id r))
        then Some (PTuple (PStr name) (PStr ticker)) else None
    end.
Proof.
  intros C. rewrite (register_company_appends r name ticker C). simpl.
  rewrite py_get_app. reflexivity.
Qed.

Lemma get_register_all (r : Registry.t) (l : list (string * string))
    (k v : pyval) :
  consecutive r -> Dict.get py_eqb k (registry r) = Some v ->
  Dict.get py_eqb k (registry (register_all r l)) = Some v.
Proof.
  unfold register_all. revert r.
  induction l as [|[n t] l IH]; intros r C H; simpl; [exact H|].
  apply IH; [apply consecutive_register, C|].
  rewrite get_register by exact C. rewrite H. reflexivity.
Qed.

Lemma get_registered (r : Registry.t) (company_id : Z) :
  consecutive r ->
  (1 <= company_id < next_company_id r ->
   exists n t, Dict.get py_eqb (PInt company_id) (registry r)
               = Some (PTuple (PStr n) (PStr t)))
  /\ (~ 1 <= company_id < next_company_id r ->
      Dict.get py_eqb (PInt company_id) (registry r) = None).
Proof.
  intros C. split.
  - intros Hid.
    destruct (Dict.get py_eqb (PInt company_id) (registry r)) as [v|] eqn:G.
    + apply py_get_In in G.
      assert (Hv : In v (Dict.values (registry r)))
        by (apply in_map_iff; exists (PInt company_id, v); auto).
      pose proof (cons_values r C) as F. rewrite List.Forall_forall in F.
      destruct (F v Hv) as (n & t & ->). eauto.
    + exfalso. apply py_get_None in G. apply G. rewrite (cons_keys r C).
      apply in_map. apply list_elem_of_In, elem_of_seqZ. lia.
  - intros Hid. apply py_get_None. rewrite (cons_keys r C). intros H.
    apply in_map_iff in H. destruct H as (z & [= ->] & Hin).
    apply list_elem_of_In, elem_of_seqZ in Hin. lia.
Qed.

Import Registry RegistrySpec.

(** * Ids, names and tickers of the registry *)

(** Ids are given out consecutively from 1 and never reused.  On every
    registry built by [register_company], the ids held are 1, 2, ... up to
    [next_company_id - 1], in this order, and a call returns
    [next_company_id], appends the new company as the last entry, leaves the
    earlier entries as they were and increments [next_company_id] by one. *)
Theorem register_company_consecutive_ids (r : Registry.t)
    (name ticker : string) :
  reachable r ->
  1 <= next_company_id r
  /\ Dict.keys (registry r) = map PInt (seqZ 1 (next_company_id r - 1))
  /\ register_company r name ticker
     = ({| registry := registry r ++ [entry (next_company_id r) name ticker];
           next_company_id := next_company_id r + 1 |},
        Some (next_company_id r)).
Proof.
  intros R. apply reachable_consecutive in R.
  split; [apply (cons_next r R)|]. split; [apply (cons_keys r R)|].
  apply register_company_appends, R.
Qed.

Lemma register_company_consecutive_ids_witness :
  register_company
    (register_all Registry.init [("Acme", "ACM"); ("Bolt", "BLT")])
    "Cord" "CRD"
  = ({| registry := [entry 1 "Acme" "ACM"; entry 2 "Bolt" "BLT";
                     entry 3 "Cord" "CRD"];
        next_company_id := 4 |}, Some 3).
Proof.
  exact (proj2 (proj2 (register_company_consecutive_ids
           (register_all Registry.init [("Acme", "ACM"); ("Bolt", "BLT")])
           "Cord" "CRD"
           (reachable_register_all Registry.init _ reach_init)))).
Defined.

(** What is registered can be read back, for good: after
    [register_company name ticker] on a registry built by the program,
    [get_name] and [get_ticker] of the id it returned give [name] and
    [ticker], and they still do after any number of further
    registrations. *)
Theorem registered_company_is_found (r : Registry.t) (name ticker : string)
    (later : list (string * string)) :
  reachable r ->
  exists company_id,
    snd (register_company r name ticker) = Some company_id
    /\ get_name (register_all (fst (register_company r name ticker)) later)
                company_id = Some (PStr name)
    /\ get_ticker (register_all (fst (register_company r name ticker)) later)
                  company_id = Some (PStr ticker).
Proof.
  intros R. apply reachable_consecutive in R.
  exists (next_company_id r).
  split; [rewrite (register_company_appends r name ticker R); reflexivity|].
  assert (G : Dict.get py_eqb (PInt (next_company_id r))
                (registry (register_all (fst (register_company r name ticker))
                                        later))
              = Some (PTuple (PStr name) (PStr ticker))).
  { apply get_register_all; [apply consecutive_register, R|].
    rewrite get_register by exact R.
    rewrite (proj2 (py_get_None _ _) (next_id_fresh r R)), py_eqb_refl.
    reflexivity. }
  unfold get_name, get_ticker. rewrite G. split; reflexivity.
Qed.

Lemma registered_company_is_found_witness :
  exists company_id,
    snd (register_company Registry.init "Acme" "ACM") = Some company_id
    /\ get_name (register_all (fst (register_company Registry.init
                                      "Acme" "ACM"))
                              [("Acme", "ACM"); ("Bolt", "BLT")])
                company_id = Some (PStr "Acme")
    /\ get_ticker (register_all (fst (register_company Registry.init
                                        "Acme" "ACM"))
                                [("Acme", "ACM"); ("Bolt", "BLT")])
                  company_id = Some (PStr "ACM").
Proof.
  exact (registered_company_is_found Registry.init "Acme" "ACM"
           [("Acme", "ACM"); ("Bolt", "BLT")] reach_init).
Defined.

(** [get_name] and [get_ticker] succeed exactly on the ids given out.  On a
    registry built by the program they return a string for every id from 1
    to [next_company_id - 1] and raise [KeyError] for every other id. *)
Theorem lookup_of_unknown_id_fails (r : Registry.t) (company_id : Z) :
  reachable r ->
  (1 <= company_id < next_company_id r ->
   exists n t, get_name r company_id = Some (PStr n)
               /\ get_ticker r company_id = Some (PStr t))
  /\ (~ 1 <= company_id < next_company_id r ->
      get_name r company_id = None /\ get_ticker r company_id = None).
Proof.
  intros R. apply reachable_consecutive in R.
  destruct (get_registered r company_id R) as [H1 H2].
  unfold get_name, get_ticker. split.
  - intros Hid. destruct (H1 Hid) as (n & t & ->). eauto.
  - intros Hid. rewrite (H2 Hid). auto.
Qed.

Lemma lookup_of_unknown_id_fails_witness :
  get_name (register_all Registry.init [("Acme", "ACM")]) 2 = None
  /\ get_ticker (register_all Registry.init [("Acme", "ACM")]) 0 = None.
Proof.
  split.
  - apply (proj2 (lookup_of_unknown_id_fails
                    (register_all Registry.init [("Acme", "ACM")]) 2
                    (reachable_register_all Registry.init _ reach_init))).
    simpl. lia.
  - apply (proj2 (lookup_of_unknown_id_fails
                    (register_all Registry.init [("Acme", "ACM")]) 0
                    (reachable_register_all Registry.init _ reach_init))).
    simpl. lia.
Defined.

(** * More on the efficiency of a company *)

Lemma total_output_ext (o1 o2 capacity : list (string * Z)) :
  (forall k, In k (Dict.keys capacity) ->
     Company.get_default o1 k 0 = Company.get_default o2 k 0) ->
  Company.total_output o1 capacity = Company.total_output o2 capacity.
Proof.
  unfold Company.total_output.
  induction capacity as [|[k c] capacity IH]; intros H; simpl; [reflexivity|].
  rewrite (H k) by (left; reflexivity). rewrite IH; [reflexivity|].
  intros k' Hk'. apply H. right. exact Hk'.
Qed.

(** * Efficiency of a company *)

(** Only the products listed in [capacity] count.  Two [outputs]
    dictionaries that give the same output, a missing product counting as
    0, for every product of [capacity] give the same efficiency: the output
    of a product without a capacity entry is ignored. *)
Theorem efficiency_ignores_unlisted_products
    (outputs1 outputs2 capacity : list (string * Z)) :
  (forall product, In product (Dict.keys capacity) ->
     Company.get_default outputs1 product 0
     = Company.get_default outputs2 product 0) ->
  Company.calculate_efficiency outputs1 capacity
  = Company.calculate_efficiency outputs2 capacity.
Proof.
  intros H. rewrite !calculate_efficiency_eq.
  rewrite (total_output_ext outputs1 outputs2 capacity H). reflexivity.
Qed.

Lemma efficiency_ignores_unlisted_products_witness :
  Company.calculate_efficiency [("Steel", 40); ("Gold", 1000)]
                               [("Steel", 50); ("Iron", 30)]
  = Company.calculate_efficiency [("Iron", 0); ("Steel", 40)]
                                 [("Steel", 50); ("Iron", 30)].
Proof.
  apply (efficiency_ignores_unlisted_products
           [("Steel", 40); ("Gold", 1000)] [("Iron", 0); ("Steel", 40)]
           [("Steel", 50); ("Iron", 30)]).
  intros product [<-|[<-|[]]]; reflexivity.
Defined.

(** A company that produces nothing of what it has capacity for is idle:
    when the summed output over the products of [capacity] is 0,
    [calculate_efficiency] raises nothing, the efficiency it returns has
    the value 0 (the int 0, or a float zero) and [set_status] gives it
    "Idle". *)
Theorem no_output_is_Idle (outputs capacity : list (string * Z)) :
  Company.total_output outputs capacity = 0 ->
  exists e, Company.calculate_efficiency outputs capacity = inr e
    /\ Py.ext_of e = Py.Fin 0
    /\ Company.set_status e = "Idle".
Proof.
  intros H. rewrite calculate_efficiency_eq, H.
  destruct (Company.total_capacity capacity =? 0).
  - exists (Py.Int 0). split; [reflexivity|]. split; reflexivity.
  - cbn [Py.int_quotient].
    destruct (Company.total_capacity capacity <? 0);
      eexists; (split; [reflexivity|]); split; reflexivity.
Qed.

Lemma no_output_is_Idle_witness :
  exists e, Company.calculate_efficiency [("Gold", 7)] [("Steel", 50)] = inr e
    /\ Py.ext_of e = Py.Fin 0
    /\ Company.set_status e = "Idle".
Proof.
  apply (no_output_is_Idle [("Gold", 7)] [("Steel", 50)]). reflexivity.
Defined.

Import Nx GraphInv SearchInv Map MapSpec MapView MapInv.

(** * The default world *)

Lemma node_data_add_cities (names : list string) (start : Z) (m : Map.t)
    (x : node) :
  (forall y, start <= y -> node_data m y = None) ->
  node_data (fold_left (fun m '(city_id, name) =>
                          add_city m city_id [("name", name)])
                       (WorldMap.enumerate names start) m) x
  = if (start <=? x) && (x <? start + Z.of_nat (length names))
    then option_map (fun name => [("name", name)])
                    (names !! Z.to_nat (x - start))
    else node_data m x.
Proof.
  revert start m. induction names as [|n names IH]; intros start m Hm.
  - cbn [WorldMap.enumerate fold_left length]. change (Z.of_nat 0) with 0.
    destruct ((start <=? x) && (x <? start + 0)) eqn:B; [|reflexivity].
    apply andb_true_iff in B. destruct B as [E1 E2].
    apply Z.leb_le in E1. apply Z.ltb_lt in E2. lia.
  - cbn [WorldMap.enumerate fold_left]. rewrite IH.
    + unfold node_data, add_city. rewrite node_add_node.
      cbn [length]. rewrite Nat2Z.inj_succ.
      destruct (x =? start) eqn:Ex.
      * apply Z.eqb_eq in Ex. subst x.
        replace (start + 1 <=? start) with false by (symmetry; apply Z.leb_gt; lia).
        replace (start <=? start) with true by (symmetry; apply Z.leb_le; lia).
        replace (start <? start + Z.succ (Z.of_nat (length names))) with true
          by (symmetry; apply Z.ltb_lt; lia).
        simpl. rewrite Z.sub_diag. simpl.
        specialize (Hm start ltac:(lia)). unfold node_data in Hm.
        rewrite Hm. reflexivity.
      * apply Z.eqb_neq in Ex.
        destruct (start + 1 <=? x) eqn:E1.
        -- apply Z.leb_le in E1.
           replace (start <=? x) with true by (symmetry; apply Z.leb_le; lia).
           replace (start + 1 + Z.of_nat (length names))
             with (start + Z.succ (Z.of_nat (length names))) by lia.
           simpl. destruct (x <? _); [|reflexivity].
           replace (Z.to_nat (x - start)) with (S (Z.to_nat (x - (start + 1))))
             by lia.
           reflexivity.
        -- apply Z.leb_gt in E1.
           replace (start <=? x) with false by (symmetry; apply Z.leb_gt; lia).
           reflexivity.
    + intros y Hy. unfold node_data, add_city. rewrite node_add_node.
      destruct (y =? start) eqn:Ey; [apply Z.eqb_eq in Ey; lia|].
      apply Hm. lia.
Qed.

Lemma wf_add_cities (names : list (Z * string)) (m : Map.t) :
  wf m ->
  wf (fold_left (fun m '(city_id, name) =>
                   add_city m city_id [("name", name)]) names m).
Proof.
  revert m. induction names as [|[i n] names IH]; intros m W; simpl; [exact W|].
  apply IH, wf_add_node, W.
Qed.

Lemma wf_add_connections (l : list (node * node * Z)) (m : Map.t) :
  wf m -> wf (WorldMap.add_connections m l).
Proof.
  unfold WorldMap.add_connections. revert m.
  induction l as [|[[a b] d] l IH]; intros m W; simpl; [exact W|].
  apply IH, wf_add_edge, W.
Qed.

Lemma refs_add_cities (names : list (Z * string)) (m : Map.t) :
  wf m -> refs_distinct m ->
  refs_distinct (fold_left (fun m '(city_id, name) =>
                   add_city m city_id [("name", name)]) names m).
Proof.
  revert m. induction names as [|[i n] names IH]; intros m W D; simpl;
    [exact D|].
  apply IH; [apply wf_add_node, W|].
  exact (refs_distinct_apply m (AddCity i [("name", n)]) W D).
Qed.

Lemma refs_add_connections (l : list (node * node * Z)) (m : Map.t) :
  wf m -> refs_distinct m -> refs_distinct (WorldMap.add_connections m l).
Proof.
  unfold WorldMap.add_connections. revert m.
  induction l as [|[[a b] d] l IH]; intros m W D; simpl; [exact D|].
  apply IH; [apply wf_add_edge, W|].
  exact (refs_distinct_apply m (AddConnection a b d "land" true)
           W D).
Qed.

Lemma wf_world : wf WorldMap.init.
Proof.
  apply wf_add_connections, wf_add_cities, wf_empty.
Qed.

Lemma refs_world : refs_distinct WorldMap.init.
Proof.
  apply refs_add_connections; [apply wf_add_cities, wf_empty|].
  apply refs_add_cities; [apply wf_empty|].
  intros x y u v r H. discriminate H.
Qed.

Lemma Forall_cells_bool (P : route -> bool) (m : Map.t) :
  forallb P (cells m) = true -> List.Forall (fun d => P d = true) (cells m).
Proof.
  intros H. apply List.Forall_forall. intros d Hd.
  exact (proj1 (forallb_forall P (cells m)) H d Hd).
Qed.

Lemma nonneg_world : nonneg_distances WorldMap.init.
Proof.
  unfold nonneg_distances.
  eapply List.Forall_impl;
    [|apply (Forall_cells_bool (fun d => 0 <=? distance d));
      vm_compute; reflexivity].
  intros d H. apply Z.leb_le, H.
Qed.

Lemma wf_set_all (l : list (node * node * bool)) (m : Map.t) :
  wf m -> wf (set_all m l).
Proof.
  unfold set_all. revert m.
  induction l as [|[[a b] acc] l IH]; intros m W; simpl; [exact W|].
  apply IH, wf_set_accessibility, W.
Qed.

Lemma nonneg_set_all (l : list (node * node * bool)) (m : Map.t) :
  nonneg_distances m -> nonneg_distances (set_all m l).
Proof.
  unfold set_all. revert m.
  induction l as [|[[a b] acc] l IH]; intros m H; simpl; [exact H|].
  apply IH, nonneg_set_accessibility, H.
Qed.

Lemma has_node_set_all (l : list (node * node * bool)) (m : Map.t) (x : node) :
  has_node (set_all m l) x = has_node m x.
Proof.
  unfold set_all. revert m.
  induction l as [|[[a b] acc] l IH]; intros m; simpl; [reflexivity|].
  rewrite IH. apply has_node_set_accessibility.
Qed.

Lemma has_node_data (m : Map.t) (x : node) :
  has_node m x = match node_data m x with Some _ => true | None => false end.
Proof. reflexivity. Qed.

Lemma world_nodes (x : node) :
  has_node WorldMap.init x = true <-> 1 <= x <= 60.
Proof.
  rewrite has_node_iff.
  assert (K : Dict.keys (_node WorldMap.init) = seqZ 1 60)
    by (vm_compute; reflexivity).
  rewrite K, <- list_elem_of_In, elem_of_seqZ. lia.
Qed.

Import Nx GraphInv SearchInv Map MapSpec MapView MapInv.

(** * The default world *)

(** The loop of [initialise_map] over [enumerate(city_names, start=1)]
    numbers the cities from 1 in the order of the list: on a new map, for any
    list of names, the cities are exactly the ids from 1 to the length of the
    list, and the city with id [x] has the one attribute [name], the
    [x]-th name of the list. *)
Theorem cities_are_numbered_from_1 (names : list string) (x : node) :
  node_data (WorldMap.add_cities Map.init names) x
  = if (1 <=? x) && (x <=? Z.of_nat (length names))
    then option_map (fun name => [("name", name)])
                    (names !! Z.to_nat (x - 1))
    else None.
Proof.
  unfold WorldMap.add_cities.
  rewrite node_data_add_cities by (intros y _; reflexivity).
  replace (x <? 1 + Z.of_nat (length names))
    with (x <=? Z.of_nat (length names)); [reflexivity|].
  destruct (x <=? Z.of_nat (length names)) eqn:E1;
    destruct (x <? 1 + Z.of_nat (length names)) eqn:E2; try reflexivity.
  - apply Z.leb_le in E1. apply Z.ltb_ge in E2. lia.
  - apply Z.leb_gt in E1. apply Z.ltb_lt in E2. lia.
Qed.

(** Both queries are exact on the default world, in every state of its
    routes.  Start from the map built by [Map.__init__] of [world_map.py]
    and make any sequence of calls of [set_accessibility].  The cities are
    then the ids 1 to 60; when some path of accessible edges joins [s] and
    [e], [get_shortest_path] returns an accessible path of least summed
    distance and, for non-negative integer costs per km, [get_cheapest_path]
    one of
    least summed cost; when [s] and [e] are cities and no such path exists,
    both raise [NetworkXNoPath]. *)
Theorem world_routes_are_optimal (toggles : list (node * node * bool))
    (s e : node) (land_cost_per_km sea_cost_per_km : Z) :
  let m := set_all WorldMap.init toggles in
  (forall x, has_node m x = true <-> 1 <= x <= 60)
  /\ ((exists q, accessible_path m s e q) ->
      (exists p, get_shortest_path m s e = Some (inr p)
         /\ accessible_path m s e p
         /\ forall q, accessible_path m s e q ->
              (total_distance m p <= total_distance m q)%Q)
      /\ (0 <= land_cost_per_km -> 0 <= sea_cost_per_km ->
          exists p,
            get_cheapest_path m s e (Int land_cost_per_km)
              (Int sea_cost_per_km) = Some (inr p)
            /\ accessible_path m s e p
            /\ forall q, accessible_path m s e q ->
                 (total_cost m land_cost_per_km sea_cost_per_km p
                  <= total_cost m land_cost_per_km sea_cost_per_km q)%Q))
  /\ (1 <= s <= 60 -> 1 <= e <= 60 ->
      (forall q, ~ accessible_path m s e q) ->
      get_shortest_path m s e = Some (inl NetworkXNoPath)
      /\ (0 <= land_cost_per_km -> 0 <= sea_cost_per_km ->
          get_cheapest_path m s e (Int land_cost_per_km)
            (Int sea_cost_per_km) = Some (inl NetworkXNoPath))).
Proof.
  intros m.
  pose proof (wf_set_all toggles WorldMap.init wf_world) as W.
  pose proof (nonneg_set_all toggles WorldMap.init nonneg_world) as Hn.
  fold m in W, Hn.
  assert (HN : forall x, has_node m x = true <-> 1 <= x <= 60).
  { intros x. unfold m. rewrite has_node_set_all. apply world_nodes. }
  split; [exact HN|]. split.
  - intros Hq. split.
    + destruct (query_optimal m MapExact.distance_weight s e W
                  (nonneg_distance_weight m W Hn) Hq) as (p & Hp & Ha & Ho).
      exists p. rewrite get_shortest_path_exact.
      split; [exact Hp|]. split; [exact Ha|].
      intros q Hq'. rewrite <- !total_distance_exact. exact (Ho q Hq').
    + intros Hl Hc.
      destruct (query_optimal m
                  (MapExact.cost land_cost_per_km sea_cost_per_km) s e W
                  (nonneg_cost m W _ _ Hn Hl Hc) Hq) as (p & Hp & Ha & Ho).
      exists p. rewrite get_cheapest_path_exact.
      split; [exact Hp|]. split; [exact Ha|].
      intros q Hq'. rewrite <- !total_cost_exact. exact (Ho q Hq').
  - intros Hs He Hno. apply HN in Hs, He. split.
    + rewrite get_shortest_path_exact.
      exact (query_no_path m MapExact.distance_weight s e W
               (nonneg_distance_weight m W Hn) Hs He Hno).
    + intros Hl Hc. rewrite get_cheapest_path_exact.
      exact (query_no_path m
               (MapExact.cost land_cost_per_km sea_cost_per_km) s e W
               (nonneg_cost m W _ _ Hn Hl Hc) Hs He Hno).
Qed.

Lemma world_routes_are_optimal_witness :
  exists p,
    get_shortest_path (set_all WorldMap.init [(34, 43, false)]) 48 59
    = Some (inr p)
    /\ accessible_path (set_all WorldMap.init [(34, 43, false)]) 48 59 p
    /\ forall q,
         accessible_path (set_all WorldMap.init [(34, 43, false)]) 48 59 q ->
         (total_distance (set_all WorldMap.init [(34, 43, false)]%Z) p
          <= total_distance (set_all WorldMap.init [(34, 43, false)]%Z) q)%Q.
Proof.
  refine (proj1 (proj1 (proj2 (world_routes_are_optimal [(34, 43, false)]
                                  48 59 1 1)) _)).
  exists [48; 43; 59].
  split; [reflexivity|]. split; [reflexivity|]. split.
  - repeat (constructor; [vm_compute; reflexivity|]). constructor.
  - split; [eexists; split; vm_compute; reflexivity|].
    split; [eexists; split; vm_compute; reflexivity | exact I].
Defined.
